(** * Batched decoding core: GptDecoder, PenaltyLayer and the paged KV-cache

    A shallow embedding of
    - [GptDecoder<T>::forward], [forwardAsync], [gatherTree] and the two
      [IGptDecoder::acceptDraftTokens*] entry points (runtime/gptDecoder.cpp),
    - [PenaltyLayer<T>::setup] and [forwardAsync] (layers/penaltyLayer.cpp),
    - the [BlockManager] bookkeeping declared in
      batch_manager/kvCacheManager.h, with the hash of token vectors and
      [GenerationRequest] of the same header,
    - the index functions of [MixtureOfExpertsPlugin]
      (mixtureOfExpertsPlugin.h),
    together with the properties of them that the design document states,
    and further properties read off the code.

    Device memory is a store of buffers; a tensor is a handle (data type,
    shape, buffer id) into it, so that two handles on one buffer alias as the
    C++ pointers do.  Host functions run in a small state-and-error monad that
    also records the runtime calls they issue (allocations, kernel launches,
    stream synchronisations). *)

From stdpp Require Import base numbers option list gmap strings.

Local Open Scope string_scope.
Local Open Scope list_scope.
Local Open Scope Z_scope.

(** ** Runtime: tensors, store, errors, events *)
Module Runtime.

(** nvinfer1::DataType, as far as the decoder uses it. *)
Inductive DataType := kFLOAT | kHALF | kINT8 | kINT32 | kBOOL | kUINT8 | kINT64.

#[global] Instance DataType_eq_dec : EqDecision DataType.
Proof. solve_decision. Defined.

Definition BufferId := nat.

(** An [ITensor]: element type, shape and the buffer it points to. *)
Record ITensor := mkTensor {
  getDataType : DataType;
  getShape : list Z;
  data : BufferId
}.

(** Raw memory: every buffer is a flat array of words. Floating-point
    payloads are kept as opaque words. *)
Abbreviation Store := (gmap nat (list Z)).

(** [Dims::d[i]]: a fixed array, zero beyond [nbDims]. *)
Definition d (shape : list Z) (i : nat) : Z := nth i shape 0.

(** [ITensor::volume]. *)
Definition volume (shape : list Z) : Z := foldr Z.mul 1 shape.

Definition getSize (t : ITensor) : Z := volume (getShape t).

(** Two's-complement wrap of [SizeType] (int32) arithmetic and the
    conversion [static_cast<std::size_t>]. *)
Definition wrap_int32 (z : Z) : Z := (z + 2 ^ 31) `mod` 2 ^ 32 - 2 ^ 31.
Definition to_size_t (z : Z) : Z := z `mod` 2 ^ 64.

Inductive Error :=
| CheckFailed (msg : string)     (* TLLM_CHECK, TLLM_CHECK_WITH_INFO, TLLM_THROW *)
| NullDereference                (* dereference of an empty TensorPtr / optional *)
| OutOfBounds                    (* access outside a buffer, or std::out_of_range *)
| DivisionByZero
| CapacityExceeded (msg : string)
| LogicError (msg : string)
| LayerFailure (msg : string).   (* raised inside the decoding layers or a kernel *)

Inductive Event :=
| EvPinnedAlloc (n : Z)          (* BufferManager::pinned, pinnedPool *)
| EvGpuAlloc (n : Z)             (* BufferManager::gpu *)
| EvLayerForward                 (* DynamicDecodeLayer::forward *)
| EvStreamSynchronize            (* cudaStreamSynchronize *)
| EvKernel (name : string)       (* a kernel launch *)
| EvSyncCheck.                   (* sync_check_cuda_error() *)

#[global] Instance Event_eq_dec : EqDecision Event.
Proof. solve_decision. Defined.

(** What the host observes: memory contents and the calls issued so far. *)
Record World := mkWorld {
  wStore : Store;
  wTrace : list Event
}.

(** Host code: reads and writes its state, may throw. The state at the
    point of the throw is kept. *)
Definition ST (S A : Type) : Type := S -> (Error + A) * S.

Definition ret {S A} (a : A) : ST S A := fun w => (inr a, w).
Definition throw {S A} (e : Error) : ST S A := fun w => (inl e, w).
Definition bind {S A B} (m : ST S A) (k : A -> ST S B) : ST S B :=
  fun w => match m w with
           | (inl e, w') => (inl e, w')
           | (inr a, w') => k a w'
           end.

Definition liftE {S A} (r : Error + A) : ST S A :=
  match r with inl e => throw e | inr a => ret a end.

Definition check {S} (b : bool) (msg : string) : ST S unit :=
  if b then ret tt else throw (CheckFailed msg).

(** Host code of the decoder works on the world. *)
Abbreviation M := (ST World).

Definition emit (e : Event) : M unit :=
  fun w => (inr tt, mkWorld (wStore w) (wTrace w ++ [e])).

Definition getStore : M Store := fun w => (inr (wStore w), w).
Definition putStore (s : Store) : M unit :=
  fun w => (inr tt, mkWorld s (wTrace w)).

(** [p[i]] on the buffer behind pointer [p]. *)
Definition loadAt (s : Store) (p : BufferId) (i : Z) : Error + Z :=
  if decide (0 <= i) then
    match s !! p ≫= (λ l, l !! Z.to_nat i) with
    | Some v => inr v
    | None => inl OutOfBounds
    end
  else inl OutOfBounds.

Definition storeAt (s : Store) (p : BufferId) (i : Z) (v : Z) : Error + Store :=
  if decide (0 <= i) then
    match s !! p with
    | Some l => if decide (Z.to_nat i < length l)%nat
                then inr (<[p := <[Z.to_nat i := v]> l]> s)
                else inl OutOfBounds
    | None => inl OutOfBounds
    end
  else inl OutOfBounds.

Definition readAt (p : BufferId) (i : Z) : M Z :=
  fun w => liftE (loadAt (wStore w) p i) w.

Definition writeAt (p : BufferId) (i : Z) (v : Z) : M unit :=
  fun w => match storeAt (wStore w) p i v with
           | inr s' => (inr tt, mkWorld s' (wTrace w))
           | inl e => (inl e, w)
           end.

(** [for (SizeType i = 0; i < n; ++i) body(i)], threading an accumulator. *)
Fixpoint forFrom {S A} (i : Z) (count : nat) (body : Z -> A -> ST S A) (acc : A)
    : ST S A :=
  match count with
  | O => ret acc
  | S c => bind (body i acc) (forFrom (i + 1) c body)
  end.

Definition forRange {S A} (n : Z) (body : Z -> A -> ST S A) (acc : A) : ST S A :=
  forFrom 0 (Z.to_nat n) body acc.

(** [BufferManager::pinned(shape, type)]: a fresh zero-filled buffer. *)
Definition pinned (shape : list Z) (ty : DataType) : M ITensor :=
  fun w =>
    let p := fresh (dom (wStore w)) in
    (inr (mkTensor ty shape p),
     mkWorld (<[p := replicate (Z.to_nat (volume shape)) 0]> (wStore w))
             (wTrace w ++ [EvPinnedAlloc (volume shape)])).

(** [BufferManager::gpu(shape, type)]: a fresh device buffer. *)
Definition gpu (shape : list Z) (ty : DataType) : M ITensor :=
  fun w =>
    let p := fresh (dom (wStore w)) in
    (inr (mkTensor ty shape p),
     mkWorld (<[p := replicate (Z.to_nat (volume shape)) 0]> (wStore w))
             (wTrace w ++ [EvGpuAlloc (volume shape)])).

End Runtime.

Export Runtime.

Notation "'do' x <- m ; k" := (bind m (fun x => k))
  (at level 10, x name, m at level 100, k at level 200).
Notation "'do' ' p <- m ; k" := (bind m (fun x => let 'p := x in k))
  (at level 10, p pattern, m at level 100, k at level 200).
Notation "'run' m ; k" := (bind m (fun _ => k))
  (at level 10, m at level 100, k at level 200).

(** ** Device kernels the decoder launches (kernels/decodingKernels.h) *)
Module Kernels.

(** Total accessors used by the kernel models: the kernels do not check
    bounds, a read outside a buffer yields 0 and a write outside is dropped. *)
Definition rd (buf : list Z) (i : Z) : Z :=
  if decide (0 <= i) then default 0 (buf !! Z.to_nat i) else 0.

Definition wr (buf : list Z) (i v : Z) : list Z :=
  if decide (0 <= i) then <[Z.to_nat i := v]> buf else buf.

(** Buffer behind a kernel argument pointer; [None] is [nullptr]. *)
Definition bufOf (s : Store) (p : option BufferId) : list Z :=
  default [] (p ≫= (fun q => s !! q)).

Definition getAt (s : Store) (p : option BufferId) (i : Z) : Z := rd (bufOf s p) i.

Definition setBuf (s : Store) (p : option BufferId) (f : list Z -> list Z) : Store :=
  match p with
  | Some q => match s !! q with
              | Some buf => <[q := f buf]> s
              | None => s
              end
  | None => s
  end.

Definition setAt (s : Store) (p : option BufferId) (i v : Z) : Store :=
  setBuf s p (fun buf => wr buf i v).

(** Modelled from the spec: [FinishedState] (kernels/decodingCommon.h is not
    under src/). A byte of flags, one per terminal state of the slot state
    machine: FINISHED_EOS, FINISHED_STOP_WORDS, FINISHED_MAX_LEN. A slot is
    terminal when one of them is set. *)
Definition FINISHED_EOS : Z := 1.
Definition FINISHED_STOP_WORDS : Z := 2.
Definition FINISHED_MAX_LEN : Z := 4.

Definition isFinished (state : Z) : bool :=
  negb (Z.land state (Z.lor FINISHED_EOS (Z.lor FINISHED_STOP_WORDS FINISHED_MAX_LEN)) =? 0).

(** [kernels::BeamHypotheses]: the argument block of the beam-search
    kernels. The candidate-beam-array (CBA) holds up to [2 * beam_width]
    finished hypotheses per batch entry. *)
Record BeamHypotheses := mkBeamHypotheses {
  batch_size : Z;
  beam_width : Z;
  max_seq_len : Z;
  length_penalties : option BufferId;
  input_lengths : option BufferId;
  output_ids_cba : option BufferId;      (* [BS, 2B, L] *)
  seq_len_cba : option BufferId;         (* [BS, 2B] *)
  cum_log_probs_cba : option BufferId;   (* [BS, 2B] *)
  normed_scores_cba : option BufferId;   (* [BS, 2B] *)
  log_probs_cba : option BufferId;       (* [BS, 2B, L] *)
  min_normed_scores : option BufferId;   (* [BS] *)
  num_beams : option BufferId;           (* [BS] *)
  is_done : option BufferId;             (* [BS] *)
  output_ids_src : option BufferId;      (* [BS, B, L] *)
  parent_ids_src : option BufferId;      (* [BS, B, L] *)
  seq_len : option BufferId;             (* [BS, B] *)
  log_probs : option BufferId;
  cum_log_probs : option BufferId;       (* [BS, B] *)
  finished : option BufferId;            (* [BS, B] *)
  final_output_ids : option BufferId     (* [BS, B, L] *)
}.

Section BeamSearch.

(** Floating-point payloads are words; the two float operations of the
    finalisation are parameters: the length-normalised score
    [cumLogProb / length ^ lengthPenalty] at the default length penalty, and
    the strict order on scores. *)
Variable normScore : Z -> Z -> Z.
Variable scoreLtb : Z -> Z -> bool.

(** Modelled from the spec: [invokeInitializeOutput] (decodingKernels.cu is
    not under src/). Every one of the [rows] rows of [finalOutputIds], of
    [maxSeqLen] tokens each, is filled with the end id of its row. *)
Definition initializedRows (endIds : list Z) (rows maxSeqLen : Z) : list Z :=
  flat_map (fun r => replicate (Z.to_nat maxSeqLen) (rd endIds (Z.of_nat r)))
           (seq 0 (Z.to_nat rows)).

Definition invokeInitializeOutput (finalOutputIds endIds : BufferId)
    (rows maxSeqLen : Z) (s : Store) : Store :=
  let new := initializedRows (bufOf s (Some endIds)) rows maxSeqLen in
  setBuf s (Some finalOutputIds) (fun old => take (length old) new ++ drop (length new) old).

(** Walk the parent pointers of one beam from its last token back to the
    first, writing the tokens of the path into row [dstBase] of [dst]. *)
Fixpoint backtrack (srcIds srcParents : list Z) (rowBase : Z -> Z) (beam : Z)
    (n : nat) (dst : list Z) (dstBase : Z) : list Z :=
  match n with
  | O => dst
  | S t =>
      let idx := rowBase beam + Z.of_nat t in
      backtrack srcIds srcParents rowBase (rd srcParents idx) t
        (wr dst (dstBase + Z.of_nat t) (rd srcIds idx)) dstBase
  end.

(** One still-live beam is appended to the CBA of its batch entry. *)
Definition insertBeam (bh : BeamHypotheses) (bid i : Z) (s : Store) : Store :=
  let B := beam_width bh in
  let L := max_seq_len bh in
  let dst := getAt s (num_beams bh) bid in
  if decide (dst < 2 * B) then
    let len := getAt s (seq_len bh) (bid * B + i) in
    let slot := bid * (2 * B) + dst in
    let cum := getAt s (cum_log_probs bh) (bid * B + i) in
    let path := backtrack (bufOf s (output_ids_src bh)) (bufOf s (parent_ids_src bh))
                  (fun b => (bid * B + b) * L) i (Z.to_nat len)
                  (bufOf s (output_ids_cba bh)) (slot * L) in
    let s1 := setBuf s (output_ids_cba bh) (fun _ => path) in
    let s2 := setAt s1 (seq_len_cba bh) slot len in
    let s3 := setAt s2 (cum_log_probs_cba bh) slot cum in
    let s4 := setAt s3 (normed_scores_cba bh) slot (normScore cum len) in
    setAt s4 (num_beams bh) bid (dst + 1)
  else s.

Definition insertUnfinishedBeam (bh : BeamHypotheses) (bid : Z) (s : Store) (i : nat) : Store :=
  if isFinished (getAt s (finished bh) (bid * beam_width bh + Z.of_nat i))
  then s else insertBeam bh bid (Z.of_nat i) s.

Definition insertUnfinishedEntry (bh : BeamHypotheses) (s : Store) (bid : nat) : Store :=
  if decide (getAt s (is_done bh) (Z.of_nat bid) = 0)
  then foldl (insertUnfinishedBeam bh (Z.of_nat bid)) s (seq 0 (Z.to_nat (beam_width bh)))
  else s.

(** Modelled from the spec: [invokeInsertUnfinishedPath] (decodingKernels.cu
    is not under src/). For every batch entry that is not done, every beam
    that is still live is reconstructed along its parent pointers and
    inserted into the CBA with its length-normalised score. *)
Definition invokeInsertUnfinishedPath (bh : BeamHypotheses) (s : Store) : Store :=
  foldl (insertUnfinishedEntry bh) s (seq 0 (Z.to_nat (batch_size bh))).

(** CBA entries ranked by normed score, best first; equal scores keep the
    lower index first. *)
Fixpoint insertBy (score : nat -> Z) (k : nat) (l : list nat) : list nat :=
  match l with
  | [] => [k]
  | j :: l' => if scoreLtb (score j) (score k) then k :: l else j :: insertBy score k l'
  end.

Definition rankCBA (score : nat -> Z) (n : nat) : list nat :=
  foldl (fun acc k => insertBy score k acc) [] (seq 0 n).

(** Row [r] of the final output of batch entry [bid] receives CBA entry [k]. *)
Definition emitRow (bh : BeamHypotheses) (idsCba seqLenCba : list Z) (bid : Z)
    (final : list Z) (rk : nat * nat) : list Z :=
  let '(r, k) := rk in
  let B := beam_width bh in
  let L := max_seq_len bh in
  let slot := bid * (2 * B) + Z.of_nat k in
  let len := Z.min (rd seqLenCba slot) L in
  foldl (fun f t => wr f ((bid * B + Z.of_nat r) * L + Z.of_nat t)
                      (rd idsCba (slot * L + Z.of_nat t)))
        final (seq 0 (Z.to_nat len)).

Definition finalizeEntry (bh : BeamHypotheses) (idsCba seqLenCba scores numBeams : list Z)
    (final : list Z) (bid : nat) : list Z :=
  let B := beam_width bh in
  let n := Z.to_nat (Z.min (rd numBeams (Z.of_nat bid)) (2 * B)) in
  let order := rankCBA (fun k => rd scores (Z.of_nat bid * (2 * B) + Z.of_nat k)) n in
  let chosen := take (Z.to_nat B) order in
  foldl (emitRow bh idsCba seqLenCba (Z.of_nat bid)) final (zip (seq 0 (length chosen)) chosen).

(** Modelled from the spec: [invokeFinalize] (decodingKernels.cu is not under
    src/). For every batch entry the best [beam_width] CBA entries by normed
    score are written to [finalOutputIds], ties going to the lower index. *)
Definition invokeFinalize (bh : BeamHypotheses) (s : Store) : Store :=
  setBuf s (final_output_ids bh) (fun old =>
    foldl (finalizeEntry bh (bufOf s (output_ids_cba bh)) (bufOf s (seq_len_cba bh))
             (bufOf s (normed_scores_cba bh)) (bufOf s (num_beams bh)))
          old (seq 0 (Z.to_nat (batch_size bh)))).

End BeamSearch.

(** Number of leading positions on which the drafted and the target tokens
    agree. *)
Fixpoint acceptedLength (draft target : list Z) : nat :=
  match draft, target with
  | x :: draft', y :: target' =>
      if decide (x = y) then S (acceptedLength draft' target') else O
  | _, _ => O
  end.

(** Argument block of [invokeAcceptDraftTokensByIds]. *)
Record AcceptByIds := mkAcceptByIds {
  a_draftIds : BufferId;          (* [maxBatchSize, maxDraftTokens] *)
  a_targetIds : BufferId;         (* [maxBatchSize, maxSeqLen] *)
  a_contextLengths : BufferId;    (* [maxBatchSize] *)
  a_numsDraftTokens : BufferId;   (* [maxBatchSize] *)
  a_sequenceLengths : BufferId;   (* [maxBatchSize] *)
  a_finished : BufferId;          (* [maxDraftTokens + 1, maxBatchSize] *)
  a_finishedFinal : BufferId;     (* [maxBatchSize] *)
  a_finishedSum : BufferId;       (* [maxBatchSize] *)
  a_batchSlots : BufferId;        (* [batchSize] *)
  a_batchSize : Z;
  a_maxBatchSize : Z;
  a_beamWidth : Z;
  a_maxSeqLen : Z;
  a_maxDraftTokens : Z
}.

(** Tokens drafted for a slot, and the target-model tokens of the slot from
    the end of its context on. *)
Definition draftRow (a : AcceptByIds) (s : Store) (slot : Z) : list Z :=
  take (Z.to_nat (getAt s (Some (a_numsDraftTokens a)) slot))
       (drop (Z.to_nat (slot * a_maxDraftTokens a)) (bufOf s (Some (a_draftIds a)))).

Definition targetRow (a : AcceptByIds) (s : Store) (slot : Z) : list Z :=
  let ctx := getAt s (Some (a_contextLengths a)) slot in
  take (Z.to_nat (a_maxSeqLen a - ctx))
       (drop (Z.to_nat (slot * a_maxSeqLen a + ctx)) (bufOf s (Some (a_targetIds a)))).

Definition acceptSlot (a : AcceptByIds) (s : Store) (bi : nat) : Store :=
  let slot := getAt s (Some (a_batchSlots a)) (Z.of_nat bi) in
  let k := Z.of_nat (acceptedLength (draftRow a s slot) (targetRow a s slot)) in
  let old := getAt s (Some (a_sequenceLengths a)) slot in
  let s1 := setAt s (Some (a_sequenceLengths a)) slot (old + k + 1) in
  let state := getAt s (Some (a_finished a)) (k * a_maxBatchSize a + slot) in
  let s2 := setAt s1 (Some (a_finishedFinal a)) slot state in
  setAt s2 (Some (a_finishedSum a)) slot (if isFinished state then 1 else 0).

(** Modelled from the spec: [invokeAcceptDraftTokensByIds]
    (decodingKernels.cu is not under src/). For every slot of the batch the
    drafted tokens are compared with the target-model tokens prefix-wise; the
    longest matching prefix is accepted together with one extra token, the
    target token at the first mismatch position; [sequenceLengths] grows by
    the accepted count plus one, and the finished mask and [finishedSum] of
    the slot are written. *)
Definition invokeAcceptDraftTokensByIds (a : AcceptByIds) (s : Store) : Store :=
  foldl (acceptSlot a) s (seq 0 (Z.to_nat (a_batchSize a))).

End Kernels.

(** ** GptDecoder (runtime/gptDecoder.cpp) *)
Module GptDecoder.

(** [DecodingInput::MedusaInputs]. *)
Record MedusaInputs := mkMedusaInputs {
  medusaPaths : ITensor;
  medusaTreeIds : ITensor;
  medusaLogits : list (list (option ITensor));
  medusaCurTokensPerStep : ITensor;
  medusaTargetTokensPerStep : ITensor
}.

(** [DecodingInput]. [endIds] is dereferenced unconditionally by the decoder,
    the other tensors are tested for null before use. *)
Record DecodingInput := mkDecodingInput {
  step : Z;
  maxLength : Z;
  maxAttentionWindow : Z;
  sinkTokenLength : Z;
  maxBatchSize : Z;
  maxBadWordsLen : Z;
  maxStopWordsLen : Z;
  endIds : ITensor;
  logits : option ITensor;
  logitsVec : option (list ITensor);
  cacheIndirection : option ITensor;
  sequenceLimitLength : option ITensor;
  embeddingBias : option ITensor;
  lengths : option ITensor;
  badWordsPtrs : option ITensor;
  badWordsLens : option ITensor;
  stopWordsPtrs : option ITensor;
  stopWordsLens : option ITensor;
  finished : option ITensor;
  batchSlots : option ITensor;
  medusaInputs : option MedusaInputs
}.

(** [DecodingOutput::BeamHypotheses]. *)
Record OutBeamHypotheses := mkOutBeamHypotheses {
  outputIdsTgt : option ITensor;
  sequenceLengthsTgt : option ITensor;
  bhCumLogProbs : option ITensor;
  normedScores : option ITensor;
  bhLogProbs : option ITensor;
  minNormedScores : option ITensor;
  numBeams : option ITensor;
  isDone : option ITensor
}.

(** [DecodingOutput::MedusaOutputs]. *)
Record MedusaOutputs := mkMedusaOutputs {
  medusaNextDraftTokens : ITensor;
  medusaAcceptedTokensLen : ITensor;
  medusaAcceptedLengthsCumSum : ITensor;
  medusaPathsOffsets : ITensor
}.

(** [DecodingOutput]. [ids] and [newTokens] are dereferenced unconditionally. *)
Record DecodingOutput := mkDecodingOutput {
  ids : ITensor;
  newTokens : ITensor;
  outFinished : option ITensor;
  finishedSum : option ITensor;
  outCumLogProbs : option ITensor;
  parentIds : option ITensor;
  outLengths : option ITensor;
  outCacheIndirection : option ITensor;
  logProbs : option ITensor;
  beamHypotheses : OutBeamHypotheses;
  medusaOutputs : option MedusaOutputs
}.

(** [tl::DynamicDecodeLayer<T>::ForwardParams::MedusaInputs]. *)
Record LayerMedusaInputs := mkLayerMedusaInputs {
  l_medusaCurTokensPerStep : ITensor;
  l_medusaTargetTokensPerStep : ITensor;
  l_medusaPaths : ITensor;
  l_medusaTreeIds : ITensor;
  l_medusaLogits : list (list (option ITensor))
}.

(** [tl::DynamicDecodeLayer<T>::ForwardParams]. *)
Record ForwardParams := mkForwardParams {
  fp_step : Z;
  fp_ite : Z;
  fp_max_length : Z;
  fp_max_attention_window : Z;
  fp_sink_token_length : Z;
  fp_local_batch_size : Z;
  fp_end_ids : ITensor;
  fp_logits : option ITensor;
  fp_logits_vec : option (list ITensor);
  fp_src_cache_indirection : option ITensor;
  fp_sequence_limit_length : option ITensor;
  fp_embedding_bias : option ITensor;
  fp_input_lengths : option ITensor;
  fp_bad_words_ptr : option ITensor;
  fp_bad_words_lengths : option ITensor;
  fp_max_bad_words_len : Z;
  fp_stop_words_ptr : option ITensor;
  fp_stop_words_lengths : option ITensor;
  fp_max_stop_words_len : Z;
  fp_finished : option ITensor;
  fp_batch_slots : option ITensor;
  fp_medusaInputs : option LayerMedusaInputs
}.

(** [tl::DynamicDecodeLayer<T>::OutputParams]. *)
Record OutputParams := mkOutputParams {
  op_output_ids : ITensor;
  op_newTokens : ITensor;
  op_cum_log_probs : option ITensor;
  op_parent_ids : option ITensor;
  op_tgt_cache_indirection : option ITensor;
  op_finished : option ITensor;
  op_finished_sum : option ITensor;
  op_sequence_length : option ITensor;
  op_output_log_probs : option ITensor;
  op_output_log_probs_tiled : option ITensor;
  op_beamHypotheses : Kernels.BeamHypotheses;
  op_medusaOutputs : option MedusaOutputs
}.

Definition set_finished_sum (t : ITensor) (o : OutputParams) : OutputParams :=
  mkOutputParams (op_output_ids o) (op_newTokens o) (op_cum_log_probs o)
    (op_parent_ids o) (op_tgt_cache_indirection o) (op_finished o) (Some t)
    (op_sequence_length o) (op_output_log_probs o)
    (op_output_log_probs_tiled o) (op_beamHypotheses o) (op_medusaOutputs o).

(** [bufferCast<T>(buffer)] hands out the raw data pointer of the tensor. *)
Definition bufferCast (t : ITensor) : BufferId := data t.

(** Element type [TRTDataType<T>::value] of the two instantiations
    [GptDecoder<float>] and [GptDecoder<half>]. *)
Inductive Precision := Float32 | Float16.

Definition TRTDataType (T : Precision) : DataType :=
  match T with Float32 => kFLOAT | Float16 => kHALF end.

(** [prepareMedusaInputs<T>]: per-slot Medusa logits, re-indexed by slot. *)
Definition prepareMedusaInputs (inputs : DecodingInput) (mi : MedusaInputs)
    (maxBatchSize : Z) : M LayerMedusaInputs :=
  do slots <- match batchSlots inputs with
              | Some t => ret (bufferCast t)
              | None => throw NullDereference
              end;
  match medusaLogits mi with
  | [] =>
      ret (mkLayerMedusaInputs (medusaCurTokensPerStep mi)
             (medusaTargetTokensPerStep mi) (medusaPaths mi) (medusaTreeIds mi) [])
  | _ :: _ =>
      let batchSize := Z.of_nat (length (medusaLogits mi)) in
      do ml <- forRange batchSize (fun bi (acc : list (list (option ITensor))) =>
                 do slot <- readAt slots bi;
                 if decide (0 <= slot) then
                   match medusaLogits mi !! Z.to_nat slot with
                   | Some logitsHeads =>
                       if decide (Z.to_nat slot < length acc)%nat
                       then ret (<[Z.to_nat slot := logitsHeads]> acc)
                       else throw OutOfBounds
                   | None => throw OutOfBounds
                   end
                 else throw OutOfBounds)
               (replicate (Z.to_nat maxBatchSize) []);
      ret (mkLayerMedusaInputs (medusaCurTokensPerStep mi)
             (medusaTargetTokensPerStep mi) (medusaPaths mi) (medusaTreeIds mi) ml)
  end.

(** [prepareInputs<T>]. *)
Definition prepareInputs (T : Precision) (input : DecodingInput) (maxBatchSize : Z)
    : M ForwardParams :=
  do '(lg, lgv) <-
     match logitsVec input with
     | Some v =>
         run check (forallb (fun t => bool_decide (getDataType t = TRTDataType T)) v)
               "logits->getDataType() == TRTDataType<T>::value";
         ret (None, Some v)
     | None =>
         match logits input with
         | Some t =>
             run check (bool_decide (getDataType t = TRTDataType T))
                   "input.logits->getDataType() == TRTDataType<T>::value";
             ret (Some t, None)
         | None => throw NullDereference
         end
     end;
  do '(bwp, bwl, bwmax) <-
     match badWordsPtrs input with
     | Some p =>
         (* the test repeats badWordsPtrs; the lengths are then dereferenced *)
         match badWordsLens input with
         | Some l => ret (Some p, Some l, maxBadWordsLen input)
         | None => throw NullDereference
         end
     | None => ret (None, None, 0)
     end;
  do '(swp, swl, swmax) <-
     match stopWordsPtrs input with
     | Some p =>
         match stopWordsLens input with
         | Some l => ret (Some p, Some l, maxStopWordsLen input)
         | None =>
             throw (CheckFailed
               "Stop word lengths must be provided when stopWordsPtrs is given")
         end
     | None => ret (None, None, 0)
     end;
  do med <- match medusaInputs input with
            | Some mi => do r <- prepareMedusaInputs input mi maxBatchSize; ret (Some r)
            | None => ret None
            end;
  ret (mkForwardParams (step input) 0 (maxLength input) (maxAttentionWindow input)
         (sinkTokenLength input) (GptDecoder.maxBatchSize input) (endIds input)
         lg lgv (cacheIndirection input) (sequenceLimitLength input)
         (embeddingBias input) (lengths input) bwp bwl bwmax swp swl swmax
         (finished input) (batchSlots input) med).

(** [prepareOutputs<T>]. *)
Definition prepareOutputs (output : DecodingOutput) (inputLengths : option ITensor)
    (logProbsTiled : ITensor) : OutputParams :=
  let b := beamHypotheses output in
  mkOutputParams (ids output) (newTokens output) (outCumLogProbs output)
    (parentIds output) (outCacheIndirection output) (outFinished output)
    (finishedSum output) (outLengths output) (logProbs output)
    (match logProbs output with Some _ => Some logProbsTiled | None => None end)
    (Kernels.mkBeamHypotheses 0 0 0 None (bufferCast <$> inputLengths)
       (bufferCast <$> outputIdsTgt b) (bufferCast <$> sequenceLengthsTgt b)
       (bufferCast <$> bhCumLogProbs b) (bufferCast <$> normedScores b)
       (bufferCast <$> bhLogProbs b) (bufferCast <$> minNormedScores b)
       (bufferCast <$> numBeams b) (bufferCast <$> isDone b)
       None None None None None None None)
    (medusaOutputs output).

Section Decoder.

(** The decoding layers behind [mDynamicDecodeLayer] are a collaborator of
    the decoder: their state and their [forward], which works on the device
    buffers named by its parameters and may fail. *)
Variable LayerState : Type.
Variable layerForward :
  LayerState -> OutputParams -> ForwardParams -> Store -> Error + (LayerState * Store).

(** Float operations of the beam-search finalisation kernels. *)
Variable normScore : Z -> Z -> Z.
Variable scoreLtb : Z -> Z -> bool.

Record Decoder := mkDecoder {
  mMaxBatchSize : Z;
  mLogProbsTiled : ITensor;
  mDynamicDecodeLayer : LayerState
}.

Definition withLayer (dec : Decoder) (l : LayerState) : Decoder :=
  mkDecoder (mMaxBatchSize dec) (mLogProbsTiled dec) l.

(** [mDynamicDecodeLayer->forward(outputParams, forwardParams)]. *)
Definition dynamicDecodeForward (dec : Decoder) (o : OutputParams) (f : ForwardParams)
    : M Decoder :=
  run emit EvLayerForward;
  do s <- getStore;
  match layerForward (mDynamicDecodeLayer dec) o f s with
  | inl e => throw e
  | inr (l, s') => run putStore s'; ret (withLayer dec l)
  end.

(** [GptDecoder<T>::forward]. *)
Definition forward (T : Precision) (dec : Decoder) (output : DecodingOutput)
    (input : DecodingInput) : M (bool * Decoder) :=
  do forwardParams <- prepareInputs T input (mMaxBatchSize dec);
  let outputParams := prepareOutputs output (lengths input) (mLogProbsTiled dec) in
  let maxBatchSize := maxBatchSize input in
  do '(outputParams, finishedSumHost) <-
     match sequenceLimitLength input, outFinished output with
     | Some _, Some _ =>
         do '(outputParams, finishedSumHost) <-
            match finishedSum output with
            | Some fs => ret (outputParams, bufferCast fs)
            | None =>
                do fs <- pinned [maxBatchSize] kINT32;
                ret (set_finished_sum fs outputParams, bufferCast fs)
            end;
         run forRange maxBatchSize (fun bi _ => writeAt finishedSumHost bi 0) tt;
         ret (outputParams, Some finishedSumHost)
     | _, _ => ret (outputParams, None)
     end;
  do dec' <- dynamicDecodeForward dec outputParams forwardParams;
  match finishedSumHost with
  | Some finishedSumHost =>
      do numToFinish <- match outFinished output with
                        | Some f => ret (getSize f)
                        | None => throw NullDereference
                        end;
      run emit EvStreamSynchronize;
      do finishedSum <- forRange maxBatchSize
                          (fun bi acc => do v <- readAt finishedSumHost bi;
                                         ret (wrap_int32 (acc + v))) 0;
      ret (bool_decide (numToFinish = to_size_t finishedSum), dec')
  | None => ret (false, dec')
  end.

(** [GptDecoder<T>::forwardAsync]. *)
Definition forwardAsync (T : Precision) (dec : Decoder) (output : DecodingOutput)
    (input : DecodingInput) : M Decoder :=
  do forwardParams <- prepareInputs T input (mMaxBatchSize dec);
  let outputParams := prepareOutputs output (lengths input) (mLogProbsTiled dec) in
  dynamicDecodeForward dec outputParams forwardParams.

(** Dereference of a [TensorPtr] that the caller may have left empty. *)
Definition deref (t : option ITensor) : M BufferId :=
  match t with
  | Some x => ret (bufferCast x)
  | None => throw NullDereference
  end.

Definition launch (name : string) (kernel : Store -> Store) : M unit :=
  run emit (EvKernel name);
  do s <- getStore;
  putStore (kernel s).

Definition gatherTreeBeamWidthMsg : string :=
  "gatherTree is only needed for beam search.".
Definition gatherTreeBatchSizeMsg : string :=
  "Decoder batch size (%d) does not match final batch size (%d)".
Definition gatherTreeBeamMismatchMsg : string :=
  "Decoder beam width (%d) does not match final beam width (%d)".
Definition gatherTreeSeqLengthMsg : string :=
  "Decoder seq length size (%d) is too large for final seq length (%d)".

(** [GptDecoder<T>::gatherTree]. *)
Definition gatherTree (dec : Decoder) (finalOutputIds : ITensor)
    (decodingOutput : DecodingOutput) (decodingInput : DecodingInput) : M unit :=
  let finalOutputIdsShape := getShape finalOutputIds in
  let decodingOutputIdsShape := getShape (ids decodingOutput) in
  let batchSize := d finalOutputIdsShape 0 in
  let beamWidth := d finalOutputIdsShape 1 in
  let maxSeqLength := d finalOutputIdsShape 2 in
  run check (bool_decide (beamWidth > 1)) gatherTreeBeamWidthMsg;
  run check (bool_decide (d decodingOutputIdsShape 0 = batchSize)) gatherTreeBatchSizeMsg;
  run check (bool_decide (d decodingOutputIdsShape 1 = beamWidth)) gatherTreeBeamMismatchMsg;
  run check (bool_decide (d decodingOutputIdsShape 2 <= maxSeqLength)) gatherTreeSeqLengthMsg;
  run launch "invokeInitializeOutput"
        (Kernels.invokeInitializeOutput (bufferCast finalOutputIds)
           (bufferCast (endIds decodingInput)) (wrap_int32 (batchSize * beamWidth))
           maxSeqLength);
  run emit EvSyncCheck;
  do seq_len <- deref (outLengths decodingOutput);
  do parent_ids_src <- deref (parentIds decodingOutput);
  let output_ids_src := bufferCast (ids decodingOutput) in
  let log_probs := bufferCast (mLogProbsTiled dec) in
  do output_ids_cba <- deref (outputIdsTgt (beamHypotheses decodingOutput));
  do seq_len_cba <- deref (sequenceLengthsTgt (beamHypotheses decodingOutput));
  do cum_log_probs_cba <- deref (bhCumLogProbs (beamHypotheses decodingOutput));
  do normed_scores_cba <- deref (normedScores (beamHypotheses decodingOutput));
  do log_probs_cba <- deref (bhLogProbs (beamHypotheses decodingOutput));
  do min_normed_scores <- deref (minNormedScores (beamHypotheses decodingOutput));
  do num_beams <- deref (numBeams (beamHypotheses decodingOutput));
  do is_done <- deref (isDone (beamHypotheses decodingOutput));
  do input_lengths <- deref (lengths decodingInput);
  do cum_log_probs <- deref (outCumLogProbs decodingOutput);
  do finished <- deref (outFinished decodingOutput);
  let bh := Kernels.mkBeamHypotheses batchSize beamWidth maxSeqLength None
              (Some input_lengths) (Some output_ids_cba) (Some seq_len_cba)
              (Some cum_log_probs_cba) (Some normed_scores_cba) (Some log_probs_cba)
              (Some min_normed_scores) (Some num_beams) (Some is_done)
              (Some output_ids_src) (Some parent_ids_src) (Some seq_len)
              (Some log_probs) (Some cum_log_probs) (Some finished)
              (Some (bufferCast finalOutputIds)) in
  run launch "invokeInsertUnfinishedPath" (Kernels.invokeInsertUnfinishedPath normScore bh);
  run emit EvSyncCheck;
  run launch "invokeFinalize" (Kernels.invokeFinalize scoreLtb bh);
  emit EvSyncCheck.

End Decoder.

Arguments mkDecoder {LayerState} _ _ _.
Arguments mMaxBatchSize {LayerState} _.
Arguments mLogProbsTiled {LayerState} _.
Arguments mDynamicDecodeLayer {LayerState} _.
Arguments withLayer {LayerState} dec l.
Arguments dynamicDecodeForward {LayerState} layerForward dec o f.
Arguments forward {LayerState} layerForward T dec output input.
Arguments forwardAsync {LayerState} layerForward T dec output input.
Arguments gatherTree {LayerState} normScore scoreLtb dec finalOutputIds decodingOutput
  decodingInput.

Definition speculativeBeamWidthMsg : string :=
  "Beam width (%d) > 1 is not supported for the speculative decoding".

(** [IGptDecoder::acceptDraftTokensByIds]. *)
Definition acceptDraftTokensByIds (targetTokenIds draftTokenIds contextLengths
    numDraftTokens sequenceLengths finishedVec finishedFinal finishedSum
    batchSlots : ITensor) : M unit :=
  let finishedVecShape := getShape finishedVec in
  let maxBatchSize := d finishedVecShape 1 in
  let batchSlotsShape := getShape batchSlots in
  let batchSize := d batchSlotsShape 0 in
  let targetTokenIdsShape := getShape targetTokenIds in
  let beamWidth := d targetTokenIdsShape 1 in
  let maxSeqLength := d targetTokenIdsShape 2 in
  let maxDraftTokens := d (getShape draftTokenIds) 1 in
  run check (bool_decide (beamWidth = 1)) speculativeBeamWidthMsg;
  run check (bool_decide (batchSize <= maxBatchSize))
        "Batch size (%d) is not smaller or equal to max batch size (%d)";
  run check (bool_decide (d (getShape draftTokenIds) 0 = maxBatchSize))
        "Draft tokens batch size (%d) is not equal to target batch size (%d)";
  run check (bool_decide (d (getShape contextLengths) 0 = maxBatchSize))
        "Context length batch size (%d) is not equal to batch size (%d)";
  run check (bool_decide (d (getShape numDraftTokens) 0 = maxBatchSize))
        "Num draft tokens batch size (%d) is not equal to batch size (%d)";
  run check (bool_decide (d (getShape sequenceLengths) 0 = maxBatchSize))
        "Sequence length batch size (%d) is not equal to batch size (%d)";
  run launch "invokeAcceptDraftTokensByIds"
        (Kernels.invokeAcceptDraftTokensByIds
           (Kernels.mkAcceptByIds (bufferCast draftTokenIds) (bufferCast targetTokenIds)
              (bufferCast contextLengths) (bufferCast numDraftTokens)
              (bufferCast sequenceLengths) (bufferCast finishedVec)
              (bufferCast finishedFinal) (bufferCast finishedSum) (bufferCast batchSlots)
              batchSize maxBatchSize beamWidth maxSeqLength maxDraftTokens));
  emit EvSyncCheck.

(** Scalar arguments of the by-logits acceptance. *)
Record AcceptByLogitsArgs := mkAcceptByLogitsArgs {
  l_batchSize : Z;
  l_maxBatchSize : Z;
  l_beamWidth : Z;
  l_vocabSize : Z;
  l_vocabSizePadded : Z;
  l_maxTokensPerStep : Z;
  l_useRandomAcceptThreshold : bool;
  l_randomAcceptThreshold : Z
}.

Section ByLogits.

(** [kernels::acceptDraftTokensByLogits<T>] softmaxes, draws random numbers
    and rewrites logits on the device; the host wrapper only needs it as a
    transformation of device memory. *)
Variable acceptDraftTokensByLogitsKernel :
  Precision -> AcceptByLogitsArgs -> list BufferId -> Store -> Store.

(** [IGptDecoder::acceptDraftTokensByLogits]. *)
Definition acceptDraftTokensByLogits (draftLogits targetLogits draftProbs targetProbs
    numDraftTokens finished batchSlots : ITensor) (vocabSize vocabSizePadded : Z)
    (useRandomAcceptThreshold : bool) (randomAcceptThreshold : Z) : M unit :=
  let draftLogitsShape := getShape draftLogits in
  let maxBatchSize := d draftLogitsShape 0 in
  let maxTokensPerStep := d draftLogitsShape 1 in
  let batchSlotsShape := getShape batchSlots in
  let batchSize := d batchSlotsShape 0 in
  let beamWidth := 1 in
  run check (bool_decide (beamWidth = 1)) speculativeBeamWidthMsg;
  run check (bool_decide (d draftLogitsShape 2 = vocabSize))
        "draftLogitsShape.d[2] == vocabSize";
  let args := mkAcceptByLogitsArgs batchSize maxBatchSize beamWidth vocabSize
                vocabSizePadded maxTokensPerStep useRandomAcceptThreshold
                randomAcceptThreshold in
  let ptrs := [bufferCast draftLogits; bufferCast targetLogits; bufferCast draftProbs;
               bufferCast targetProbs; bufferCast numDraftTokens; bufferCast finished;
               bufferCast batchSlots] in
  run match getDataType draftLogits with
      | kFLOAT => launch "acceptDraftTokensByLogits<float>"
                    (acceptDraftTokensByLogitsKernel Float32 args ptrs)
      | kHALF => launch "acceptDraftTokensByLogits<half>"
                   (acceptDraftTokensByLogitsKernel Float16 args ptrs)
      | _ => throw (CheckFailed
               "Incorrect logits dtype. Only float32 and float16 are supported")
      end;
  emit EvSyncCheck.

End ByLogits.

End GptDecoder.

(** ** PenaltyLayer (layers/penaltyLayer.cpp) *)
Module PenaltyLayer.

(** [executor::DecodingMode], through the predicates the layer asks. *)
Record DecodingMode := mkDecodingMode {
  isAuto : bool;
  isBeamSearch : bool;
  isUseTemperature : bool;
  isUseRepetitionPenalty : bool;
  isUsePresencePenalty : bool;
  isUseFrequencyPenalty : bool;
  isUseMinLength : bool;
  isUseOccurrencePenalty : bool
}.

Record DecoderDomain := mkDecoderDomain {
  getBatchSize : Z;
  getBeamWidth : Z;
  getVocabSize : Z;
  getVocabSizePadded : Z;
  getMaxDecodingTokens : Z
}.

Inductive DecodingPenaltyType := Temperature | Repetition | Presence | Frequency | MinLength.

(** Penalty part of [DynamicDecodeSetupParams]: one optional vector per
    class, of one value for all requests or one value per request. *)
Record PenaltyParams := mkPenaltyParams {
  temperature : option (list Z);
  repetitionPenalty : option (list Z);
  presencePenalty : option (list Z);
  frequencyPenalty : option (list Z);
  minLength : option (list Z)
}.

Record DynamicDecodeSetupParams := mkSetupParams {
  penaltyParams : option PenaltyParams
}.

(** A device pointer: a buffer and an element offset into it. *)
Record Ptr := mkPtr { ptrBuffer : BufferId; ptrOffset : Z }.

(** [layers::DecodingInputs]. *)
Record DecodingInputs := mkDecodingInputs {
  localBatchSize : Z;
  endIds : ITensor;
  batchSlots : option ITensor;
  logits : option ITensor;
  logitsVec : option (list ITensor);
  inputLengths : option ITensor;
  embeddingBias : option ITensor;
  curTokensPerStep : option ITensor
}.

Definition withLogits (t : ITensor) (p : DecodingInputs) : DecodingInputs :=
  mkDecodingInputs (localBatchSize p) (endIds p) (batchSlots p) (Some t) (logitsVec p)
    (inputLengths p) (embeddingBias p) (curTokensPerStep p).

(** [layers::BaseDecodingOutputs]. *)
Record BaseDecodingOutputs := mkBaseDecodingOutputs {
  outputIds : ITensor;
  outputIdsPtr : ITensor;
  parentIdsPtr : ITensor;
  sequenceLength : option ITensor
}.

(** [InvokeBatchApplyPenaltyParams<T>]. *)
Record InvokeBatchApplyPenaltyParams := mkInvokeParams {
  k_inputLogits : list (option Ptr);       (* T const* const*, one per batch index *)
  k_outputLogits : BufferId;
  k_biases : option BufferId;
  k_penaltyWorkspace : option BufferId;
  k_penaltyWorkspacePrev : option BufferId;
  k_temperatures : option BufferId;
  k_repetitionPenalties : option BufferId;
  k_presencePenalties : option BufferId;
  k_frequencyPenalties : option BufferId;
  k_batchSize : Z;
  k_beamWidth : Z;
  k_maxSeqLen : Z;
  k_vocabSize : Z;
  k_vocabSizePadded : Z;
  k_outputIdsPtr : BufferId;
  k_parentIdsPtr : BufferId;
  k_inputLengths : option BufferId;
  k_sequenceLengths : BufferId;
  k_minLengths : option BufferId;
  k_endIds : BufferId;
  k_batchSlots : option BufferId;
  k_maxTokensPerStep : Z;
  k_tokensPerStep : option BufferId
}.

(** The layer object. The rolling table of logits pointers is kept typed:
    one row per cyclic step, one pointer per batch index; the empty table is
    the tensor without data the constructor installs. *)
Record Layer := mkLayer {
  mDecodingMode : DecodingMode;
  mDecoderDomain : DecoderDomain;
  mConfiguredBeamWidth : Z;
  mCyclicStep : Z;
  mRuntimeMaxSeqLen : Z;
  mLogitsPtrsHost : list (list (option Ptr));
  mTemperature : ITensor;
  mRepetitionPenalty : ITensor;
  mPresencePenalty : ITensor;
  mFrequencyPenalty : ITensor;
  mMinLength : ITensor;
  mTemperatureDevice : option ITensor;
  mRepetitionPenaltyDevice : option ITensor;
  mPresencePenaltyDevice : option ITensor;
  mFrequencyPenaltyDevice : option ITensor;
  mMinLengthDevice : option ITensor;
  mRuntimeLogitsDevice : ITensor;
  mPenaltyWorkspaceDevice : option ITensor;
  mPenaltyWorkspacePrevDevice : option ITensor;
  mUseTemperature : bool;
  mUseRepetitionPenalty : bool;
  mUsePresencePenalty : bool;
  mUseFrequencyPenalty : bool;
  mUseMinLength : bool
}.

(** The use-flag, host buffer and device buffer of a penalty class. *)
Definition mUse (c : DecodingPenaltyType) (l : Layer) : bool :=
  match c with
  | Temperature => mUseTemperature l
  | Repetition => mUseRepetitionPenalty l
  | Presence => mUsePresencePenalty l
  | Frequency => mUseFrequencyPenalty l
  | MinLength => mUseMinLength l
  end.

Definition mHost (c : DecodingPenaltyType) (l : Layer) : ITensor :=
  match c with
  | Temperature => mTemperature l
  | Repetition => mRepetitionPenalty l
  | Presence => mPresencePenalty l
  | Frequency => mFrequencyPenalty l
  | MinLength => mMinLength l
  end.

Definition mDevice (c : DecodingPenaltyType) (l : Layer) : option ITensor :=
  match c with
  | Temperature => mTemperatureDevice l
  | Repetition => mRepetitionPenaltyDevice l
  | Presence => mPresencePenaltyDevice l
  | Frequency => mFrequencyPenaltyDevice l
  | MinLength => mMinLengthDevice l
  end.

Definition modeUses (c : DecodingPenaltyType) (m : DecodingMode) : bool :=
  match c with
  | Temperature => isUseTemperature m
  | Repetition => isUseRepetitionPenalty m
  | Presence => isUsePresencePenalty m
  | Frequency => isUseFrequencyPenalty m
  | MinLength => isUseMinLength m
  end.

Definition paramOf (c : DecodingPenaltyType) (p : PenaltyParams) : option (list Z) :=
  match c with
  | Temperature => temperature p
  | Repetition => repetitionPenalty p
  | Presence => presencePenalty p
  | Frequency => frequencyPenalty p
  | MinLength => minLength p
  end.

Definition setConfigured (beamWidth : Z) (mode : DecodingMode) (l : Layer) : Layer :=
  let 'mkLayer _ dom _ cyc rms ptrs t r pr f ml td rd prd fd mld rl ws wsp ut ur up uf um := l in
  mkLayer mode dom beamWidth cyc rms ptrs t r pr f ml td rd prd fd mld rl ws wsp ut ur up uf um.

Definition setWorkspaces (ws wsp : option ITensor) (l : Layer) : Layer :=
  let 'mkLayer mode dom cbw cyc rms ptrs t r pr f ml td rd prd fd mld rl _ _ ut ur up uf um := l in
  mkLayer mode dom cbw cyc rms ptrs t r pr f ml td rd prd fd mld rl ws wsp ut ur up uf um.

Definition setUseFlags (ut ur up uf um : bool) (l : Layer) : Layer :=
  let 'mkLayer mode dom cbw cyc rms ptrs t r pr f ml td rd prd fd mld rl ws wsp _ _ _ _ _ := l in
  mkLayer mode dom cbw cyc rms ptrs t r pr f ml td rd prd fd mld rl ws wsp ut ur up uf um.

Definition setCyclicStep (cyc : Z) (l : Layer) : Layer :=
  let 'mkLayer mode dom cbw _ rms ptrs t r pr f ml td rd prd fd mld rl ws wsp ut ur up uf um := l in
  mkLayer mode dom cbw cyc rms ptrs t r pr f ml td rd prd fd mld rl ws wsp ut ur up uf um.

Definition setLogitsPtrsHost (ptrs : list (list (option Ptr))) (l : Layer) : Layer :=
  let 'mkLayer mode dom cbw cyc rms _ t r pr f ml td rd prd fd mld rl ws wsp ut ur up uf um := l in
  mkLayer mode dom cbw cyc rms ptrs t r pr f ml td rd prd fd mld rl ws wsp ut ur up uf um.

Definition setRuntimeMaxSeqLen (rms : Z) (l : Layer) : Layer :=
  let 'mkLayer mode dom cbw cyc _ ptrs t r pr f ml td rd prd fd mld rl ws wsp ut ur up uf um := l in
  mkLayer mode dom cbw cyc rms ptrs t r pr f ml td rd prd fd mld rl ws wsp ut ur up uf um.

(** Host code of the layer works on the layer object and the world. *)
Abbreviation L := (ST (Layer * World)).

Definition inWorld {A} (m : M A) : L A :=
  fun lw => let '(r, w') := m (snd lw) in (r, (fst lw, w')).

Definition getLayer : L Layer := fun lw => (inr (fst lw), lw).

Definition modifyLayer (f : Layer -> Layer) : L unit :=
  fun lw => (inr tt, (f (fst lw), snd lw)).

(** The name under which [setup] reports a parameter out of range. *)
Definition penaltyName (c : DecodingPenaltyType) : string :=
  match c with
  | Temperature => "temperature penalty"
  | Repetition => "repetition penalty"
  | Presence => "presence penalty"
  | Frequency => "frequency penalty"
  | MinLength => "min length"
  end.

Section Layer.

(** What the layer takes from headers that are not part of this
    development: the sentinel defaults of [DefaultDecodingParams], the
    admissible range of every penalty ([getLimitsPenalty]), the two decoding
    modes the Python runtime resolves [Auto] to, the local decoder domain of
    a step ([getLocalDecoderDomain]), and the penalty kernel, which computes
    the new contents of its output logits and of its workspace. *)
Variable defaultValue : DecodingPenaltyType -> Z.
Variable withinLimits : DecodingPenaltyType -> Z -> bool.
Variable TopKTopP : DecodingMode.
Variable BeamSearch : DecodingMode.
Variable getLocalDecoderDomain : DecodingInputs -> DecoderDomain -> Error + DecoderDomain.
Variable invokeBatchApplyPenalty :
  InvokeBatchApplyPenaltyParams -> Store -> list Z * list Z.

(** The helpers of layers/layerUtils.h, which is not part of this
    development either: [allOfBatchSlots batchSlots data batchSize value], the
    scan of the per-slot host array [data] over the slots of the batch;
    [getDefaultBatchSlots batchSize], which is given the buffer manager and
    hands out a tensor of batch slots, so that it runs in the world; and the
    functor [FillBuffers {batchSize, maxBatchSize}], applied to the optional
    parameter, its default, the host and the device array, the tensor of
    batch slots, the admissible range and the name of the parameter. *)
Variable allOfBatchSlots : list Z -> list Z -> Z -> Z -> bool.
Variable getDefaultBatchSlots : Z -> M ITensor.
Variable FillBuffers :
  Z -> Z -> option (list Z) -> Z -> ITensor -> option ITensor -> ITensor -> (Z -> bool) ->
  string -> M unit.

(** [batchSlots ? batchSlots : getDefaultBatchSlots(batchSize,
    *mBufferManager)]: the helper is called only without batch slots of the
    caller. *)
Definition batchSlotsOrDefault (batchSlots : option ITensor) (batchSize : Z) : M ITensor :=
  match batchSlots with
  | Some t => ret t
  | None => getDefaultBatchSlots batchSize
  end.

(** [PenaltyLayer<T>::allocateWorkspace]. *)
Definition allocateWorkspace : L unit :=
  do l <- getLayer;
  if isUseOccurrencePenalty (mDecodingMode l) then
    let workspaceSize :=
      getBatchSize (mDecoderDomain l) * getMaxDecodingTokens (mDecoderDomain l)
      * mConfiguredBeamWidth l * getVocabSize (mDecoderDomain l) in
    do ws <- inWorld (gpu [workspaceSize] kINT32);
    run modifyLayer (setWorkspaces (Some ws) (mPenaltyWorkspacePrevDevice l));
    if isBeamSearch (mDecodingMode l) then
      do wsp <- inWorld (gpu [workspaceSize] kINT32);
      modifyLayer (setWorkspaces (Some ws) (Some wsp))
    else ret tt
  else ret tt.

Definition gpuIf (b : bool) (shape : list Z) (ty : DataType) : M (option ITensor) :=
  if b then (do t <- gpu shape ty; ret (Some t)) else ret None.

(** The constructor: [allocateBuffer] followed by the rest of [initialize].
    The first allocation is that of [mLogitsPtrsHost] with the empty shape: a
    tensor without data, as the test of [forwardAsync] on its [data()] shows;
    it is the empty table of the layer object and takes no buffer. *)
Definition construct (T : DataType) (mode : DecodingMode) (decoderDomain : DecoderDomain)
    : M Layer :=
  run emit (EvPinnedAlloc 0);
  let batchSizeShape := [getBatchSize decoderDomain] in
  do t <- pinned batchSizeShape kFLOAT;
  do r <- pinned batchSizeShape kFLOAT;
  do pr <- pinned batchSizeShape kFLOAT;
  do f <- pinned batchSizeShape kFLOAT;
  do ml <- pinned batchSizeShape kINT32;
  do td <- gpuIf (isUseTemperature mode) batchSizeShape kFLOAT;
  do rd <- gpuIf (isUseRepetitionPenalty mode) batchSizeShape kFLOAT;
  do prd <- gpuIf (isUsePresencePenalty mode) batchSizeShape kFLOAT;
  do fd <- gpuIf (isUseFrequencyPenalty mode) batchSizeShape kFLOAT;
  do mld <- gpuIf (isUseMinLength mode) batchSizeShape kINT32;
  let runtimeLogitsDeviceSize :=
    getBatchSize decoderDomain * getMaxDecodingTokens decoderDomain
    * getBeamWidth decoderDomain * getVocabSizePadded decoderDomain in
  do rl <- gpu [runtimeLogitsDeviceSize] T;
  let l := mkLayer mode decoderDomain (-1) 0 0 [] t r pr f ml td rd prd fd mld rl
             None None false false false false false in
  if isAuto mode then ret l
  else
    fun w => match allocateWorkspace (setConfigured (getBeamWidth decoderDomain) mode l, w) with
             | (inl e, (_, w')) => (inl e, w')
             | (inr _, (l', w')) => (inr l', w')
             end.

Definition hasValue {A} (o : option A) : bool :=
  match o with Some _ => true | None => false end.

(** First part of [setup]: a layer built for [Auto] takes the beam width
    of the first setup and the decoding mode that goes with it. *)
Definition resolveConfiguredBeamWidth (beamWidth : Z) : L unit :=
  do l0 <- getLayer;
  if bool_decide (mConfiguredBeamWidth l0 = -1) then
    run check (isAuto (mDecodingMode l0)) "mDecodingMode.isAuto()";
    run modifyLayer (setConfigured beamWidth
                       (if bool_decide (beamWidth = 1) then TopKTopP else BeamSearch));
    allocateWorkspace
  else ret tt.

(** Second part of [setup]: [mUseX |= useX] for the five classes. *)
Definition enablePenalties (penaltyParams : PenaltyParams) : L unit :=
  modifyLayer (fun l =>
    let mode := mDecodingMode l in
    let useTemperature := isUseTemperature mode && hasValue (temperature penaltyParams) in
    let useRepetitionPenalty :=
      isUseRepetitionPenalty mode && hasValue (repetitionPenalty penaltyParams) in
    let usePresencePenalty :=
      isUsePresencePenalty mode && hasValue (presencePenalty penaltyParams) in
    let useFrequencyPenalty :=
      isUseFrequencyPenalty mode && hasValue (frequencyPenalty penaltyParams) in
    let useMinLength := isUseMinLength mode && hasValue (minLength penaltyParams) in
    setUseFlags (mUseTemperature l || useTemperature)
      (mUseRepetitionPenalty l || useRepetitionPenalty)
      (mUsePresencePenalty l || usePresencePenalty)
      (mUseFrequencyPenalty l || useFrequencyPenalty)
      (mUseMinLength l || useMinLength) l).

(** Third part of [setup]: the buffers of every class in use are filled. *)
Definition fillPenalties (batchSize : Z) (penaltyParams : PenaltyParams)
    (defaultBatchSlots : ITensor) : L unit :=
  do l <- getLayer;
  let fillBuffers := FillBuffers batchSize (getBatchSize (mDecoderDomain l)) in
  let fill c :=
    if mUse c l
    then fillBuffers (paramOf c penaltyParams) (defaultValue c) (mHost c l)
           (mDevice c l) defaultBatchSlots (withinLimits c) (penaltyName c)
    else ret tt in
  inWorld (run fill Temperature;
           run fill Repetition;
           run fill Presence;
           run fill Frequency;
           fill MinLength).

(** [PenaltyLayer<T>::setup]. *)
Definition setup (batchSize beamWidth : Z) (batchSlots : option ITensor)
    (setupParams : DynamicDecodeSetupParams) : L unit :=
  run resolveConfiguredBeamWidth beamWidth;
  do defaultBatchSlots <- inWorld (batchSlotsOrDefault batchSlots batchSize);
  do penaltyParams <- match penaltyParams setupParams with
                      | Some p => ret p
                      | None => throw (CheckFailed "penaltyParams for setup is not set")
                      end;
  run enablePenalties penaltyParams;
  fillPenalties batchSize penaltyParams defaultBatchSlots.

(** The macro [GET_PENALTIES]: the device array of a class is handed to the
    kernel when the class is in use and some slot of the batch departs from
    the default. *)
Definition GET_PENALTIES (c : DecodingPenaltyType) (l : Layer) (s : Store)
    (batchSlotsHostPtr : list Z) (batchSize : Z) : option ITensor :=
  if mUse c l
     && negb (allOfBatchSlots batchSlotsHostPtr (Kernels.bufOf s (Some (data (mHost c l))))
                batchSize (defaultValue c))
  then mDevice c l
  else None.

(** [ITensor::slice(logits, {bi})] followed by [bufferCastOrNull]: the
    address of row [bi]. *)
Definition sliceRow (t : ITensor) (bi : Z) : Error + Ptr :=
  if bool_decide (0 <= bi < d (getShape t) 0)
  then inr (mkPtr (data t) (bi * volume (tail (getShape t))))
  else inl (CheckFailed "slice index out of range").

(** The address of the logits of batch index [bi]: the tensor of the index
    in [logitsVec] when there is one, else row [bi] of [logits]. *)
Definition logitsPtrOf (params : DecodingInputs) (batchSize : Z) (bi : Z)
    : Error + option Ptr :=
  match logitsVec params with
  | Some v =>
      if bool_decide (Z.of_nat (length v) = batchSize) then
        match v !! Z.to_nat bi with
        | Some t => inr (Some (mkPtr (data t) 0))
        | None => inl OutOfBounds
        end
      else inl (CheckFailed
             "Logits vector size (%lu) is not equal to the batchSize (%d)")
  | None =>
      match logits params with
      | Some t => match sliceRow t bi with
                  | inr q => inr (Some q)
                  | inl e => inl e
                  end
      | None => inl NullDereference
      end
  end.

(** The loop of [forwardAsync] over the batch: the row of the rolling
    table for this step, one logits pointer per batch index. *)
Definition logitsPtrsRow (params : DecodingInputs) (batchSize : Z)
    (row0 : list (option Ptr)) : Error + list (option Ptr) :=
  fst (forRange batchSize (fun bi (row : list (option Ptr)) =>
         do ptr <- liftE (logitsPtrOf params batchSize bi);
         if bool_decide (Z.to_nat bi < length row)%nat
         then ret (<[Z.to_nat bi := ptr]> row)
         else throw OutOfBounds) row0 tt).

(** [PenaltyLayer<T>::forwardAsync]. Returns the inputs as the layer leaves
    them. *)
Definition forwardAsync (outputs : BaseDecodingOutputs) (params : DecodingInputs)
    : L DecodingInputs :=
  do l <- getLayer;
  do localDecoderDomain <- liftE (getLocalDecoderDomain params (mDecoderDomain l));
  let maxSeqLen := List.last (getShape (outputIds outputs)) 0 in
  let batchSlots := data <$> batchSlots params in
  run (match concat (mLogitsPtrsHost l) with
       | [] =>
           run inWorld (emit (EvPinnedAlloc
                                (maxSeqLen * getBatchSize (mDecoderDomain l))));
           run modifyLayer (setLogitsPtrsHost
                  (replicate (Z.to_nat maxSeqLen)
                     (replicate (Z.to_nat (getBatchSize (mDecoderDomain l))) None)));
           modifyLayer (setRuntimeMaxSeqLen maxSeqLen)
       | _ :: _ => ret tt
       end);
  do l <- getLayer;
  run (if bool_decide (mRuntimeMaxSeqLen l = 0) then throw DivisionByZero else ret tt);
  run modifyLayer (setCyclicStep (Z.rem (mCyclicStep l) (mRuntimeMaxSeqLen l)));
  do l <- getLayer;
  do row0 <- match mLogitsPtrsHost l !! Z.to_nat (mCyclicStep l) with
             | Some row => ret row
             | None => throw (CheckFailed "slice index out of range")
             end;
  do logitsPtrsHostData <-
     liftE (logitsPtrsRow params (getBatchSize localDecoderDomain) row0);
  run modifyLayer (setLogitsPtrsHost
                     (<[Z.to_nat (mCyclicStep l) := logitsPtrsHostData]> (mLogitsPtrsHost l)));
  do batchSlotsHost <-
     inWorld (batchSlotsOrDefault (PenaltyLayer.batchSlots params)
                (getBatchSize localDecoderDomain));
  do s <- inWorld getStore;
  let batchSlotsHostPtr := Kernels.bufOf s (Some (data batchSlotsHost)) in
  let pick c := GET_PENALTIES c l s batchSlotsHostPtr (getBatchSize localDecoderDomain) in
  let temperatures := pick Temperature in
  let repetitionPenalties := pick Repetition in
  let presencePenalties := pick Presence in
  let frequencyPenalties := pick Frequency in
  let minLengths := pick MinLength in
  do sequenceLengths <- match sequenceLength outputs with
                        | Some t => ret (data t)
                        | None => throw NullDereference
                        end;
  let penaltyParams :=
    mkInvokeParams logitsPtrsHostData (data (mRuntimeLogitsDevice l))
      (data <$> embeddingBias params)
      (data <$> mPenaltyWorkspaceDevice l) (data <$> mPenaltyWorkspacePrevDevice l)
      (data <$> temperatures) (data <$> repetitionPenalties)
      (data <$> presencePenalties) (data <$> frequencyPenalties)
      (getBatchSize localDecoderDomain) (getBeamWidth localDecoderDomain) maxSeqLen
      (getVocabSize (mDecoderDomain l)) (getVocabSizePadded (mDecoderDomain l))
      (data (outputIdsPtr outputs)) (data (parentIdsPtr outputs))
      (data <$> inputLengths params) sequenceLengths (data <$> minLengths)
      (data (endIds params)) batchSlots (getMaxDecodingTokens (mDecoderDomain l))
      (data <$> curTokensPerStep params) in
  run inWorld (emit (EvKernel "invokeBatchApplyPenalty"));
  let '(newLogits, newWorkspace) := invokeBatchApplyPenalty penaltyParams s in
  run inWorld (putStore
        (Kernels.setBuf
           (Kernels.setBuf s (data <$> mPenaltyWorkspaceDevice l) (fun _ => newWorkspace))
           (Some (data (mRuntimeLogitsDevice l))) (fun _ => newLogits)));
  run inWorld (emit EvSyncCheck);
  run modifyLayer (setCyclicStep (mCyclicStep l + 1));
  let logitsShape :=
    [getBatchSize localDecoderDomain; getMaxDecodingTokens (mDecoderDomain l);
     getBeamWidth localDecoderDomain; getVocabSizePadded (mDecoderDomain l)] in
  let params' :=
    withLogits (mkTensor (getDataType (mRuntimeLogitsDevice l)) logitsShape
                  (data (mRuntimeLogitsDevice l))) params in
  run (if isBeamSearch (mDecodingMode l)
       then modifyLayer (setWorkspaces (mPenaltyWorkspacePrevDevice l)
                           (mPenaltyWorkspaceDevice l))
       else ret tt);
  ret params'.

(** The layer is driven by a sequence of [setup] and [forwardAsync] calls; a
    call that throws leaves the layer as it was at the throw. *)
Inductive Call :=
| CallSetup (batchSize beamWidth : Z) (batchSlots : option ITensor)
    (setupParams : DynamicDecodeSetupParams)
| CallForwardAsync (outputs : BaseDecodingOutputs) (params : DecodingInputs).

Definition call (c : Call) (lw : Layer * World) : Layer * World :=
  match c with
  | CallSetup batchSize beamWidth batchSlots setupParams =>
      snd (setup batchSize beamWidth batchSlots setupParams lw)
  | CallForwardAsync outputs params => snd (forwardAsync outputs params lw)
  end.

Definition calls (cs : list Call) (lw : Layer * World) : Layer * World :=
  foldl (fun st c => call c st) lw cs.

End Layer.

End PenaltyLayer.

(** ** Paged KV-cache blocks (batch_manager/kvCacheManager.h) *)
Module KvCache.

(** [KVCacheBlock::secondaryPoolFlag]: the top bit of a [SizeType]. *)
Definition secondaryPoolFlag : Z := Z.shiftl 1 (8 * 4 - 1).

(** [KVCacheBlock], without the links of the prefix tree: what the tree
    decides is an argument of the operations below. *)
Record KVCacheBlock := mkBlock {
  mBlockIdx : Z;
  mMemoryPoolBlockOffset : Z;
  mRefCount : Z;
  mSchedulingRefCount : Z
}.

(** Modelled from the spec: the constructor and the small methods of
    [KVCacheBlock] (kvCacheManager.cpp is not under src/). Blocks beyond the
    primary pool carry the secondary-pool flag in their pool offset. *)
Definition newBlock (blockIdx blocksInPrimaryPool : Z) : KVCacheBlock :=
  mkBlock blockIdx
    (if bool_decide (blockIdx < blocksInPrimaryPool) then blockIdx
     else Z.lor secondaryPoolFlag (blockIdx - blocksInPrimaryPool))
    0 0.

Definition isPrimary (b : KVCacheBlock) : bool :=
  Z.land (mMemoryPoolBlockOffset b) secondaryPoolFlag =? 0.

Definition hasRefs (b : KVCacheBlock) : bool := 0 <? mRefCount b.

Definition incRefCount (b : KVCacheBlock) : KVCacheBlock :=
  mkBlock (mBlockIdx b) (mMemoryPoolBlockOffset b) (mRefCount b + 1) (mSchedulingRefCount b).

Definition decRefCount (b : KVCacheBlock) : KVCacheBlock :=
  mkBlock (mBlockIdx b) (mMemoryPoolBlockOffset b) (mRefCount b - 1) (mSchedulingRefCount b).

Definition withOffset (o : Z) (b : KVCacheBlock) : KVCacheBlock :=
  mkBlock (mBlockIdx b) o (mRefCount b) (mSchedulingRefCount b).

(** [GenerationRequest]. *)
Record GenerationRequest := mkRequest {
  mSeqSlotIdx : nat;
  mNumTokens : Z;
  mBeamWidth : Z;
  mCacheBlockIds : list (list Z);
  mNumPrepopulatedTokens : list Z
}.

(** The constructor: [mCacheBlockIds(beamWidth)] is a vector of [beamWidth]
    empty rows. A negative [beamWidth] is no size of a vector, and the
    constructor of the vector throws [std::length_error]. *)
Definition newRequest (seqSlotIdx : nat) (numTokens beamWidth : Z)
    : Error + GenerationRequest :=
  if bool_decide (0 <= beamWidth)
  then inr (mkRequest seqSlotIdx numTokens beamWidth (replicate (Z.to_nat beamWidth) []) [])
  else inl (LogicError "cannot create std::vector larger than max_size()").

Definition addNewTokens (n : Z) (r : GenerationRequest) : GenerationRequest :=
  mkRequest (mSeqSlotIdx r) (wrap_int32 (mNumTokens r + n)) (mBeamWidth r)
    (mCacheBlockIds r) (mNumPrepopulatedTokens r).

Definition removeTokens (n : Z) (r : GenerationRequest) : Error + GenerationRequest :=
  if bool_decide (n <= mNumTokens r) then
    if bool_decide (wrap_int32 (mNumTokens r - n) >= 0) then
      inr (mkRequest (mSeqSlotIdx r) (wrap_int32 (mNumTokens r - n)) (mBeamWidth r)
             (mCacheBlockIds r) (mNumPrepopulatedTokens r))
    else inl (CheckFailed "mNumTokens - n >= 0")
  else inl (CheckFailed "n <= mNumTokens").

Definition withCacheBlockIds (ids : list (list Z)) (r : GenerationRequest) : GenerationRequest :=
  mkRequest (mSeqSlotIdx r) (mNumTokens r) (mBeamWidth r) ids (mNumPrepopulatedTokens r).

Definition addCacheBlock (beamIdx blockIdx : Z) (r : GenerationRequest)
    : Error + GenerationRequest :=
  if bool_decide (0 <= beamIdx) then
    match mCacheBlockIds r !! Z.to_nat beamIdx with
    | Some ids =>
        inr (withCacheBlockIds (<[Z.to_nat beamIdx := ids ++ [blockIdx]]> (mCacheBlockIds r)) r)
    | None => inl OutOfBounds
    end
  else inl OutOfBounds.

Definition changeCacheBlock (beamIdx pagedBlockIdx blockIdx : Z) (r : GenerationRequest)
    : Error + GenerationRequest :=
  if bool_decide (0 <= beamIdx /\ 0 <= pagedBlockIdx) then
    match mCacheBlockIds r !! Z.to_nat beamIdx with
    | Some ids =>
        if bool_decide (Z.to_nat pagedBlockIdx < length ids)%nat
        then inr (withCacheBlockIds
                    (<[Z.to_nat beamIdx := <[Z.to_nat pagedBlockIdx := blockIdx]> ids]>
                       (mCacheBlockIds r)) r)
        else inl OutOfBounds
    | None => inl OutOfBounds
    end
  else inl OutOfBounds.

Definition clearCacheBlocks (r : GenerationRequest) : GenerationRequest :=
  withCacheBlockIds ((fun _ => []) <$> mCacheBlockIds r) r.

Definition removeLastBlock (r : GenerationRequest) : Error + GenerationRequest :=
  if forallb (fun ids => negb (bool_decide (ids = []))) (mCacheBlockIds r)
  then inr (withCacheBlockIds (map (@removelast Z) (mCacheBlockIds r)) r)
  else inl OutOfBounds.

Definition setNumPrepopulatedTokens (n : list Z) (r : GenerationRequest) : GenerationRequest :=
  mkRequest (mSeqSlotIdx r) (mNumTokens r) (mBeamWidth r) (mCacheBlockIds r) n.

(** [BlockManager]: the two free queues, the blocks held by every sequence
    slot and the table of all blocks. Queues and lists hold block indices. *)
Record BlockManager := mkManager {
  mFreePrimaryBlocks : list nat;
  mFreeSecondaryBlocks : list nat;
  mAllocatedBlocksPerSeq : list (list nat);
  mAllBlocksByIdx : list KVCacheBlock;
  mTokensPerBlock : Z
}.

(** [BlockManager::getNumFreeBlocks]. *)
Definition getNumFreeBlocks (m : BlockManager) : Z :=
  Z.of_nat (length (mFreePrimaryBlocks m)).

(** [BlockManager::getMaxNumBlocks]. *)
Definition getMaxNumBlocks (m : BlockManager) : Z :=
  Z.of_nat (length (mAllBlocksByIdx m)).

(** [BlockManager::getNumAllocatedBlocks]. *)
Definition getNumAllocatedBlocks (m : BlockManager) : Z :=
  getMaxNumBlocks m - getNumFreeBlocks m.

(** [BlockManager::hasFreeBlocks]. *)
Definition hasFreeBlocks (numRequired : Z) (m : BlockManager) : bool :=
  bool_decide (getNumFreeBlocks m >= numRequired).

Definition setFree (fp fs : list nat) (m : BlockManager) : BlockManager :=
  mkManager fp fs (mAllocatedBlocksPerSeq m) (mAllBlocksByIdx m) (mTokensPerBlock m).

Definition setAllocated (a : list (list nat)) (m : BlockManager) : BlockManager :=
  mkManager (mFreePrimaryBlocks m) (mFreeSecondaryBlocks m) a (mAllBlocksByIdx m)
    (mTokensPerBlock m).

Definition setBlocks (bs : list KVCacheBlock) (m : BlockManager) : BlockManager :=
  mkManager (mFreePrimaryBlocks m) (mFreeSecondaryBlocks m) (mAllocatedBlocksPerSeq m) bs
    (mTokensPerBlock m).

(** Modelled from the spec: the constructor of [BlockManager]
    (kvCacheManager.cpp is not under src/). All blocks of both pools are
    created once, in the table of all blocks; every block starts in the free
    queue of its pool; the per-sequence lists are sized for the sequence
    slots of the owner. *)
Definition newBlockManager (tokensPerBlock blocksInPrimaryPool blocksInSecondaryPool : Z)
    (maxNumSequences : nat) : BlockManager :=
  let p := Z.to_nat blocksInPrimaryPool in
  let n := Z.to_nat blocksInSecondaryPool in
  mkManager (seq 0 p) (seq p n) (replicate maxNumSequences [])
    ((fun i => newBlock (Z.of_nat i) (Z.of_nat p)) <$> seq 0 (p + n)) tokensPerBlock.

Abbreviation B := (ST BlockManager).

Definition get : B BlockManager := fun m => (inr m, m).
Definition modify (f : BlockManager -> BlockManager) : B unit := fun m => (inr tt, f m).

Definition getBlock (idx : nat) : B KVCacheBlock :=
  fun m => match mAllBlocksByIdx m !! idx with
           | Some b => (inr b, m)
           | None => (inl OutOfBounds, m)
           end.

Definition updateBlock (idx : nat) (f : KVCacheBlock -> KVCacheBlock) : B unit :=
  do b <- getBlock idx;
  modify (fun m => setBlocks (<[idx := f b]> (mAllBlocksByIdx m)) m).

(** [KVCacheBlock::swapMemoryPoolBlockOffset]. *)
Definition swapMemoryPoolBlockOffset (x y : nat) : B unit :=
  do bx <- getBlock x;
  do by_ <- getBlock y;
  run updateBlock x (withOffset (mMemoryPoolBlockOffset by_));
  updateBlock y (withOffset (mMemoryPoolBlockOffset bx)).

(** The choice the eviction policy makes among the free blocks. *)
Inductive Eviction :=
| TakePrimary (i : nat)
| OffloadThenTake (i j : nat)
| OnboardSecondary (j p : nat).

Section Manager.

(** The prefix tree decides which free block is least likely to be reused;
    its decision is a parameter: a position in the primary free queue, with
    or without saving the victim to a free secondary block, or, with no free
    primary block left, a secondary block to onboard and the primary block
    that makes room for it. *)
Variable policy : BlockManager -> Eviction.

Definition delete_nth {A} (i : nat) (l : list A) : list A := take i l ++ drop (S i) l.

(** Modelled from the spec: [BlockManager::getFreeBlock]
    (kvCacheManager.cpp is not under src/), eviction policy steps 1 to 4. *)
Definition getFreeBlock : B nat :=
  do m <- get;
  match policy m with
  | TakePrimary i =>
      match mFreePrimaryBlocks m !! i with
      | Some b =>
          run modify (setFree (delete_nth i (mFreePrimaryBlocks m)) (mFreeSecondaryBlocks m));
          ret b
      | None => throw (CapacityExceeded "OUT_OF_CACHE")
      end
  | OffloadThenTake i j =>
      match mFreePrimaryBlocks m !! i, mFreeSecondaryBlocks m !! j with
      | Some v, Some o =>
          run modify (setFree (delete_nth i (mFreePrimaryBlocks m))
                        (delete_nth j (mFreeSecondaryBlocks m)));
          run swapMemoryPoolBlockOffset o v;
          run modify (fun m' => setFree (mFreePrimaryBlocks m')
                                  (mFreeSecondaryBlocks m' ++ [v]) m');
          ret o
      | _, _ => throw (CapacityExceeded "OUT_OF_CACHE")
      end
  | OnboardSecondary j p =>
      match mFreePrimaryBlocks m, mFreeSecondaryBlocks m !! j with
      | [], Some o =>
          do bp <- getBlock p;
          run check (isPrimary bp && hasRefs bp) "no primary block to evict";
          run modify (setFree [] (delete_nth j (mFreeSecondaryBlocks m)));
          run swapMemoryPoolBlockOffset o p;
          ret o
      | _, _ => throw (CapacityExceeded "OUT_OF_CACHE")
      end
  end.

(** Modelled from the spec: [BlockManager::claimBlock]: a block found in
    the prefix tree leaves the free queue it may be waiting in. *)
Definition claimBlock (b : nat) : B unit :=
  modify (fun m => setFree (filter (fun x => x <> b) (mFreePrimaryBlocks m))
                     (filter (fun x => x <> b) (mFreeSecondaryBlocks m)) m).

(** Modelled from the spec: [BlockManager::releaseBlock]: the reference
    count drops; at zero the block is enqueued in the free queue of its pool,
    at the front to be evicted first, at the back to be kept longer. *)
Definition releaseBlock (b : nat) (toFront : bool) : B unit :=
  do blk <- getBlock b;
  run check (hasRefs blk) "decrementing refcount below zero";
  run updateBlock b decRefCount;
  if hasRefs (decRefCount blk) then ret tt
  else
    modify (fun m =>
      let enqueue (q : list nat) := if toFront then b :: q else q ++ [b] in
      if isPrimary blk
      then setFree (enqueue (mFreePrimaryBlocks m)) (mFreeSecondaryBlocks m) m
      else setFree (mFreePrimaryBlocks m) (enqueue (mFreeSecondaryBlocks m)) m).

(** Modelled from the spec: [BlockManager::onboardBlock]: a secondary block
    swaps its pool offset with a just-vacated primary block, which takes its
    place in the secondary pool; nothing happens to a primary block. *)
Definition onboardBlock (b : nat) : B unit :=
  do blk <- getBlock b;
  if isPrimary blk then ret tt
  else
    do f <- getFreeBlock;
    run swapMemoryPoolBlockOffset b f;
    modify (fun m => setFree (mFreePrimaryBlocks m) (mFreeSecondaryBlocks m ++ [f]) m).

(** Modelled from the spec: [BlockManager::addBlockToBeam]: the block gains
    a reference and joins the beam of the sequence and the blocks held by
    its slot. *)
Definition addBlockToBeam (b : nat) (sequence : GenerationRequest) (beamIdx : Z)
    : B GenerationRequest :=
  run updateBlock b incRefCount;
  do sequence' <- liftE (addCacheBlock beamIdx (Z.of_nat b) sequence);
  do m <- get;
  match mAllocatedBlocksPerSeq m !! mSeqSlotIdx sequence with
  | Some held =>
      run modify (setAllocated (<[mSeqSlotIdx sequence := held ++ [b]]>
                                  (mAllocatedBlocksPerSeq m)));
      ret sequence'
  | None => throw OutOfBounds
  end.

(** Modelled from the spec: [BlockManager::allocateBlock]: one block more
    for every beam, or one block shared by all beams. *)
Definition allocateBlock (sequence : GenerationRequest) (shareAmongBeams : bool)
    : B GenerationRequest :=
  let beamWidth := mBeamWidth sequence in
  if shareAmongBeams then
    do b <- getFreeBlock;
    forRange beamWidth (fun beamIdx sq => addBlockToBeam b sq beamIdx) sequence
  else
    forRange beamWidth (fun beamIdx sq =>
      do b <- getFreeBlock;
      addBlockToBeam b sq beamIdx) sequence.

(** Modelled from the spec: [BlockManager::addSequence] without reuse:
    [numBlocks] blocks, shared among the beams except the block at
    [unsharedBlockIdx], where every beam gets its own. *)
Definition addSequence (sequence : GenerationRequest) (numBlocks unsharedBlockIdx : Z)
    : B GenerationRequest :=
  forRange numBlocks (fun bi sq =>
    allocateBlock sq (negb (bool_decide (bi = unsharedBlockIdx)))) sequence.

Fixpoint forEach {S A X} (xs : list X) (body : X -> A -> ST S A) (acc : A) : ST S A :=
  match xs with
  | [] => ret acc
  | x :: xs' => bind (body x acc) (forEach xs' body)
  end.

(** Modelled from the spec: [BlockManager::addSequence] with reuse. The
    blocks [matched] by the walk of the prefix tree gain a reference and are
    attached to beam 0; the remainder is filled with fresh blocks. Returns
    the number of matched tokens with the sequence. *)
Definition addSequenceReuse (sequence : GenerationRequest) (matched : list nat)
    (numFresh : Z) : B (Z * GenerationRequest) :=
  do sq <- forEach matched (fun b sq =>
             run claimBlock b;
             run onboardBlock b;
             addBlockToBeam b sq 0) sequence;
  do sq <- forRange numFresh (fun _ sq =>
             do b <- getFreeBlock;
             addBlockToBeam b sq 0) sq;
  do m <- get;
  let numMatchedTokens := Z.of_nat (length matched) * mTokensPerBlock m in
  ret (numMatchedTokens, setNumPrepopulatedTokens [numMatchedTokens] sq).

(** Modelled from the spec: [BlockManager::releaseBlocks]: every block held
    by the slot of the sequence is released. Storing the full blocks in the
    prefix tree beforehand leaves counts and queues as they are. *)
Definition releaseBlocks (sequence : GenerationRequest) : B GenerationRequest :=
  do m <- get;
  match mAllocatedBlocksPerSeq m !! mSeqSlotIdx sequence with
  | Some held =>
      run modify (setAllocated (<[mSeqSlotIdx sequence := []]> (mAllocatedBlocksPerSeq m)));
      run forEach held (fun b _ => releaseBlock b false) tt;
      ret (clearCacheBlocks sequence)
  | None => throw OutOfBounds
  end.

(** The owner of the manager keeps the live sequences by slot and drives
    the manager. *)
Record Cache := mkCache {
  manager : BlockManager;
  sequences : gmap nat GenerationRequest
}.

Inductive Op :=
| OpAddSequence (slot : nat) (numTokens beamWidth numBlocks unsharedBlockIdx : Z)
| OpAddSequenceReuse (slot : nat) (numTokens : Z) (matched : list nat) (numFresh : Z)
| OpAllocateBlock (slot : nat) (shareAmongBeams : bool)
| OpReleaseBlocks (slot : nat).

Definition onManager {A} (m : B A) : ST Cache A :=
  fun c => let '(r, m') := m (manager c) in (r, mkCache m' (sequences c)).

Definition setSequence (slot : nat) (r : option GenerationRequest) : ST Cache unit :=
  fun c => (inr tt, mkCache (manager c)
                      (match r with
                       | Some x => <[slot := x]> (sequences c)
                       | None => delete slot (sequences c)
                       end)).

Definition getSequence (slot : nat) : ST Cache GenerationRequest :=
  fun c => match sequences c !! slot with
           | Some r => (inr r, c)
           | None => (inl OutOfBounds, c)
           end.

Definition freshSlot (slot : nat) : ST Cache unit :=
  fun c => match sequences c !! slot with
           | Some _ => (inl (LogicError "sequence slot is in use"), c)
           | None => (inr tt, c)
           end.

Definition step (o : Op) : ST Cache unit :=
  match o with
  | OpAddSequence slot numTokens beamWidth numBlocks unsharedBlockIdx =>
      run freshSlot slot;
      do request <- liftE (newRequest slot numTokens beamWidth);
      do sq <- onManager (addSequence request numBlocks unsharedBlockIdx);
      setSequence slot (Some sq)
  | OpAddSequenceReuse slot numTokens matched numFresh =>
      run freshSlot slot;
      do request <- liftE (newRequest slot numTokens 1);
      do '(_, sq) <- onManager (addSequenceReuse request matched numFresh);
      setSequence slot (Some sq)
  | OpAllocateBlock slot shareAmongBeams =>
      do sq <- getSequence slot;
      do sq' <- onManager (allocateBlock sq shareAmongBeams);
      setSequence slot (Some sq')
  | OpReleaseBlocks slot =>
      do sq <- getSequence slot;
      do _ <- onManager (releaseBlocks sq);
      setSequence slot None
  end.

Definition runOps (ops : list Op) : ST Cache unit :=
  forEach ops (fun o _ => step o) tt.

Definition newCache (tokensPerBlock blocksInPrimaryPool blocksInSecondaryPool : Z)
    (maxNumSequences : nat) : Cache :=
  mkCache (newBlockManager tokensPerBlock blocksInPrimaryPool blocksInSecondaryPool
             maxNumSequences) ∅.

End Manager.

End KvCache.

(** ** Hashing of token vectors (batch_manager/kvCacheManager.h) *)
Module TokenHash.

(** Arithmetic of [uint32_t]; [size_t] is 64 bits wide, as in [to_size_t]. *)
Definition to_uint32 (z : Z) : Z := z `mod` 2 ^ 32.

(** [y = ((y >> 16) ^ y) * 0x45d9f3b] on a [uint32_t]. *)
Definition mixRound (y : Z) : Z := to_uint32 (Z.lxor (Z.shiftr y 16) y * 0x45d9f3b).

(** The three statements of the loop body that scramble the token [x]. *)
Definition scramble (x : Z) : Z :=
  let y := to_uint32 x in
  let y := mixRound y in
  let y := mixRound y in
  Z.lxor (Z.shiftr y 16) y.

(** [seed ^= y + 0x9e3779b9 + (seed << 6) + (seed >> 2)]. The first sum is
    one of two [unsigned int] and wraps at 32 bits; the others are taken in
    [size_t]. *)
Definition combine (seed y : Z) : Z :=
  Z.lxor seed
    (to_size_t (to_size_t (to_uint32 (y + 0x9e3779b9) + to_size_t (Z.shiftl seed 6))
                + Z.shiftr seed 2)).

(** [std::hash<std::vector<int32_t>>::operator()]. *)
Definition hash (vec : list Z) : Z :=
  foldl (fun seed x => combine seed (scramble x)) (Z.of_nat (length vec)) vec.

End TokenHash.

(** ** MixtureOfExpertsPlugin: the numbering of its tensors
    (mixtureOfExpertsPlugin.h, the header that follows the layer in
    layers/penaltyLayer.cpp) *)
Module MoePlugin.

(** [nvinfer1::DataType], with the 8-bit float the plugin asks about. *)
Inductive DataType :=
  kFLOAT | kHALF | kINT8 | kINT32 | kBOOL | kUINT8 | kFP8 | kBF16 | kINT64 | kINT4.

#[global] Instance DataType_eq_dec : EqDecision DataType.
Proof. solve_decision. Defined.

(** [tensorrt_llm::common::QuantMode], through the predicates the plugin
    asks. *)
Record QuantMode := mkQuantMode {
  hasInt4Weights : bool;
  hasInt8Weights : bool;
  hasFp8Qdq : bool
}.

Section Plugin.

(** [tensorrt_llm::ActivationType] and [isGatedActivation] belong to the
    kernels. *)
Variable ActivationType : Type.
Variable isGatedActivation : ActivationType -> bool.

(** The members of the plugin its index functions read. *)
Record MixtureOfExpertsPlugin := mkPlugin {
  mActivationType : ActivationType;
  mOutputType : DataType;
  mQuantMode : QuantMode;
  mUseFinished : bool;
  mUseBias : bool;
  mSideStreamId : Z;
  mUseDeepSeek : bool;
  mUseDeepSeekWithNativeFp8Weights : bool;
  mUseLora : bool;
  mRemoveInputPadding : bool
}.

Definition hasBias (p : MixtureOfExpertsPlugin) : bool := mUseBias p.

Definition hasFinishedTensor (p : MixtureOfExpertsPlugin) : bool := mUseFinished p.

Definition hasExpertIntQuantScales (p : MixtureOfExpertsPlugin) : bool :=
  hasInt4Weights (mQuantMode p) || hasInt8Weights (mQuantMode p).

Definition hasExpertFp8QuantScales (p : MixtureOfExpertsPlugin) : bool :=
  hasFp8Qdq (mQuantMode p).

Definition hasExpertFp8FinalQuantScales (p : MixtureOfExpertsPlugin) : bool :=
  hasExpertFp8QuantScales p && bool_decide (mOutputType p = kFP8).

Definition useSideStream (p : MixtureOfExpertsPlugin) : bool :=
  bool_decide (mSideStreamId p > 0).

Definition hasLora (p : MixtureOfExpertsPlugin) : bool := mUseLora p.

Definition useDeepSeek (p : MixtureOfExpertsPlugin) : bool := mUseDeepSeek p.

Definition useDeepSeekWithNativeFp8Weights (p : MixtureOfExpertsPlugin) : bool :=
  mUseDeepSeekWithNativeFp8Weights p.

Definition hasGatedLoraWeightsAndRanks (p : MixtureOfExpertsPlugin) : bool :=
  mUseLora p && isGatedActivation (mActivationType p).

(** [getNbOutputs]. *)
Definition getNbOutputs (p : MixtureOfExpertsPlugin) : Z := 1 + Z.b2z (useSideStream p).

(** The index functions. An [IndexType] is an [int32_t] and a [bool] adds 0
    or 1; the sums stay below 32. *)
Definition getInputTensorIndex : Z := 0.

Definition getRoutingTensorIndex : Z := getInputTensorIndex + 1.

Definition getExpertWeights1Index : Z := getRoutingTensorIndex + 1.

Definition getExpertWeights2Index : Z := getExpertWeights1Index + 1.

Definition getExpertBias1Index (p : MixtureOfExpertsPlugin) : Z :=
  getExpertWeights2Index + Z.b2z (hasBias p).

Definition getExpertBias2Index (p : MixtureOfExpertsPlugin) : Z :=
  getExpertBias1Index p + Z.b2z (hasBias p).

Definition getFinishedTensorIndex (p : MixtureOfExpertsPlugin) : Z :=
  getExpertBias2Index p + Z.b2z (hasFinishedTensor p).

Definition getExpertDeepseekScale1Index (p : MixtureOfExpertsPlugin) : Z :=
  getFinishedTensorIndex p + Z.b2z (useDeepSeekWithNativeFp8Weights p).

Definition getExpertDeepseekScale2Index (p : MixtureOfExpertsPlugin) : Z :=
  getExpertDeepseekScale1Index p + Z.b2z (useDeepSeekWithNativeFp8Weights p).

Definition getExpertIntQuantScale1Index (p : MixtureOfExpertsPlugin) : Z :=
  getFinishedTensorIndex p + Z.b2z (hasExpertIntQuantScales p).

Definition getExpertIntQuantScale2Index (p : MixtureOfExpertsPlugin) : Z :=
  getExpertIntQuantScale1Index p + Z.b2z (hasExpertIntQuantScales p).

Definition getExpertFP8Dequant1Index (p : MixtureOfExpertsPlugin) : Z :=
  Z.max (getExpertIntQuantScale2Index p) (getExpertDeepseekScale2Index p)
  + Z.b2z (hasExpertFp8QuantScales p).

Definition getExpertFP8Quant2Index (p : MixtureOfExpertsPlugin) : Z :=
  getExpertFP8Dequant1Index p + Z.b2z (hasExpertFp8QuantScales p).

Definition getExpertFP8Dequant2Index (p : MixtureOfExpertsPlugin) : Z :=
  getExpertFP8Quant2Index p + Z.b2z (hasExpertFp8QuantScales p).

Definition getExpertFP8QuantFinalIndex (p : MixtureOfExpertsPlugin) : Z :=
  getExpertFP8Dequant2Index p + Z.b2z (hasExpertFp8FinalQuantScales p).

Definition getInputFP8DequantIndex (p : MixtureOfExpertsPlugin) : Z :=
  getExpertFP8QuantFinalIndex p + Z.b2z (hasExpertFp8QuantScales p && hasLora p).

Definition getLoraFC1WeightPtrsIndex (p : MixtureOfExpertsPlugin) : Z :=
  getInputFP8DequantIndex p + Z.b2z (hasLora p).

Definition getLoraFC1RanksIndex (p : MixtureOfExpertsPlugin) : Z :=
  getLoraFC1WeightPtrsIndex p + Z.b2z (hasLora p).

Definition getLoraFC2WeightPtrsIndex (p : MixtureOfExpertsPlugin) : Z :=
  getLoraFC1RanksIndex p + Z.b2z (hasLora p).

Definition getLoraFC2RanksIndex (p : MixtureOfExpertsPlugin) : Z :=
  getLoraFC2WeightPtrsIndex p + Z.b2z (hasLora p).

Definition getLoraGatedWeightPtrsIndex (p : MixtureOfExpertsPlugin) : Z :=
  getLoraFC2RanksIndex p + Z.b2z (hasGatedLoraWeightsAndRanks p).

Definition getLoraGatedRanksIndex (p : MixtureOfExpertsPlugin) : Z :=
  getLoraGatedWeightPtrsIndex p + Z.b2z (hasGatedLoraWeightsAndRanks p).

Definition getHostRequestTypeIndex (p : MixtureOfExpertsPlugin) : Z :=
  getLoraGatedRanksIndex p + Z.b2z (hasLora p).

Definition getHostContextLengthIndex (p : MixtureOfExpertsPlugin) : Z :=
  getHostRequestTypeIndex p + Z.b2z (mRemoveInputPadding p && hasLora p).

Definition getInputDummyTensorIndex (p : MixtureOfExpertsPlugin) : Z :=
  getHostContextLengthIndex p + Z.b2z (useSideStream p).

Definition getNbInputs (p : MixtureOfExpertsPlugin) : Z := getInputDummyTensorIndex p + 1.

Definition getOutputTensorIndex : Z := 0.

Definition getOutputDummyTensorIndex (p : MixtureOfExpertsPlugin) : Z :=
  getOutputTensorIndex + Z.b2z (useSideStream p).

(** The positions of the inner and of the outer dimension in the shape of
    the expert weights, and the weights packed into one element. *)
Definition getGemmShapeInnerDimIndex (p : MixtureOfExpertsPlugin) : Z :=
  if hasExpertIntQuantScales p then 1 else 2.

Definition getGemmShapeOuterDimIndex (p : MixtureOfExpertsPlugin) : Z :=
  if hasExpertIntQuantScales p then 2 else 1.

Definition getWeightPackedElements (p : MixtureOfExpertsPlugin) : Z :=
  if hasInt4Weights (mQuantMode p) then 2 else 1.

End Plugin.

Arguments mkPlugin {ActivationType} _ _ _ _ _ _ _ _ _ _.
Arguments mActivationType {ActivationType} _.
Arguments mOutputType {ActivationType} _.
Arguments mQuantMode {ActivationType} _.
Arguments mUseFinished {ActivationType} _.
Arguments mUseBias {ActivationType} _.
Arguments mSideStreamId {ActivationType} _.
Arguments mUseDeepSeek {ActivationType} _.
Arguments mUseDeepSeekWithNativeFp8Weights {ActivationType} _.
Arguments mUseLora {ActivationType} _.
Arguments mRemoveInputPadding {ActivationType} _.
Arguments hasBias {ActivationType} p.
Arguments hasFinishedTensor {ActivationType} p.
Arguments hasExpertIntQuantScales {ActivationType} p.
Arguments hasExpertFp8QuantScales {ActivationType} p.
Arguments hasExpertFp8FinalQuantScales {ActivationType} p.
Arguments useSideStream {ActivationType} p.
Arguments hasLora {ActivationType} p.
Arguments useDeepSeek {ActivationType} p.
Arguments useDeepSeekWithNativeFp8Weights {ActivationType} p.
Arguments hasGatedLoraWeightsAndRanks {ActivationType} isGatedActivation p.
Arguments getNbOutputs {ActivationType} p.
Arguments getExpertBias1Index {ActivationType} p.
Arguments getExpertBias2Index {ActivationType} p.
Arguments getFinishedTensorIndex {ActivationType} p.
Arguments getExpertDeepseekScale1Index {ActivationType} p.
Arguments getExpertDeepseekScale2Index {ActivationType} p.
Arguments getExpertIntQuantScale1Index {ActivationType} p.
Arguments getExpertIntQuantScale2Index {ActivationType} p.
Arguments getExpertFP8Dequant1Index {ActivationType} p.
Arguments getExpertFP8Quant2Index {ActivationType} p.
Arguments getExpertFP8Dequant2Index {ActivationType} p.
Arguments getExpertFP8QuantFinalIndex {ActivationType} p.
Arguments getInputFP8DequantIndex {ActivationType} p.
Arguments getLoraFC1WeightPtrsIndex {ActivationType} p.
Arguments getLoraFC1RanksIndex {ActivationType} p.
Arguments getLoraFC2WeightPtrsIndex {ActivationType} p.
Arguments getLoraFC2RanksIndex {ActivationType} p.
Arguments getLoraGatedWeightPtrsIndex {ActivationType} isGatedActivation p.
Arguments getLoraGatedRanksIndex {ActivationType} isGatedActivation p.
Arguments getHostRequestTypeIndex {ActivationType} isGatedActivation p.
Arguments getHostContextLengthIndex {ActivationType} isGatedActivation p.
Arguments getInputDummyTensorIndex {ActivationType} isGatedActivation p.
Arguments getNbInputs {ActivationType} isGatedActivation p.
Arguments getOutputDummyTensorIndex {ActivationType} p.
Arguments getGemmShapeInnerDimIndex {ActivationType} p.
Arguments getGemmShapeOuterDimIndex {ActivationType} p.
Arguments getWeightPackedElements {ActivationType} p.

End MoePlugin.

(** * Vocabulary of the properties *)

(** ** Host code *)

(** Host code that issues no runtime call. *)
Definition silent {A} (m : M A) : Prop :=
  forall w r w', m w = (r, w') -> wTrace w' = wTrace w.

(** Host code that leaves the world as it is. *)
Definition readonly {S A} (m : ST S A) : Prop :=
  forall w r w', m w = (r, w') -> w' = w.

(** Success triples for host code. *)
Definition hoare {S A} (P : S -> Prop) (m : ST S A) (Q : A -> S -> Prop) : Prop :=
  forall s a s', P s -> m s = (inr a, s') -> Q a s'.

(** The runtime calls a piece of host code adds to the record. *)
Definition eventsOf {A} (m : M A) (w : World) : list Event :=
  drop (length (wTrace w)) (wTrace (snd (m w))).

(** ** GptDecoder *)

Section DecoderVocabulary.
Import GptDecoder.

(** The four conditions [gatherTree] checks on the shapes. *)
Definition gatherTreePreconditions (finalOutputIds : ITensor)
    (decodingOutput : DecodingOutput) : Prop :=
  d (getShape finalOutputIds) 1 > 1
  /\ d (getShape (ids decodingOutput)) 0 = d (getShape finalOutputIds) 0
  /\ d (getShape (ids decodingOutput)) 1 = d (getShape finalOutputIds) 1
  /\ d (getShape (ids decodingOutput)) 2 <= d (getShape finalOutputIds) 2.

(** The host array [forward] sums: the caller's [finishedSum], or the buffer
    [forward] allocates when the caller gave none. *)
Definition finishedSumHost (output : DecodingOutput) (w : World) : BufferId :=
  match finishedSum output with
  | Some fs => bufferCast fs
  | None => fresh (dom (wStore w))
  end.

(** The sum [forward] takes over the [n] slots, in int32 arithmetic. *)
Definition sumFinished (s : Store) (p : BufferId) (n : Z) : Z :=
  foldl (fun acc bi => wrap_int32 (acc + Kernels.getAt s (Some p) (Z.of_nat bi)))
        0 (seq 0 (Z.to_nat n)).

(** Both inputs [forward] needs to report completion are there. *)
Definition bothProvided (output : DecodingOutput) (input : DecodingInput) : Prop :=
  is_Some (sequenceLimitLength input) /\ is_Some (outFinished output).

(** The argument block [gatherTree] hands to the kernels. *)
Definition beamHypothesesOf {LayerState} (dec : Decoder LayerState) (finalOutputIds : ITensor)
    (decodingOutput : DecodingOutput) (decodingInput : DecodingInput)
    : option Kernels.BeamHypotheses :=
  let b := beamHypotheses decodingOutput in
  seq_len ← outLengths decodingOutput;
  parent_ids_src ← parentIds decodingOutput;
  output_ids_cba ← outputIdsTgt b;
  seq_len_cba ← sequenceLengthsTgt b;
  cum_log_probs_cba ← bhCumLogProbs b;
  normed_scores_cba ← normedScores b;
  log_probs_cba ← bhLogProbs b;
  min_normed_scores ← minNormedScores b;
  num_beams ← numBeams b;
  is_done ← isDone b;
  input_lengths ← lengths decodingInput;
  cum_log_probs ← outCumLogProbs decodingOutput;
  finished ← outFinished decodingOutput;
  Some (Kernels.mkBeamHypotheses
          (d (getShape finalOutputIds) 0) (d (getShape finalOutputIds) 1)
          (d (getShape finalOutputIds) 2) None
          (Some (data input_lengths)) (Some (data output_ids_cba)) (Some (data seq_len_cba))
          (Some (data cum_log_probs_cba)) (Some (data normed_scores_cba))
          (Some (data log_probs_cba)) (Some (data min_normed_scores))
          (Some (data num_beams)) (Some (data is_done))
          (Some (data (ids decodingOutput))) (Some (data parent_ids_src))
          (Some (data seq_len)) (Some (data (mLogProbsTiled dec)))
          (Some (data cum_log_probs)) (Some (data finished))
          (Some (data finalOutputIds))).

(** The memory effect of a [gatherTree] that passes its checks. *)
Definition gatherTreeStore (normScore : Z -> Z -> Z) (scoreLtb : Z -> Z -> bool)
    (bh : Kernels.BeamHypotheses) (finalOutputIds endIds : BufferId) (s : Store) : Store :=
  Kernels.invokeFinalize scoreLtb bh
    (Kernels.invokeInsertUnfinishedPath normScore bh
       (Kernels.invokeInitializeOutput finalOutputIds endIds
          (wrap_int32 (Kernels.batch_size bh * Kernels.beam_width bh))
          (Kernels.max_seq_len bh) s)).

(** The argument block the wrapper hands to the kernel. *)
Definition acceptByIdsArgs (targetTokenIds draftTokenIds contextLengths numDraftTokens
    sequenceLengths finishedVec finishedFinal finishedSum batchSlots : ITensor)
    : Kernels.AcceptByIds :=
  Kernels.mkAcceptByIds (bufferCast draftTokenIds) (bufferCast targetTokenIds)
    (bufferCast contextLengths) (bufferCast numDraftTokens)
    (bufferCast sequenceLengths) (bufferCast finishedVec)
    (bufferCast finishedFinal) (bufferCast finishedSum) (bufferCast batchSlots)
    (d (getShape batchSlots) 0) (d (getShape finishedVec) 1)
    (d (getShape targetTokenIds) 1) (d (getShape targetTokenIds) 2)
    (d (getShape draftTokenIds) 1).

End DecoderVocabulary.

(** ** Kernels *)

Section KernelVocabulary.
Import Kernels.









(** No beam is still live: every batch entry is done or has all its beams
    in a terminal state. *)
Definition noLiveBeams (bh : BeamHypotheses) (s : Store) : Prop :=
  forall bid, (bid < Z.to_nat (batch_size bh))%nat ->
    getAt s (is_done bh) (Z.of_nat bid) <> 0
    \/ forall i, (i < Z.to_nat (beam_width bh))%nat ->
         isFinished (getAt s (finished bh) (Z.of_nat bid * beam_width bh + Z.of_nat i)) = true.

(** The final buffer is not one of the buffers the finalisation reads. *)
Definition finalApart (bh : BeamHypotheses) (fid endIds : BufferId) : Prop :=
  Some fid ∉ [Some endIds; is_done bh; finished bh; output_ids_cba bh; seq_len_cba bh;
              normed_scores_cba bh; num_beams bh].

(** The final buffer holds no more than the rows the initialisation fills. *)
Definition finalFits (bh : BeamHypotheses) (fid : BufferId) (s : Store) : Prop :=
  (length (bufOf s (Some fid))
   <= Z.to_nat (wrap_int32 (batch_size bh * beam_width bh)) * Z.to_nat (max_seq_len bh))%nat.

End KernelVocabulary.

(** ** PenaltyLayer *)

Section PenaltyVocabulary.
Import PenaltyLayer.

(** Host code of the layer whose effect on the layer object stays within a
    relation. *)
Definition keeps {A} (R : Layer -> Layer -> Prop) (m : L A) : Prop :=
  forall lw r lw', m lw = (r, lw') -> R (fst lw) (fst lw').

(** Flags only grow; flags stay. *)
Definition flagsLe (l l' : Layer) : Prop := forall c, mUse c l = true -> mUse c l' = true.

Definition flagsEq (l l' : Layer) : Prop := forall c, mUse c l' = mUse c l.

(** What a [setup] with penalty parameters [p] contributes to the flag of a
    class. *)
Definition enables (c : DecodingPenaltyType) (p : PenaltyParams) (l : Layer) : bool :=
  modeUses c (mDecodingMode l) && hasValue (paramOf c p).

End PenaltyVocabulary.

(** ** Block manager *)

Section CacheVocabulary.
Import KvCache.

(** Number of occurrences of a block in a list of blocks. *)
Definition count (i : nat) (l : list nat) : nat := length (filter (fun x => x = i) l).

#[global] Arguments count : simpl never.

(** Reference count and pool of a block, by index; the number of blocks;
    the blocks held by the sequence slots; the blocks waiting in a free queue;
    the blocks of the primary pool. *)
Definition refOf (m : BlockManager) (i : nat) : Z :=
  default 0 (mRefCount <$> mAllBlocksByIdx m !! i).

Definition primOf (m : BlockManager) (i : nat) : bool :=
  default false (isPrimary <$> mAllBlocksByIdx m !! i).

Definition numBlocks (m : BlockManager) : nat := length (mAllBlocksByIdx m).

Definition heldBlocks (m : BlockManager) : list nat := concat (mAllocatedBlocksPerSeq m).

Definition queued (m : BlockManager) : list nat :=
  mFreePrimaryBlocks m ++ mFreeSecondaryBlocks m.

Definition primaries (m : BlockManager) : list nat :=
  filter (fun i => primOf m i = true) (seq 0 (numBlocks m)).

(** The bookkeeping of the manager, with [claimed] blocks taken out of a
    free queue and not yet handed to a sequence, and [pending] references
    taken from a sequence and not yet released. *)
Record Inv (P N : nat) (live : nat -> Prop) (claimed pending : list nat) (m : BlockManager)
    : Prop := mkInv {
  inv_nodup : NoDup (queued m ++ claimed);
  inv_freeP : forall i, i ∈ mFreePrimaryBlocks m ->
                (i < numBlocks m)%nat /\ refOf m i = 0 /\ primOf m i = true;
  inv_freeS : forall i, i ∈ mFreeSecondaryBlocks m ->
                (i < numBlocks m)%nat /\ refOf m i = 0 /\ primOf m i = false;
  inv_claimed : forall i, i ∈ claimed -> (i < numBlocks m)%nat /\ refOf m i = 0;
  inv_zero : forall i, (i < numBlocks m)%nat -> refOf m i = 0 -> i ∈ queued m ++ claimed;
  inv_refs : forall i, (i < numBlocks m)%nat ->
               refOf m i = Z.of_nat (count i (pending ++ heldBlocks m));
  inv_range : forall i, i ∈ pending ++ heldBlocks m -> (i < numBlocks m)%nat;
  inv_prim : length (primaries m) = P;
  inv_live : forall slot l, mAllocatedBlocksPerSeq m !! slot = Some l -> l <> [] -> live slot;
  inv_size : numBlocks m = N
}.

(** The table of all blocks with one entry replaced. *)
Definition updBlock (x : nat) (b : KVCacheBlock) (m : BlockManager) : BlockManager :=
  setBlocks (<[x := b]> (mAllBlocksByIdx m)) m.

(** Two blocks outside the free queues exchange their pool offsets. *)
Definition swapped (x y : nat) (bx by_ : KVCacheBlock) (m : BlockManager) : BlockManager :=
  updBlock y (withOffset (mMemoryPoolBlockOffset bx) by_)
    (updBlock x (withOffset (mMemoryPoolBlockOffset by_) bx) m).

(** A request keeps its slot and its beam width. *)
Definition sameSequence (s : nat) (w : Z) (sq : GenerationRequest) : Prop :=
  mSeqSlotIdx sq = s /\ mBeamWidth sq = w.

(** Every sequence has at least one beam. *)
Definition opWellFormed (o : Op) : bool :=
  match o with
  | OpAddSequence _ _ beamWidth _ _ => bool_decide (1 <= beamWidth)
  | _ => true
  end.

(** The slots with a sequence; the bookkeeping of the cache at rest. *)
Definition liveSlot (c : Cache) (s : nat) : Prop := is_Some (sequences c !! s).

Definition CacheInv (P N : nat) (c : Cache) : Prop :=
  Inv P N (liveSlot c) [] [] (manager c)
  /\ forall s r, sequences c !! s = Some r -> mSeqSlotIdx r = s /\ 1 <= mBeamWidth r.

End CacheVocabulary.

(** ** GptDecoder: inputs, events, acceptance *)

Section DecoderInputsVocabulary.
Import GptDecoder.

(** The logits [prepareInputs] looks at have the element type of the
    decoder: every tensor of [logitsVec] when it is given, else [logits]. *)
Definition logitsWellTyped (T : Precision) (input : DecodingInput) : Prop :=
  match logitsVec input with
  | Some v => Forall (fun t => getDataType t = TRTDataType T) v
  | None => exists t, logits input = Some t /\ getDataType t = TRTDataType T
  end.

(** They are there, but one of them has another element type. *)
Definition logitsOfOtherType (T : Precision) (input : DecodingInput) : Prop :=
  match logitsVec input with
  | Some v => Exists (fun t => getDataType t <> TRTDataType T) v
  | None => exists t, logits input = Some t /\ getDataType t <> TRTDataType T
  end.

(** Bad words come with their lengths. *)
Definition badWordsComplete (input : DecodingInput) : Prop :=
  is_Some (badWordsPtrs input) -> is_Some (badWordsLens input).

(** The runtime calls of a [forward] that returns. *)
Definition forwardEvents (output : DecodingOutput) (input : DecodingInput) : list Event :=
  match sequenceLimitLength input, outFinished output with
  | Some _, Some _ =>
      match finishedSum output with
      | Some _ => []
      | None => [EvPinnedAlloc (maxBatchSize input)]
      end ++ [EvLayerForward; EvStreamSynchronize]
  | _, _ => [EvLayerForward]
  end.

(** Batch index [bi] of the Medusa inputs names slot [slot]. *)
Definition medusaSlot (input : DecodingInput) (s : Store) (bi slot : Z) : Prop :=
  exists t, batchSlots input = Some t /\ loadAt s (bufferCast t) bi = inr slot.

(** Slot [slot] is one of the first [batchSize] batch slots. *)
Definition inMedusaBatch (input : DecodingInput) (s : Store) (batchSize : Z) (slot : Z) : Prop :=
  exists bi, 0 <= bi < batchSize /\ medusaSlot input s bi slot.

(** The table after the first [j] batch indices. *)
Definition reindexed (ml : list (list (option ITensor))) (s : Store) (slots : BufferId)
    (n : Z) (j : Z) (acc : list (list (option ITensor))) : Prop :=
  0 <= j
  /\ length acc = Z.to_nat n
  /\ (forall bi, 0 <= bi < j ->
        exists slot, loadAt s slots bi = inr slot
                     /\ 0 <= slot < Z.of_nat (length ml) /\ slot < n)
  /\ (forall k, (k < Z.to_nat n)%nat ->
        ((exists bi, 0 <= bi < j /\ loadAt s slots bi = inr (Z.of_nat k)) ->
           acc !! k = ml !! k)
        /\ (~ (exists bi, 0 <= bi < j /\ loadAt s slots bi = inr (Z.of_nat k)) ->
           acc !! k = Some [])).

(** The runtime calls of a [gatherTree] that returns. *)
Definition gatherTreeEvents : list Event :=
  [EvKernel "invokeInitializeOutput"; EvSyncCheck;
   EvKernel "invokeInsertUnfinishedPath"; EvSyncCheck;
   EvKernel "invokeFinalize"; EvSyncCheck].

(** The six conditions [acceptDraftTokensByIds] checks on the shapes. *)
Definition acceptByIdsPreconditions (targetTokenIds draftTokenIds contextLengths
    numDraftTokens sequenceLengths finishedVec batchSlots : ITensor) : Prop :=
  let maxBatchSize := d (getShape finishedVec) 1 in
  d (getShape targetTokenIds) 1 = 1
  /\ d (getShape batchSlots) 0 <= maxBatchSize
  /\ d (getShape draftTokenIds) 0 = maxBatchSize
  /\ d (getShape contextLengths) 0 = maxBatchSize
  /\ d (getShape numDraftTokens) 0 = maxBatchSize
  /\ d (getShape sequenceLengths) 0 = maxBatchSize.

(** The kernel instantiation [acceptDraftTokensByLogits] launches for logits
    of an element type, if any. *)
Definition byLogitsKernel (ty : DataType) : option string :=
  match ty with
  | kFLOAT => Some "acceptDraftTokensByLogits<float>"
  | kHALF => Some "acceptDraftTokensByLogits<half>"
  | _ => None
  end.

End DecoderInputsVocabulary.

(** ** PenaltyLayer: the rolling table, the configuration and a step *)

Section PenaltyStepVocabulary.
Import PenaltyLayer.

(** The rolling table has one row per step of [mRuntimeMaxSeqLen], and the
    cyclic step is not negative. *)
Definition tableInStep (l : Layer) : Prop :=
  length (mLogitsPtrsHost l) = Z.to_nat (mRuntimeMaxSeqLen l) /\ 0 <= mCyclicStep l.

(** The rolling table, the cyclic step and its period stay. *)
Definition stepEq (l l' : Layer) : Prop :=
  mLogitsPtrsHost l' = mLogitsPtrsHost l
  /\ mCyclicStep l' = mCyclicStep l
  /\ mRuntimeMaxSeqLen l' = mRuntimeMaxSeqLen l.

(** The configured beam width and the decoding mode stay. *)
Definition configEq (l l' : Layer) : Prop :=
  mConfiguredBeamWidth l' = mConfiguredBeamWidth l /\ mDecodingMode l' = mDecodingMode l.

(** The configuration and the device arrays of the penalty classes stay,
    and a flag is only raised for a class the decoding mode uses. *)
Definition settled (l l' : Layer) : Prop :=
  configEq l l'
  /\ (forall c, mDevice c l' = mDevice c l)
  /\ (forall c, mUse c l' = true -> mUse c l = true \/ modeUses c (mDecodingMode l) = true).

(** Every class in use is one the decoding mode uses, and every class the
    decoding mode uses has its device array. *)
Definition equipped (l : Layer) : Prop :=
  forall c, (mUse c l = true -> modeUses c (mDecodingMode l) = true)
            /\ (modeUses c (mDecodingMode l) = true -> is_Some (mDevice c l)).

(** The rolling table holds no pointer: [mLogitsPtrsHost->data()] is null. *)
Definition tableUnallocated (l : Layer) : Prop := concat (mLogitsPtrsHost l) = [].

(** The allocation a step issues for the rolling table. *)
Definition tableEvents (outputs : BaseDecodingOutputs) (l : Layer) : list Event :=
  if decide (tableUnallocated l)
  then [EvPinnedAlloc (List.last (getShape (outputIds outputs)) 0
                       * getBatchSize (mDecoderDomain l))]
  else [].

(** The runtime calls of a [forwardAsync] that returns, when the caller
    gave the batch slots. *)
Definition forwardAsyncEvents (outputs : BaseDecodingOutputs) (l : Layer) : list Event :=
  tableEvents outputs l ++ [EvKernel "invokeBatchApplyPenalty"; EvSyncCheck].

(** A helper that hands out a tensor and leaves the buffers that exist as
    they are. *)
Definition handsOut (m : M ITensor) : Prop :=
  forall w, exists t w',
    m w = (inr t, w')
    /\ forall p, is_Some (wStore w !! p) -> wStore w' !! p = wStore w !! p.

(** The penalty array of a class in the argument block of the kernel. *)
Definition kernelArray (c : DecodingPenaltyType) (kp : InvokeBatchApplyPenaltyParams)
    : option BufferId :=
  match c with
  | Temperature => k_temperatures kp
  | Repetition => k_repetitionPenalties kp
  | Presence => k_presencePenalties kp
  | Frequency => k_frequencyPenalties kp
  | MinLength => k_minLengths kp
  end.

(** Memory after the kernel ran on [s] with the argument block [kp]: the
    workspace and the runtime logits of the layer hold what the kernel
    computed. *)
Definition kernelStore (kernel : InvokeBatchApplyPenaltyParams -> Store -> list Z * list Z)
    (l : Layer) (kp : InvokeBatchApplyPenaltyParams) (s : Store) : Store :=
  Kernels.setBuf
    (Kernels.setBuf s (data <$> mPenaltyWorkspaceDevice l) (fun _ => snd (kernel kp s)))
    (Some (data (mRuntimeLogitsDevice l))) (fun _ => fst (kernel kp s)).

(** The view of the runtime logits a step leaves in [logits]. *)
Definition runtimeLogitsView (l : Layer) (localDecoderDomain : DecoderDomain) : ITensor :=
  mkTensor (getDataType (mRuntimeLogitsDevice l))
    [getBatchSize localDecoderDomain; getMaxDecodingTokens (mDecoderDomain l);
     getBeamWidth localDecoderDomain; getVocabSizePadded (mDecoderDomain l)]
    (data (mRuntimeLogitsDevice l)).

(** The logits of the first [n] batch indices are there: one tensor per
    batch index in [logitsVec], or else at least [n] rows of [logits]. *)
Definition logitsGiven (params : DecodingInputs) (n : Z) : Prop :=
  match logitsVec params with
  | Some v => Z.of_nat (length v) = n
  | None => exists t, logits params = Some t /\ n <= d (getShape t) 0
  end.

(** A step the layer is ready for: the local domain is resolved and its
    batch fits into a row of the rolling table, the table is in step and its
    rows have one entry per slot, the output ids have a sequence dimension,
    and the logits and the sequence lengths are there. *)
Definition stepReady
    (getLocalDecoderDomain : DecodingInputs -> DecoderDomain -> Error + DecoderDomain)
    (outputs : BaseDecodingOutputs) (params : DecodingInputs) (l : Layer) : Prop :=
  exists localDecoderDomain,
    getLocalDecoderDomain params (mDecoderDomain l) = inr localDecoderDomain
    /\ getBatchSize localDecoderDomain <= getBatchSize (mDecoderDomain l)
    /\ tableInStep l
    /\ Forall (fun row => length row = Z.to_nat (getBatchSize (mDecoderDomain l)))
         (mLogitsPtrsHost l)
    /\ 0 < List.last (getShape (outputIds outputs)) 0
    /\ logitsGiven params (getBatchSize localDecoderDomain)
    /\ is_Some (sequenceLength outputs).

End PenaltyStepVocabulary.

(** ** Token vectors and requests *)

Section RequestVocabulary.
Import KvCache.

(** A value of [int32_t]. *)
Definition isInt32 (x : Z) : Prop := - 2 ^ 31 <= x < 2 ^ 31.

(** The mutators of [GenerationRequest]. *)
Inductive RequestOp :=
| ReqAddNewTokens (n : Z)
| ReqRemoveTokens (n : Z)
| ReqAddCacheBlock (beamIdx blockIdx : Z)
| ReqChangeCacheBlock (beamIdx pagedBlockIdx blockIdx : Z)
| ReqClearCacheBlocks
| ReqRemoveLastBlock
| ReqSetNumPrepopulatedTokens (n : list Z).

Definition applyRequestOp (o : RequestOp) (r : GenerationRequest) : Error + GenerationRequest :=
  match o with
  | ReqAddNewTokens n => inr (addNewTokens n r)
  | ReqRemoveTokens n => removeTokens n r
  | ReqAddCacheBlock beamIdx blockIdx => addCacheBlock beamIdx blockIdx r
  | ReqChangeCacheBlock beamIdx pagedBlockIdx blockIdx =>
      changeCacheBlock beamIdx pagedBlockIdx blockIdx r
  | ReqClearCacheBlocks => inr (clearCacheBlocks r)
  | ReqRemoveLastBlock => removeLastBlock r
  | ReqSetNumPrepopulatedTokens n => inr (setNumPrepopulatedTokens n r)
  end.

(** A sequence of mutators, up to the first that throws. *)
Fixpoint applyRequestOps (os : list RequestOp) (r : GenerationRequest)
    : Error + GenerationRequest :=
  match os with
  | [] => inr r
  | o :: os' =>
      match applyRequestOp o r with
      | inl e => inl e
      | inr r' => applyRequestOps os' r'
      end
  end.

(** One block more for every beam, as [allocateBlock] attaches them:
    [addCacheBlock] for the beams in turn, block [blockOf beamIdx] for beam
    [beamIdx]. *)
Definition addBlockPerBeam (blockOf : Z -> Z) (r : GenerationRequest)
    : Error + GenerationRequest :=
  fst (forRange (mBeamWidth r)
         (fun beamIdx sq => liftE (addCacheBlock beamIdx (blockOf beamIdx) sq)) r tt).

End RequestVocabulary.

(** ** MixtureOfExpertsPlugin *)

Section PluginVocabulary.
Import MoePlugin.
Context {ActivationType : Type}.
Variable isGatedActivation : ActivationType -> bool.

(** The input tensors in the order of their index functions, each with the
    condition under which the plugin takes it. *)
Definition inputTensors (p : MixtureOfExpertsPlugin ActivationType) : list (bool * Z) :=
  [ (true, getInputTensorIndex);
    (true, getRoutingTensorIndex);
    (true, getExpertWeights1Index);
    (true, getExpertWeights2Index);
    (hasBias p, getExpertBias1Index p);
    (hasBias p, getExpertBias2Index p);
    (hasFinishedTensor p, getFinishedTensorIndex p);
    (useDeepSeekWithNativeFp8Weights p, getExpertDeepseekScale1Index p);
    (useDeepSeekWithNativeFp8Weights p, getExpertDeepseekScale2Index p);
    (hasExpertIntQuantScales p, getExpertIntQuantScale1Index p);
    (hasExpertIntQuantScales p, getExpertIntQuantScale2Index p);
    (hasExpertFp8QuantScales p, getExpertFP8Dequant1Index p);
    (hasExpertFp8QuantScales p, getExpertFP8Quant2Index p);
    (hasExpertFp8QuantScales p, getExpertFP8Dequant2Index p);
    (hasExpertFp8FinalQuantScales p, getExpertFP8QuantFinalIndex p);
    (hasExpertFp8QuantScales p && hasLora p, getInputFP8DequantIndex p);
    (hasLora p, getLoraFC1WeightPtrsIndex p);
    (hasLora p, getLoraFC1RanksIndex p);
    (hasLora p, getLoraFC2WeightPtrsIndex p);
    (hasLora p, getLoraFC2RanksIndex p);
    (hasGatedLoraWeightsAndRanks isGatedActivation p,
       getLoraGatedWeightPtrsIndex isGatedActivation p);
    (hasGatedLoraWeightsAndRanks isGatedActivation p,
       getLoraGatedRanksIndex isGatedActivation p);
    (hasLora p, getHostRequestTypeIndex isGatedActivation p);
    (mRemoveInputPadding p && hasLora p, getHostContextLengthIndex isGatedActivation p);
    (useSideStream p, getInputDummyTensorIndex isGatedActivation p) ].

(** The indices of the tensors the plugin takes. *)
Definition usedInputIndices (p : MixtureOfExpertsPlugin ActivationType) : list Z :=
  omap (fun t : bool * Z => if fst t then Some (snd t) else None) (inputTensors p).

(** Both kinds of scales are asked for: those of the weight-only integer
    quantisation and those of the DeepSeek FP8 weights. *)
Definition bothScales (p : MixtureOfExpertsPlugin ActivationType) : Prop :=
  hasExpertIntQuantScales p = true /\ useDeepSeekWithNativeFp8Weights p = true.

End PluginVocabulary.

(** * Concrete runs *)

Section GatherTreeExample.
Import GptDecoder.

(** One request, two beams, two tokens each. Both beams are still live and
    the candidate-beam-array is empty. *)
Definition gtFinalOutputIds : ITensor := mkTensor kINT32 [1; 2; 2] 0%nat.

Definition gtEndIds : ITensor := mkTensor kINT32 [2] 1%nat.

Definition gtStore (finishedFlags : list Z) : Store :=
  list_to_map
    [ (0%nat, [0; 0; 0; 0]);            (* finalOutputIds [1, 2, 2] *)
      (1%nat, [7; 7]);                  (* endIds *)
      (2%nat, [5; 6; 5; 8]);            (* ids [1, 2, 2] *)
      (3%nat, [0; 0; 1; 1]);            (* parentIds [1, 2, 2] *)
      (4%nat, [2; 2]);                  (* lengths [1, 2] *)
      (5%nat, [-2; -4]);                (* cumLogProbs [1, 2] *)
      (6%nat, finishedFlags);           (* finished [1, 2] *)
      (7%nat, replicate 8 0);           (* outputIdsTgt [1, 4, 2] *)
      (8%nat, replicate 4 0);           (* sequenceLengthsTgt [1, 4] *)
      (9%nat, replicate 4 0);           (* cumLogProbs of the CBA [1, 4] *)
      (10%nat, replicate 4 0);          (* normedScores [1, 4] *)
      (11%nat, replicate 8 0);          (* logProbs of the CBA [1, 4, 2] *)
      (12%nat, [0]);                    (* minNormedScores [1] *)
      (13%nat, [0]);                    (* numBeams [1] *)
      (14%nat, [0]);                    (* isDone [1] *)
      (15%nat, [1; 1]);                 (* input lengths [1, 2] *)
      (16%nat, replicate 4 0) ].        (* tiled log probs *)

Definition gtOutput (idsShape : list Z) : DecodingOutput :=
  mkDecodingOutput (mkTensor kINT32 idsShape 2%nat) (mkTensor kINT32 [1; 2] 2%nat)
    (Some (mkTensor kUINT8 [1; 2] 6%nat)) None
    (Some (mkTensor kFLOAT [1; 2] 5%nat))
    (Some (mkTensor kINT32 [1; 2; 2] 3%nat))
    (Some (mkTensor kINT32 [1; 2] 4%nat))
    None None
    (mkOutBeamHypotheses
       (Some (mkTensor kINT32 [1; 4; 2] 7%nat)) (Some (mkTensor kINT32 [1; 4] 8%nat))
       (Some (mkTensor kFLOAT [1; 4] 9%nat)) (Some (mkTensor kFLOAT [1; 4] 10%nat))
       (Some (mkTensor kFLOAT [1; 4; 2] 11%nat)) (Some (mkTensor kFLOAT [1] 12%nat))
       (Some (mkTensor kINT32 [1] 13%nat)) (Some (mkTensor kBOOL [1] 14%nat)))
    None.

Definition gtInput : DecodingInput :=
  mkDecodingInput 2 2 2 0 1 0 0 gtEndIds None None None None None
    (Some (mkTensor kINT32 [1; 2] 15%nat)) None None None None None None None.

Definition gtDecoder : Decoder unit := mkDecoder 1 (mkTensor kFLOAT [1; 2; 2] 16%nat) tt.

Definition gtWorld (finishedFlags : list Z) : World := mkWorld (gtStore finishedFlags) [].

(** The same request at its end: both beams are finished and their two
    hypotheses are in the candidate-beam-array, [5, 6] with normed score -2
    and [5, 8] with normed score -1. *)
Definition gtFinishedStore : Store :=
  <[7%nat := [5; 6; 5; 8; 0; 0; 0; 0]]>
    (<[8%nat := [2; 2; 0; 0]]>
       (<[9%nat := [-4; -2; 0; 0]]>
          (<[10%nat := [-2; -1; 0; 0]]>
             (<[13%nat := [2]]> (gtStore [1; 1]))))).

Definition gtFinishedWorld : World := mkWorld gtFinishedStore [].

(** Scores as integers: the length-normalised score is the quotient and
    the order the order of the integers. *)
Definition gtGatherTree (idsShape : list Z) : M unit :=
  gatherTree Z.div Z.ltb gtDecoder gtFinalOutputIds (gtOutput idsShape) gtInput.

(** The final output ids of the example. *)
Definition finalOf (w : World) : list Z := Kernels.bufOf (wStore w) (Some 0%nat).

(** The argument block of the example. *)
Definition gtBeamHypotheses : Kernels.BeamHypotheses :=
  default (Kernels.mkBeamHypotheses 0 0 0 None None None None None None None None None None
             None None None None None None None)
    (beamHypothesesOf gtDecoder gtFinalOutputIds (gtOutput [1; 2; 2]) gtInput).

End GatherTreeExample.

Section ForwardExample.
Import GptDecoder.

(** A stand-in for the decoding layers, reduced to the bookkeeping of
    finished slots: it samples nothing and, for every slot of the batch,
    leaves in [finishedSum] the number of finished beams of the slot (beam
    width 1). *)
Definition countFinishedLayer (l : unit) (o : OutputParams) (f : ForwardParams) (s : Store)
    : Error + (unit * Store) :=
  match op_finished o, op_finished_sum o with
  | Some fin, Some fs =>
      inr (tt, foldl (fun s' bi =>
                        Kernels.setAt s' (Some (data fs)) (Z.of_nat bi)
                          (if Kernels.isFinished (Kernels.getAt s' (Some (data fin)) (Z.of_nat bi))
                           then 1 else 0))
                     s (seq 0 (Z.to_nat (fp_local_batch_size f))))
  | _, _ => inr (tt, s)
  end.

(** Two slots, beam width 1, vocabulary of three words. *)
Definition fwStore (finishedFlags : list Z) : Store :=
  list_to_map
    [ (0%nat, replicate 8 0);           (* ids [2, 1, 4] *)
      (1%nat, [0; 0]);                  (* newTokens [2, 1] *)
      (2%nat, finishedFlags);           (* finished [2, 1] *)
      (3%nat, replicate 6 0);           (* logits [2, 1, 3] *)
      (4%nat, [2; 2]);                  (* endIds [2] *)
      (5%nat, [4; 4]);                  (* sequenceLimitLength [2] *)
      (6%nat, [9; 9]);                  (* finishedSum [2], stale *)
      (7%nat, replicate 6 0) ].         (* tiled log probs *)

Definition fwWorld (finishedFlags : list Z) : World := mkWorld (fwStore finishedFlags) [].

Definition fwOutput : DecodingOutput :=
  mkDecodingOutput (mkTensor kINT32 [2; 1; 4] 0%nat) (mkTensor kINT32 [2; 1] 1%nat)
    (Some (mkTensor kUINT8 [2; 1] 2%nat)) (Some (mkTensor kINT32 [2] 6%nat))
    None None None None None
    (mkOutBeamHypotheses None None None None None None None None) None.

Definition fwInput (sequenceLimitLength : option ITensor) : DecodingInput :=
  mkDecodingInput 1 4 4 0 2 0 0 (mkTensor kINT32 [2] 4%nat)
    (Some (mkTensor kFLOAT [2; 1; 3] 3%nat)) None None sequenceLimitLength
    None None None None None None None None None.

Definition fwLimit : ITensor := mkTensor kINT32 [2] 5%nat.

Definition fwDecoder : Decoder unit := mkDecoder 2 (mkTensor kFLOAT [2; 1; 3] 7%nat) tt.

(** [forward] of the example, with or without [sequenceLimitLength]. *)
Definition fwForward (sequenceLimitLength : option ITensor) : M (bool * Decoder unit) :=
  forward countFinishedLayer Float32 fwDecoder fwOutput (fwInput sequenceLimitLength).

End ForwardExample.

Section AcceptExample.
Import GptDecoder.

(** One slot with a context of two tokens; draft [3, 4, 5] against target
    tokens [3, 4, 9]. *)
Definition acStore : Store :=
  list_to_map
    [ (0%nat, [1; 2; 3; 4; 9; 0]);      (* targetTokenIds [1, 1, 6] *)
      (1%nat, [3; 4; 5]);               (* draftTokenIds [1, 3] *)
      (2%nat, [2]);                     (* contextLengths [1] *)
      (3%nat, [3]);                     (* numDraftTokens [1] *)
      (4%nat, [2]);                     (* sequenceLengths [1] *)
      (5%nat, [0; 0; 0; 0]);            (* finishedVec [4, 1] *)
      (6%nat, [0]);                     (* finishedFinal [1] *)
      (7%nat, [0]);                     (* finishedSum [1] *)
      (8%nat, [0]) ].                   (* batchSlots [1] *)

Definition acWorld : World := mkWorld acStore [].

Definition acTarget (beamWidth : Z) : ITensor := mkTensor kINT32 [1; beamWidth; 6] 0%nat.

Definition acDraft : ITensor := mkTensor kINT32 [1; 3] 1%nat.

Definition acContextLengths : ITensor := mkTensor kINT32 [1] 2%nat.

Definition acNumDraftTokens : ITensor := mkTensor kINT32 [1] 3%nat.

Definition acSequenceLengths : ITensor := mkTensor kINT32 [1] 4%nat.

Definition acFinishedVec : ITensor := mkTensor kUINT8 [4; 1] 5%nat.

Definition acFinishedFinal : ITensor := mkTensor kUINT8 [1] 6%nat.

Definition acFinishedSum : ITensor := mkTensor kINT32 [1] 7%nat.

Definition acBatchSlots : ITensor := mkTensor kINT32 [1] 8%nat.

Definition acArgs : Kernels.AcceptByIds :=
  acceptByIdsArgs (acTarget 1) acDraft acContextLengths acNumDraftTokens acSequenceLengths
    acFinishedVec acFinishedFinal acFinishedSum acBatchSlots.

(** The acceptance of the example, with the given beam width in the shape
    of the target token ids. *)
Definition acAccept (beamWidth : Z) : M unit :=
  acceptDraftTokensByIds (acTarget beamWidth) acDraft acContextLengths acNumDraftTokens
    acSequenceLengths acFinishedVec acFinishedFinal acFinishedSum acBatchSlots.





End AcceptExample.

Section PenaltyExample.
Import PenaltyLayer.

(** Defaults of [DefaultDecodingParams], floats as words: temperature 1,
    repetition penalty 1, presence and frequency penalty 0, min length 1. *)
Definition plDefault (c : DecodingPenaltyType) : Z :=
  match c with
  | Temperature => 1 | Repetition => 1 | Presence => 0 | Frequency => 0 | MinLength => 1
  end.

Definition plWithinLimits (c : DecodingPenaltyType) (v : Z) : bool := true.

Definition plTopKTopP : DecodingMode := mkDecodingMode false false true true true true true false.

Definition plBeamSearch : DecodingMode := mkDecodingMode false true true true true true true true.

Definition plLocalDomain (params : DecodingInputs) (dom : DecoderDomain)
    : Error + DecoderDomain :=
  inr (mkDecoderDomain (localBatchSize params) (getBeamWidth dom) (getVocabSize dom)
         (getVocabSizePadded dom) (getMaxDecodingTokens dom)).

(** 1 for an array that is handed over, 0 for [nullptr]. *)
Definition given (p : option BufferId) : Z := match p with Some _ => 1 | None => 0 end.

(** A stand-in for the penalty kernel that reports, in the output logits,
    which of the penalty arrays it was handed: temperatures, repetition,
    presence and frequency penalties, min lengths. *)
Definition plProbeKernel (kp : InvokeBatchApplyPenaltyParams) (s : Store) : list Z * list Z :=
  ([given (k_temperatures kp); given (k_repetitionPenalties kp);
    given (k_presencePenalties kp); given (k_frequencyPenalties kp);
    given (k_minLengths kp)],
   []).

(** Stand-ins for the helpers of layerUtils.h. The scan: every slot of the
    batch holds [value] in the per-slot host array. *)
Definition plAllOfBatchSlots (batchSlotsHost data : list Z) (batchSize value : Z) : bool :=
  forallb (fun slot => bool_decide (Kernels.rd data slot = value))
          (take (Z.to_nat batchSize) batchSlotsHost).

(** Without a remap, batch index [i] is slot [i]: a fresh pinned tensor
    that holds 0, 1, ..., [batchSize - 1]. *)
Definition plDefaultBatchSlots (batchSize : Z) : M ITensor :=
  fun w =>
    let p := fresh (dom (wStore w)) in
    (inr (mkTensor kINT32 [batchSize] p),
     mkWorld (<[p := Z.of_nat <$> seq 0 (Z.to_nat batchSize)]> (wStore w))
             (wTrace w ++ [EvPinnedAlloc batchSize])).

(** The parameter of every request of the batch is installed in the slot
    of the request, in the host array and in the device array; an absent
    parameter is the default; a value out of range is refused. *)
Definition plFillBuffers (batchSize maxBatchSize : Z) (optParam : option (list Z))
    (defaultValue : Z) (hostBuffer : ITensor) (deviceBuffer : option ITensor)
    (batchSlots : ITensor) (limits : Z -> bool) (name : string) : M unit :=
  do device <- match deviceBuffer with
               | Some t => ret (data t)
               | None => throw NullDereference
               end;
  do s <- getStore;
  let batchSlots := Kernels.bufOf s (Some (data batchSlots)) in
  forRange batchSize (fun bi _ =>
    do value <- match optParam with
                | None => ret defaultValue
                | Some [v] => ret v
                | Some l =>
                    run check (bool_decide (Z.of_nat (length l) = batchSize))
                          "Argument vector size mismatch.";
                    ret (Kernels.rd l bi)
                end;
    run check (limits value) name;
    let batchSlot := Kernels.rd batchSlots bi in
    run writeAt (data hostBuffer) batchSlot value;
    writeAt device batchSlot value) tt.

Definition plDomain : DecoderDomain := mkDecoderDomain 1 1 5 5 1.

(** The caller's buffers; the layer allocates its own after them. *)
Definition plStore : Store :=
  list_to_map
    [ (0%nat, [10; 20; 30; 40; 50]);    (* logits [1, 1, 1, 5] *)
      (1%nat, replicate 4 0);           (* outputIds [1, 1, 4] *)
      (2%nat, [0]);                     (* outputIdsPtr *)
      (3%nat, [0]);                     (* parentIdsPtr *)
      (4%nat, [1]);                     (* sequenceLength [1] *)
      (5%nat, [4]) ].                   (* endIds [1] *)

Definition plLogits : ITensor := mkTensor kFLOAT [1; 1; 1; 5] 0%nat.

Definition plOutputs : BaseDecodingOutputs :=
  mkBaseDecodingOutputs (mkTensor kINT32 [1; 1; 4] 1%nat) (mkTensor kINT64 [1] 2%nat)
    (mkTensor kINT64 [1] 3%nat) (Some (mkTensor kINT32 [1] 4%nat)).

Definition plInputs : DecodingInputs :=
  mkDecodingInputs 1 (mkTensor kINT32 [1] 5%nat) None (Some plLogits) None None None None.

(** The layer as its constructor leaves it on top of the caller's buffers. *)
Definition plConstruct : M Layer := construct kFLOAT plTopKTopP plDomain.

Definition plWorld : World := snd (plConstruct (mkWorld plStore [])).

Definition plLayer : Layer :=
  mkLayer plTopKTopP plDomain 1 0 0 []
    (mkTensor kFLOAT [1] 6%nat) (mkTensor kFLOAT [1] 7%nat) (mkTensor kFLOAT [1] 8%nat)
    (mkTensor kFLOAT [1] 9%nat) (mkTensor kINT32 [1] 10%nat)
    (Some (mkTensor kFLOAT [1] 11%nat)) (Some (mkTensor kFLOAT [1] 12%nat))
    (Some (mkTensor kFLOAT [1] 13%nat)) (Some (mkTensor kFLOAT [1] 14%nat))
    (Some (mkTensor kINT32 [1] 15%nat))
    (mkTensor kFLOAT [5] 16%nat) None None false false false false false.

(** A [setup] of one request that carries only a temperature, or nothing;
    the calls and the step of the example. *)
Definition plSetupCall (temperature : option (list Z)) : Call :=
  CallSetup 1 1 None
    (mkSetupParams (Some (mkPenaltyParams temperature None None None None))).

Definition plCalls : list Call -> Layer * World -> Layer * World :=
  calls plDefault plWithinLimits plTopKTopP plBeamSearch plLocalDomain plProbeKernel
    plAllOfBatchSlots plDefaultBatchSlots plFillBuffers.

Definition plForwardAsync : L DecodingInputs :=
  forwardAsync plDefault plLocalDomain plProbeKernel plAllOfBatchSlots plDefaultBatchSlots
    plOutputs plInputs.

(** The layer and the world after a [setup] of one request with the given
    temperature, and the step of the example from there. *)
Definition plAfterSetup (temperature : Z) : Layer * World :=
  plCalls [plSetupCall (Some [temperature])] (plLayer, plWorld).

Definition plStep (temperature : Z) : (Error + DecodingInputs) * (Layer * World) :=
  plForwardAsync (fst (plAfterSetup temperature), snd (plAfterSetup temperature)).

End PenaltyExample.

Section CacheExample.
Import KvCache.

(** The eviction policy that always takes the head of the primary queue. *)
Definition takeHead (m : BlockManager) : Eviction := TakePrimary 0.

(** Two primary blocks, or two primary blocks and one secondary block; one
    sequence of two beams comes, grows and goes. *)
Definition kvOps : list Op :=
  [OpAddSequence 0 4 2 1 1; OpReleaseBlocks 0;
   OpAddSequence 1 4 1 1 1; OpAllocateBlock 1 true; OpReleaseBlocks 1].

(** The run over a fresh cache of two primary blocks and a secondary pool
    of the given size. *)
Definition kvRun (blocksInSecondaryPool : Z) : (Error + unit) * Cache :=
  runOps takeHead kvOps (newCache 4 2 blocksInSecondaryPool 2).

End CacheExample.

Section ForwardInputsExample.
Import GptDecoder.

(** The output of the example without [finishedSum]. *)
Definition fwOutputWithoutSum : DecodingOutput :=
  mkDecodingOutput (mkTensor kINT32 [2; 1; 4] 0%nat) (mkTensor kINT32 [2; 1] 1%nat)
    (Some (mkTensor kUINT8 [2; 1] 2%nat)) None
    None None None None None
    (mkOutBeamHypotheses None None None None None None None None) None.

(** The input of the example with logits of the given element type, and
    with stop words that may lack their lengths. *)
Definition fwInputWith (ty : DataType) (stopWordsPtrs stopWordsLens : option ITensor)
    : DecodingInput :=
  mkDecodingInput 1 4 4 0 2 0 0 (mkTensor kINT32 [2] 4%nat)
    (Some (mkTensor ty [2; 1; 3] 3%nat)) None None None
    None None None None stopWordsPtrs stopWordsLens None None None.

(** What [prepareInputs] makes of the input of the example. *)
Definition fwForwardParams : ForwardParams :=
  mkForwardParams 1 0 4 4 0 2 (mkTensor kINT32 [2] 4%nat)
    (Some (mkTensor kFLOAT [2; 1; 3] 3%nat)) None None None None None
    None None 0 None None 0 None None None.

(** Medusa logits of two requests with one head each; batch index 0 names
    slot 1 and batch index 1 names slot 0; room for three slots. *)
Definition mdStore : Store := list_to_map [ (0%nat, [1; 0]) ].

Definition mdHead (slot : nat) : ITensor := mkTensor kFLOAT [1; 3] (10 + slot)%nat.

Definition mdMedusaInputs : MedusaInputs :=
  mkMedusaInputs (mkTensor kINT32 [2; 1] 1%nat) (mkTensor kINT32 [2] 2%nat)
    [[Some (mdHead 0)]; [Some (mdHead 1)]]
    (mkTensor kINT32 [2] 3%nat) (mkTensor kINT32 [2] 4%nat).

Definition mdInput : DecodingInput :=
  mkDecodingInput 1 4 4 0 2 0 0 (mkTensor kINT32 [2] 5%nat)
    None None None None None None None None None None None
    (Some (mkTensor kINT32 [2] 0%nat)) (Some mdMedusaInputs).

Definition mdLayerInputs : LayerMedusaInputs :=
  mkLayerMedusaInputs (mkTensor kINT32 [2] 3%nat) (mkTensor kINT32 [2] 4%nat)
    (mkTensor kINT32 [2; 1] 1%nat) (mkTensor kINT32 [2] 2%nat)
    [[Some (mdHead 0)]; [Some (mdHead 1)]; []].

(** A stand-in for the acceptance kernel by logits that leaves memory as it
    is, and draft logits of the given element type over a vocabulary of
    three words. *)
Definition blKernel (T : Precision) (args : AcceptByLogitsArgs) (ptrs : list BufferId)
    (s : Store) : Store := s.

Definition blAccept (ty : DataType) (vocabSize : Z) : M unit :=
  acceptDraftTokensByLogits blKernel (mkTensor ty [1; 3; 3] 0%nat)
    (mkTensor kINT64 [1; 3] 1%nat) (mkTensor ty [1; 3; 3] 2%nat)
    (mkTensor ty [1; 3; 3] 3%nat) (mkTensor kINT32 [1] 4%nat) (mkTensor kUINT8 [1] 5%nat)
    (mkTensor kINT32 [1] 6%nat) vocabSize vocabSize false 0.

End ForwardInputsExample.

Section PenaltyStepExample.
Import PenaltyLayer.

(** The inputs of the example with a vector of two logits tensors for its
    batch of one. *)
Definition plInputsVec : DecodingInputs :=
  mkDecodingInputs 1 (mkTensor kINT32 [1] 5%nat) None None (Some [plLogits; plLogits])
    None None None.

(** The step of the example on those inputs. *)
Definition plForwardAsyncVec : L DecodingInputs :=
  forwardAsync plDefault plLocalDomain plProbeKernel plAllOfBatchSlots plDefaultBatchSlots
    plOutputs plInputsVec.

(** A [setup] of one request that asks for the given beam width, with a
    temperature only, or without penalty parameters. *)
Definition plSetupWidth (beamWidth : Z) (penaltyParams : option PenaltyParams) : L unit :=
  setup plDefault plWithinLimits plTopKTopP plBeamSearch plDefaultBatchSlots plFillBuffers
    1 beamWidth None (mkSetupParams penaltyParams).

End PenaltyStepExample.

Section RequestExample.
Import KvCache.

(** A request of two beams that gets a block per beam, has the block of
    beam 1 replaced, gets five tokens more and loses two. *)
Definition rqOps : list RequestOp :=
  [ReqAddCacheBlock 0 7; ReqAddCacheBlock 1 8; ReqChangeCacheBlock 1 0 9;
   ReqAddNewTokens 5; ReqRemoveTokens 2].

Definition rqRequest : GenerationRequest := mkRequest 0 7 2 [[7]; [9]] [].

End RequestExample.

Section PluginExample.
Import MoePlugin.

(** A plugin with bias, FP8 scales and an FP8 output, LoRA and a side
    stream, and, as asked, with the scales of the integer quantisation, of
    the DeepSeek weights, or both. The activation is its own gate flag. *)
Definition moePlugin (int4 deepSeek : bool) : MixtureOfExpertsPlugin bool :=
  mkPlugin true kFP8 (mkQuantMode int4 false true) false true 1 deepSeek deepSeek true false.

End PluginExample.

(** * Lemmas *)

(** ** Reasoning about host code *)

Lemma bind_inr {S A B} (m : ST S A) (k : A -> ST S B) s b s' :
  bind m k s = (inr b, s') ->
  exists a s1, m s = (inr a, s1) /\ k a s1 = (inr b, s').
Proof.
  unfold bind. destruct (m s) as [[e|a] s1]; [discriminate|]. eauto.
Qed.

Lemma bind_ok {S A B} (m : ST S A) (k : A -> ST S B) s a s1 :
  m s = (inr a, s1) -> bind m k s = k a s1.
Proof. unfold bind. intros ->. reflexivity. Qed.

Lemma bind_fail {S A B} (m : ST S A) (k : A -> ST S B) s e s1 :
  m s = (inl e, s1) -> bind m k s = (inl e, s1).
Proof. unfold bind. intros ->. reflexivity. Qed.

Lemma check_true {S} msg (s : S) : check true msg s = (inr tt, s).
Proof. reflexivity. Qed.

Lemma check_false {S} msg (s : S) : check false msg s = (inl (CheckFailed msg), s).
Proof. reflexivity. Qed.

(** ** [gatherTree]: the checks *)

Section GatherTreeChecks.
Import GptDecoder.
Context {LayerState : Type}.
Variable normScore : Z -> Z -> Z.
Variable scoreLtb : Z -> Z -> bool.

Lemma deref_not_check (t : option ITensor) w r w' :
  deref t w = (r, w') -> w' = w /\ forall msg, r <> inl (CheckFailed msg).
Proof.
  destruct t; cbn; intros [= <- <-]; split; auto; discriminate.
Qed.

(** A check that holds is stepped over; a check that fails ends the call. *)
Ltac check_passes :=
  rewrite (bind_ok _ _ _ tt _) by (rewrite bool_decide_eq_true_2 by done; reflexivity).

Ltac check_fails :=
  eexists; erewrite bind_fail; [reflexivity|];
  rewrite bool_decide_eq_false_2 by done; reflexivity.

Lemma gatherTree_rejects (dec : Decoder LayerState) f o i w :
  ~ gatherTreePreconditions f o ->
  exists msg, gatherTree normScore scoreLtb dec f o i w = (inl (CheckFailed msg), w).
Proof.
  intros H. unfold gatherTree.
  destruct (decide (d (getShape f) 1 > 1)) as [H1|H1]; [check_passes|check_fails].
  destruct (decide (d (getShape (ids o)) 0 = d (getShape f) 0)) as [H2|H2];
    [check_passes|check_fails].
  destruct (decide (d (getShape (ids o)) 1 = d (getShape f) 1)) as [H3|H3];
    [check_passes|check_fails].
  destruct (decide (d (getShape (ids o)) 2 <= d (getShape f) 2)) as [H4|H4];
    [|check_fails].
  exfalso. apply H. unfold gatherTreePreconditions. auto.
Qed.

Lemma gatherTree_accepts (dec : Decoder LayerState) f o i w :
  gatherTreePreconditions f o ->
  forall msg, fst (gatherTree normScore scoreLtb dec f o i w) <> inl (CheckFailed msg).
Proof.
  intros (H1 & H2 & H3 & H4) msg. unfold gatherTree.
  do 4 check_passes.
  unfold bind, launch, emit, getStore, putStore, deref, ret, throw, bind. cbn.
  repeat (case_match; simplify_eq/=; try done).
Qed.

End GatherTreeChecks.

(** ** Host code that is silent, or read-only *)

Lemma bind_inl {S A B} (m : ST S A) (k : A -> ST S B) s e s' :
  bind m k s = (inl e, s') ->
  m s = (inl e, s') \/ exists a s1, m s = (inr a, s1) /\ k a s1 = (inl e, s').
Proof.
  unfold bind. destruct (m s) as [[e1|a] s1]; [left|right]; eauto. congruence.
Qed.

Lemma foldl_ext {A B} (f g : A -> B -> A) (l : list B) (a : A) :
  (forall x y, f x y = g x y) -> foldl f a l = foldl g a l.
Proof.
  intros H. revert a. induction l as [|b l IH]; intros a; cbn; [done|].
  rewrite H. apply IH.
Qed.

Lemma silent_ret {A} (a : A) : silent (ret a).
Proof. intros w r w' [= <- <-]. reflexivity. Qed.

Lemma silent_throw {A} e : silent (@throw World A e).
Proof. intros w r w' [= <- <-]. reflexivity. Qed.

Lemma silent_bind {A B} (m : M A) (k : A -> M B) :
  silent m -> (forall a, silent (k a)) -> silent (bind m k).
Proof.
  intros Hm Hk w r w'. unfold bind.
  destruct (m w) as [[e|a] w1] eqn:E; intros H.
  - injection H as <- <-. eauto.
  - rewrite (Hk _ _ _ _ H). eauto.
Qed.

Lemma silent_check b msg : silent (check b msg).
Proof. destruct b; [apply silent_ret | apply silent_throw]. Qed.

Lemma silent_liftE {A} (r : Error + A) : silent (liftE r).
Proof. destruct r; [apply silent_throw | apply silent_ret]. Qed.

Lemma silent_readAt p i : silent (readAt p i).
Proof. intros w r w'. unfold readAt. apply silent_liftE. Qed.

Lemma silent_writeAt p i v : silent (writeAt p i v).
Proof.
  intros w r w'. unfold writeAt. destruct (storeAt _ _ _ _); intros [= <- <-]; reflexivity.
Qed.

Lemma silent_forFrom {A} (body : Z -> A -> M A) count :
  (forall i a, silent (body i a)) -> forall i acc, silent (forFrom i count body acc).
Proof.
  intros Hb. induction count as [|c IH]; intros i acc; cbn.
  - apply silent_ret.
  - apply silent_bind; auto.
Qed.

Lemma silent_forRange {A} (body : Z -> A -> M A) n acc :
  (forall i a, silent (body i a)) -> silent (forRange n body acc).
Proof. intros. apply silent_forFrom; auto. Qed.

Create HintDb silent.

#[export] Hint Resolve silent_ret silent_throw silent_check silent_liftE silent_readAt
  silent_writeAt : silent.

Ltac silent_tac :=
  repeat first
    [ progress eauto with silent
    | apply silent_bind; [|intros ?]
    | apply silent_forRange; intros ? ?
    | match goal with
      | |- silent (match ?x with _ => _ end) => destruct x
      | |- silent (if ?x then _ else _) => destruct x
      | |- silent (let '(_, _) := ?x in _) => destruct x
      end ].

Lemma readonly_ret {S A} (a : A) : readonly (@ret S A a).
Proof. intros w r w' [= <- <-]. reflexivity. Qed.

Lemma readonly_throw {S A} e : readonly (@throw S A e).
Proof. intros w r w' [= <- <-]. reflexivity. Qed.

Lemma readonly_bind {S A B} (m : ST S A) (k : A -> ST S B) :
  readonly m -> (forall a, readonly (k a)) -> readonly (bind m k).
Proof.
  intros Hm Hk w r w'. unfold bind.
  destruct (m w) as [[e|a] w1] eqn:E; intros H.
  - injection H as <- <-. eauto.
  - rewrite (Hk _ _ _ _ H). eauto.
Qed.

Lemma readonly_check {S} b msg : readonly (@check S b msg).
Proof. destruct b; [apply readonly_ret | apply readonly_throw]. Qed.

Lemma readonly_liftE {S A} (r : Error + A) : readonly (@liftE S A r).
Proof. destruct r; [apply readonly_throw | apply readonly_ret]. Qed.

Lemma readonly_readAt p i : readonly (readAt p i).
Proof. intros w r w'. unfold readAt. apply readonly_liftE. Qed.

Lemma readonly_getStore : readonly getStore.
Proof. intros w r w' [= <- <-]. reflexivity. Qed.

Lemma readonly_forFrom {S A} (body : Z -> A -> ST S A) count :
  (forall i a, readonly (body i a)) -> forall i acc, readonly (forFrom i count body acc).
Proof.
  intros Hb. induction count as [|c IH]; intros i acc; cbn.
  - apply readonly_ret.
  - apply readonly_bind; auto.
Qed.

Lemma readonly_forRange {S A} (body : Z -> A -> ST S A) n acc :
  (forall i a, readonly (body i a)) -> readonly (forRange n body acc).
Proof. intros. apply readonly_forFrom; auto. Qed.

Create HintDb readonly.

#[export] Hint Resolve readonly_ret readonly_throw readonly_check readonly_liftE
  readonly_readAt readonly_getStore : readonly.

Ltac readonly_tac :=
  repeat first
    [ progress eauto with readonly
    | apply readonly_bind; [|intros ?]
    | apply readonly_forRange; intros ? ?
    | match goal with
      | |- readonly (match ?x with _ => _ end) => destruct x
      | |- readonly (if ?x then _ else _) => destruct x
      | |- readonly (let '(_, _) := ?x in _) => destruct x
      end ].

(** ** [forward] and [forwardAsync] *)

Section Forward.
Import GptDecoder.
Context {LayerState : Type}.
Variable layerForward :
  LayerState -> OutputParams -> ForwardParams -> Store -> Error + (LayerState * Store).

Lemma readonly_prepareMedusaInputs input mi n : readonly (prepareMedusaInputs input mi n).
Proof. unfold prepareMedusaInputs. readonly_tac. Qed.

Lemma readonly_prepareInputs T input n : readonly (prepareInputs T input n).
Proof.
  unfold prepareInputs. pose proof readonly_prepareMedusaInputs.
  readonly_tac.
Qed.

(** The read loop of [forward] adds up the counters it finds. *)
Lemma sum_loop p count : forall i acc w total w',
  forFrom i count (fun bi acc => do v <- readAt p bi; ret (wrap_int32 (acc + v))) acc w
    = (inr total, w') ->
  w' = w /\
  total = foldl (fun a j => wrap_int32 (a + Kernels.getAt (wStore w) (Some p) (i + Z.of_nat j)))
                acc (seq 0 count).
Proof.
  induction count as [|c IH]; intros i acc w total w'; cbn [forFrom].
  - intros [= <- <-]. auto.
  - intros H. apply bind_inr in H as (a & w1 & H1 & H2).
    apply bind_inr in H1 as (v & w0 & Hr & Hret).
    injection Hret as <- <-.
    pose proof (readonly_readAt _ _ _ _ _ Hr) as ->.
    apply IH in H2 as [-> ->]. split; [done|].
    cbn [seq foldl].
    assert (Hv : v = Kernels.getAt (wStore w) (Some p) (i + Z.of_nat 0)).
    { unfold readAt, loadAt in Hr. unfold Kernels.getAt, Kernels.rd, Kernels.bufOf.
      replace (i + Z.of_nat 0) with i by lia. cbn.
      destruct (decide (0 <= i)); [|discriminate].
      destruct (wStore w !! p) as [buf|]; cbn in *; [|discriminate].
      destruct (buf !! Z.to_nat i); cbn in *; [|discriminate]. injection Hr as ->. reflexivity. }
    rewrite <- Hv.
    rewrite <- (fmap_S_seq 0), foldl_fmap.
    apply foldl_ext. intros a j. do 3 f_equal. lia.
Qed.

Lemma dynamicDecodeForward_inr (dec : Decoder LayerState) o f w dec' w' :
  dynamicDecodeForward layerForward dec o f w = (inr dec', w') ->
  wTrace w' = wTrace w ++ [EvLayerForward].
Proof.
  unfold dynamicDecodeForward, bind, emit, getStore, putStore. cbn.
  destruct (layerForward _ _ _ _) as [e|[l s']]; cbn; [discriminate|].
  intros [= <- <-]. reflexivity.
Qed.

Lemma silent_prepareMedusaInputs input mi n : silent (prepareMedusaInputs input mi n).
Proof. unfold prepareMedusaInputs. silent_tac. Qed.

Lemma silent_prepareInputs T input n : silent (prepareInputs T input n).
Proof.
  unfold prepareInputs. pose proof silent_prepareMedusaInputs.
  silent_tac.
Qed.

Ltac step_bind H :=
  match goal with
  | |- context [bind ?m ?k ?w] =>
      let e := fresh "e" in let a := fresh "a" in let w1 := fresh "w" in
      destruct (m w) as [[e|a] w1] eqn:H;
      [rewrite (bind_fail _ _ _ _ _ H) | rewrite (bind_ok _ _ _ _ _ H)]
  end.

Lemma dynamicDecodeForward_trace (dec : Decoder LayerState) o f w :
  wTrace (snd (dynamicDecodeForward layerForward dec o f w)) = wTrace w ++ [EvLayerForward].
Proof.
  unfold dynamicDecodeForward, bind, emit, getStore, putStore. cbn.
  destruct (layerForward _ _ _ _) as [e|[l s']]; reflexivity.
Qed.

Lemma eventsOf_app {A} (m : M A) w evs :
  wTrace (snd (m w)) = wTrace w ++ evs -> eventsOf m w = evs.
Proof. unfold eventsOf. intros ->. apply drop_app_length. Qed.

Lemma forward_events_without_counters T (dec : Decoder LayerState) output input w :
  ~ bothProvided output input ->
  eventsOf (forward layerForward T dec output input) w = []
  \/ eventsOf (forward layerForward T dec output input) w = [EvLayerForward].
Proof.
  intros Hn.
  assert (Hbr : forall op : OutputParams,
            match sequenceLimitLength input, outFinished output with
            | Some _, Some _ =>
                do '(outputParams, finishedSumHost) <-
                   match finishedSum output with
                   | Some fs => ret (op, bufferCast fs)
                   | None =>
                       do fs <- pinned [maxBatchSize input] kINT32;
                       ret (set_finished_sum fs op, bufferCast fs)
                   end;
                run forRange (maxBatchSize input)
                      (fun bi (_ : unit) => writeAt finishedSumHost bi 0) tt;
                ret (outputParams, Some finishedSumHost)
            | _, _ => ret (op, None)
            end = ret (op, None)).
  { intros op. unfold bothProvided in Hn.
    destruct (sequenceLimitLength input), (outFinished output); try reflexivity.
    exfalso. apply Hn. split; eauto. }
  destruct (prepareInputs T input (mMaxBatchSize dec) w) as [[e|a] w1] eqn:Hp;
    pose proof (readonly_prepareInputs _ _ _ _ _ _ Hp) as ->.
  { left. apply eventsOf_app. unfold forward. rewrite (bind_fail _ _ _ _ _ Hp).
    cbn. by rewrite app_nil_r. }
  right. apply eventsOf_app. unfold forward. rewrite Hbr, (bind_ok _ _ _ _ _ Hp).
  rewrite (bind_ok _ _ w _ w) by reflexivity.
  pose proof (dynamicDecodeForward_trace dec
                (prepareOutputs output (lengths input) (mLogProbsTiled dec)) a w) as Ht.
  unfold bind at 1.
  destruct (dynamicDecodeForward _ _ _ _ _) as [[e|d1] w3]; cbn in *; exact Ht.
Qed.

Lemma forward_events_with_counters T (dec : Decoder LayerState) output input w v w' :
  bothProvided output input ->
  forward layerForward T dec output input w = (inr v, w') ->
  exists pre, eventsOf (forward layerForward T dec output input) w
              = pre ++ [EvLayerForward; EvStreamSynchronize].
Proof.
  intros [[sl Esl] [f Ef]] H.
  assert (exists pre, wTrace w' = wTrace w ++ pre ++ [EvLayerForward; EvStreamSynchronize])
    as [pre Hpre].
  2: { exists pre. apply eventsOf_app. rewrite H. exact Hpre. }
  unfold forward in H. rewrite Esl, Ef in H.
  apply bind_inr in H as (fp & w1 & Hp & H).
  pose proof (readonly_prepareInputs _ _ _ _ _ _ Hp) as ->.
  apply bind_inr in H as ([op fsh] & w2 & Hbr & H).
  apply bind_inr in H as (dec1 & w3 & Hl & H).
  apply bind_inr in Hbr as ([op' ptr] & w2' & Hfs & Hz).
  apply bind_inr in Hz as (? & w2'' & Hz & Hret). injection Hret as <- <- <-.
  apply bind_inr in H as (n & w4 & Hn & H). injection Hn as <- <-.
  apply bind_inr in H as (? & w5 & He & H).
  apply bind_inr in H as (total & w6 & Hsum & Hret). injection Hret as <- <-.
  apply sum_loop in Hsum as [-> _]. injection He as He. subst w5. cbn [wTrace].
  apply dynamicDecodeForward_inr in Hl. rewrite Hl.
  assert (Hsil : silent (forRange (maxBatchSize input)
                           (fun bi (_ : unit) => writeAt ptr bi 0) tt)) by silent_tac.
  rewrite (Hsil _ _ _ Hz).
  destruct (finishedSum output) as [fs|].
  - injection Hfs as <- <- <-. exists []. by rewrite <- app_assoc.
  - apply bind_inr in Hfs as (t & wa & Ha & Hret). injection Hret as <- <- <-.
    unfold pinned in Ha. injection Ha as <- <-. cbn.
    eexists [_]. by rewrite <- !app_assoc.
Qed.

Lemma forwardAsync_events T (dec : Decoder LayerState) output input w :
  eventsOf (forwardAsync layerForward T dec output input) w = []
  \/ eventsOf (forwardAsync layerForward T dec output input) w = [EvLayerForward].
Proof.
  destruct (prepareInputs T input (mMaxBatchSize dec) w) as [[e|a] w1] eqn:Hp;
    pose proof (readonly_prepareInputs _ _ _ _ _ _ Hp) as ->.
  { left. apply eventsOf_app. unfold forwardAsync. rewrite (bind_fail _ _ _ _ _ Hp).
    cbn. by rewrite app_nil_r. }
  right. apply eventsOf_app. unfold forwardAsync. rewrite (bind_ok _ _ _ _ _ Hp).
  apply dynamicDecodeForward_trace.
Qed.

End Forward.

(** ** Speculative acceptance: the beam-width check *)

Section Speculative.
Import GptDecoder.

Lemma acceptDraftTokensByIds_rejects_beams target draft ctx nd sl fv ff fs slots w :
  d (getShape target) 1 <> 1 ->
  acceptDraftTokensByIds target draft ctx nd sl fv ff fs slots w
  = (inl (CheckFailed speculativeBeamWidthMsg), w).
Proof.
  intros H. unfold acceptDraftTokensByIds.
  erewrite bind_fail; [reflexivity|].
  rewrite bool_decide_eq_false_2 by done. reflexivity.
Qed.

Lemma check_not_msg {S} b msg msg' (s : S) :
  msg <> msg' -> fst (check b msg s) <> inl (CheckFailed msg').
Proof. destruct b; cbn; congruence. Qed.

Lemma acceptDraftTokensByIds_accepts_single_beam target draft ctx nd sl fv ff fs slots w :
  d (getShape target) 1 = 1 ->
  fst (acceptDraftTokensByIds target draft ctx nd sl fv ff fs slots w)
  <> inl (CheckFailed speculativeBeamWidthMsg).
Proof.
  intros H. unfold acceptDraftTokensByIds.
  rewrite (bind_ok _ _ w tt w) by (rewrite bool_decide_eq_true_2 by done; reflexivity).
  unfold bind, check, launch, emit, getStore, putStore, ret, throw, bind,
    speculativeBeamWidthMsg.
  repeat (case_bool_decide; cbn; try discriminate).
Qed.

Lemma acceptDraftTokensByLogits_beam_check_passes kernel dl tl dp tp nd fin slots vs vsp u thr w :
  fst (acceptDraftTokensByLogits kernel dl tl dp tp nd fin slots vs vsp u thr w)
  <> inl (CheckFailed speculativeBeamWidthMsg).
Proof.
  unfold acceptDraftTokensByLogits.
  rewrite (bind_ok _ _ w tt w) by reflexivity.
  unfold bind, check, launch, emit, getStore, putStore, ret, throw, bind,
    speculativeBeamWidthMsg.
  case_bool_decide; cbn; [|discriminate].
  destruct (getDataType dl); cbn; discriminate.
Qed.

End Speculative.

(** ** Buffers under the kernel accessors *)

Lemma bufOf_setBuf_ne (s : Store) p q f :
  p <> q -> Kernels.bufOf (Kernels.setBuf s (Some p) f) (Some q) = Kernels.bufOf s (Some q).
Proof.
  intros Hne. unfold Kernels.bufOf, Kernels.setBuf. cbn.
  destruct (s !! p); [|done]. by rewrite lookup_insert_ne.
Qed.

Lemma bufOf_setBuf_eq (s : Store) p f :
  Kernels.bufOf (Kernels.setBuf s (Some p) f) (Some p)
  = match s !! p with Some b => f b | None => [] end.
Proof.
  unfold Kernels.bufOf, Kernels.setBuf. cbn.
  destruct (s !! p) eqn:E; cbn; [by rewrite lookup_insert_eq | by rewrite E].
Qed.

Lemma lookup_setBuf_ne (s : Store) p q f :
  p <> q -> Kernels.setBuf s (Some p) f !! q = s !! q.
Proof.
  intros Hne. unfold Kernels.setBuf. destruct (s !! p); [|done]. by rewrite lookup_insert_ne.
Qed.




Lemma length_wr buf i v : length (Kernels.wr buf i v) = length buf.
Proof. unfold Kernels.wr. destruct (decide _); [apply length_insert|done]. Qed.






(** ** The acceptance kernel *)

Section AcceptByIds.
Import Kernels.








End AcceptByIds.

Lemma check_inr {S} b msg (s : S) u s' :
  check b msg s = (inr u, s') -> b = true /\ s' = s.
Proof. destruct b; cbn; [intros [= <-]; auto | discriminate]. Qed.

Lemma emit_inr e w u w' :
  emit e w = (inr u, w') -> w' = mkWorld (wStore w) (wTrace w ++ [e]).
Proof. by intros [= <-]. Qed.

(** ** [gatherTree]: the memory effect *)

Section GatherTree.
Import GptDecoder.

Lemma deref_inr t w p w' :
  deref t w = (inr p, w') -> (exists x, t = Some x /\ p = bufferCast x) /\ w' = w.
Proof. destruct t; cbn; [intros [= <- <-]; eauto | discriminate]. Qed.

Lemma launch_inr name k w u w' :
  launch name k w = (inr u, w') ->
  w' = mkWorld (k (wStore w)) (wTrace w ++ [EvKernel name]).
Proof. unfold launch, bind, emit, getStore, putStore. cbn. by intros [= <-]. Qed.

Lemma launch_run name k w :
  launch name k w = (inr tt, mkWorld (k (wStore w)) (wTrace w ++ [EvKernel name])).
Proof. reflexivity. Qed.

Context {LayerState : Type}.
Variable normScore : Z -> Z -> Z.
Variable scoreLtb : Z -> Z -> bool.

Lemma gatherTree_inr (dec : Decoder LayerState) f o i w w' :
  gatherTree normScore scoreLtb dec f o i w = (inr tt, w') ->
  gatherTreePreconditions f o
  /\ exists bh, beamHypothesesOf dec f o i = Some bh
     /\ wStore w' = gatherTreeStore normScore scoreLtb bh (data f) (data (endIds i)) (wStore w).
Proof.
  unfold gatherTree. intros H.
  repeat match goal with
         | H : bind _ _ _ = (inr _, _) |- _ =>
             let H1 := fresh "Hs" in
             apply bind_inr in H as (? & ? & H1 & H)
         end.
  repeat match goal with
         | H : check _ _ _ = (inr _, _) |- _ => apply check_inr in H as [H ->]
         | H : deref _ _ = (inr _, _) |- _ => apply deref_inr in H as [(? & H & ->) ->]
         | H : launch _ _ _ = (inr _, _) |- _ => apply launch_inr in H as ->
         | H : emit _ _ = (inr _, _) |- _ => apply emit_inr in H as ->
         | H : bool_decide _ = true |- _ => apply bool_decide_eq_true_1 in H
         end.
  split; [by unfold gatherTreePreconditions|].
  unfold beamHypothesesOf.
  repeat match goal with H : _ = Some _ |- _ => rewrite H; clear H end.
  cbn. eexists. split; [reflexivity|]. reflexivity.
Qed.

Lemma gatherTree_run (dec : Decoder LayerState) f o i w bh :
  gatherTreePreconditions f o ->
  beamHypothesesOf dec f o i = Some bh ->
  exists tr,
    gatherTree normScore scoreLtb dec f o i w
    = (inr tt, mkWorld (gatherTreeStore normScore scoreLtb bh (data f) (data (endIds i))
                          (wStore w)) tr).
Proof.
  intros (H1 & H2 & H3 & H4) Hbh. unfold gatherTree.
  rewrite (bind_ok _ _ w tt w) by (rewrite bool_decide_eq_true_2 by done; reflexivity).
  rewrite (bind_ok _ _ w tt w) by (rewrite bool_decide_eq_true_2 by done; reflexivity).
  rewrite (bind_ok _ _ w tt w) by (rewrite bool_decide_eq_true_2 by done; reflexivity).
  rewrite (bind_ok _ _ w tt w) by (rewrite bool_decide_eq_true_2 by done; reflexivity).
  unfold beamHypothesesOf in Hbh.
  repeat match type of Hbh with
         | context [mbind _ ?x] => destruct x eqn:?; cbn in Hbh; [|discriminate]
         end.
  injection Hbh as <-.
  eexists. unfold bind, launch, emit, getStore, putStore, deref, ret, bind. cbn.
  reflexivity.
Qed.

End GatherTree.

(** ** Finalisation without live beams *)

Section Idempotence.
Import Kernels.
Variable normScore : Z -> Z -> Z.
Variable scoreLtb : Z -> Z -> bool.

Lemma foldl_fixed {A B} (f : A -> B -> A) (a : A) (l : list B) :
  (forall x, x ∈ l -> f a x = a) -> foldl f a l = a.
Proof.
  induction l as [|b l IH]; intros H; cbn; [done|].
  rewrite (H b) by apply list_elem_of_here. apply IH. intros x Hx. apply H.
  by apply list_elem_of_further.
Qed.

Lemma foldl_length {B} (f : list Z -> B -> list Z) (l : list B) :
  (forall a x, length (f a x) = length a) -> forall a, length (foldl f a l) = length a.
Proof.
  intros Hf. induction l as [|b l IH]; intros a; cbn; [done|]. by rewrite IH, Hf.
Qed.

Lemma bufOf_setBuf_other (s : Store) p f (q : option BufferId) :
  q <> Some p -> bufOf (setBuf s (Some p) f) q = bufOf s q.
Proof.
  destruct q as [q|]; [|done]. intros H. apply bufOf_setBuf_ne. congruence.
Qed.

Lemma invokeInsertUnfinishedPath_noLiveBeams bh s :
  noLiveBeams bh s -> invokeInsertUnfinishedPath normScore bh s = s.
Proof.
  intros H. unfold invokeInsertUnfinishedPath. apply foldl_fixed.
  intros bid Hbid. apply elem_of_seq in Hbid. unfold insertUnfinishedEntry.
  destruct (H bid ltac:(lia)) as [Hd|Hf].
  - by rewrite decide_False.
  - destruct (decide _); [|done]. apply foldl_fixed.
    intros i Hi. apply elem_of_seq in Hi. unfold insertUnfinishedBeam.
    by rewrite Hf by lia.
Qed.

Lemma length_initializedRows e rows L :
  length (initializedRows e rows L) = (Z.to_nat rows * Z.to_nat L)%nat.
Proof.
  unfold initializedRows. generalize 0%nat.
  induction (Z.to_nat rows) as [|n IH]; intros k; cbn; [done|].
  rewrite length_app, length_replicate, IH. lia.
Qed.

Lemma length_emitRow bh idsCba seqLenCba bid final rk :
  length (emitRow bh idsCba seqLenCba bid final rk) = length final.
Proof.
  destruct rk as [r k]. unfold emitRow. apply foldl_length. intros. apply length_wr.
Qed.

Lemma length_finalizeEntry scoreLt bh idsCba seqLenCba scores numBeams final bid :
  length (finalizeEntry scoreLt bh idsCba seqLenCba scores numBeams final bid) = length final.
Proof. unfold finalizeEntry. apply foldl_length. intros. apply length_emitRow. Qed.

Lemma noLiveBeams_agree bh s s' :
  bufOf s' (is_done bh) = bufOf s (is_done bh) ->
  bufOf s' (finished bh) = bufOf s (finished bh) ->
  noLiveBeams bh s -> noLiveBeams bh s'.
Proof.
  intros H1 H2 H bid Hbid. unfold getAt. rewrite H1, H2. by apply H.
Qed.

Lemma gatherTreeStore_idempotent bh fid e s :
  final_output_ids bh = Some fid ->
  finalApart bh fid e -> finalFits bh fid s -> noLiveBeams bh s ->
  gatherTreeStore normScore scoreLtb bh fid e (gatherTreeStore normScore scoreLtb bh fid e s)
  = gatherTreeStore normScore scoreLtb bh fid e s.
Proof.
  intros Hfid Hap Hfit Hlive. unfold finalApart in Hap.
  repeat (apply not_elem_of_cons in Hap as [? Hap]).
  unfold gatherTreeStore.
  set (rows := wrap_int32 (batch_size bh * beam_width bh)).
  set (L := max_seq_len bh).
  assert (HI : forall s0, noLiveBeams bh s0 ->
            noLiveBeams bh (invokeInitializeOutput fid e rows L s0)).
  { intros s0. apply noLiveBeams_agree; unfold invokeInitializeOutput;
      by rewrite bufOf_setBuf_other. }
  assert (HFl : forall s0, noLiveBeams bh s0 -> noLiveBeams bh (invokeFinalize scoreLtb bh s0)).
  { intros s0. apply noLiveBeams_agree; unfold invokeFinalize; rewrite Hfid;
      by rewrite bufOf_setBuf_other. }
  rewrite (invokeInsertUnfinishedPath_noLiveBeams bh
             (invokeInitializeOutput fid e rows L s)) by auto.
  rewrite invokeInsertUnfinishedPath_noLiveBeams by auto.
  destruct (s !! fid) as [old|] eqn:Eold.
  2: { assert (Hnone : forall f, setBuf s (Some fid) f = s).
       { intros f. unfold setBuf. by rewrite Eold. }
       unfold invokeFinalize, invokeInitializeOutput. rewrite Hfid.
       by rewrite !Hnone. }
  set (new := initializedRows (bufOf s (Some e)) rows L).
  assert (Hlen : (length old <= length new)%nat).
  { unfold new. rewrite length_initializedRows. unfold finalFits, bufOf in Hfit. cbn in Hfit.
    by rewrite Eold in Hfit. }
  set (Y := take (length old) new).
  assert (HIs : invokeInitializeOutput fid e rows L s = <[fid := Y]> s).
  { unfold invokeInitializeOutput, setBuf. rewrite Eold. fold new.
    rewrite drop_ge by lia. by rewrite app_nil_r. }
  rewrite HIs.
  set (view := fun s0 : Store =>
         (bufOf s0 (output_ids_cba bh), bufOf s0 (seq_len_cba bh),
          bufOf s0 (normed_scores_cba bh), bufOf s0 (num_beams bh))).
  set (phi := fun (v : list Z * list Z * list Z * list Z) (buf : list Z) =>
         let '(a, b, c, dd) := v in
         foldl (finalizeEntry scoreLtb bh a b c dd) buf (seq 0 (Z.to_nat (batch_size bh)))).
  assert (HF : forall s0 buf, s0 !! fid = Some buf ->
            invokeFinalize scoreLtb bh s0 = <[fid := phi (view s0) buf]> s0).
  { intros s0 buf Hb. unfold invokeFinalize, setBuf. rewrite Hfid, Hb. reflexivity. }
  assert (Hview : forall s0 buf, view (<[fid := buf]> s0) = view s0).
  { intros s0 buf. unfold view, bufOf.
    destruct (output_ids_cba bh) as [q1|], (seq_len_cba bh) as [q2|],
      (normed_scores_cba bh) as [q3|], (num_beams bh) as [q4|]; cbn;
      rewrite ?lookup_insert_ne by congruence; reflexivity. }
  rewrite (HF (<[fid := Y]> s) Y) by apply lookup_insert_eq.
  rewrite Hview, insert_insert_eq.
  set (Z0 := phi (view s) Y).
  assert (HlenZ : length Z0 = length old).
  { unfold Z0, phi. destruct (view s) as [[[a b] c] dd].
    rewrite foldl_length by (intros; apply length_finalizeEntry).
    unfold Y. rewrite length_take. lia. }
  assert (HIs1 : invokeInitializeOutput fid e rows L (<[fid := Z0]> s) = <[fid := Y]> s).
  { unfold invokeInitializeOutput, setBuf. rewrite lookup_insert_eq.
    assert (bufOf (<[fid := Z0]> s) (Some e) = bufOf s (Some e)) as ->.
    { unfold bufOf. cbn. rewrite lookup_insert_ne by congruence. done. }
    fold new. rewrite insert_insert_eq, HlenZ.
    rewrite drop_ge by lia. by rewrite app_nil_r. }
  rewrite HIs1.
  rewrite (HF _ Y) by apply lookup_insert_eq.
  by rewrite Hview, insert_insert_eq.
Qed.

End Idempotence.

Lemma lookup_setBuf_other (s : Store) (q : option BufferId) f p :
  q <> Some p -> Kernels.setBuf s q f !! p = s !! p.
Proof.
  destruct q as [q|]; [|done]. intros H. apply lookup_setBuf_ne. congruence.
Qed.

(** ** PenaltyLayer: the use-flags *)

Section Penalty.
Import PenaltyLayer.
Variable defaultValue : DecodingPenaltyType -> Z.
Variable withinLimits : DecodingPenaltyType -> Z -> bool.
Variable TopKTopP : DecodingMode.
Variable BeamSearch : DecodingMode.
Variable getLocalDecoderDomain : DecodingInputs -> DecoderDomain -> Error + DecoderDomain.
Variable invokeBatchApplyPenalty :
  InvokeBatchApplyPenaltyParams -> Store -> list Z * list Z.
Variable allOfBatchSlots : list Z -> list Z -> Z -> Z -> bool.
Variable getDefaultBatchSlots : Z -> M ITensor.
Variable FillBuffers :
  Z -> Z -> option (list Z) -> Z -> ITensor -> option ITensor -> ITensor -> (Z -> bool) ->
  string -> M unit.
Section Keeps.
Variable R : Layer -> Layer -> Prop.
Context `{!Reflexive R, !Transitive R}.

Lemma keeps_ret {A} (a : A) : keeps R (ret a).
Proof. intros lw r lw' [= <- <-]. reflexivity. Qed.

Lemma keeps_throw {A} e : keeps R (@throw _ A e).
Proof. intros lw r lw' [= <- <-]. reflexivity. Qed.

Lemma keeps_bind {A B} (m : L A) (k : A -> L B) :
  keeps R m -> (forall a, keeps R (k a)) -> keeps R (bind m k).
Proof.
  intros Hm Hk lw r lw'. unfold bind.
  destruct (m lw) as [[e|a] lw1] eqn:E; intros H.
  - injection H as <- <-. eauto.
  - etransitivity; [exact (Hm _ _ _ E) | exact (Hk _ _ _ _ H)].
Qed.

Lemma keeps_check b msg : keeps R (check b msg).
Proof. destruct b; [apply keeps_ret | apply keeps_throw]. Qed.

Lemma keeps_liftE {A} (r : Error + A) : keeps R (liftE r).
Proof. destruct r; [apply keeps_throw | apply keeps_ret]. Qed.

Lemma keeps_getLayer : keeps R getLayer.
Proof. intros lw r lw' [= <- <-]. reflexivity. Qed.

Lemma keeps_inWorld {A} (m : M A) : keeps R (inWorld m).
Proof.
  intros [l w] r lw'. unfold inWorld. cbn. destruct (m w). intros [= <- <-]. reflexivity.
Qed.

Lemma keeps_modifyLayer f : (forall l, R l (f l)) -> keeps R (modifyLayer f).
Proof. intros Hf lw r lw' [= <- <-]. apply Hf. Qed.

Lemma keeps_forFrom {A} (body : Z -> A -> L A) count :
  (forall i a, keeps R (body i a)) -> forall i acc, keeps R (forFrom i count body acc).
Proof.
  intros Hb. induction count as [|c IH]; intros i acc; cbn.
  - apply keeps_ret.
  - apply keeps_bind; auto.
Qed.

Lemma keeps_forRange {A} (body : Z -> A -> L A) n acc :
  (forall i a, keeps R (body i a)) -> keeps R (forRange n body acc).
Proof. intros. apply keeps_forFrom; auto. Qed.

End Keeps.

Ltac keeps_tac :=
  repeat first
    [ solve [auto]
    | apply keeps_ret; apply _ | apply keeps_throw; apply _ | apply keeps_check; apply _
    | apply keeps_liftE; apply _ | apply keeps_getLayer; apply _
    | apply keeps_inWorld; apply _
    | apply keeps_bind; [apply _| |intros ?]
    | apply keeps_forRange; [apply _|apply _|intros ? ?]
    | match goal with
      | |- keeps _ (match ?x with _ => _ end) => destruct x
      | |- keeps _ (if ?x then _ else _) => destruct x
      | |- keeps _ (let '(_, _) := ?x in _) => destruct x
      end ].

Lemma flagsLe_refl : Reflexive flagsLe.
Proof. intros l c. done. Qed.

Lemma flagsLe_trans : Transitive flagsLe.
Proof. intros a b c H1 H2 x Hx. auto. Qed.

Lemma flagsEq_refl : Reflexive flagsEq.
Proof. intros l c. done. Qed.

Lemma flagsEq_trans : Transitive flagsEq.
Proof. intros a b c H1 H2 x. by rewrite H2, H1. Qed.

#[local] Existing Instances flagsLe_refl flagsLe_trans flagsEq_refl flagsEq_trans.

Lemma flagsEq_le l l' : flagsEq l l' -> flagsLe l l'.
Proof. intros H c Hc. by rewrite H. Qed.

Lemma flagsEq_setConfigured bw m l : flagsEq l (setConfigured bw m l).
Proof. intros c. by destruct l, c. Qed.

Lemma flagsEq_setWorkspaces a b l : flagsEq l (setWorkspaces a b l).
Proof. intros c. by destruct l, c. Qed.

Lemma flagsEq_setCyclicStep z l : flagsEq l (setCyclicStep z l).
Proof. intros c. by destruct l, c. Qed.

Lemma flagsEq_setLogitsPtrsHost z l : flagsEq l (setLogitsPtrsHost z l).
Proof. intros c. by destruct l, c. Qed.

Lemma flagsEq_setRuntimeMaxSeqLen z l : flagsEq l (setRuntimeMaxSeqLen z l).
Proof. intros c. by destruct l, c. Qed.

Lemma flagsLe_setUseFlags l a b c0 dd e :
  flagsLe l (setUseFlags (mUseTemperature l || a) (mUseRepetitionPenalty l || b)
               (mUsePresencePenalty l || c0) (mUseFrequencyPenalty l || dd)
               (mUseMinLength l || e) l).
Proof. intros c. destruct l, c; cbn; intros ->; done. Qed.

Lemma allocateWorkspace_flags : keeps flagsEq allocateWorkspace.
Proof.
  unfold allocateWorkspace.
  keeps_tac; apply keeps_modifyLayer; intros ?; apply flagsEq_setWorkspaces.
Qed.

Lemma keeps_weaken {A} (R R' : Layer -> Layer -> Prop) (m : L A) :
  (forall l l', R l l' -> R' l l') -> keeps R m -> keeps R' m.
Proof. intros H Hm lw r lw' E. apply H. eapply Hm; eauto. Qed.

Lemma resolveConfiguredBeamWidth_flags beamWidth :
  keeps flagsEq (resolveConfiguredBeamWidth TopKTopP BeamSearch beamWidth).
Proof.
  unfold resolveConfiguredBeamWidth. pose proof allocateWorkspace_flags.
  keeps_tac; try done;
    apply keeps_modifyLayer; intros ?;
    first [apply flagsEq_setConfigured | apply flagsEq_setWorkspaces].
Qed.

Lemma enablePenalties_run p l w :
  exists l', enablePenalties p (l, w) = (inr tt, (l', w))
    /\ mDecodingMode l' = mDecodingMode l
    /\ forall c, mUse c l' = mUse c l || enables c p l'.
Proof.
  eexists. split; [reflexivity|]. split; [by destruct l|].
  intros c. unfold enables. by destruct l, c.
Qed.

Lemma fillPenalties_layer batchSize p slots :
  keeps eq (fillPenalties defaultValue withinLimits FillBuffers batchSize p slots).
Proof. unfold fillPenalties. keeps_tac. Qed.

Lemma setup_flags batchSize beamWidth batchSlots setupParams :
  keeps flagsLe (setup defaultValue withinLimits TopKTopP BeamSearch getDefaultBatchSlots
                   FillBuffers batchSize beamWidth
                   batchSlots setupParams).
Proof.
  unfold setup.
  pose proof (keeps_weaken flagsEq flagsLe _ flagsEq_le
                (resolveConfiguredBeamWidth_flags beamWidth)).
  assert (forall n p sl,
             keeps flagsLe (fillPenalties defaultValue withinLimits FillBuffers n p sl)).
  { intros. eapply keeps_weaken; [|apply fillPenalties_layer]. by intros ? ? ->. }
  keeps_tac; try done.
  match goal with |- keeps _ (enablePenalties ?p) => rename p into pp end.
  intros [l w] r lw' E. destruct (enablePenalties_run pp l w) as (l' & E' & _ & Hf).
  rewrite E' in E. injection E as <- <-. intros c Hc. cbn. rewrite Hf. cbn in Hc. by rewrite Hc.
Qed.

Lemma forwardAsync_flags outputs params :
  keeps flagsEq (forwardAsync defaultValue getLocalDecoderDomain invokeBatchApplyPenalty
                   allOfBatchSlots getDefaultBatchSlots
                   outputs params).
Proof.
  unfold forwardAsync.
  keeps_tac;
    try (apply keeps_modifyLayer; intros ?;
         first [ apply flagsEq_setWorkspaces | apply flagsEq_setCyclicStep
               | apply flagsEq_setLogitsPtrsHost | apply flagsEq_setRuntimeMaxSeqLen ]).
Qed.

Lemma setup_returns_flags batchSize beamWidth batchSlots setupParams lw lw' :
  setup defaultValue withinLimits TopKTopP BeamSearch getDefaultBatchSlots FillBuffers
    batchSize beamWidth batchSlots
    setupParams lw = (inr tt, lw') ->
  exists p, penaltyParams setupParams = Some p
    /\ forall c, mUse c (fst lw') = mUse c (fst lw) || enables c p (fst lw').
Proof.
  unfold setup. intros H.
  apply bind_inr in H as (? & lw1 & Hconf & H).
  pose proof (resolveConfiguredBeamWidth_flags _ _ _ _ Hconf) as Hf1.
  apply bind_inr in H as (slots & lw2 & Hs & H).
  assert (fst lw2 = fst lw1) as Hl2.
  { symmetry. exact (keeps_inWorld eq _ _ _ _ Hs). }
  apply bind_inr in H as (p & lw3 & Hp & H).
  destruct (penaltyParams setupParams) as [p'|]; [|discriminate].
  injection Hp as <- <-.
  apply bind_inr in H as (? & lw4 & Hm & H).
  destruct lw2 as [l2 w2]. cbn in Hl2. subst l2.
  destruct (enablePenalties_run p' (fst lw1) w2) as (l4 & E & Hmode & Hf).
  rewrite E in Hm. injection Hm as Hm. subst lw4.
  pose proof (fillPenalties_layer _ _ _ _ _ _ H) as Hl. cbn in Hl. rewrite <- Hl.
  exists p'. split; [done|]. intros c. rewrite Hf. f_equal. apply Hf1.
Qed.

End Penalty.

(** ** PenaltyLayer: a step, case by case *)

(** The cases of a run of [forwardAsync], for the three collaborators that
    decide them: the local domain, the kernel and the helper that hands out
    the default batch slots. *)
Ltac forwardAsync_cases H domain kernel helper :=
  unfold PenaltyLayer.forwardAsync, PenaltyLayer.batchSlotsOrDefault in H;
  unfold bind, PenaltyLayer.getLayer, PenaltyLayer.modifyLayer, PenaltyLayer.inWorld,
    liftE, emit, getStore, putStore, ret, throw, check in H; cbn in H;
  repeat match type of H with
  | context [domain ?a ?b] => destruct (domain a b) eqn:?; cbn in H
  | context [match concat ?x with _ => _ end] => destruct (concat x) eqn:?; cbn in H
  | context [bool_decide ?P] => destruct (bool_decide P) eqn:?; cbn in H
  | context [match ?x !! ?i with _ => _ end] => destruct (x !! i) eqn:?; cbn in H
  | context [PenaltyLayer.logitsPtrsRow ?a ?b ?c] =>
      destruct (PenaltyLayer.logitsPtrsRow a b c) eqn:?; cbn in H
  | context [match PenaltyLayer.batchSlots ?p with _ => _ end] =>
      destruct (PenaltyLayer.batchSlots p) eqn:?; cbn in H
  | context [helper ?n ?w] => destruct (helper n w) as [[?|?] ?] eqn:?; cbn in H
  | context [PenaltyLayer.sequenceLength ?o] =>
      destruct (PenaltyLayer.sequenceLength o) eqn:?; cbn in H
  | context [kernel ?a ?b] => destruct (kernel a b) eqn:?; cbn in H
  | context [PenaltyLayer.isBeamSearch ?m] =>
      destruct (PenaltyLayer.isBeamSearch m) eqn:?; cbn in H
  end.

Section Frame.
Import PenaltyLayer.
Variable defaultValue : DecodingPenaltyType -> Z.
Variable getLocalDecoderDomain : DecodingInputs -> DecoderDomain -> Error + DecoderDomain.
Variable invokeBatchApplyPenalty :
  InvokeBatchApplyPenaltyParams -> Store -> list Z * list Z.
Variable allOfBatchSlots : list Z -> list Z -> Z -> Z -> bool.
Variable getDefaultBatchSlots : Z -> M ITensor.

(** A step that returns, piece by piece: the local domain, the batch slots
    and the world they are handed out in, the argument block of the kernel,
    and what the kernel leaves. *)
Lemma forwardAsync_inr outputs params l w params' l' w' :
  forwardAsync defaultValue getLocalDecoderDomain invokeBatchApplyPenalty allOfBatchSlots
    getDefaultBatchSlots outputs params (l, w)
  = (inr params', (l', w')) ->
  exists localDecoderDomain slots w1 kp,
    getLocalDecoderDomain params (mDecoderDomain l) = inr localDecoderDomain
    /\ batchSlotsOrDefault getDefaultBatchSlots (batchSlots params)
         (getBatchSize localDecoderDomain)
         (mkWorld (wStore w) (wTrace w ++ tableEvents outputs l)) = (inr slots, w1)
    /\ wStore w' = kernelStore invokeBatchApplyPenalty l kp (wStore w1)
    /\ wTrace w' = wTrace w1 ++ [EvKernel "invokeBatchApplyPenalty"; EvSyncCheck]
    /\ k_outputLogits kp = data (mRuntimeLogitsDevice l)
    /\ k_batchSize kp = getBatchSize localDecoderDomain
    /\ (forall c, kernelArray c kp
                  = data <$> GET_PENALTIES defaultValue allOfBatchSlots c l (wStore w1)
                               (Kernels.bufOf (wStore w1) (Some (data slots)))
                               (getBatchSize localDecoderDomain))
    /\ params' = withLogits (runtimeLogitsView l localDecoderDomain) params.
Proof.
  intros H.
  destruct l as [mode dom cbw cyc rms tbl t rp pr f ml td rd prd fd mld rl ws wsp ut ur up uf um].
  destruct w as [s0 tr0].
  unfold tableEvents, tableUnallocated. cbn [mLogitsPtrsHost mDecoderDomain].
  forwardAsync_cases H getLocalDecoderDomain invokeBatchApplyPenalty getDefaultBatchSlots.
  all: try discriminate.
  all: injection H as <- <- <-.
  all: repeat match goal with
              | Hc : concat ?t = _ |- _ => rewrite Hc
              end.
  all: rewrite ?decide_True by done; rewrite ?decide_False by done.
  all: unfold batchSlotsOrDefault; rewrite ?app_nil_r.
  all: match goal with
       | E : invokeBatchApplyPenalty ?kp _ = _ |- _ =>
           eexists _, _, _, kp; split_and!;
           [reflexivity
           |first [reflexivity|eassumption]
           |unfold kernelStore; cbn; rewrite E; cbn;
            repeat match goal with
                   | Hl : ?x !! ?i = _ |- context [?x !! ?i] => rewrite Hl
                   end;
            reflexivity
           |cbn; by rewrite <- ?app_assoc
           |reflexivity
           |reflexivity
           |intros c; destruct c; reflexivity
           |reflexivity]
       end.
Qed.

(** Whatever the outcome of a step, a buffer that exists and is neither the
    runtime logits nor the workspace of the layer holds what it held. *)
Lemma forwardAsync_frame outputs params l w r l' w' :
  (forall n, handsOut (getDefaultBatchSlots n)) ->
  forwardAsync defaultValue getLocalDecoderDomain invokeBatchApplyPenalty allOfBatchSlots
    getDefaultBatchSlots outputs params (l, w)
  = (r, (l', w')) ->
  forall p, is_Some (wStore w !! p) ->
    p <> data (mRuntimeLogitsDevice l) ->
    data <$> mPenaltyWorkspaceDevice l <> Some p ->
    wStore w' !! p = wStore w !! p.
Proof.
  intros Hh H p Hp H1 H2.
  destruct l as [mode dom cbw cyc rms tbl t rp pr f ml td rd prd fd mld rl ws wsp ut ur up uf um].
  destruct w as [s0 tr0]. cbn in Hp, H1, H2.
  forwardAsync_cases H getLocalDecoderDomain invokeBatchApplyPenalty getDefaultBatchSlots.
  all: injection H as <- <- <-; cbn [wStore].
  all: try done.
  all: match goal with
       | E : getDefaultBatchSlots ?n ?W = _ |- _ =>
           destruct (Hh n W) as (t' & w'' & E' & Hkeep); rewrite E' in E;
           try discriminate; injection E as <- <-; cbn [wStore] in Hkeep
       | _ => idtac
       end.
  all: try (by apply Hkeep).
  all: destruct ws as [wt|]; cbn in *.
  all: rewrite ?lookup_insert_ne by congruence; try done; try (by apply Hkeep).
  all: match goal with
       | |- context [match ?x !! ?i with _ => _ end] => destruct (x !! i)
       end.
  all: rewrite ?lookup_insert_ne by congruence; try done; by apply Hkeep.
Qed.

Lemma logitsPtrOf_given params n bi :
  logitsGiven params n -> 0 <= bi < n ->
  exists ptr, logitsPtrOf params n bi = inr ptr.
Proof.
  unfold logitsGiven, logitsPtrOf. intros Hg Hbi.
  destruct (logitsVec params) as [v|].
  - rewrite bool_decide_eq_true_2 by done.
    destruct (v !! Z.to_nat bi) as [t|] eqn:E; [by eexists|].
    apply lookup_ge_None in E. lia.
  - destruct Hg as (t & -> & Hd). unfold sliceRow.
    rewrite bool_decide_eq_true_2 by lia. by eexists.
Qed.

Lemma logitsPtrsRow_returns params n row0 :
  logitsGiven params n -> n <= Z.of_nat (length row0) ->
  exists row, logitsPtrsRow params n row0 = inr row.
Proof.
  intros Hg Hn. unfold logitsPtrsRow, forRange.
  assert (forall steps i (row : list (option Ptr)),
            0 <= i -> i + Z.of_nat steps <= n -> length row = length row0 ->
            exists row',
              forFrom i steps
                (fun bi (row : list (option Ptr)) =>
                   do ptr <- liftE (logitsPtrOf params n bi);
                   if bool_decide (Z.to_nat bi < length row)%nat
                   then ret (<[Z.to_nat bi := ptr]> row)
                   else throw OutOfBounds) row tt = (inr row', tt)) as Hloop.
  { induction steps as [|c IH]; intros i row Hi Hc Hlen; cbn [forFrom].
    - by eexists.
    - destruct (logitsPtrOf_given params n i Hg ltac:(lia)) as [ptr Hptr].
      unfold bind at 1. unfold bind at 1. rewrite Hptr. cbn.
      rewrite bool_decide_eq_true_2 by lia. cbn.
      apply IH; [lia|lia|by rewrite length_insert]. }
  destruct (decide (0 <= n)) as [Hpos|Hneg].
  - destruct (Hloop (Z.to_nat n) 0 row0 ltac:(lia) ltac:(lia) eq_refl) as [row Hrow].
    exists row. by rewrite Hrow.
  - rewrite Z2Nat.nonpos by lia. by eexists.
Qed.

(** A step the layer is ready for returns. *)
Lemma forwardAsync_returns outputs params l w :
  (forall n, handsOut (getDefaultBatchSlots n)) ->
  stepReady getLocalDecoderDomain outputs params l ->
  exists params' lw',
    forwardAsync defaultValue getLocalDecoderDomain invokeBatchApplyPenalty allOfBatchSlots
      getDefaultBatchSlots outputs params (l, w)
    = (inr params', lw').
Proof.
  intros Hh (d0 & Hdom & Hfit & [Hlen Hcyc] & Hrows & Hseq & Hlogits & [sl Hsl]).
  destruct (forwardAsync _ _ _ _ _ outputs params (l, w)) as [[e|params'] lw'] eqn:H;
    [exfalso|by eauto].
  destruct lw' as [l' w'].
  destruct l as [mode dom cbw cyc rms tbl t rp pr f ml td rd prd fd mld rl ws wsp ut ur up uf um].
  destruct w as [s0 tr0]. cbn in Hdom, Hfit, Hlen, Hcyc, Hrows.
  forwardAsync_cases H getLocalDecoderDomain invokeBatchApplyPenalty getDefaultBatchSlots.
  all: try discriminate.
  all: simplify_eq.
  all: repeat match goal with
              | Hb : bool_decide _ = true |- _ => apply bool_decide_eq_true_1 in Hb
              | Hb : bool_decide _ = false |- _ => apply bool_decide_eq_false_1 in Hb
              end.
  all: try lia.
  all: try match goal with
           | E : getDefaultBatchSlots ?n ?W = _ |- _ =>
               destruct (Hh n W) as (t' & w'' & E' & _); congruence
           end.
  all: try match goal with
           | E : logitsPtrsRow _ _ ?row0 = inl _, Hl : _ !! _ = Some ?row0 |- _ =>
               destruct (logitsPtrsRow_returns params (getBatchSize d0) row0 Hlogits) as [row Hrow];
               [|congruence];
               first [ apply lookup_replicate in Hl as [-> _]; rewrite length_replicate; lia
                     | rewrite Forall_lookup in Hrows; rewrite (Hrows _ _ Hl); lia ]
           end.
  all: try match goal with
           | Hl : _ !! _ = None |- _ =>
               apply lookup_ge_None in Hl; rewrite ?length_replicate in Hl
           end.
  all: try (pose proof (Z.rem_bound_pos cyc (List.last (getShape (outputIds outputs)) 0)
                          Hcyc Hseq); lia).
  all: try (subst rms; destruct tbl; [discriminate|cbn in Hlen; lia]).
  all: assert (0 < rms) by (destruct tbl; [discriminate|cbn in Hlen; lia]).
  all: pose proof (Z.rem_bound_pos cyc rms Hcyc ltac:(done)); lia.
Qed.

End Frame.

(** ** Success triples *)

Lemma hoare_ret {S A} (P : S -> Prop) (a : A) (Q : A -> S -> Prop) :
  (forall s, P s -> Q a s) -> hoare P (ret a) Q.
Proof. intros H s a' s' HP [= <- <-]. auto. Qed.

Lemma hoare_bind {S A B} (P : S -> Prop) (m : ST S A) (k : A -> ST S B)
    (Q : A -> S -> Prop) (R : B -> S -> Prop) :
  hoare P m Q -> (forall a, hoare (Q a) (k a) R) -> hoare P (bind m k) R.
Proof.
  intros Hm Hk s b s' HP H. apply bind_inr in H as (a & s1 & H1 & H2).
  eapply Hk; [|exact H2]. eapply Hm; eauto.
Qed.

Lemma hoare_conseq {S A} (P P' : S -> Prop) (m : ST S A) (Q Q' : A -> S -> Prop) :
  hoare P' m Q' -> (forall s, P s -> P' s) -> (forall a s, Q' a s -> Q a s) -> hoare P m Q.
Proof. intros H HP HQ s a s' Hs E. apply HQ. eapply H; eauto. Qed.

Lemma hoare_throw {S A} (P : S -> Prop) e (Q : A -> S -> Prop) : hoare P (throw e) Q.
Proof. intros s a s' _ [=]. Qed.

Lemma hoare_check {S} (P : S -> Prop) b msg (Q : unit -> S -> Prop) :
  (b = true -> forall s, P s -> Q tt s) -> hoare P (check b msg) Q.
Proof. destruct b; intros H; [apply hoare_ret; auto | apply hoare_throw]. Qed.

Lemma hoare_liftE {S A} (P : S -> Prop) (r : Error + A) (Q : A -> S -> Prop) :
  (forall a, r = inr a -> forall s, P s -> Q a s) -> hoare P (liftE r) Q.
Proof. destruct r; intros H; [apply hoare_throw | apply hoare_ret; auto]. Qed.

Lemma hoare_forFrom {S A} (I : A -> S -> Prop) (body : Z -> A -> ST S A) count :
  (forall i a, hoare (I a) (body i a) I) ->
  forall i acc, hoare (I acc) (forFrom i count body acc) I.
Proof.
  intros Hb. induction count as [|c IH]; intros i acc; cbn.
  - apply hoare_ret; auto.
  - eapply hoare_bind; [apply Hb|]. intros a. apply IH.
Qed.

Lemma hoare_forRange {S A} (I : A -> S -> Prop) (body : Z -> A -> ST S A) n acc :
  (forall i a, hoare (I a) (body i a) I) -> hoare (I acc) (forRange n body acc) I.
Proof. intros. by apply hoare_forFrom. Qed.

(** A loop that runs at least once establishes what one round establishes,
    when further rounds keep it. *)
Lemma hoare_forRange_pos {S A} (P : A -> S -> Prop) (I : A -> S -> Prop)
    (body : Z -> A -> ST S A) n acc :
  1 <= n ->
  (forall i a, hoare (P a) (body i a) I) ->
  (forall i a, hoare (I a) (body i a) I) ->
  hoare (P acc) (forRange n body acc) I.
Proof.
  intros Hn HP HI. unfold forRange.
  destruct (Z.to_nat n) as [|c] eqn:E; [lia|]. cbn.
  eapply hoare_bind; [apply HP|]. intros a. by apply hoare_forFrom.
Qed.

Lemma hoare_forEach {S A X} (I : list X -> A -> S -> Prop) (body : X -> A -> ST S A) :
  (forall x xs a, hoare (I (x :: xs) a) (body x a) (I xs)) ->
  forall xs acc, hoare (I xs acc) (KvCache.forEach xs body acc) (I []).
Proof.
  intros Hb xs. induction xs as [|x xs IH]; intros acc; cbn.
  - apply hoare_ret; auto.
  - eapply hoare_bind; [apply Hb|]. intros a. apply IH.
Qed.

(** ** Counting blocks *)

Section Counting.

Lemma filter_ext_in {A} (P Q : A -> Prop) `{!forall x, Decision (P x), !forall x, Decision (Q x)}
    (l : list A) :
  (forall x, x ∈ l -> P x <-> Q x) -> filter P l = filter Q l.
Proof.
  induction l as [|a l IH]; intros Hext; [done|].
  rewrite !filter_cons.
  rewrite IH by (intros x Hx; apply Hext; by apply list_elem_of_further).
  pose proof (Hext a (list_elem_of_here _ _)).
  destruct (decide (P a)), (decide (Q a)); tauto.
Qed.

(** Changing a predicate at one index changes its count by that index. *)
Lemma length_filter_seq_update (g g' : nat -> bool) (x n : nat) :
  (x < n)%nat -> (forall i, i <> x -> g' i = g i) ->
  (length (filter (fun i => g' i = true) (seq 0 n)) + Nat.b2n (g x)
   = length (filter (fun i => g i = true) (seq 0 n)) + Nat.b2n (g' x))%nat.
Proof.
  intros Hx Hg. induction n as [|k IH]; [lia|].
  rewrite seq_S, !filter_app, !length_app. cbn [Nat.add].
  rewrite !filter_cons, !filter_nil.
  destruct (decide (x = k)) as [->|Hne].
  - rewrite (filter_ext_in (fun i => g' i = true) (fun i => g i = true) (seq 0 k)).
    2: { intros i Hi. apply elem_of_seq in Hi. rewrite Hg by lia. done. }
    destruct (g k), (g' k); repeat case_decide; cbn; try done; lia.
  - specialize (IH ltac:(lia)). rewrite (Hg k) by done.
    case_decide; cbn; lia.
Qed.

Lemma count_app i l1 l2 : count i (l1 ++ l2) = (count i l1 + count i l2)%nat.
Proof. unfold count. by rewrite filter_app, length_app. Qed.

Lemma count_cons i x l : count i (x :: l) = ((if decide (x = i) then 1 else 0) + count i l)%nat.
Proof. unfold count. rewrite filter_cons. by case_decide. Qed.

Lemma count_nil i : count i [] = 0%nat.
Proof. done. Qed.

Lemma count_pos i l : (0 < count i l)%nat <-> i ∈ l.
Proof.
  unfold count. split.
  - intros H. destruct (filter _ l) as [|y ys] eqn:E; [cbn in H; lia|].
    assert (Hy : y ∈ filter (fun x => x = i) l) by (rewrite E; apply list_elem_of_here).
    apply list_elem_of_filter in Hy as [-> ?]. done.
  - intros H. assert (Hi : i ∈ filter (fun x => x = i) l) by (by apply list_elem_of_filter).
    destruct (filter _ l); [inversion Hi|cbn; lia].
Qed.

Lemma concat_insert_count (i : nat) (ls : list (list nat)) (slot : nat) old new :
  ls !! slot = Some old ->
  (count i (concat (<[slot := new]> ls)) + count i old
   = count i (concat ls) + count i new)%nat.
Proof.
  revert slot. induction ls as [|l ls IH]; intros [|slot] H; try done.
  - injection H as ->. cbn. rewrite !count_app. lia.
  - specialize (IH slot H).
    change (<[S slot := new]> (l :: ls)) with (l :: <[slot := new]> ls).
    cbn [concat]. rewrite !count_app. lia.
Qed.

Lemma concat_insert_elem (i : nat) (ls : list (list nat)) (slot : nat) old new :
  ls !! slot = Some old ->
  i ∈ concat (<[slot := new]> ls) -> i ∈ new \/ i ∈ concat ls.
Proof.
  intros H Hi. apply count_pos in Hi.
  pose proof (concat_insert_count i ls slot old new H) as Hc.
  destruct (decide (0 < count i new)%nat) as [Hn|Hn].
  - left. by apply count_pos.
  - right. apply count_pos. lia.
Qed.

End Counting.

(** ** The bookkeeping of the block manager *)

Section Invariant.
Import KvCache.
Context {P N : nat}.

Lemma Inv_not_queued live c p m b :
  Inv P N live c p m -> refOf m b <> 0 -> b ∉ queued m.
Proof.
  intros HI Hr Hb. apply elem_of_app in Hb as [Hb|Hb].
  - by destruct (inv_freeP _ _ _ _ _ _ HI b Hb) as (_ & ? & _).
  - by destruct (inv_freeS _ _ _ _ _ _ HI b Hb) as (_ & ? & _).
Qed.

Lemma Inv_perm live c c' p m : c ≡ₚ c' -> Inv P N live c p m -> Inv P N live c' p m.
Proof.
  intros Hp [].
  split; try done.
  - by rewrite <- Hp.
  - intros i Hi. rewrite <- Hp in Hi. auto.
  - intros i Hi Hz. rewrite <- Hp. auto.
Qed.

Lemma delete_nth_perm {A} (l : list A) i b :
  l !! i = Some b -> l ≡ₚ b :: delete_nth i l.
Proof.
  intros H. unfold delete_nth. rewrite Permutation_middle.
  by rewrite take_drop_middle.
Qed.

(** A block leaves the primary free queue. *)
Lemma Inv_take_primary live c p m i b :
  Inv P N live c p m -> mFreePrimaryBlocks m !! i = Some b ->
  Inv P N live (b :: c) p
    (setFree (delete_nth i (mFreePrimaryBlocks m)) (mFreeSecondaryBlocks m) m).
Proof.
  intros [] Hb. pose proof (delete_nth_perm _ _ _ Hb) as Hperm.
  assert (Hq : queued m ++ c
               ≡ₚ (delete_nth i (mFreePrimaryBlocks m) ++ mFreeSecondaryBlocks m) ++ b :: c).
  { unfold queued. rewrite Hperm at 1. cbn. rewrite <- Permutation_middle. done. }
  split; cbn; try done.
  - unfold queued. cbn. by rewrite <- Hq.
  - intros j Hj. apply inv_freeP0. rewrite Hperm. by apply list_elem_of_further.
  - intros j Hj. apply elem_of_cons in Hj as [->|Hj]; [|auto].
    destruct (inv_freeP0 b) as (? & ? & ?); [|done].
    by eapply list_elem_of_lookup_2.
  - intros j Hj Hz. unfold queued. cbn. rewrite <- Hq. auto.
Qed.

(** A block leaves the secondary free queue. *)
Lemma Inv_take_secondary live c p m j b :
  Inv P N live c p m -> mFreeSecondaryBlocks m !! j = Some b ->
  Inv P N live (b :: c) p
    (setFree (mFreePrimaryBlocks m) (delete_nth j (mFreeSecondaryBlocks m)) m).
Proof.
  intros [] Hb. pose proof (delete_nth_perm _ _ _ Hb) as Hperm.
  assert (Hq : queued m ++ c
               ≡ₚ (mFreePrimaryBlocks m ++ delete_nth j (mFreeSecondaryBlocks m)) ++ b :: c).
  { unfold queued. rewrite Hperm at 1. rewrite <- !app_assoc. cbn.
    rewrite <- !Permutation_middle. done. }
  split; cbn; try done.
  - unfold queued. cbn. by rewrite <- Hq.
  - intros k Hk. apply inv_freeS0. rewrite Hperm. by apply list_elem_of_further.
  - intros k Hk. apply elem_of_cons in Hk as [->|Hk]; [|auto].
    destruct (inv_freeS0 b) as (? & ? & ?); [|done].
    by eapply list_elem_of_lookup_2.
  - intros k Hk Hz. unfold queued. cbn. rewrite <- Hq. auto.
Qed.

Lemma numBlocks_updBlock x b m : numBlocks (updBlock x b m) = numBlocks m.
Proof. unfold numBlocks, updBlock. cbn. apply length_insert. Qed.

Lemma refOf_updBlock x b m i :
  (x < numBlocks m)%nat ->
  refOf (updBlock x b m) i = if decide (i = x) then mRefCount b else refOf m i.
Proof.
  intros Hx. unfold refOf, updBlock. cbn. case_decide as Hi.
  - subst. by rewrite list_lookup_insert_eq.
  - by rewrite list_lookup_insert_ne.
Qed.

Lemma primOf_updBlock x b m i :
  (x < numBlocks m)%nat ->
  primOf (updBlock x b m) i = if decide (i = x) then isPrimary b else primOf m i.
Proof.
  intros Hx. unfold primOf, updBlock. cbn. case_decide as Hi.
  - subst. by rewrite list_lookup_insert_eq.
  - by rewrite list_lookup_insert_ne.
Qed.

Lemma lookup_block_lt m x b : mAllBlocksByIdx m !! x = Some b -> (x < numBlocks m)%nat.
Proof. apply lookup_lt_Some. Qed.

Lemma refOf_lookup m x b : mAllBlocksByIdx m !! x = Some b -> refOf m x = mRefCount b.
Proof. unfold refOf. by intros ->. Qed.

Lemma primOf_lookup m x b : mAllBlocksByIdx m !! x = Some b -> primOf m x = isPrimary b.
Proof. unfold primOf. by intros ->. Qed.

Lemma primaries_length (g : nat -> bool) m' m :
  numBlocks m' = numBlocks m -> (forall i, primOf m' i = g i) ->
  length (primaries m') = length (filter (fun i => g i = true) (seq 0 (numBlocks m))).
Proof.
  intros Hn Hg. unfold primaries. rewrite Hn. f_equal.
  apply filter_ext_in. intros i _. by rewrite Hg.
Qed.

Lemma Inv_swapped live c p m x y bx by_ :
  Inv P N live c p m -> x <> y ->
  mAllBlocksByIdx m !! x = Some bx -> mAllBlocksByIdx m !! y = Some by_ ->
  x ∉ queued m -> y ∉ queued m ->
  Inv P N live c p (swapped x y bx by_ m).
Proof.
  intros [] Hxy Hx Hy Hqx Hqy.
  pose proof (lookup_block_lt _ _ _ Hx) as Hlx.
  pose proof (lookup_block_lt _ _ _ Hy) as Hly.
  set (m1 := updBlock x (withOffset (mMemoryPoolBlockOffset by_) bx) m).
  assert (Hn1 : numBlocks m1 = numBlocks m) by apply numBlocks_updBlock.
  assert (Hn : numBlocks (swapped x y bx by_ m) = numBlocks m).
  { unfold swapped. fold m1. by rewrite numBlocks_updBlock. }
  assert (Hr : forall i, refOf (swapped x y bx by_ m) i = refOf m i).
  { intros i. unfold swapped. fold m1. rewrite refOf_updBlock by lia.
    unfold m1. rewrite refOf_updBlock by lia.
    pose proof (refOf_lookup _ _ _ Hx) as Ex.
    pose proof (refOf_lookup _ _ _ Hy) as Ey.
    repeat case_decide; subst; cbn; congruence. }
  assert (Hp : forall i, primOf (swapped x y bx by_ m) i
                         = if decide (i = y) then primOf m x
                           else if decide (i = x) then primOf m y else primOf m i).
  { intros i. unfold swapped. fold m1. rewrite primOf_updBlock by lia.
    unfold m1. rewrite primOf_updBlock by lia.
    rewrite (primOf_lookup _ _ _ Hx), (primOf_lookup _ _ _ Hy).
    repeat case_decide; subst; done. }
  assert (Hpq : forall i, i ∈ queued m -> primOf (swapped x y bx by_ m) i = primOf m i).
  { intros i Hi. rewrite Hp. repeat case_decide; subst; done. }
  split; try done.
  - intros i Hi. rewrite Hn, Hr, Hpq; [auto|]. apply elem_of_app. by left.
  - intros i Hi. rewrite Hn, Hr, Hpq; [auto|]. apply elem_of_app. by right.
  - intros i Hi. rewrite Hn, Hr. auto.
  - intros i. rewrite Hn, Hr. auto.
  - intros i. rewrite Hn, Hr. auto.
  - intros i. rewrite Hn. auto.
  - rewrite <- inv_prim0.
    set (g := fun i => primOf m i).
    set (g1 := fun i => if decide (i = x) then g y else g i).
    set (g2 := fun i => if decide (i = y) then g x else g1 i).
    rewrite (primaries_length g2 _ m Hn).
    2: { intros i. rewrite Hp. unfold g2, g1, g. repeat case_decide; subst; done. }
    assert (g1 x = g y) as E1 by (unfold g1; by rewrite decide_True).
    assert (g1 y = g y) as E2 by (unfold g1; by rewrite decide_False).
    assert (g2 y = g x) as E3 by (unfold g2; by rewrite decide_True).
    assert (H1 := length_filter_seq_update g g1 x (numBlocks m) Hlx
                    ltac:(intros i Hi; unfold g1; by rewrite decide_False)).
    assert (H2 := length_filter_seq_update g1 g2 y (numBlocks m) Hly
                    ltac:(intros i Hi; unfold g2; by rewrite decide_False)).
    change (length (primaries m))
      with (length (filter (fun i => g i = true) (seq 0 (numBlocks m)))).
    rewrite E1 in H1. rewrite E2, E3 in H2.
    lia.
  - by rewrite Hn.
Qed.

(** The free queues and the claimed blocks are rearranged among themselves. *)
Lemma Inv_setFree live c c' p m fp fs :
  Inv P N live c p m ->
  (fp ++ fs) ++ c' ≡ₚ queued m ++ c ->
  (forall i, i ∈ fp -> primOf m i = true) ->
  (forall i, i ∈ fs -> primOf m i = false) ->
  Inv P N live c' p (setFree fp fs m).
Proof.
  intros [] Hperm Hfp Hfs.
  assert (Hall : forall i, i ∈ queued m ++ c -> (i < numBlocks m)%nat /\ refOf m i = 0).
  { intros i Hi. apply elem_of_app in Hi as [Hi|Hi]; [|auto].
    apply elem_of_app in Hi as [Hi|Hi].
    - destruct (inv_freeP0 i Hi) as (? & ? & ?). done.
    - destruct (inv_freeS0 i Hi) as (? & ? & ?). done. }
  split; cbn; try done.
  - unfold queued. cbn. by rewrite Hperm.
  - intros i Hi. assert (Hq : i ∈ queued m ++ c).
    { rewrite <- Hperm. apply elem_of_app. left. apply elem_of_app. by left. }
    destruct (Hall i Hq). split_and!; [done|done|by apply Hfp].
  - intros i Hi. assert (Hq : i ∈ queued m ++ c).
    { rewrite <- Hperm. apply elem_of_app. left. apply elem_of_app. by right. }
    destruct (Hall i Hq). split_and!; [done|done|by apply Hfs].
  - intros i Hi. apply Hall. rewrite <- Hperm. apply elem_of_app. by right.
  - intros i Hi Hz. unfold queued. cbn. rewrite Hperm. auto.
Qed.

Lemma Inv_live_mono (live live' : nat -> Prop) c p m :
  (forall s, live s -> live' s) -> Inv P N live c p m -> Inv P N live' c p m.
Proof. intros H []. split; try done. eauto. Qed.

Lemma Inv_live_remove (live live' : nat -> Prop) c p m slot :
  mAllocatedBlocksPerSeq m !! slot = Some [] ->
  (forall s, live s -> s <> slot -> live' s) -> Inv P N live c p m -> Inv P N live' c p m.
Proof.
  intros Hs H []. split; try done.
  intros s l Hl Hne. apply H; [eauto|]. intros ->. congruence.
Qed.

Lemma refOf_nonneg live c p m i : Inv P N live c p m -> 0 <= refOf m i.
Proof.
  intros []. destruct (decide (i < numBlocks m)%nat) as [Hi|Hi].
  - rewrite inv_refs0 by done. lia.
  - unfold refOf. rewrite lookup_ge_None_2; [done|]. unfold numBlocks in Hi. lia.
Qed.

(** A block outside the free queues gains a reference and joins the blocks
    held by a live slot. *)
Lemma Inv_attach (live : nat -> Prop) c p m b blk slot held :
  Inv P N live c p m ->
  mAllBlocksByIdx m !! b = Some blk -> b ∉ queued m ->
  mAllocatedBlocksPerSeq m !! slot = Some held -> live slot ->
  Inv P N live (filter (fun x => x <> b) c) p
    (setAllocated (<[slot := held ++ [b]]> (mAllocatedBlocksPerSeq m))
       (updBlock b (incRefCount blk) m)).
Proof.
  intros HI Hb Hq Hs Hlive.
  pose proof (refOf_nonneg _ _ _ _ b HI) as Hnn.
  destruct HI.
  pose proof (lookup_block_lt _ _ _ Hb) as Hlt.
  pose proof (refOf_lookup _ _ _ Hb) as Hrb.
  set (m1 := updBlock b (incRefCount blk) m).
  set (m2 := setAllocated _ m1).
  assert (Hn : numBlocks m2 = numBlocks m) by apply numBlocks_updBlock.
  assert (Hr : forall i, refOf m2 i = if decide (i = b) then refOf m b + 1 else refOf m i).
  { intros i. change (refOf m2 i) with (refOf m1 i). unfold m1.
    rewrite refOf_updBlock by done. case_decide; [cbn; lia|done]. }
  assert (Hp : forall i, primOf m2 i = primOf m i).
  { intros i. change (primOf m2 i) with (primOf m1 i). unfold m1.
    rewrite primOf_updBlock by done. case_decide; [|done]. subst.
    by rewrite (primOf_lookup _ _ _ Hb). }
  assert (Hne : forall i, i ∈ queued m -> i <> b) by (intros i Hi ->; done).
  assert (Hcount : forall i, count i (p ++ heldBlocks m2)
                     = (count i (p ++ heldBlocks m) + if decide (b = i) then 1 else 0)%nat).
  { intros i. rewrite !count_app. unfold heldBlocks, m2. cbn.
    pose proof (concat_insert_count i (mAllocatedBlocksPerSeq m) slot held (held ++ [b]) Hs) as Hc.
    rewrite count_app, count_cons, count_nil in Hc. lia. }
  split.
  - change (queued m2) with (queued m). apply NoDup_app in inv_nodup0 as (H1 & H2 & H3).
    apply NoDup_app. split_and!; [done| |by apply NoDup_filter].
    intros i Hi Hc. apply list_elem_of_filter in Hc as [_ Hc]. by eapply H2.
  - intros i Hi. change (mFreePrimaryBlocks m2) with (mFreePrimaryBlocks m) in Hi.
    rewrite Hn, Hr, Hp. rewrite decide_False; [auto|].
    apply Hne. apply elem_of_app. by left.
  - intros i Hi. change (mFreeSecondaryBlocks m2) with (mFreeSecondaryBlocks m) in Hi.
    rewrite Hn, Hr, Hp. rewrite decide_False; [auto|].
    apply Hne. apply elem_of_app. by right.
  - intros i Hi. apply list_elem_of_filter in Hi as [Hib Hi].
    rewrite Hn, Hr, decide_False by done. auto.
  - intros i. rewrite Hn, Hr. case_decide as Hib; [lia|].
    intros Hlt' Hz. change (queued m2) with (queued m).
    apply elem_of_app. pose proof (inv_zero0 i Hlt' Hz) as Hi.
    apply elem_of_app in Hi as [Hi|Hi]; [by left|].
    right. apply list_elem_of_filter. done.
  - intros i. rewrite Hn, Hr, Hcount. intros Hi.
    pose proof (inv_refs0 i Hi) as E. repeat case_decide; subst; try done; lia.
  - intros i Hi. rewrite Hn. apply count_pos in Hi. rewrite Hcount in Hi.
    case_decide; [by subst|]. apply inv_range0. apply count_pos. lia.
  - rewrite <- inv_prim0. apply (primaries_length (fun i => primOf m i)); done.
  - intros s l. unfold m2. cbn. intros Hl Hnil.
    destruct (decide (s = slot)) as [->|Hsne]; [done|].
    rewrite list_lookup_insert_ne in Hl by done. eauto.
  - by rewrite Hn.
Qed.

(** A pending reference is dropped; a block left without references is
    claimed. *)
Lemma Inv_decRef (live : nat -> Prop) c p m b blk :
  Inv P N live c (b :: p) m ->
  mAllBlocksByIdx m !! b = Some blk ->
  Inv P N live (if hasRefs (decRefCount blk) then c else b :: c) p
    (updBlock b (decRefCount blk) m)
  /\ 0 < mRefCount blk /\ b ∉ queued m ++ c.
Proof.
  intros HI Hb. destruct HI.
  pose proof (lookup_block_lt _ _ _ Hb) as Hlt.
  pose proof (refOf_lookup _ _ _ Hb) as Hrb.
  set (m1 := updBlock b (decRefCount blk) m).
  assert (Hn : numBlocks m1 = numBlocks m) by apply numBlocks_updBlock.
  assert (Hr : forall i, refOf m1 i = if decide (i = b) then refOf m b - 1 else refOf m i).
  { intros i. unfold m1. rewrite refOf_updBlock by done. case_decide; [cbn; lia|done]. }
  assert (Hp : forall i, primOf m1 i = primOf m i).
  { intros i. unfold m1. rewrite primOf_updBlock by done. case_decide; [|done]. subst.
    by rewrite (primOf_lookup _ _ _ Hb). }
  assert (Hcount : forall i, count i ((b :: p) ++ heldBlocks m)
                     = ((if decide (b = i) then 1 else 0) + count i (p ++ heldBlocks m))%nat).
  { intros i. cbn [app]. by rewrite count_cons. }
  assert (Hpos : 0 < refOf m b).
  { rewrite (inv_refs0 b Hlt), Hcount, decide_True by done. lia. }
  assert (Hnq : b ∉ queued m ++ c).
  { intros [Hq|Hq]%elem_of_app.
    - apply elem_of_app in Hq as [Hq|Hq].
      + destruct (inv_freeP0 b Hq) as (? & ? & ?). lia.
      + destruct (inv_freeS0 b Hq) as (? & ? & ?). lia.
    - destruct (inv_claimed0 b Hq). lia. }
  assert (Hne : forall i, i ∈ queued m ++ c -> i <> b) by (intros i Hi ->; done).
  split; [|split; [lia|done]].
  assert (Hh : hasRefs (decRefCount blk) = bool_decide (1 < refOf m b)).
  { unfold hasRefs. cbn. rewrite Hrb.
    destruct (Z.ltb_spec 0 (mRefCount blk - 1)); case_bool_decide; done || lia. }
  split.
  all: cycle 1.
  - intros i Hi. change (mFreePrimaryBlocks m1) with (mFreePrimaryBlocks m) in Hi.
    rewrite Hn, Hr, Hp. rewrite decide_False; [auto|].
    apply Hne. apply elem_of_app. left. apply elem_of_app. by left.
  - intros i Hi. change (mFreeSecondaryBlocks m1) with (mFreeSecondaryBlocks m) in Hi.
    rewrite Hn, Hr, Hp. rewrite decide_False; [auto|].
    apply Hne. apply elem_of_app. left. apply elem_of_app. by right.
  - intros i Hi. rewrite Hn, Hr. rewrite Hh in Hi. case_bool_decide as Hc.
    + rewrite decide_False; [auto|]. apply Hne. apply elem_of_app. by right.
    + apply elem_of_cons in Hi as [->|Hi].
      * rewrite decide_True by done. split; [done|lia].
      * rewrite decide_False; [auto|]. apply Hne. apply elem_of_app. by right.
  - intros i. rewrite Hn, Hr. change (queued m1) with (queued m). intros Hi Hz.
    rewrite Hh. case_decide as Hib.
    + subst. rewrite bool_decide_false by lia. apply elem_of_app. right. by left.
    + pose proof (inv_zero0 i Hi Hz) as Hq.
      apply elem_of_app in Hq as [?|?]; apply elem_of_app; [by left|right].
      case_bool_decide; [done|by right].
  - intros i Hi. rewrite Hn in Hi. rewrite Hr. change (heldBlocks m1) with (heldBlocks m).
    pose proof (inv_refs0 i Hi) as E. pose proof (inv_refs0 b Hlt) as Eb.
    rewrite Hcount in E, Eb. repeat case_decide; subst; try done; lia.
  - intros i Hi. rewrite Hn. apply inv_range0. cbn [app]. by right.
  - rewrite <- inv_prim0. apply (primaries_length (fun i => primOf m i)); done.
  - done.
  - by rewrite Hn.
  - change (queued m1) with (queued m). rewrite Hh. case_bool_decide; [done|].
    apply NoDup_app in inv_nodup0 as (H1 & H2 & H3).
    apply NoDup_app. split_and!; [done| |].
    + intros i Hi [->|Hc]%elem_of_cons; [|by eapply H2].
      apply Hnq. apply elem_of_app. by left.
    + apply NoDup_cons. split; [|done]. intros Hc. apply Hnq. apply elem_of_app. by right.
Qed.

(** The blocks held by a slot become pending references. *)
Lemma Inv_clear (live : nat -> Prop) c m slot held :
  Inv P N live c [] m ->
  mAllocatedBlocksPerSeq m !! slot = Some held ->
  Inv P N live c held (setAllocated (<[slot := []]> (mAllocatedBlocksPerSeq m)) m).
Proof.
  intros [] Hs.
  set (m1 := setAllocated _ m).
  assert (Hcount : forall i, count i (held ++ heldBlocks m1) = count i ([] ++ heldBlocks m)).
  { intros i. rewrite !count_app. unfold heldBlocks, m1. cbn.
    pose proof (concat_insert_count i (mAllocatedBlocksPerSeq m) slot held [] Hs) as Hc.
    rewrite count_nil in *. lia. }
  split; try done.
  - intros i Hi. change (numBlocks m1) with (numBlocks m) in Hi.
    change (refOf m1 i) with (refOf m i). rewrite Hcount. auto.
  - intros i Hi. change (numBlocks m1) with (numBlocks m). apply inv_range0.
    apply count_pos. rewrite <- Hcount. by apply count_pos.
  - intros s l. unfold m1. cbn. intros Hl Hnil.
    destruct (decide (s = slot)) as [->|Hsne].
    + rewrite list_lookup_insert_eq in Hl by (by eapply lookup_lt_Some). congruence.
    + rewrite list_lookup_insert_ne in Hl by done. eauto.
Qed.

End Invariant.

(** ** The operations of the block manager *)

Section ManagerRuns.
Import KvCache.
Context {P N : nat}.
Variable policy : BlockManager -> Eviction.

Lemma getBlock_inr i m b m' :
  getBlock i m = (inr b, m') -> m' = m /\ mAllBlocksByIdx m !! i = Some b.
Proof. unfold getBlock. destruct (_ !! i); [|discriminate]. by intros [= -> ->]. Qed.

Lemma updateBlock_inr i f m u m' :
  updateBlock i f m = (inr u, m') ->
  exists b, mAllBlocksByIdx m !! i = Some b /\ m' = updBlock i (f b) m.
Proof.
  unfold updateBlock. intros H. apply bind_inr in H as (b & m1 & H1 & H2).
  apply getBlock_inr in H1 as [-> Hb]. injection H2 as _ <-. eauto.
Qed.

Lemma lookup_updBlock_ne x b m y : x <> y ->
  mAllBlocksByIdx (updBlock x b m) !! y = mAllBlocksByIdx m !! y.
Proof. intros H. unfold updBlock. cbn. by rewrite list_lookup_insert_ne. Qed.

Lemma swapMemoryPoolBlockOffset_inr x y m u m' :
  swapMemoryPoolBlockOffset x y m = (inr u, m') -> x <> y ->
  exists bx by_, mAllBlocksByIdx m !! x = Some bx /\ mAllBlocksByIdx m !! y = Some by_
                 /\ m' = swapped x y bx by_ m.
Proof.
  unfold swapMemoryPoolBlockOffset. intros H Hxy.
  apply bind_inr in H as (bx & m1 & H1 & H). apply getBlock_inr in H1 as [-> Hx].
  apply bind_inr in H as (by_ & m1 & H1 & H). apply getBlock_inr in H1 as [-> Hy].
  apply bind_inr in H as (u1 & m1 & H1 & H).
  apply updateBlock_inr in H1 as (bx' & Hx' & ->).
  apply updateBlock_inr in H as (by' & Hy' & ->).
  rewrite lookup_updBlock_ne in Hy' by done.
  exists bx, by_. split_and!; [done|done|]. unfold swapped. congruence.
Qed.

Lemma primOf_swapped x y bx by_ m i :
  x <> y -> mAllBlocksByIdx m !! x = Some bx -> mAllBlocksByIdx m !! y = Some by_ ->
  primOf (swapped x y bx by_ m) i
  = if decide (i = y) then primOf m x else if decide (i = x) then primOf m y else primOf m i.
Proof.
  intros Hxy Hx Hy.
  pose proof (lookup_block_lt _ _ _ Hx) as Hlx.
  pose proof (lookup_block_lt _ _ _ Hy) as Hly.
  unfold swapped. rewrite primOf_updBlock by (by rewrite numBlocks_updBlock).
  rewrite primOf_updBlock by done.
  rewrite (primOf_lookup _ _ _ Hx), (primOf_lookup _ _ _ Hy).
  repeat case_decide; subst; done.
Qed.

Lemma elem_of_delete_nth {A} (l : list A) i b x :
  l !! i = Some b -> x ∈ delete_nth i l -> x ∈ l.
Proof. intros H Hx. rewrite (delete_nth_perm l i b H). by right. Qed.

(** What a successful [getFreeBlock] does to the bookkeeping. *)
Lemma getFreeBlock_Inv live c p m f m' :
  getFreeBlock policy m = (inr f, m') -> Inv P N live c p m ->
  Inv P N live (f :: c) p m'
  /\ f ∈ queued m
  /\ (forall x, x ∈ queued m' -> x ∈ queued m)
  /\ mAllocatedBlocksPerSeq m' = mAllocatedBlocksPerSeq m
  /\ (forall x, x ∉ queued m -> primOf m x = false -> primOf m' x = false).
Proof.
  unfold getFreeBlock. intros H HI.
  apply bind_inr in H as (m0 & m1 & [= <- <-] & H).
  destruct (policy m) as [i|i j|j pp].
  - destruct (mFreePrimaryBlocks m !! i) as [b|] eqn:Hb; [|discriminate].
    injection H as <- <-. split_and!.
    + by apply Inv_take_primary.
    + apply elem_of_app. left. by eapply list_elem_of_lookup_2.
    + intros x [Hx|Hx]%elem_of_app; apply elem_of_app; [left|by right].
      by eapply elem_of_delete_nth.
    + done.
    + done.
  - destruct (mFreePrimaryBlocks m !! i) as [v|] eqn:Hv; [|discriminate].
    destruct (mFreeSecondaryBlocks m !! j) as [o|] eqn:Ho; [|discriminate].
    apply bind_inr in H as (u1 & m1 & [= <- <-] & H).
    apply bind_inr in H as (u2 & m2 & Hsw & H).
    injection H as <- <-.
    set (m1 := setFree _ _ m) in *.
    assert (HI1 : Inv P N live (o :: v :: c) p m1).
    { apply (Inv_take_secondary live (v :: c) p
               (setFree (delete_nth i (mFreePrimaryBlocks m)) (mFreeSecondaryBlocks m) m) j o);
        [by apply Inv_take_primary|done]. }
    pose proof (inv_nodup _ _ _ _ _ _ HI1) as Hnd.
    apply NoDup_app in Hnd as (Hnd1 & Hnd2 & Hnd3).
    assert (Hov : o <> v).
    { intros ->. apply NoDup_cons in Hnd3 as [Hnd3 _]. apply Hnd3. by left. }
    assert (Hoq : o ∉ queued m1) by (intros Hq; eapply Hnd2; [done|by left]).
    assert (Hvq : v ∉ queued m1) by (intros Hq; eapply Hnd2; [done|right; by left]).
    apply swapMemoryPoolBlockOffset_inr in Hsw as (bo & bv & Hbo & Hbv & ->); [|done].
    pose proof (Inv_swapped live _ _ _ _ _ _ _ HI1 Hov Hbo Hbv Hoq Hvq) as HI2.
    set (m2 := swapped o v bo bv m1) in *.
    assert (Hos : primOf m o = false).
    { destruct (inv_freeS _ _ _ _ _ _ HI o) as (_ & _ & ?); [|done].
      by eapply list_elem_of_lookup_2. }
    assert (Hpv : primOf m2 v = false).
    { unfold m2. rewrite primOf_swapped by done. by rewrite decide_True. }
    split_and!.
    + apply (Inv_setFree live (o :: v :: c)); [done| |..].
      * change (queued m2) with (queued m1). unfold queued.
        rewrite <- !app_assoc. cbn. rewrite (Permutation_swap o v). done.
      * intros x Hx. by destruct (inv_freeP _ _ _ _ _ _ HI2 x Hx) as (_ & _ & ?).
      * intros x [Hx|Hx]%elem_of_app.
        -- by destruct (inv_freeS _ _ _ _ _ _ HI2 x Hx) as (_ & _ & ?).
        -- apply list_elem_of_singleton in Hx as ->. done.
    + apply elem_of_app. right. by eapply list_elem_of_lookup_2.
    + cbn. intros x Hx. unfold queued in *. cbn in Hx.
      rewrite !elem_of_app in Hx. rewrite elem_of_app.
      destruct Hx as [Hx|[Hx|Hx]].
      * left. by eapply elem_of_delete_nth.
      * right. by eapply elem_of_delete_nth.
      * apply list_elem_of_singleton in Hx as ->. left. by eapply list_elem_of_lookup_2.
    + done.
    + intros x Hx Hpx. change (primOf m2 x = false). unfold m2.
      rewrite primOf_swapped by done.
      assert (x <> v).
      { intros ->. apply Hx. apply elem_of_app. left. by eapply list_elem_of_lookup_2. }
      assert (x <> o).
      { intros ->. apply Hx. apply elem_of_app. right. by eapply list_elem_of_lookup_2. }
      by rewrite !decide_False by done.
  - destruct (mFreePrimaryBlocks m) as [|? ?] eqn:Hfp; [|discriminate].
    destruct (mFreeSecondaryBlocks m !! j) as [o|] eqn:Ho; [|discriminate].
    apply bind_inr in H as (bp & m1 & H1 & H). apply getBlock_inr in H1 as [-> Hbp].
    apply bind_inr in H as (u1 & m1 & H1 & H).
    destruct (isPrimary bp && hasRefs bp) eqn:Hchk; [|discriminate].
    injection H1 as _ <-. apply andb_prop in Hchk as [Hprim Hrefs].
    apply bind_inr in H as (u2 & m1 & [= <- <-] & H).
    apply bind_inr in H as (u3 & m2 & Hsw & H).
    injection H as <- <-.
    set (m1 := setFree _ _ m) in *.
    assert (HI1 : Inv P N live (o :: c) p m1).
    { unfold m1. rewrite <- Hfp. by apply Inv_take_secondary. }
    pose proof (inv_nodup _ _ _ _ _ _ HI1) as Hnd.
    apply NoDup_app in Hnd as (Hnd1 & Hnd2 & Hnd3).
    assert (Hoq : o ∉ queued m1) by (intros Hq; eapply Hnd2; [done|by left]).
    assert (Hrp : refOf m1 pp <> 0).
    { change (refOf m1 pp) with (refOf m pp). rewrite (refOf_lookup _ _ _ Hbp).
      unfold hasRefs in Hrefs. apply Z.ltb_lt in Hrefs. lia. }
    assert (Hpq : pp ∉ queued m1) by (by eapply Inv_not_queued).
    assert (Hop : o <> pp).
    { intros ->. destruct (inv_claimed _ _ _ _ _ _ HI1 pp) as [_ ?]; [by left|done]. }
    apply swapMemoryPoolBlockOffset_inr in Hsw as (bo & bp' & Hbo & Hbp' & ->); [|done].
    split_and!.
    + by apply Inv_swapped.
    + apply elem_of_app. right. by eapply list_elem_of_lookup_2.
    + intros x Hx. change (x ∈ queued m1) in Hx. unfold queued, m1 in *. cbn in Hx.
      rewrite Hfp. cbn. by eapply elem_of_delete_nth.
    + done.
    + intros x Hx Hpx. rewrite primOf_swapped by done.
      assert (x <> pp).
      { intros ->. rewrite (primOf_lookup _ _ _ Hbp) in Hpx. congruence. }
      assert (x <> o).
      { intros ->. apply Hx. apply elem_of_app. right. by eapply list_elem_of_lookup_2. }
      by rewrite !decide_False by done.
Qed.

Lemma filter_ne_id (q : list nat) b : b ∉ q -> filter (fun x => x <> b) q = q.
Proof.
  intros Hb. induction q as [|a q IH]; [done|].
  apply not_elem_of_cons in Hb as [Hab Hb].
  rewrite filter_cons, decide_True by done. by rewrite IH.
Qed.

Lemma filter_ne_perm (q : list nat) b :
  NoDup q -> b ∈ q -> q ≡ₚ b :: filter (fun x => x <> b) q.
Proof.
  induction q as [|a q IH]; intros Hnd Hb; [by apply elem_of_nil in Hb|].
  apply NoDup_cons in Hnd as [Ha Hnd]. rewrite filter_cons.
  apply elem_of_cons in Hb as [->|Hb].
  - rewrite decide_False by (intros H; by apply H).
    by rewrite filter_ne_id.
  - rewrite decide_True by (intros ->; done).
    rewrite (IH Hnd Hb) at 1. apply Permutation_swap.
Qed.

Lemma filter_ne_head (q : list nat) b :
  filter (fun x => x <> b) (b :: q) = filter (fun x => x <> b) q.
Proof. rewrite filter_cons. by rewrite decide_False by (intros H; by apply H). Qed.

Lemma not_elem_of_filter_ne (q : list nat) b : b ∉ filter (fun x => x <> b) q.
Proof. intros [H _]%list_elem_of_filter. by apply H. Qed.

(** [claimBlock] takes the block out of the queue it waits in, if any. *)
Lemma claimBlock_Inv live c p m b u m' :
  claimBlock b m = (inr u, m') -> Inv P N live c p m -> b ∉ c ->
  exists c', Inv P N live c' p m' /\ filter (fun x => x <> b) c' = c /\ b ∉ queued m'.
Proof.
  unfold claimBlock, modify. intros [= _ <-] HI Hbc.
  pose proof (inv_nodup _ _ _ _ _ _ HI) as Hnd.
  apply NoDup_app in Hnd as (Hnd1 & Hnd2 & Hnd3).
  apply NoDup_app in Hnd1 as (Hp1 & Hp2 & Hp3).
  assert (Hpr : forall i, i ∈ filter (fun x => x <> b) (mFreePrimaryBlocks m) ->
                          primOf m i = true).
  { intros i [_ Hi]%list_elem_of_filter.
    by destruct (inv_freeP _ _ _ _ _ _ HI i Hi) as (_ & _ & ?). }
  assert (Hse : forall i, i ∈ filter (fun x => x <> b) (mFreeSecondaryBlocks m) ->
                          primOf m i = false).
  { intros i [_ Hi]%list_elem_of_filter.
    by destruct (inv_freeS _ _ _ _ _ _ HI i Hi) as (_ & _ & ?). }
  assert (Hq' : b ∉ filter (fun x => x <> b) (mFreePrimaryBlocks m)
                    ++ filter (fun x => x <> b) (mFreeSecondaryBlocks m)).
  { intros [H|H]%elem_of_app; by apply not_elem_of_filter_ne in H. }
  destruct (decide (b ∈ mFreePrimaryBlocks m)) as [Hbp|Hbp].
  - exists (b :: c). split_and!; [|rewrite filter_ne_head; by apply filter_ne_id|exact Hq'].
    apply (Inv_setFree live c); [done| |done|done].
    unfold queued. rewrite (filter_ne_perm (mFreePrimaryBlocks m) b) at 2 by done.
    rewrite (filter_ne_id (mFreeSecondaryBlocks m) b (Hp2 b Hbp)).
    cbn. rewrite <- !app_assoc. by rewrite <- !Permutation_middle.
  - destruct (decide (b ∈ mFreeSecondaryBlocks m)) as [Hbs|Hbs].
    + exists (b :: c). split_and!; [|rewrite filter_ne_head; by apply filter_ne_id|exact Hq'].
      apply (Inv_setFree live c); [done| |done|done].
      unfold queued. rewrite (filter_ne_perm (mFreeSecondaryBlocks m) b) at 2 by done.
      rewrite (filter_ne_id (mFreePrimaryBlocks m) b Hbp).
      rewrite <- !app_assoc. cbn. by rewrite <- !Permutation_middle.
    + exists c. split_and!; [|by apply filter_ne_id|exact Hq'].
      apply (Inv_setFree live c); [done| |done|done].
      by rewrite (filter_ne_id _ b Hbp), (filter_ne_id _ b Hbs).
Qed.

(** [releaseBlock] drops one pending reference. *)
Lemma releaseBlock_Inv live c p m b toFront u m' :
  releaseBlock b toFront m = (inr u, m') -> Inv P N live c (b :: p) m ->
  Inv P N live c p m' /\ mAllocatedBlocksPerSeq m' = mAllocatedBlocksPerSeq m.
Proof.
  unfold releaseBlock. intros H HI.
  apply bind_inr in H as (blk & m1 & H1 & H). apply getBlock_inr in H1 as [-> Hb].
  apply bind_inr in H as (u1 & m1 & H1 & H).
  destruct (hasRefs blk) eqn:Hrefs; [|discriminate]. injection H1 as _ <-.
  apply bind_inr in H as (u2 & m1 & H1 & H).
  apply updateBlock_inr in H1 as (blk' & Hb' & ->).
  assert (blk' = blk) as -> by congruence.
  destruct (Inv_decRef live c p m b blk HI Hb) as (HI1 & Hpos & Hnq).
  set (m1 := updBlock b (decRefCount blk) m) in *.
  destruct (hasRefs (decRefCount blk)).
  { injection H as _ <-. done. }
  injection H as _ <-. split; [|by destruct (isPrimary blk)].
  assert (Hpb : primOf m1 b = isPrimary blk).
  { unfold m1. rewrite primOf_updBlock by (by eapply lookup_block_lt).
    by rewrite decide_True. }
  destruct (isPrimary blk) eqn:Hprim.
  - apply (Inv_setFree live (b :: c)); [done| |..].
    + change (mFreePrimaryBlocks m1) with (mFreePrimaryBlocks m).
      change (mFreeSecondaryBlocks m1) with (mFreeSecondaryBlocks m).
      unfold queued. change (mFreePrimaryBlocks m1) with (mFreePrimaryBlocks m).
      change (mFreeSecondaryBlocks m1) with (mFreeSecondaryBlocks m).
      destruct toFront; cbn; rewrite <- !app_assoc; cbn.
      * by rewrite <- !Permutation_middle.
      * by rewrite <- !Permutation_middle.
    + intros i Hi.
      assert (i = b \/ i ∈ mFreePrimaryBlocks m1) as [->|Hi'].
      { destruct toFront.
        - apply elem_of_cons in Hi. tauto.
        - apply elem_of_app in Hi as [?|Hi]; [tauto|]. apply list_elem_of_singleton in Hi. tauto. }
      * done.
      * by destruct (inv_freeP _ _ _ _ _ _ HI1 i Hi') as (_ & _ & ?).
    + intros i Hi. by destruct (inv_freeS _ _ _ _ _ _ HI1 i Hi) as (_ & _ & ?).
  - apply (Inv_setFree live (b :: c)); [done| |..].
    + unfold queued. change (mFreePrimaryBlocks m1) with (mFreePrimaryBlocks m).
      change (mFreeSecondaryBlocks m1) with (mFreeSecondaryBlocks m).
      destruct toFront; cbn; rewrite <- !app_assoc; cbn.
      * by rewrite <- !Permutation_middle.
      * by rewrite <- !Permutation_middle.
    + intros i Hi. by destruct (inv_freeP _ _ _ _ _ _ HI1 i Hi) as (_ & _ & ?).
    + intros i Hi.
      assert (i = b \/ i ∈ mFreeSecondaryBlocks m1) as [->|Hi'].
      { destruct toFront.
        - apply elem_of_cons in Hi. tauto.
        - apply elem_of_app in Hi as [?|Hi]; [tauto|]. apply list_elem_of_singleton in Hi. tauto. }
      * done.
      * by destruct (inv_freeS _ _ _ _ _ _ HI1 i Hi') as (_ & _ & ?).
Qed.

(** [onboardBlock] keeps the bookkeeping, whichever block makes room. *)
Lemma onboardBlock_Inv live c p m b u m' :
  onboardBlock policy b m = (inr u, m') -> Inv P N live c p m -> b ∉ queued m ->
  Inv P N live c p m' /\ b ∉ queued m'.
Proof.
  unfold onboardBlock. intros H HI Hbq.
  apply bind_inr in H as (blk & m1 & H1 & H). apply getBlock_inr in H1 as [-> Hb].
  destruct (isPrimary blk) eqn:Hprim.
  { injection H as _ <-. done. }
  apply bind_inr in H as (f & m1 & Hf & H).
  destruct (getFreeBlock_Inv live c p m f m1 Hf HI) as (HI1 & Hfq & Hsub & _ & Hsec).
  apply bind_inr in H as (u1 & m2 & Hsw & H). injection H as _ <-.
  assert (Hbf : b <> f) by (intros ->; done).
  assert (Hbq1 : b ∉ queued m1) by (intros Hq; apply Hbq; auto).
  pose proof (inv_nodup _ _ _ _ _ _ HI1) as Hnd.
  apply NoDup_app in Hnd as (Hnd1 & Hnd2 & Hnd3).
  assert (Hfq1 : f ∉ queued m1) by (intros Hq; eapply Hnd2; [done|by left]).
  apply swapMemoryPoolBlockOffset_inr in Hsw as (bb & bf & Hbb & Hbf' & ->); [|done].
  pose proof (Inv_swapped live _ _ _ _ _ _ _ HI1 Hbf Hbb Hbf' Hbq1 Hfq1) as HI2.
  set (m2 := swapped b f bb bf m1) in *.
  assert (Hpf : primOf m2 f = false).
  { unfold m2. rewrite primOf_swapped, decide_True by done.
    apply Hsec; [done|]. by rewrite (primOf_lookup _ _ _ Hb). }
  split.
  - apply (Inv_setFree live (f :: c)); [done| |..].
    + unfold queued. rewrite <- !app_assoc. cbn. done.
    + intros x Hx. by destruct (inv_freeP _ _ _ _ _ _ HI2 x Hx) as (_ & _ & ?).
    + intros x [Hx|Hx]%elem_of_app.
      * by destruct (inv_freeS _ _ _ _ _ _ HI2 x Hx) as (_ & _ & ?).
      * apply list_elem_of_singleton in Hx as ->. done.
  - unfold queued. cbn. change (b ∉ mFreePrimaryBlocks m1 ++ mFreeSecondaryBlocks m1 ++ [f]).
    rewrite app_assoc. intros [Hx|Hx]%elem_of_app; [done|].
    apply list_elem_of_singleton in Hx. done.
Qed.

Lemma addCacheBlock_inr beamIdx blockIdx sq sq' :
  addCacheBlock beamIdx blockIdx sq = inr sq' ->
  mSeqSlotIdx sq' = mSeqSlotIdx sq /\ mBeamWidth sq' = mBeamWidth sq.
Proof.
  unfold addCacheBlock. case_bool_decide; [|discriminate].
  destruct (_ !! _); [|discriminate]. by intros [= <-].
Qed.

(** [addBlockToBeam] hands a block outside the free queues to a live slot. *)
Lemma addBlockToBeam_Inv (live : nat -> Prop) c p m b sq beamIdx sq' m' :
  addBlockToBeam b sq beamIdx m = (inr sq', m') ->
  Inv P N live c p m -> b ∉ queued m -> live (mSeqSlotIdx sq) ->
  Inv P N live (filter (fun x => x <> b) c) p m'
  /\ queued m' = queued m
  /\ mSeqSlotIdx sq' = mSeqSlotIdx sq /\ mBeamWidth sq' = mBeamWidth sq.
Proof.
  unfold addBlockToBeam. intros H HI Hbq Hlive.
  apply bind_inr in H as (u & m1 & H1 & H).
  apply updateBlock_inr in H1 as (blk & Hb & ->).
  apply bind_inr in H as (sq1 & m1 & H1 & H).
  unfold liftE in H1. destruct (addCacheBlock _ _ _) as [|sq2] eqn:Hadd; [discriminate|].
  injection H1 as <- <-. apply addCacheBlock_inr in Hadd as [Hs Hw].
  apply bind_inr in H as (m2 & m3 & [= <- <-] & H).
  cbn [mAllocatedBlocksPerSeq updBlock setBlocks] in H.
  destruct (mAllocatedBlocksPerSeq m !! mSeqSlotIdx sq) as [held|] eqn:Hheld; [|discriminate].
  injection H as <- <-. split_and!; [|done|done|done].
  by apply Inv_attach.
Qed.

Lemma Inv_claimed_not_queued live b c p m : Inv P N live (b :: c) p m -> b ∉ queued m.
Proof.
  intros HI Hq. pose proof (inv_nodup _ _ _ _ _ _ HI) as Hnd.
  apply NoDup_app in Hnd as (_ & Hnd & _). eapply Hnd; [done|by left].
Qed.

Lemma freshBlockToBeam_hoare (live : nat -> Prop) s w beamIdx sq :
  live s ->
  hoare (fun m => Inv P N live [] [] m /\ sameSequence s w sq)
    (do b <- getFreeBlock policy; addBlockToBeam b sq beamIdx)
    (fun sq' m' => Inv P N live [] [] m' /\ sameSequence s w sq').
Proof.
  intros Hlive m sq' m' [HI [Hs Hw]] H.
  apply bind_inr in H as (b & m1 & Hf & H).
  destruct (getFreeBlock_Inv live [] [] m b m1 Hf HI) as (HI1 & _).
  pose proof (Inv_claimed_not_queued _ _ _ _ _ HI1) as Hbq.
  destruct (addBlockToBeam_Inv live _ _ _ _ _ _ _ _ H HI1 Hbq) as (HI2 & _ & Hs' & Hw').
  { by rewrite Hs. }
  rewrite filter_ne_head in HI2. split; [done|]. split; congruence.
Qed.

(** [allocateBlock] on a live sequence with at least one beam. *)
Lemma allocateBlock_hoare (live : nat -> Prop) s w share sq :
  live s -> 1 <= w ->
  hoare (fun m => Inv P N live [] [] m /\ sameSequence s w sq)
    (allocateBlock policy sq share)
    (fun sq' m' => Inv P N live [] [] m' /\ sameSequence s w sq').
Proof.
  intros Hlive Hw. unfold allocateBlock. destruct share.
  - intros m sq' m' [HI [Hs Hbw]] H.
    apply bind_inr in H as (b & m1 & Hf & H).
    destruct (getFreeBlock_Inv live [] [] m b m1 Hf HI) as (HI1 & _).
    pose proof (Inv_claimed_not_queued _ _ _ _ _ HI1) as Hbq.
    pose proof (hoare_forRange_pos
      (fun sq m => Inv P N live [b] [] m /\ sameSequence s w sq)
      (fun sq m => (Inv P N live [] [] m /\ b ∉ queued m) /\ sameSequence s w sq)
      (fun beamIdx sq => addBlockToBeam b sq beamIdx) (mBeamWidth sq) sq) as Hloop.
    destruct (Hloop ltac:(lia)) with (s := m1) (a := sq') (s' := m') as [[? ?] ?]; try done.
    + intros i a m2 a' m2' [HI2 [Hs2 Hw2]] Hrun.
      pose proof (Inv_claimed_not_queued _ _ _ _ _ HI2) as Hq2.
      destruct (addBlockToBeam_Inv live _ _ _ _ _ _ _ _ Hrun HI2 Hq2) as (HI3 & Hq3 & Hs3 & Hw3).
      { by rewrite Hs2. }
      rewrite filter_ne_head in HI3. split_and!; [done|by rewrite Hq3|split; congruence].
    + intros i a m2 a' m2' [[HI2 Hq2] [Hs2 Hw2]] Hrun.
      destruct (addBlockToBeam_Inv live _ _ _ _ _ _ _ _ Hrun HI2 Hq2) as (HI3 & Hq3 & Hs3 & Hw3).
      { by rewrite Hs2. }
      split_and!; [done|by rewrite Hq3|split; congruence].
  - apply (hoare_forRange (fun sq m => Inv P N live [] [] m /\ sameSequence s w sq)).
    intros i a. by apply freshBlockToBeam_hoare.
Qed.

(** [addSequence] without reuse. *)
Lemma addSequence_hoare (live : nat -> Prop) s w numBlocks unshared sq :
  live s -> 1 <= w ->
  hoare (fun m => Inv P N live [] [] m /\ sameSequence s w sq)
    (addSequence policy sq numBlocks unshared)
    (fun sq' m' => Inv P N live [] [] m' /\ sameSequence s w sq').
Proof.
  intros Hlive Hw. unfold addSequence.
  apply (hoare_forRange (fun sq m => Inv P N live [] [] m /\ sameSequence s w sq)).
  intros i a. by apply allocateBlock_hoare.
Qed.

(** [addSequence] with reuse. *)
Lemma addSequenceReuse_hoare (live : nat -> Prop) s w matched numFresh sq :
  live s ->
  hoare (fun m => Inv P N live [] [] m /\ sameSequence s w sq)
    (addSequenceReuse policy sq matched numFresh)
    (fun r m' => Inv P N live [] [] m' /\ sameSequence s w r.2).
Proof.
  intros Hlive. unfold addSequenceReuse.
  eapply hoare_bind.
  { apply (hoare_forEach (fun (_ : list nat) sq m => Inv P N live [] [] m /\ sameSequence s w sq)).
    intros b xs a m sq' m' [HI [Hs Hbw]] H.
    apply bind_inr in H as (u1 & m1 & Hc & H).
    destruct (claimBlock_Inv live [] [] m b u1 m1 Hc HI) as (c' & HI1 & Hc' & Hbq);
      [by apply not_elem_of_nil|].
    apply bind_inr in H as (u2 & m2 & Ho & H).
    destruct (onboardBlock_Inv live c' [] m1 b u2 m2 Ho HI1 Hbq) as (HI2 & Hbq2).
    destruct (addBlockToBeam_Inv live _ _ _ _ _ _ _ _ H HI2 Hbq2) as (HI3 & _ & Hs' & Hw').
    { by rewrite Hs. }
    rewrite Hc' in HI3. split; [done|]. split; congruence. }
  intros sq1. cbn beta. eapply hoare_bind.
  { apply (hoare_forRange (fun sq m => Inv P N live [] [] m /\ sameSequence s w sq)).
    intros i a. by apply freshBlockToBeam_hoare. }
  intros sq2 m r m' [HI HG] H. cbn beta in H.
  apply bind_inr in H as (m0 & m1 & [= <- <-] & H). injection H as <- <-. done.
Qed.

Lemma releaseAll_Inv live c held : forall p m u u' m',
  forEach held (fun b (_ : unit) => releaseBlock b false) u m = (inr u', m') ->
  Inv P N live c (held ++ p) m ->
  Inv P N live c p m' /\ mAllocatedBlocksPerSeq m' = mAllocatedBlocksPerSeq m.
Proof.
  induction held as [|b held IH]; intros p m u u' m' H HI.
  - injection H as _ <-. done.
  - cbn [forEach] in H. apply bind_inr in H as (u1 & m1 & H1 & H).
    destruct (releaseBlock_Inv live c (held ++ p) m b false u1 m1 H1 HI) as [HI1 Ha1].
    destruct (IH p m1 u1 u' m' H HI1) as [HI2 Ha2]. split; [done|congruence].
Qed.

(** [releaseBlocks] returns every block of the slot. *)
Lemma releaseBlocks_Inv (live : nat -> Prop) sq m sq' m' :
  releaseBlocks sq m = (inr sq', m') -> Inv P N live [] [] m ->
  Inv P N live [] [] m' /\ mAllocatedBlocksPerSeq m' !! mSeqSlotIdx sq = Some [].
Proof.
  unfold releaseBlocks. intros H HI.
  apply bind_inr in H as (m0 & m1 & [= <- <-] & H).
  destruct (mAllocatedBlocksPerSeq m !! mSeqSlotIdx sq) as [held|] eqn:Hheld; [|discriminate].
  apply bind_inr in H as (u1 & m1 & [= <- <-] & H).
  apply bind_inr in H as (u2 & m2 & Hrel & H). injection H as _ <-.
  pose proof (Inv_clear live [] m _ _ HI Hheld) as HI1.
  rewrite <- (app_nil_r held) in HI1.
  destruct (releaseAll_Inv live [] held [] _ _ _ _ Hrel HI1) as [HI2 Ha].
  split; [done|]. rewrite Ha. cbn.
  apply list_lookup_insert_eq. by eapply lookup_lt_Some.
Qed.

End ManagerRuns.

(** ** The owner of the manager *)

Section CacheRuns.
Import KvCache.
Variable policy : BlockManager -> Eviction.

Lemma onManager_inr {A} (mm : B A) c a c' :
  onManager mm c = (inr a, c') ->
  exists m', mm (manager c) = (inr a, m') /\ c' = mkCache m' (sequences c).
Proof.
  unfold onManager. destruct (mm (manager c)) as [r m'] eqn:E.
  intros [= -> <-]. eauto.
Qed.

Lemma freshSlot_inr slot c u c' :
  freshSlot slot c = (inr u, c') -> c' = c /\ sequences c !! slot = None.
Proof. unfold freshSlot. destruct (_ !! slot); [discriminate|]. by intros [= _ <-]. Qed.

Lemma getSequence_inr slot c r c' :
  getSequence slot c = (inr r, c') -> c' = c /\ sequences c !! slot = Some r.
Proof. unfold getSequence. destruct (_ !! slot); [|discriminate]. by intros [= <- <-]. Qed.

Lemma CacheInv_insert P N c m' slot sq w :
  Inv P N (fun s => s = slot \/ liveSlot c s) [] [] m' ->
  (forall s r, sequences c !! s = Some r -> mSeqSlotIdx r = s /\ 1 <= mBeamWidth r) ->
  sameSequence slot w sq -> 1 <= w ->
  CacheInv P N (mkCache m' (<[slot := sq]> (sequences c))).
Proof.
  intros HI Hseq [Hs Hw] H1. split; cbn.
  - eapply Inv_live_mono; [|exact HI]. intros s Hlive. unfold liveSlot. cbn.
    destruct (decide (s = slot)) as [->|Hne].
    + rewrite lookup_insert_eq. eauto.
    + rewrite lookup_insert_ne by done. destruct Hlive; [done|]. done.
  - intros s r. destruct (decide (s = slot)) as [->|Hne].
    + rewrite lookup_insert_eq. intros [= <-]. split; [done|lia].
    + rewrite lookup_insert_ne by done. auto.
Qed.

(** One step of the owner keeps the bookkeeping of the cache. *)
Lemma step_CacheInv P N o c u c' :
  opWellFormed o = true -> step policy o c = (inr u, c') ->
  CacheInv P N c -> CacheInv P N c'.
Proof.
  intros Hok H [HI Hseq]. destruct o as [slot nt bw nb ub|slot nt matched nf|slot share|slot];
    cbn [step] in H.
  - apply bind_inr in H as (u1 & c1 & H1 & H). apply freshSlot_inr in H1 as [-> Hfresh].
    cbn in Hok. apply bool_decide_eq_true in Hok.
    apply bind_inr in H as (request & c1 & H1 & H).
    unfold newRequest in H1. rewrite bool_decide_eq_true_2 in H1 by lia.
    injection H1 as <- <-.
    apply bind_inr in H as (sq & c1 & H1 & H).
    apply onManager_inr in H1 as (m' & Hrun & ->). injection H as _ <-. cbn.
    pose proof (addSequence_hoare (P := P) (N := N) policy
                  (fun s => s = slot \/ liveSlot c s) slot bw nb ub
                  (mkRequest slot nt bw (replicate (Z.to_nat bw) []) [])
                  ltac:(by left) Hok (manager c) sq m') as Hh.
    destruct Hh as [HI' HG]; [|done|].
    { split; [|done]. eapply Inv_live_mono; [|exact HI]. by right. }
    by eapply CacheInv_insert.
  - apply bind_inr in H as (u1 & c1 & H1 & H). apply freshSlot_inr in H1 as [-> Hfresh].
    apply bind_inr in H as (request & c1 & H1 & H).
    injection H1 as <- <-.
    apply bind_inr in H as ([n sq] & c1 & H1 & H).
    apply onManager_inr in H1 as (m' & Hrun & ->). injection H as _ <-. cbn.
    pose proof (addSequenceReuse_hoare (P := P) (N := N) policy
                  (fun s => s = slot \/ liveSlot c s) slot 1 matched nf
                  (mkRequest slot nt 1 (replicate (Z.to_nat 1) []) [])
                  ltac:(by left) (manager c) (n, sq) m') as Hh.
    destruct Hh as [HI' HG]; [|done|].
    { split; [|done]. eapply Inv_live_mono; [|exact HI]. by right. }
    by eapply CacheInv_insert.
  - apply bind_inr in H as (sq & c1 & H1 & H). apply getSequence_inr in H1 as [-> Hsq].
    apply bind_inr in H as (sq' & c1 & H1 & H).
    apply onManager_inr in H1 as (m' & Hrun & ->). injection H as _ <-. cbn.
    destruct (Hseq _ _ Hsq) as [Hs Hw].
    pose proof (allocateBlock_hoare (P := P) (N := N) policy
                  (liveSlot c) slot (mBeamWidth sq) share sq
                  ltac:(by eexists) Hw (manager c) sq' m') as Hh.
    destruct Hh as [HI' HG]; [done|done|].
    eapply CacheInv_insert; [|done|exact HG|done].
    eapply Inv_live_mono; [|exact HI']. by right.
  - apply bind_inr in H as (sq & c1 & H1 & H). apply getSequence_inr in H1 as [-> Hsq].
    apply bind_inr in H as (sq' & c1 & H1 & H).
    apply onManager_inr in H1 as (m' & Hrun & ->). injection H as _ <-. cbn.
    destruct (Hseq _ _ Hsq) as [Hs Hw].
    destruct (releaseBlocks_Inv (P := P) (N := N) policy (liveSlot c) sq _ _ _ Hrun HI)
      as [HI' Hempty].
    rewrite Hs in Hempty. split; cbn.
    + eapply Inv_live_remove; [exact Hempty| |exact HI'].
      intros s Hlive Hne. unfold liveSlot. cbn. by rewrite lookup_delete_ne.
    + intros s r Hr. apply lookup_delete_Some in Hr as [_ Hr]. auto.
Qed.

Lemma runOps_CacheInv P N ops : forall c u u' c',
  forallb opWellFormed ops = true ->
  forEach ops (fun o (_ : unit) => step policy o) u c = (inr u', c') ->
  CacheInv P N c -> CacheInv P N c'.
Proof.
  induction ops as [|o ops IH]; intros c u u' c' Hok H HI.
  - by injection H as _ <-.
  - cbn in Hok. apply andb_prop in Hok as [Ho Hops].
    cbn [forEach] in H. apply bind_inr in H as (u1 & c1 & H1 & H).
    eapply IH; [done|exact H|]. by eapply step_CacheInv.
Qed.

End CacheRuns.

(** ** The fresh manager, and the manager at rest *)

Section Fresh.
Import KvCache.

Lemma secondaryPoolFlag_pow : secondaryPoolFlag = 2 ^ 31.
Proof. reflexivity. Qed.

Lemma isPrimary_newBlock (i p : Z) :
  0 <= i -> p <= 2 ^ 31 -> isPrimary (newBlock i p) = bool_decide (i < p).
Proof.
  intros Hi Hp. unfold isPrimary, newBlock. cbn [mMemoryPoolBlockOffset].
  rewrite secondaryPoolFlag_pow. case_bool_decide as Hlt.
  - apply Z.eqb_eq. apply Z.bits_inj'. intros k Hk.
    rewrite Z.land_spec, Z.bits_0, Z.pow2_bits_eqb by lia.
    destruct (Z.eqb_spec 31 k) as [<-|Hne]; [|apply andb_false_r].
    rewrite andb_true_r. apply Z.testbit_false; [lia|].
    rewrite Z.div_small by lia. done.
  - apply Z.eqb_neq. intros Hz.
    assert (Z.testbit (Z.land (Z.lor (2 ^ 31) (i - p)) (2 ^ 31)) 31 = true) as Hb.
    { rewrite Z.land_spec, Z.lor_spec, Z.pow2_bits_true by lia. done. }
    rewrite Hz, Z.bits_0 in Hb. done.
Qed.

Lemma concat_replicate_nil {A} n : concat (replicate n (@nil A)) = [].
Proof. induction n; [done|]. done. Qed.

Lemma filter_all {A} (Q : A -> Prop) `{!forall x, Decision (Q x)} (l : list A) :
  (forall x, x ∈ l -> Q x) -> filter Q l = l.
Proof.
  induction l as [|a l IH]; intros HQ; [done|].
  rewrite filter_cons, decide_True by (apply HQ; by left).
  rewrite IH; [done|]. intros x Hx. apply HQ. by right.
Qed.

Lemma filter_none {A} (Q : A -> Prop) `{!forall x, Decision (Q x)} (l : list A) :
  (forall x, x ∈ l -> ~ Q x) -> filter Q l = [].
Proof.
  induction l as [|a l IH]; intros HQ; [done|].
  rewrite filter_cons, decide_False by (apply HQ; by left).
  apply IH. intros x Hx. apply HQ. by right.
Qed.

Lemma lookup_newBlockManager t p n maxSeq (i : nat) :
  (i < p + n)%nat ->
  mAllBlocksByIdx (newBlockManager t (Z.of_nat p) (Z.of_nat n) maxSeq) !! i
  = Some (newBlock (Z.of_nat i) (Z.of_nat p)).
Proof.
  intros Hi. unfold newBlockManager. cbn. rewrite !Nat2Z.id.
  rewrite list_lookup_fmap, lookup_seq_lt by done. done.
Qed.

(** A fresh manager satisfies the bookkeeping, with every block free. *)
Lemma Inv_newBlockManager (live : nat -> Prop) t (p n : nat) maxSeq :
  Z.of_nat p <= 2 ^ 31 ->
  Inv p (p + n) live [] [] (newBlockManager t (Z.of_nat p) (Z.of_nat n) maxSeq).
Proof.
  intros Hp. set (m := newBlockManager _ _ _ _).
  assert (Hn : numBlocks m = (p + n)%nat).
  { unfold numBlocks, m, newBlockManager. cbn. rewrite !Nat2Z.id.
    by rewrite length_fmap, length_seq. }
  assert (Hfp : mFreePrimaryBlocks m = seq 0 p).
  { unfold m, newBlockManager. cbn. by rewrite Nat2Z.id. }
  assert (Hfs : mFreeSecondaryBlocks m = seq p n).
  { unfold m, newBlockManager. cbn. by rewrite !Nat2Z.id. }
  assert (Hq : queued m = seq 0 (p + n)).
  { unfold queued. rewrite Hfp, Hfs. by rewrite seq_app. }
  assert (Hh : heldBlocks m = []).
  { unfold heldBlocks, m, newBlockManager. cbn. apply concat_replicate_nil. }
  assert (Hr : forall i, (i < p + n)%nat -> refOf m i = 0).
  { intros i Hi. unfold refOf, m. by rewrite lookup_newBlockManager. }
  assert (Hpr : forall i, (i < p + n)%nat -> primOf m i = bool_decide (i < p)%nat).
  { intros i Hi. unfold primOf, m. rewrite lookup_newBlockManager by done. cbn.
    rewrite isPrimary_newBlock by lia. apply bool_decide_ext. lia. }
  split.
  - rewrite app_nil_r, Hq. apply NoDup_seq.
  - intros i. rewrite Hfp, Hn. intros Hi%elem_of_seq.
    rewrite Hr, Hpr by lia. split_and!; [lia|done|]. apply bool_decide_eq_true. lia.
  - intros i. rewrite Hfs, Hn. intros Hi%elem_of_seq.
    rewrite Hr, Hpr by lia. split_and!; [lia|done|]. apply bool_decide_eq_false. lia.
  - intros i Hi. by apply elem_of_nil in Hi.
  - intros i. rewrite Hn, app_nil_r, Hq. intros Hi _. apply elem_of_seq. lia.
  - intros i. rewrite Hn, Hh. intros Hi. rewrite Hr by done. done.
  - intros i. rewrite Hh. intros Hi. by apply elem_of_nil in Hi.
  - unfold primaries. rewrite Hn, seq_app, filter_app, length_app.
    rewrite filter_all, filter_none.
    + rewrite length_seq. cbn. lia.
    + intros i Hi%elem_of_seq. rewrite Hpr by lia.
      intros Ht%bool_decide_eq_true. lia.
    + intros i Hi%elem_of_seq. rewrite Hpr by lia. apply bool_decide_eq_true. lia.
  - intros s l Hl Hne. unfold m, newBlockManager in Hl. cbn in Hl.
    apply lookup_replicate in Hl as [-> _]. done.
  - done.
Qed.

Lemma concat_all_nil (ls : list (list nat)) :
  (forall s l, ls !! s = Some l -> l = []) -> concat ls = [].
Proof.
  induction ls as [|l ls IH]; intros H; [done|].
  cbn. rewrite (H 0%nat l eq_refl). cbn. apply IH.
  intros s l' Hl. by apply (H (S s)).
Qed.

(** With no block held and none claimed or pending, the primary free queue
    holds exactly the primary blocks and the two queues hold every block. *)
Lemma Inv_all_free P N (live : nat -> Prop) m :
  Inv P N live [] [] m -> (forall s, ~ live s) ->
  length (mFreePrimaryBlocks m) = P
  /\ (length (mFreePrimaryBlocks m) + length (mFreeSecondaryBlocks m))%nat = N
  /\ length (mAllBlocksByIdx m) = N.
Proof.
  intros HI Hdead.
  assert (Hh : heldBlocks m = []).
  { apply concat_all_nil. intros s l Hl. destruct l as [|x l]; [done|].
    exfalso. apply (Hdead s). by eapply (inv_live _ _ _ _ _ _ HI). }
  assert (Hz : forall i, (i < numBlocks m)%nat -> i ∈ queued m).
  { intros i Hi. pose proof (inv_zero _ _ _ _ _ _ HI i Hi) as Hq.
    rewrite app_nil_r in Hq. apply Hq.
    rewrite (inv_refs _ _ _ _ _ _ HI i Hi), Hh. done. }
  pose proof (inv_nodup _ _ _ _ _ _ HI) as Hnd. rewrite app_nil_r in Hnd.
  pose proof Hnd as Hnd'. apply NoDup_app in Hnd' as (Hnp & Hdisj & Hns).
  assert (Hperm : mFreePrimaryBlocks m ≡ₚ primaries m).
  { apply NoDup_Permutation; [done|apply NoDup_filter, NoDup_seq|].
    intros i. unfold primaries. rewrite list_elem_of_filter, elem_of_seq. split.
    - intros Hi. destruct (inv_freeP _ _ _ _ _ _ HI i Hi) as (? & ? & ?). split; [done|lia].
    - intros [Hpi Hi]. pose proof (Hz i ltac:(lia)) as Hq.
      apply elem_of_app in Hq as [Hq|Hq]; [done|].
      destruct (inv_freeS _ _ _ _ _ _ HI i Hq) as (? & ? & ?). congruence. }
  assert (Hall : queued m ≡ₚ seq 0 (numBlocks m)).
  { apply NoDup_Permutation; [done|apply NoDup_seq|].
    intros i. rewrite elem_of_seq. split.
    - intros [Hi|Hi]%elem_of_app.
      + destruct (inv_freeP _ _ _ _ _ _ HI i Hi) as (? & ? & ?). lia.
      + destruct (inv_freeS _ _ _ _ _ _ HI i Hi) as (? & ? & ?). lia.
    - intros Hi. apply Hz. lia. }
  split_and!.
  - rewrite Hperm. apply (inv_prim _ _ _ _ _ _ HI).
  - rewrite <- length_app. change (length (queued m) = N). rewrite Hall, length_seq.
    apply (inv_size _ _ _ _ _ _ HI).
  - apply (inv_size _ _ _ _ _ _ HI).
Qed.

End Fresh.

(** * The properties *)

(** ** [gatherTree] *)

Section GatherTreeClaims.
Import GptDecoder.
Context {LayerState : Type}.
Variable normScore : Z -> Z -> Z.
Variable scoreLtb : Z -> Z -> bool.

Lemma beamHypothesesOf_final (dec : Decoder LayerState) f o i bh :
  beamHypothesesOf dec f o i = Some bh -> Kernels.final_output_ids bh = Some (data f).
Proof.
  unfold beamHypothesesOf. intros H.
  repeat match type of H with
         | (?x ≫= _) = Some _ => destruct x; cbn in H; [|discriminate]
         end.
  by injection H as <-.
Qed.

(** C10. [gatherTree] checks four conditions on the shapes before anything
    else: the final beam width exceeds 1, the batch size and the beam width
    of the decoder ids equal those of the final ids, and the decoder
    sequence length is at most the final one. When one of them fails the
    call throws a check failure and leaves the world (memory and the record
    of runtime calls) as it was, so no kernel has been launched; when all
    hold, no check of [gatherTree] fails. *)
Theorem gatherTree_validates_before_device_work (dec : Decoder LayerState) f o i w :
  (~ gatherTreePreconditions f o ->
     exists msg, gatherTree normScore scoreLtb dec f o i w = (inl (CheckFailed msg), w))
  /\ (gatherTreePreconditions f o ->
        forall msg, fst (gatherTree normScore scoreLtb dec f o i w) <> inl (CheckFailed msg)).
Proof.
  split.
  - apply gatherTree_rejects.
  - apply gatherTree_accepts.
Qed.

(** C8, amended. When no beam is live any more (every batch entry is done
    or all its beams are finished), and the final ids have a buffer of their
    own that the initialisation covers, a second [gatherTree] on the state the
    first one left succeeds and leaves memory, the final ids included, as the
    first one left it. *)
Theorem gatherTree_idempotent_without_live_beams (dec : Decoder LayerState) f o i bh w w1 :
  beamHypothesesOf dec f o i = Some bh ->
  finalApart bh (data f) (data (endIds i)) ->
  finalFits bh (data f) (wStore w) ->
  noLiveBeams bh (wStore w) ->
  gatherTree normScore scoreLtb dec f o i w = (inr tt, w1) ->
  exists w2, gatherTree normScore scoreLtb dec f o i w1 = (inr tt, w2)
             /\ wStore w2 = wStore w1.
Proof.
  intros Hbh Hapart Hfits Hdead Hrun.
  apply gatherTree_inr in Hrun as (Hpre & bh' & Hbh' & Hstore).
  assert (bh' = bh) as -> by congruence.
  destruct (gatherTree_run normScore scoreLtb dec f o i w1 bh Hpre Hbh) as [tr Hrun2].
  eexists. split; [exact Hrun2|]. cbn [wStore]. rewrite Hstore.
  apply gatherTreeStore_idempotent; [by eapply beamHypothesesOf_final|done..].
Qed.

End GatherTreeClaims.

Section GatherTreeRuns.
Import GptDecoder.

(** On the example: decoder ids of beam width 3 against final ids of beam
    width 2 are refused and the world is untouched; with matching shapes no
    check fails. *)
Lemma gatherTree_validates_before_device_work_witness :
  (exists msg, gtGatherTree [1; 3; 2] (gtWorld [0; 0])
               = (inl (CheckFailed msg), gtWorld [0; 0]))
  /\ forall msg, fst (gtGatherTree [1; 2; 2] (gtWorld [0; 0])) <> inl (CheckFailed msg).
Proof.
  split.
  - apply (proj1 (gatherTree_validates_before_device_work Z.div Z.ltb gtDecoder
                    gtFinalOutputIds (gtOutput [1; 3; 2]) gtInput (gtWorld [0; 0]))).
    unfold gatherTreePreconditions. cbn. lia.
  - apply (proj2 (gatherTree_validates_before_device_work Z.div Z.ltb gtDecoder
                    gtFinalOutputIds (gtOutput [1; 2; 2]) gtInput (gtWorld [0; 0]))).
    unfold gatherTreePreconditions. cbn. lia.
Defined.

(** On the example with both beams finished and their hypotheses in the
    candidate-beam-array: the first [gatherTree] gathers the two hypotheses,
    the better one first, and the second leaves memory as the first one left
    it. *)
Lemma gatherTree_idempotent_without_live_beams_witness :
  finalOf (snd (gtGatherTree [1; 2; 2] gtFinishedWorld)) = [5; 8; 5; 6]
  /\ exists w2, gtGatherTree [1; 2; 2] (snd (gtGatherTree [1; 2; 2] gtFinishedWorld))
                = (inr tt, w2)
                /\ wStore w2 = wStore (snd (gtGatherTree [1; 2; 2] gtFinishedWorld)).
Proof.
  split; [vm_compute; reflexivity|].
  apply (gatherTree_idempotent_without_live_beams Z.div Z.ltb gtDecoder gtFinalOutputIds
           (gtOutput [1; 2; 2]) gtInput gtBeamHypotheses gtFinishedWorld).
  - reflexivity.
  - unfold finalApart. cbn. intros H.
    repeat (apply elem_of_cons in H as [H|H]; [discriminate|]). by apply elem_of_nil in H.
  - unfold finalFits. vm_compute. lia.
  - intros bid Hbid. right. intros i Hi. cbn in Hbid, Hi.
    assert (bid = 0%nat) as -> by lia.
    destruct i as [|[|i]]; [reflexivity|reflexivity|lia].
  - vm_compute. reflexivity.
Defined.

(** C8, as stated, fails: with two live beams and an empty candidate array,
    the first [gatherTree] inserts both beams into the array and emits them;
    the second inserts them once more, and the two best entries are then the
    two copies of the better beam. *)
Lemma gatherTree_twice_changes_finalOutputIds :
  exists w1 w2,
    gtGatherTree [1; 2; 2] (gtWorld [0; 0]) = (inr tt, w1)
    /\ gtGatherTree [1; 2; 2] w1 = (inr tt, w2)
    /\ finalOf w1 = [5; 6; 5; 8]
    /\ finalOf w2 = [5; 6; 5; 6].
Proof.
  exists (snd (gtGatherTree [1; 2; 2] (gtWorld [0; 0]))),
         (snd (gtGatherTree [1; 2; 2] (snd (gtGatherTree [1; 2; 2] (gtWorld [0; 0]))))).
  split_and!; vm_compute; reflexivity.
Qed.

End GatherTreeRuns.

(** ** [forward] and [forwardAsync] *)

Section ForwardClaims.
Import GptDecoder.
Context {LayerState : Type}.
Variable layerForward :
  LayerState -> OutputParams -> ForwardParams -> Store -> Error + (LayerState * Store).

(** C1, amended. When [forward] returns, its boolean is: with both
    [sequenceLimitLength] and the finished mask provided, whether the size of
    the finished mask equals the sum of the [finishedSum] entries of all
    [maxBatchSize] slots, as they are after the layers ran; with either of
    them absent, [false]. *)
Theorem forward_returns_counter_comparison T (dec : Decoder LayerState) output input w b dec' w' :
  forward layerForward T dec output input w = (inr (b, dec'), w') ->
  b = match sequenceLimitLength input, outFinished output with
      | Some _, Some f =>
          bool_decide (getSize f = to_size_t (sumFinished (wStore w')
                                     (finishedSumHost output w) (maxBatchSize input)))
      | _, _ => false
      end.
Proof.
  unfold forward. intros H.
  apply bind_inr in H as (fp & w1 & Hp & H).
  pose proof (readonly_prepareInputs _ _ _ _ _ _ Hp) as ->.
  apply bind_inr in H as ([op fsh] & w2 & Hbr & H).
  apply bind_inr in H as (dec1 & w3 & Hl & H).
  destruct (sequenceLimitLength input) as [sl|], (outFinished output) as [f|];
    try (injection Hbr as <- <- <-; injection H as <- <- <-; reflexivity).
  apply bind_inr in Hbr as ([op' ptr] & w2' & Hfs & Hz).
  apply bind_inr in Hz as (? & w2'' & Hz & Hret). injection Hret as <- <- <-.
  apply bind_inr in H as (n & w4 & Hn & H). injection Hn as <- <-.
  apply bind_inr in H as (? & w5 & He & H).
  apply bind_inr in H as (total & w6 & Hsum & Hret). injection Hret as <- <- <-.
  apply sum_loop in Hsum as [-> ->].
  injection He as <-. cbn [wStore].
  f_equal. f_equal. f_equal. unfold sumFinished.
  assert (ptr = finishedSumHost output w) as ->; [|reflexivity].
  unfold finishedSumHost. destruct (finishedSum output) as [fs|].
  - injection Hfs as <- <- <-. reflexivity.
  - apply bind_inr in Hfs as (t & wa & Ha & Hret). injection Hret as <- <- <-.
    unfold pinned in Ha. injection Ha as <- <-. reflexivity.
Qed.

(** C6. The events [forward] issues contain a stream synchronisation only
    if both [sequenceLimitLength] and the finished mask are provided; when
    they are and [forward] returns, the synchronisation is there, after the
    call of the layers; [forwardAsync] issues none. The layers are a
    collaborator: what they issue themselves is not part of the record. *)
Theorem forward_synchronizes_iff_counters_are_read T (dec : Decoder LayerState) output input w :
  (EvStreamSynchronize ∈ eventsOf (forward layerForward T dec output input) w ->
     bothProvided output input)
  /\ (bothProvided output input ->
      forall v w', forward layerForward T dec output input w = (inr v, w') ->
      EvStreamSynchronize ∈ eventsOf (forward layerForward T dec output input) w)
  /\ EvStreamSynchronize ∉ eventsOf (forwardAsync layerForward T dec output input) w.
Proof.
  split_and!.
  - intros Hin.
    destruct (sequenceLimitLength input) as [sl|] eqn:Hsl;
      destruct (outFinished output) as [fin|] eqn:Hfin.
    { split; [rewrite Hsl|rewrite Hfin]; eauto. }
    all: exfalso.
    all: destruct (forward_events_without_counters layerForward T dec output input w) as [E|E];
      [intros [[? Ha] [? Hb]]; congruence | rewrite E in Hin; by apply elem_of_nil in Hin
      | rewrite E in Hin; apply list_elem_of_singleton in Hin; discriminate].
  - intros Hboth v w' Hrun.
    destruct (forward_events_with_counters layerForward T dec output input w v w' Hboth Hrun)
      as [pre ->].
    apply elem_of_app. right. right. by left.
  - destruct (forwardAsync_events layerForward T dec output input w) as [E|E]; rewrite E.
    + apply not_elem_of_nil.
    + intros Hin. apply list_elem_of_singleton in Hin. discriminate.
Qed.

End ForwardClaims.

Section ForwardRuns.
Import GptDecoder.

(** On the example with both slots finished and both inputs provided,
    [forward] returns [true]: the two counters add up to the size of the
    finished mask. *)
Lemma forward_returns_counter_comparison_witness :
  true = bool_decide (getSize (mkTensor kUINT8 [2; 1] 2%nat)
                      = to_size_t (sumFinished
                          (wStore (snd (fwForward (Some fwLimit) (fwWorld [1; 4]))))
                          (finishedSumHost fwOutput (fwWorld [1; 4])) 2)).
Proof.
  apply (forward_returns_counter_comparison countFinishedLayer Float32 fwDecoder fwOutput
           (fwInput (Some fwLimit)) (fwWorld [1; 4]) true fwDecoder
           (snd (fwForward (Some fwLimit) (fwWorld [1; 4])))).
  vm_compute. reflexivity.
Defined.

(** C1, as stated, fails: without [sequenceLimitLength], [forward] returns
    [false] although every slot is in a terminal state. *)
Lemma forward_false_with_all_slots_terminal :
  (forall bi, 0 <= bi < 2 ->
     Kernels.isFinished (Kernels.getAt (fwStore [1; 4]) (Some 2%nat) bi) = true)
  /\ fst (fwForward None (fwWorld [1; 4])) = inr (false, fwDecoder).
Proof.
  split.
  - intros bi Hbi. assert (bi = 0 \/ bi = 1) as [->| ->] by lia; reflexivity.
  - vm_compute. reflexivity.
Qed.

(** On the example: a synchronisation with [sequenceLimitLength], none
    without. *)
Lemma forward_synchronizes_iff_counters_are_read_witness :
  EvStreamSynchronize ∈ eventsOf (fwForward (Some fwLimit)) (fwWorld [1; 0])
  /\ EvStreamSynchronize ∉ eventsOf (fwForward None) (fwWorld [1; 0]).
Proof.
  pose proof (forward_synchronizes_iff_counters_are_read countFinishedLayer Float32 fwDecoder
                fwOutput (fwInput (Some fwLimit)) (fwWorld [1; 0])) as (_ & Hsync & _).
  pose proof (forward_synchronizes_iff_counters_are_read countFinishedLayer Float32 fwDecoder
                fwOutput (fwInput None) (fwWorld [1; 0])) as (Honly & _ & _).
  split.
  - apply (Hsync ltac:(split; eexists; reflexivity) (false, fwDecoder)
             (snd (fwForward (Some fwLimit) (fwWorld [1; 0])))).
    vm_compute. reflexivity.
  - intros Hin. destruct (Honly Hin) as [[? Hnone] _]. discriminate.
Defined.

End ForwardRuns.

(** ** Speculative acceptance *)

Section AcceptClaims.
Import GptDecoder.
Import Kernels.



(** C4. [acceptDraftTokensByIds] reads the beam width from the shape of
    the target token ids: when it differs from 1 the call throws the
    beam-width check failure and leaves the world as it was, so that nothing
    has been launched; when it is 1 that check does not fail. In
    [acceptDraftTokensByLogits] the beam width is the constant 1, and the
    check never fails. *)
Theorem speculative_acceptance_requires_single_beam :
  (forall target draft ctx nd sl fv ff fs slots w,
      d (getShape target) 1 <> 1 ->
      acceptDraftTokensByIds target draft ctx nd sl fv ff fs slots w
      = (inl (CheckFailed speculativeBeamWidthMsg), w))
  /\ (forall target draft ctx nd sl fv ff fs slots w,
        d (getShape target) 1 = 1 ->
        fst (acceptDraftTokensByIds target draft ctx nd sl fv ff fs slots w)
        <> inl (CheckFailed speculativeBeamWidthMsg))
  /\ (forall kernel dl tl dp tp nd fin slots vs vsp u thr w,
        fst (acceptDraftTokensByLogits kernel dl tl dp tp nd fin slots vs vsp u thr w)
        <> inl (CheckFailed speculativeBeamWidthMsg)).
Proof.
  split_and!.
  - apply acceptDraftTokensByIds_rejects_beams.
  - apply acceptDraftTokensByIds_accepts_single_beam.
  - apply acceptDraftTokensByLogits_beam_check_passes.
Qed.

End AcceptClaims.

Section AcceptRuns.
Import GptDecoder.
Import Kernels.



(** On the example: beam width 2 is refused with the world untouched, beam
    width 1 passes the check. *)
Lemma speculative_acceptance_requires_single_beam_witness :
  acAccept 2 acWorld = (inl (CheckFailed speculativeBeamWidthMsg), acWorld)
  /\ fst (acAccept 1 acWorld) <> inl (CheckFailed speculativeBeamWidthMsg).
Proof.
  destruct speculative_acceptance_requires_single_beam as (Hrej & Hacc & _).
  split.
  - apply Hrej. cbn. discriminate.
  - apply Hacc. reflexivity.
Defined.

End AcceptRuns.

(** ** PenaltyLayer *)

Section PenaltyClaims.
Import PenaltyLayer.
Variable defaultValue : DecodingPenaltyType -> Z.
Variable withinLimits : DecodingPenaltyType -> Z -> bool.
Variable TopKTopP : DecodingMode.
Variable BeamSearch : DecodingMode.
Variable getLocalDecoderDomain : DecodingInputs -> DecoderDomain -> Error + DecoderDomain.
Variable invokeBatchApplyPenalty :
  InvokeBatchApplyPenaltyParams -> Store -> list Z * list Z.
Variable allOfBatchSlots : list Z -> list Z -> Z -> Z -> bool.
Variable getDefaultBatchSlots : Z -> M ITensor.
Variable FillBuffers :
  Z -> Z -> option (list Z) -> Z -> ITensor -> option ITensor -> ITensor -> (Z -> bool) ->
  string -> M unit.

Lemma call_flags c lw :
  flagsLe (fst lw)
    (fst (call defaultValue withinLimits TopKTopP BeamSearch getLocalDecoderDomain
            invokeBatchApplyPenalty allOfBatchSlots getDefaultBatchSlots FillBuffers c lw)).
Proof.
  destruct c as [batchSize beamWidth batchSlots setupParams|outputs params]; cbn [call].
  - destruct (setup _ _ _ _ _ _ _ _ _ _ lw) as [r lw'] eqn:E.
    by apply (setup_flags defaultValue withinLimits TopKTopP BeamSearch getDefaultBatchSlots
                FillBuffers _ _ _ _ _ _ _ E).
  - destruct (forwardAsync _ _ _ _ _ _ _ lw) as [r lw'] eqn:E.
    apply flagsEq_le.
    by apply (forwardAsync_flags defaultValue getLocalDecoderDomain invokeBatchApplyPenalty
                allOfBatchSlots getDefaultBatchSlots _ _ _ _ _ E).
Qed.

Lemma calls_flags cs : forall lw,
  flagsLe (fst lw)
    (fst (calls defaultValue withinLimits TopKTopP BeamSearch getLocalDecoderDomain
            invokeBatchApplyPenalty allOfBatchSlots getDefaultBatchSlots FillBuffers cs lw)).
Proof.
  induction cs as [|c cs IH]; intros lw; cbn.
  - by intros k.
  - intros k Hk. apply IH. by apply call_flags.
Qed.

(** C5, amended. The use-flags only grow: a flag that is set stays set
    over any sequence of [setup] and [forwardAsync] calls, whether they return
    or throw. A [setup] that returns sets the flag of a class exactly when it
    was set before or the decoding mode uses the class and the setup carries
    a value for it, whatever the value. And a [forwardAsync] that returns has
    run the kernel on an argument block in which the per-slot array of the
    class is the device array of the layer if the flag is set and the scan of
    the batch slots over the host array finds a value that is not the
    default, and is null otherwise. *)
Theorem penalty_flags_grow_and_steps_scan (c : DecodingPenaltyType) :
  (forall cs lw,
      mUse c (fst lw) = true ->
      mUse c (fst (calls defaultValue withinLimits TopKTopP BeamSearch getLocalDecoderDomain
                     invokeBatchApplyPenalty allOfBatchSlots getDefaultBatchSlots FillBuffers
                     cs lw)) = true)
  /\ (forall batchSize beamWidth batchSlots setupParams lw lw',
        setup defaultValue withinLimits TopKTopP BeamSearch getDefaultBatchSlots FillBuffers
          batchSize beamWidth batchSlots
          setupParams lw = (inr tt, lw') ->
        exists p, penaltyParams setupParams = Some p
          /\ mUse c (fst lw')
             = mUse c (fst lw)
               || (modeUses c (mDecodingMode (fst lw')) && hasValue (paramOf c p)))
  /\ (forall outputs params l w params' lw',
        forwardAsync defaultValue getLocalDecoderDomain invokeBatchApplyPenalty
          allOfBatchSlots getDefaultBatchSlots outputs params (l, w)
        = (inr params', lw') ->
        exists localDecoderDomain slots w1 kp,
          getLocalDecoderDomain params (mDecoderDomain l) = inr localDecoderDomain
          /\ batchSlotsOrDefault getDefaultBatchSlots (batchSlots params)
               (getBatchSize localDecoderDomain)
               (mkWorld (wStore w) (wTrace w ++ tableEvents outputs l)) = (inr slots, w1)
          /\ wStore (snd lw') = kernelStore invokeBatchApplyPenalty l kp (wStore w1)
          /\ kernelArray c kp
             = if mUse c l
                  && negb (allOfBatchSlots
                             (Kernels.bufOf (wStore w1) (Some (data slots)))
                             (Kernels.bufOf (wStore w1) (Some (data (mHost c l))))
                             (getBatchSize localDecoderDomain) (defaultValue c))
               then data <$> mDevice c l
               else None).
Proof.
  split_and!.
  - intros cs lw H. by apply (calls_flags cs lw).
  - intros batchSize beamWidth batchSlots setupParams lw lw' H.
    destruct (setup_returns_flags defaultValue withinLimits TopKTopP BeamSearch
                getDefaultBatchSlots FillBuffers _ _ _ _ _ _ H)
      as (p & Hp & Hflags).
    exists p. split; [done|]. apply Hflags.
  - intros outputs params l w params' [l' w'] H.
    apply forwardAsync_inr in H
      as (dom & slots & w1 & kp & Hdom & Hslots & Hstore & _ & _ & _ & Harr & _).
    exists dom, slots, w1, kp. split_and!; [done|done|done|].
    rewrite Harr. unfold GET_PENALTIES. by destruct (_ && _).
Qed.

(** C9. Whatever the outcome of [forwardAsync], the only buffers it writes
    are the two of the layer, its runtime logits and its penalty workspace:
    every other buffer that exists holds what it held, and so do the logits
    of the caller, in [logits] or in [logitsVec]. A step the layer is ready
    for returns. And when the call returns, the kernel was given the runtime
    logits of the layer as its output, memory is what the kernel made of the
    runtime logits and the workspace, the runtime logits hold the logits the
    kernel computed, and the inputs are returned as they came but for
    [logits], which is a view of the runtime logits. The helper that hands
    out the default batch slots only allocates. *)
Theorem forwardAsync_leaves_input_logits outputs params l w :
  (forall n, handsOut (getDefaultBatchSlots n)) ->
  let result := forwardAsync defaultValue getLocalDecoderDomain invokeBatchApplyPenalty
                  allOfBatchSlots getDefaultBatchSlots outputs params (l, w) in
  (forall p,
      is_Some (wStore w !! p) ->
      p <> data (mRuntimeLogitsDevice l) ->
      data <$> mPenaltyWorkspaceDevice l <> Some p ->
      wStore (snd (snd result)) !! p = wStore w !! p)
  /\ (stepReady getLocalDecoderDomain outputs params l ->
      exists params', fst result = inr params')
  /\ (forall params', fst result = inr params' ->
      exists localDecoderDomain kp s,
        params' = withLogits (runtimeLogitsView l localDecoderDomain) params
        /\ k_outputLogits kp = data (mRuntimeLogitsDevice l)
        /\ wStore (snd (snd result)) = kernelStore invokeBatchApplyPenalty l kp s
        /\ (is_Some (wStore w !! data (mRuntimeLogitsDevice l)) ->
            Kernels.bufOf (wStore (snd (snd result))) (Some (data (mRuntimeLogitsDevice l)))
            = fst (invokeBatchApplyPenalty kp s))).
Proof.
  intros Hh. cbv zeta.
  destruct (forwardAsync _ _ _ _ _ outputs params (l, w)) as [r [l' w']] eqn:H.
  cbn [fst snd]. split_and!.
  - intros p Hp H1 H2.
    exact (forwardAsync_frame _ _ _ _ _ _ _ _ _ _ _ _ Hh H p Hp H1 H2).
  - intros Hready.
    destruct (forwardAsync_returns defaultValue getLocalDecoderDomain invokeBatchApplyPenalty
                allOfBatchSlots getDefaultBatchSlots outputs params l w Hh Hready)
      as (params' & lw' & Hrun).
    rewrite Hrun in H. injection H as <- _. by eexists.
  - intros params' ->.
    apply forwardAsync_inr in H
      as (dom & slots & w1 & kp & Hdom & Hslots & Hstore & _ & Hout & _ & _ & Hp).
    exists dom, kp, (wStore w1). split_and!; [done|done|done|].
    intros Hrl. rewrite Hstore. unfold kernelStore. rewrite bufOf_setBuf_eq.
    assert (is_Some (wStore w1 !! data (mRuntimeLogitsDevice l))) as Hrl1.
    { unfold batchSlotsOrDefault in Hslots. destruct (batchSlots params) as [t|].
      - by injection Hslots as _ <-.
      - destruct (Hh (getBatchSize dom)
                    (mkWorld (wStore w) (wTrace w ++ tableEvents outputs l)))
          as (t' & w'' & E & Hkeep).
        rewrite E in Hslots. injection Hslots as _ <-. by rewrite Hkeep. }
    destruct (mPenaltyWorkspaceDevice l) as [ws|]; cbn [fmap option_fmap option_map].
    + destruct (decide (data ws = data (mRuntimeLogitsDevice l))) as [Heq|Hne].
      * rewrite Heq. unfold Kernels.setBuf. destruct Hrl1 as [b ->].
        by rewrite lookup_insert_eq.
      * rewrite lookup_setBuf_ne by done. by destruct Hrl1 as [b ->].
    + cbn. by destruct Hrl1 as [b ->].
Qed.

End PenaltyClaims.

Section PenaltyRuns.
Import PenaltyLayer.

(** The layer of the example is the one the constructor builds. *)
Lemma plLayer_constructed : fst (plConstruct (mkWorld plStore [])) = inr plLayer.
Proof. vm_compute. reflexivity. Qed.

(** The stand-in for [getDefaultBatchSlots] hands out a fresh tensor. *)
Lemma plDefaultBatchSlots_handsOut n : handsOut (plDefaultBatchSlots n).
Proof.
  intros w. eexists _, _. split; [reflexivity|]. cbn. intros p Hp.
  apply lookup_insert_ne. intros <-.
  apply elem_of_dom in Hp. by apply is_fresh in Hp.
Qed.

(** On the example: the temperature flag set by a first [setup] is still set
    after a step and a [setup] without temperature; the [setup] with
    temperature 3 sets the flag; and the step after it hands the device array
    of the temperatures, buffer 11, to the kernel, while the step after a
    [setup] with the default temperature hands it none. *)
Lemma penalty_flags_grow_and_steps_scan_witness :
  mUse Temperature
    (fst (plCalls [CallForwardAsync plOutputs plInputs; plSetupCall None]
            (plCalls [plSetupCall (Some [3])] (plLayer, plWorld)))) = true
  /\ (exists p,
        penaltyParams (mkSetupParams (Some (mkPenaltyParams (Some [3]) None None None None)))
        = Some p
        /\ mUse Temperature (fst (plAfterSetup 3))
           = mUse Temperature plLayer
             || (modeUses Temperature (mDecodingMode (fst (plAfterSetup 3)))
                 && hasValue (paramOf Temperature p)))
  /\ (exists kp s,
        wStore (snd (snd (plStep 3))) = kernelStore plProbeKernel (fst (plAfterSetup 3)) kp s
        /\ kernelArray Temperature kp = Some 11%nat)
  /\ (exists kp s,
        wStore (snd (snd (plStep 1))) = kernelStore plProbeKernel (fst (plAfterSetup 1)) kp s
        /\ kernelArray Temperature kp = None).
Proof.
  destruct (penalty_flags_grow_and_steps_scan plDefault plWithinLimits plTopKTopP
              plBeamSearch plLocalDomain plProbeKernel plAllOfBatchSlots
              plDefaultBatchSlots plFillBuffers Temperature) as (Hgrow & Hsetup & Hstep).
  split_and!.
  - apply Hgrow. vm_compute. reflexivity.
  - apply (Hsetup 1 1 None
             (mkSetupParams (Some (mkPenaltyParams (Some [3]) None None None None)))
             (plLayer, plWorld) (plAfterSetup 3)).
    vm_compute. reflexivity.
  - destruct (Hstep plOutputs plInputs (fst (plAfterSetup 3)) (snd (plAfterSetup 3))
                (withLogits (mkTensor kFLOAT [1; 1; 1; 5] 16%nat) plInputs)
                (snd (plStep 3)) ltac:(vm_compute; reflexivity))
      as (dom & slots & w1 & kp & Hdom & Hslots & Hstore & Harr).
    exists kp, (wStore w1). split; [exact Hstore|].
    vm_compute in Hdom. injection Hdom as <-.
    vm_compute in Hslots. injection Hslots as <- <-.
    rewrite Harr. vm_compute. reflexivity.
  - destruct (Hstep plOutputs plInputs (fst (plAfterSetup 1)) (snd (plAfterSetup 1))
                (withLogits (mkTensor kFLOAT [1; 1; 1; 5] 16%nat) plInputs)
                (snd (plStep 1)) ltac:(vm_compute; reflexivity))
      as (dom & slots & w1 & kp & Hdom & Hslots & Hstore & Harr).
    exists kp, (wStore w1). split; [exact Hstore|].
    vm_compute in Hdom. injection Hdom as <-.
    vm_compute in Hslots. injection Hslots as <- <-.
    rewrite Harr. vm_compute. reflexivity.
Defined.

(** C5, as stated, fails on two counts. A [setup] that carries the default
    temperature sets the flag of the class although no slot departs from the
    default; and with the flag set, the step scans the slots of the batch,
    finds only defaults and hands no temperatures to the kernel, so that the
    penalty is not applied on that step. *)
Lemma penalty_enabled_by_default_value_and_skipped :
  let lw := plCalls [plSetupCall (Some [plDefault Temperature])] (plLayer, plWorld) in
  mUse Temperature plLayer = false
  /\ mUse Temperature (fst lw) = true
  /\ Kernels.bufOf (wStore (snd lw)) (Some (data (mTemperature (fst lw))))
     = [plDefault Temperature]
  /\ (exists params', fst (plForwardAsync lw) = inr params')
  /\ Kernels.bufOf (wStore (snd (snd (plForwardAsync lw))))
       (Some (data (mRuntimeLogitsDevice plLayer))) = [0; 0; 0; 0; 0].
Proof.
  cbv zeta. split_and!; try (vm_compute; reflexivity).
  vm_compute. eexists. reflexivity.
Qed.

(** On the example, after a [setup] with temperature 3: the caller's
    logits, buffer 0, hold what they held, the step returns, and the runtime
    logits of the layer, buffer 16, hold what the kernel computed. *)
Lemma forwardAsync_leaves_input_logits_witness :
  wStore (snd (snd (plStep 3))) !! 0%nat = Some [10; 20; 30; 40; 50]
  /\ (exists params', fst (plStep 3) = inr params')
  /\ (exists kp s,
        k_outputLogits kp = 16%nat
        /\ wStore (snd (snd (plStep 3))) = kernelStore plProbeKernel (fst (plAfterSetup 3)) kp s
        /\ Kernels.bufOf (wStore (snd (snd (plStep 3)))) (Some 16%nat)
           = fst (plProbeKernel kp s)).
Proof.
  destruct (forwardAsync_leaves_input_logits plDefault plLocalDomain plProbeKernel
              plAllOfBatchSlots plDefaultBatchSlots plOutputs plInputs
              (fst (plAfterSetup 3)) (snd (plAfterSetup 3)) plDefaultBatchSlots_handsOut)
    as (Hkeep & Hreturns & Hwritten).
  split_and!.
  - eapply eq_trans.
    + apply (Hkeep (data plLogits));
        [vm_compute; by eexists|vm_compute; discriminate|vm_compute; discriminate].
    + vm_compute. reflexivity.
  - apply Hreturns. exists (mkDecoderDomain 1 1 5 5 1).
    split_and!; [reflexivity|vm_compute; discriminate|split; [reflexivity|vm_compute; discriminate]
                |vm_compute; constructor|vm_compute; reflexivity
                |exists plLogits; split; [reflexivity|vm_compute; discriminate]
                |by eexists].
  - destruct (Hwritten (withLogits (mkTensor kFLOAT [1; 1; 1; 5] 16%nat) plInputs)
                ltac:(vm_compute; reflexivity)) as (dom & kp & s & _ & Hout & Hstore & Hbuf).
    exists kp, s. split_and!; [exact Hout|exact Hstore|].
    apply Hbuf. vm_compute. by eexists.
Defined.

(** On the example the probe kernel was handed the temperatures only: the
    runtime logits hold [1, 0, 0, 0, 0], and the [logits] of the inputs
    returned are a view of them. *)
Lemma plStep_runtime_logits :
  Kernels.bufOf (wStore (snd (snd (plStep 3)))) (Some 16%nat) = [1; 0; 0; 0; 0]
  /\ fst (plStep 3) = inr (withLogits (mkTensor kFLOAT [1; 1; 1; 5] 16%nat) plInputs).
Proof. split; vm_compute; reflexivity. Qed.

End PenaltyRuns.

(** ** Block manager *)

Section CacheClaims.
Import KvCache.
Variable policy : BlockManager -> Eviction.

(** C2, amended. Over a fresh manager with [p] primary and [n] secondary
    blocks, after any sequence of [addSequence] (with or without reuse),
    [allocateBlock] and [releaseBlocks] that returns and leaves no sequence,
    every sequence having at least one beam: [getNumFreeBlocks] is [p], the
    number of primary blocks; [getMaxNumBlocks] is [p + n]; the free queues
    of the two pools together hold every block; so [getNumFreeBlocks] equals
    [getMaxNumBlocks] exactly when there is no secondary pool. *)
Theorem released_cache_frees_every_block t (p n : Z) maxSeq ops c' :
  0 <= p <= 2 ^ 31 -> 0 <= n ->
  forallb opWellFormed ops = true ->
  runOps policy ops (newCache t p n maxSeq) = (inr tt, c') ->
  sequences c' = ∅ ->
  getNumFreeBlocks (manager c') = p
  /\ getMaxNumBlocks (manager c') = p + n
  /\ getNumFreeBlocks (manager c') + Z.of_nat (length (mFreeSecondaryBlocks (manager c')))
     = getMaxNumBlocks (manager c')
  /\ (getNumFreeBlocks (manager c') = getMaxNumBlocks (manager c') <-> n = 0).
Proof.
  intros Hp Hn Hok Hrun Hempty.
  assert (Hinit : CacheInv (Z.to_nat p) (Z.to_nat p + Z.to_nat n) (newCache t p n maxSeq)).
  { split; cbn.
    - pose proof (Inv_newBlockManager (liveSlot (newCache t p n maxSeq)) t
                    (Z.to_nat p) (Z.to_nat n) maxSeq) as HI.
      rewrite !Z2Nat.id in HI by lia. apply HI. lia.
    - intros s r Hr. by rewrite lookup_empty in Hr. }
  destruct (runOps_CacheInv policy _ _ ops _ tt tt c' Hok Hrun Hinit) as [HI _].
  destruct (Inv_all_free _ _ _ _ HI) as (Hfree & Hall & Hsize).
  { intros s [r Hr]. rewrite Hempty, lookup_empty in Hr. discriminate. }
  unfold getNumFreeBlocks, getMaxNumBlocks. rewrite Hsize, Hfree.
  rewrite Hfree in Hall. split_and!; lia.
Qed.

End CacheClaims.

Section CacheExamples.
Import KvCache.

(** On the example without secondary pool: both blocks are free again. *)
Lemma released_cache_frees_every_block_witness :
  getNumFreeBlocks (manager (snd (kvRun 0))) = 2
  /\ getMaxNumBlocks (manager (snd (kvRun 0))) = 2 + 0.
Proof.
  destruct (released_cache_frees_every_block takeHead 4 2 0 2 kvOps (snd (kvRun 0)))
    as (H1 & H2 & _); [lia|lia|reflexivity|vm_compute; reflexivity|vm_compute; reflexivity|].
  split; [exact H1|exact H2].
Defined.

(** C2, as stated, fails with a secondary pool: after the last sequence is
    removed, the primary free queue holds the two primary blocks, and the
    table of all blocks has three. *)
Lemma free_blocks_differ_from_max_blocks :
  exists c', kvRun 1 = (inr tt, c')
             /\ sequences c' = ∅
             /\ getNumFreeBlocks (manager c') = 2
             /\ getMaxNumBlocks (manager c') = 3.
Proof. exists (snd (kvRun 1)). split_and!; vm_compute; reflexivity. Qed.

End CacheExamples.

(** * Further properties *)

(** ** Loops with an invariant that follows the index *)

Lemma forFrom_invariant {St A} (I : Z -> A -> St -> Prop) (body : Z -> A -> ST St A) count :
  (forall j acc s a s', I j acc s -> body j acc s = (inr a, s') -> I (j + 1) a s') ->
  forall i acc s a s',
    I i acc s -> forFrom i count body acc s = (inr a, s') -> I (i + Z.of_nat count) a s'.
Proof.
  intros Hb. induction count as [|c IH]; intros i acc s a s' Hi; cbn [forFrom].
  - intros [= <- <-]. by rewrite Z.add_0_r.
  - intros H. apply bind_inr in H as (a1 & s1 & H1 & H2).
    replace (i + Z.of_nat (S c)) with (i + 1 + Z.of_nat c) by lia.
    eapply IH; [|exact H2]. eapply Hb; eauto.
Qed.

(** ** [prepareInputs] *)

Section PrepareInputs.
Import GptDecoder.

Lemma forallb_typed_true T (v : list ITensor) :
  Forall (fun t => getDataType t = TRTDataType T) v ->
  forallb (fun t => bool_decide (getDataType t = TRTDataType T)) v = true.
Proof.
  induction 1 as [|t v Ht _ IH]; cbn; [done|].
  by rewrite bool_decide_eq_true_2, IH.
Qed.

Lemma forallb_typed_false T (v : list ITensor) :
  Exists (fun t => getDataType t <> TRTDataType T) v ->
  forallb (fun t => bool_decide (getDataType t = TRTDataType T)) v = false.
Proof.
  induction 1 as [t v Ht|t v _ IH]; cbn.
  - by rewrite bool_decide_eq_false_2.
  - rewrite IH. apply andb_false_r.
Qed.

Lemma prepareInputs_other_type T input n w :
  logitsOfOtherType T input ->
  exists msg, prepareInputs T input n w = (inl (CheckFailed msg), w).
Proof.
  unfold logitsOfOtherType, prepareInputs. intros H.
  destruct (logitsVec input) as [v|].
  - eexists. erewrite bind_fail; [reflexivity|].
    erewrite bind_fail; [reflexivity|].
    rewrite (forallb_typed_false _ _ H). reflexivity.
  - destruct H as (t & -> & Ht). eexists.
    erewrite bind_fail; [reflexivity|].
    erewrite bind_fail; [reflexivity|].
    rewrite bool_decide_eq_false_2 by done. reflexivity.
Qed.

Lemma prepareInputs_stop_words T input n w :
  logitsWellTyped T input -> badWordsComplete input ->
  is_Some (stopWordsPtrs input) -> stopWordsLens input = None ->
  prepareInputs T input n w
  = (inl (CheckFailed "Stop word lengths must be provided when stopWordsPtrs is given"), w).
Proof.
  unfold logitsWellTyped, badWordsComplete, prepareInputs. intros Hl Hb [p Hp] Hs.
  rewrite Hp, Hs.
  destruct (logitsVec input) as [v|].
  - rewrite (forallb_typed_true _ _ Hl).
    destruct (badWordsPtrs input) as [bp|]; [destruct Hb as [bl ->]; [by eexists|]|];
      reflexivity.
  - destruct Hl as (t & -> & Ht). rewrite bool_decide_eq_true_2 by done.
    destruct (badWordsPtrs input) as [bp|]; [destruct Hb as [bl ->]; [by eexists|]|];
      reflexivity.
Qed.

End PrepareInputs.

(** ** [forward] against [forwardAsync] *)

Section ForwardFurther.
Import GptDecoder.
Context {LayerState : Type}.
Variable layerForward :
  LayerState -> OutputParams -> ForwardParams -> Store -> Error + (LayerState * Store).

(** X1. Without [sequenceLimitLength], or without the finished mask,
    [forward] is [forwardAsync] followed by [return false]: the same error
    or the same decoder, and the same world. *)
Theorem forward_without_counters_is_forwardAsync T (dec : Decoder LayerState) output input w :
  ~ bothProvided output input ->
  forward layerForward T dec output input w
  = match forwardAsync layerForward T dec output input w with
    | (inl e, w') => (inl e, w')
    | (inr dec', w') => (inr (false, dec'), w')
    end.
Proof.
  intros Hn. unfold forward, forwardAsync, bind.
  destruct (prepareInputs T input (mMaxBatchSize dec) w) as [[e|fp] w1]; [reflexivity|].
  assert (sequenceLimitLength input = None \/ outFinished output = None) as Hnone.
  { destruct (sequenceLimitLength input) eqn:E1; [|by left].
    destruct (outFinished output) eqn:E2; [|by right].
    exfalso. apply Hn. split; [rewrite E1|rewrite E2]; eauto. }
  destruct Hnone as [-> | ->]; [|destruct (sequenceLimitLength input)];
    unfold ret; cbv beta iota;
    destruct (dynamicDecodeForward layerForward _ _ _ _) as [[e|dec'] w2]; reflexivity.
Qed.

(** X2. A [forward] that returns has run the layers once. With both
    [sequenceLimitLength] and the finished mask it has synchronised the
    stream after them, and it has allocated the host counters, one per slot
    of [maxBatchSize], beforehand if and only if the caller gave no
    [finishedSum]; nothing else is issued. *)
Theorem forward_allocates_missing_counters T (dec : Decoder LayerState) output input w v w' :
  forward layerForward T dec output input w = (inr v, w') ->
  wTrace w' = wTrace w ++ forwardEvents output input.
Proof.
  unfold forward, forwardEvents. intros H.
  apply bind_inr in H as (fp & w1 & Hp & H).
  pose proof (readonly_prepareInputs _ _ _ _ _ _ Hp) as ->.
  apply bind_inr in H as ([op fsh] & w2 & Hbr & H).
  apply bind_inr in H as (dec1 & w3 & Hl & H).
  apply dynamicDecodeForward_inr in Hl.
  destruct (sequenceLimitLength input) as [sl|], (outFinished output) as [f|];
    try (injection Hbr as <- <- <-; injection H as <- <-; exact Hl).
  apply bind_inr in Hbr as ([op' ptr] & w2' & Hfs & Hz).
  apply bind_inr in Hz as (? & w2'' & Hz & Hret). injection Hret as <- <- <-.
  apply bind_inr in H as (n & w4 & Hn & H). injection Hn as <- <-.
  apply bind_inr in H as (? & w5 & He & H).
  apply bind_inr in H as (total & w6 & Hsum & Hret). injection Hret as <- <-.
  apply sum_loop in Hsum as [-> _]. injection He as He. subst w5. cbn [wTrace].
  rewrite Hl.
  assert (Hsil : silent (forRange (maxBatchSize input)
                           (fun bi (_ : unit) => writeAt ptr bi 0) tt)) by silent_tac.
  rewrite (Hsil _ _ _ Hz).
  destruct (finishedSum output) as [fs|].
  - injection Hfs as <- <- <-. by rewrite <- app_assoc.
  - apply bind_inr in Hfs as (t & wa & Ha & Hret). injection Hret as <- <- <-.
    unfold pinned in Ha. injection Ha as <- <-. cbn [wTrace volume foldr].
    rewrite Z.mul_1_r. by rewrite <- !app_assoc.
Qed.

(** X3. Logits of another element type than the decoder's are refused
    before the layers run: [forward] and [forwardAsync] fail on the check of
    [prepareInputs] and leave memory and the record of runtime calls as they
    were. *)
Theorem forward_rejects_logits_of_other_type T (dec : Decoder LayerState) output input w :
  logitsOfOtherType T input ->
  exists msg,
    forward layerForward T dec output input w = (inl (CheckFailed msg), w)
    /\ forwardAsync layerForward T dec output input w = (inl (CheckFailed msg), w).
Proof.
  intros H. destruct (prepareInputs_other_type T input (mMaxBatchSize dec) w H) as [msg Hp].
  exists msg. unfold forward, forwardAsync.
  by rewrite !(bind_fail _ _ _ _ _ Hp).
Qed.

(** X4. Stop words without their lengths are refused before the layers
    run: with well-typed logits and complete bad words, [forward] and
    [forwardAsync] fail with the message of the check and change nothing. *)
Theorem forward_requires_stop_word_lengths T (dec : Decoder LayerState) output input w :
  logitsWellTyped T input -> badWordsComplete input ->
  is_Some (stopWordsPtrs input) -> stopWordsLens input = None ->
  let e := CheckFailed "Stop word lengths must be provided when stopWordsPtrs is given" in
  forward layerForward T dec output input w = (inl e, w)
  /\ forwardAsync layerForward T dec output input w = (inl e, w).
Proof.
  intros Hl Hb Hp Hs.
  pose proof (prepareInputs_stop_words T input (mMaxBatchSize dec) w Hl Hb Hp Hs) as H.
  unfold forward, forwardAsync. by rewrite !(bind_fail _ _ _ _ _ H).
Qed.

End ForwardFurther.

Section PrepareInputsFurther.
Import GptDecoder.

(** X5. [logitsVec] takes precedence over [logits]: when it is given
    the layers receive it and no [logits], whatever [logits] holds; without
    it they receive [logits], which is then there. Never both, never
    neither. *)
Theorem prepareInputs_passes_one_kind_of_logits T input n w fp w' :
  prepareInputs T input n w = (inr fp, w') ->
  fp_logits_vec fp = logitsVec input
  /\ fp_logits fp = match logitsVec input with Some _ => None | None => logits input end
  /\ (is_Some (fp_logits fp) <-> fp_logits_vec fp = None).
Proof.
  unfold prepareInputs. intros H.
  apply bind_inr in H as ([lg lgv] & w1 & Hl & H).
  apply bind_inr in H as ([[bwp bwl] bwmax] & w2 & _ & H).
  apply bind_inr in H as ([[swp swl] swmax] & w3 & _ & H).
  apply bind_inr in H as (med & w4 & _ & H).
  injection H as <- <-. cbn.
  destruct (logitsVec input) as [v|].
  - apply bind_inr in Hl as (? & ? & _ & Hl). injection Hl as <- <- <-.
    split_and!; [done|done|]. split; [by intros [? ?]|done].
  - destruct (logits input) as [t|]; [|discriminate].
    apply bind_inr in Hl as (? & ? & _ & Hl). injection Hl as <- <- <-.
    split_and!; [done|done|]. split; [done|by eexists].
Qed.

End PrepareInputsFurther.

(** ** [forward]: the counters *)

Section ForwardCounters.
Import GptDecoder.
Context {LayerState : Type}.
Variable layerForward :
  LayerState -> OutputParams -> ForwardParams -> Store -> Error + (LayerState * Store).

Lemma writeAt_inr p i v w u w' :
  writeAt p i v w = (inr u, w') ->
  exists buf, wStore w !! p = Some buf /\ 0 <= i /\ (Z.to_nat i < length buf)%nat
              /\ w' = mkWorld (<[p := <[Z.to_nat i := v]> buf]> (wStore w)) (wTrace w).
Proof.
  unfold writeAt, storeAt. destruct (decide (0 <= i)); [|discriminate].
  destruct (wStore w !! p) as [buf|]; [|discriminate].
  destruct (decide (Z.to_nat i < length buf)%nat); [|discriminate].
  intros [= <-]. eauto 6.
Qed.

(** The loop that clears the counters. *)
Lemma clear_loop p n w u w' :
  forRange n (fun bi (_ : unit) => writeAt p bi 0) tt w = (inr u, w') ->
  (forall bi, 0 <= bi < n -> Kernels.getAt (wStore w') (Some p) bi = 0)
  /\ (forall q, q <> p -> wStore w' !! q = wStore w !! q).
Proof.
  unfold forRange. intros H.
  apply (forFrom_invariant
           (fun j (_ : unit) s =>
              0 <= j
              /\ (forall bi, 0 <= bi < j -> Kernels.getAt (wStore s) (Some p) bi = 0)
              /\ (forall q, q <> p -> wStore s !! q = wStore w !! q))) in H.
  - destruct H as (_ & H1 & H2). split; [|done].
    intros bi Hbi. apply H1. lia.
  - intros j [] s [] s' (Hj & H1 & H2) Hw.
    apply writeAt_inr in Hw as (buf & Hbuf & _ & Hlt & ->). cbn [wStore].
    split_and!; [lia| |].
    + intros bi Hbi. unfold Kernels.getAt, Kernels.bufOf, Kernels.rd. cbn.
      rewrite lookup_insert_eq. cbn. rewrite decide_True by lia.
      destruct (decide (bi = j)) as [->|Hne].
      * by rewrite list_lookup_insert_eq.
      * rewrite list_lookup_insert_ne by lia.
        specialize (H1 bi ltac:(lia)).
        unfold Kernels.getAt, Kernels.bufOf, Kernels.rd in H1. cbn in H1.
        rewrite Hbuf in H1. cbn in H1. by rewrite decide_True in H1 by lia.
    + intros q Hq. rewrite lookup_insert_ne by done. by apply H2.
  - split_and!; [lia|intros; lia|done].
Qed.

(** X20. With both [sequenceLimitLength] and the finished mask, a
    [forward] that returns has run the layers on a memory in which the
    counters of all [maxBatchSize] slots are zero, and which is otherwise as
    the caller left it; the layers got the counters as [finished_sum], and
    what they left is what [forward] leaves. Stale counters of the caller do
    not reach the layers. *)
Theorem forward_clears_counters_before_layers T (dec : Decoder LayerState)
    output input w v w' :
  bothProvided output input ->
  forward layerForward T dec output input w = (inr v, w') ->
  exists outputParams forwardParams s l',
    layerForward (mDynamicDecodeLayer dec) outputParams forwardParams s
    = inr (l', wStore w')
    /\ snd v = withLayer dec l'
    /\ data <$> op_finished_sum outputParams = Some (finishedSumHost output w)
    /\ (forall bi, 0 <= bi < maxBatchSize input ->
          Kernels.getAt s (Some (finishedSumHost output w)) bi = 0)
    /\ (forall p, p <> finishedSumHost output w -> s !! p = wStore w !! p).
Proof.
  intros [[sl Esl] [f Ef]] H. unfold forward in H. rewrite Esl, Ef in H.
  apply bind_inr in H as (fp & w1 & Hp & H).
  pose proof (readonly_prepareInputs _ _ _ _ _ _ Hp) as ->.
  apply bind_inr in H as ([op fsh] & w2 & Hbr & H).
  apply bind_inr in H as (dec1 & w3 & Hl & H).
  apply bind_inr in Hbr as ([op' ptr] & w2' & Hfs & Hz).
  apply bind_inr in Hz as (? & w2'' & Hz & Hret). injection Hret as <- <- <-.
  apply bind_inr in H as (n & w4 & Hn & H). injection Hn as <- <-.
  apply bind_inr in H as (? & w5 & He & H).
  apply bind_inr in H as (total & w6 & Hsum & Hret). injection Hret as <- <-.
  apply sum_loop in Hsum as [-> _]. injection He as He. subst w5. cbn [wStore snd].
  apply clear_loop in Hz as [Hzero Hframe].
  unfold dynamicDecodeForward, bind, emit, getStore, putStore in Hl. cbn in Hl.
  destruct (layerForward _ _ _ _) as [e|[l' s']] eqn:El; [discriminate|].
  injection Hl as <- <-. cbn [wStore].
  exists op', fp, (wStore w2''), l'. split; [exact El|]. split; [reflexivity|].
  unfold finishedSumHost. destruct (finishedSum output) as [fs|] eqn:Efs.
  - injection Hfs as <- <- <-. cbn. unfold prepareOutputs. cbn. rewrite Efs.
    split_and!; [done|done|]. intros p Hne. by apply Hframe.
  - apply bind_inr in Hfs as (t & wa & Ha & Hret). injection Hret as <- <- <-.
    unfold pinned in Ha. injection Ha as <- <-. cbn in *.
    split_and!; [done|done|]. intros p Hne.
    rewrite Hframe by done. by rewrite lookup_insert_ne.
Qed.

End ForwardCounters.

(** ** [prepareMedusaInputs] *)

Section Medusa.
Import GptDecoder.

Lemma readAt_inr p i w v w' : readAt p i w = (inr v, w') -> loadAt (wStore w) p i = inr v /\ w' = w.
Proof.
  unfold readAt. destruct (loadAt (wStore w) p i) as [e|x]; cbn; [discriminate|].
  by intros [= <- <-].
Qed.

Lemma reindexed_step ml (w : World) slots n j acc a w' :
  reindexed ml (wStore w) slots n j acc ->
  (do slot <- readAt slots j;
   if decide (0 <= slot) then
     match ml !! Z.to_nat slot with
     | Some logitsHeads =>
         if decide (Z.to_nat slot < length acc)%nat
         then ret (<[Z.to_nat slot := logitsHeads]> acc)
         else throw OutOfBounds
     | None => throw OutOfBounds
     end
   else throw OutOfBounds) w = (inr a, w') ->
  w' = w /\ reindexed ml (wStore w) slots n (j + 1) a.
Proof.
  intros (Hj & Hlen & Hslots & Hrows) H.
  apply bind_inr in H as (slot & w1 & Hr & H).
  apply readAt_inr in Hr as [Hr ->].
  destruct (decide (0 <= slot)) as [Hs|]; [|discriminate].
  destruct (ml !! Z.to_nat slot) as [heads|] eqn:Hml; [|discriminate].
  destruct (decide (Z.to_nat slot < length acc)%nat) as [Hlt|]; [|discriminate].
  injection H as <- <-. split; [done|].
  apply lookup_lt_Some in Hml as Hml'.
  split_and!.
  - lia.
  - by rewrite length_insert.
  - intros bi Hbi. destruct (decide (bi = j)) as [->|Hne].
    + exists slot. split_and!; [done|lia|lia|lia].
    + apply Hslots. lia.
  - intros k Hk. destruct (Hrows k Hk) as [Hin Hout].
    destruct (decide (k = Z.to_nat slot)) as [->|Hne].
    + split.
      * intros _. rewrite list_lookup_insert_eq by done. by rewrite Hml.
      * intros Hno. exfalso. apply Hno. exists j. split; [lia|].
        by rewrite Z2Nat.id.
    + rewrite list_lookup_insert_ne by done. split.
      * intros (bi & Hbi & Hload). apply Hin.
        exists bi. split; [|done].
        assert (bi <> j); [|lia]. intros ->. rewrite Hr in Hload.
        injection Hload as ->. apply Hne. by rewrite Nat2Z.id.
      * intros Hno. apply Hout. intros (bi & Hbi & Hload). apply Hno.
        exists bi. split; [lia|done].
Qed.

(** X6. With Medusa logits, a [prepareMedusaInputs] that returns hands
    the layers a table of [maxBatchSize] rows, indexed by slot: the row of
    every slot named by one of the batch indices is the caller's row of that
    slot, every other row is empty. The batch is as long as the caller's
    table, and every slot it names lies inside that table and below
    [maxBatchSize]. *)
Theorem prepareMedusaInputs_reindexes_by_slot input mi n w r w' :
  prepareMedusaInputs input mi n w = (inr r, w') ->
  medusaLogits mi <> [] ->
  let batchSize := Z.of_nat (length (medusaLogits mi)) in
  length (l_medusaLogits r) = Z.to_nat n
  /\ (forall bi, 0 <= bi < batchSize ->
        exists slot, medusaSlot input (wStore w) bi slot /\ 0 <= slot < batchSize /\ slot < n)
  /\ (forall slot, 0 <= slot < n ->
        (inMedusaBatch input (wStore w) batchSize slot ->
           l_medusaLogits r !! Z.to_nat slot = medusaLogits mi !! Z.to_nat slot)
        /\ (~ inMedusaBatch input (wStore w) batchSize slot ->
           l_medusaLogits r !! Z.to_nat slot = Some [])).
Proof.
  intros H Hne. cbv zeta. unfold prepareMedusaInputs in H.
  apply bind_inr in H as (slots & w1 & Hs & H).
  destruct (batchSlots input) as [t|] eqn:Ht; [|discriminate].
  injection Hs as <- <-.
  destruct (medusaLogits mi) as [|row rows] eqn:Hml; [done|]. rewrite <- Hml in *.
  apply bind_inr in H as (ml & w2 & Hloop & H). injection H as <- <-. cbn [l_medusaLogits].
  unfold forRange in Hloop.
  apply (forFrom_invariant
           (fun j acc s => s = w /\ reindexed (medusaLogits mi) (wStore w) (bufferCast t) n j acc))
    in Hloop.
  - destruct Hloop as (-> & _ & Hlen & Hslots & Hrows).
    rewrite Z.add_0_l, Nat2Z.id in Hslots, Hrows.
    split_and!; [done| |].
    + intros bi Hbi. destruct (Hslots bi Hbi) as (slot & Hload & Hr).
      exists slot. split; [|done]. exists t. by rewrite Ht.
    + intros slot Hslot. destruct (Hrows (Z.to_nat slot) ltac:(lia)) as [Hin Hout].
      rewrite Z2Nat.id in Hin, Hout by lia.
      split.
      * intros (bi & Hbi & t' & Ht' & Hload). apply Hin. exists bi.
        rewrite Ht in Ht'. injection Ht' as <-. done.
      * intros Hno. apply Hout. intros (bi & Hbi & Hload). apply Hno.
        exists bi. split; [done|]. exists t. by rewrite Ht.
  - intros j acc s a s' [-> Hinv] Hbody.
    destruct (reindexed_step _ _ _ _ _ _ _ _ Hinv Hbody) as [-> Hinv']. done.
  - split; [done|]. split_and!; [lia|by rewrite length_replicate|intros; lia|].
    intros k Hk. split.
    + intros (bi & Hbi & _). lia.
    + intros _. by apply lookup_replicate_2.
Qed.

End Medusa.

(** ** [gatherTree]: the runtime calls *)

Section GatherTreeFurther.
Import GptDecoder.
Context {LayerState : Type}.
Variable normScore : Z -> Z -> Z.
Variable scoreLtb : Z -> Z -> bool.

(** X7. A [gatherTree] that returns has launched its three kernels in
    order, initialisation, insertion of the unfinished paths, finalisation,
    each followed by the check for CUDA errors, and has issued nothing else:
    no allocation, no stream synchronisation. *)
Theorem gatherTree_launches_three_kernels (dec : Decoder LayerState) f o i w w' :
  gatherTree normScore scoreLtb dec f o i w = (inr tt, w') ->
  wTrace w' = wTrace w ++ gatherTreeEvents.
Proof.
  unfold gatherTree. intros H.
  repeat match goal with
         | H : bind _ _ _ = (inr _, _) |- _ =>
             let H1 := fresh "Hs" in
             apply bind_inr in H as (? & ? & H1 & H)
         end.
  repeat match goal with
         | H : check _ _ _ = (inr _, _) |- _ => apply check_inr in H as [_ ->]
         | H : deref _ _ = (inr _, _) |- _ => apply deref_inr in H as [_ ->]
         | H : launch _ _ _ = (inr _, _) |- _ => apply launch_inr in H as ->
         | H : emit _ _ = (inr _, _) |- _ => apply emit_inr in H as ->
         end.
  cbn [wTrace]. unfold gatherTreeEvents. by rewrite <- !app_assoc.
Qed.

End GatherTreeFurther.

(** ** Speculative acceptance: all the checks *)

Section AcceptFurther.
Import GptDecoder.

(** X8. [acceptDraftTokensByIds] launches its kernel exactly when the six
    conditions on the shapes hold: a single beam, a batch no larger than
    [maxBatchSize], and [maxBatchSize] as the leading dimension of the draft
    tokens, the context lengths, the numbers of draft tokens and the sequence
    lengths. Then it returns, with the kernel and the check for CUDA errors
    as its only runtime calls; otherwise it fails on a check and leaves the
    world as it was. *)
Theorem acceptDraftTokensByIds_runs_iff_shapes_agree target draft ctx nd sl fv ff fs slots w :
  (acceptByIdsPreconditions target draft ctx nd sl fv slots ->
   acceptDraftTokensByIds target draft ctx nd sl fv ff fs slots w
   = (inr tt,
      mkWorld (Kernels.invokeAcceptDraftTokensByIds
                 (acceptByIdsArgs target draft ctx nd sl fv ff fs slots) (wStore w))
              (wTrace w ++ [EvKernel "invokeAcceptDraftTokensByIds"; EvSyncCheck])))
  /\ (~ acceptByIdsPreconditions target draft ctx nd sl fv slots ->
      exists msg,
        acceptDraftTokensByIds target draft ctx nd sl fv ff fs slots w
        = (inl (CheckFailed msg), w)).
Proof.
  unfold acceptByIdsPreconditions, acceptDraftTokensByIds. split.
  - intros (H1 & H2 & H3 & H4 & H5 & H6).
    do 6 (rewrite (bind_ok _ _ w tt w)
            by (rewrite bool_decide_eq_true_2 by done; reflexivity)).
    unfold bind, launch, emit, getStore, putStore, bind. cbn.
    by rewrite <- app_assoc.
  - intros H.
    repeat match goal with
           | |- context [check (bool_decide ?P) _] =>
               destruct (decide P);
               [rewrite (bind_ok _ _ w tt w)
                  by (rewrite bool_decide_eq_true_2 by done; reflexivity)
               |eexists; erewrite bind_fail; [reflexivity|];
                rewrite bool_decide_eq_false_2 by done; reflexivity]
           end.
    exfalso. apply H. split_and!; done.
Qed.

Section ByLogits.
Variable acceptDraftTokensByLogitsKernel :
  Precision -> AcceptByLogitsArgs -> list BufferId -> Store -> Store.

(** X9. [acceptDraftTokensByLogits] launches a kernel exactly when the
    last dimension of the draft logits is [vocabSize] and their element type
    is float or half, and then the instantiation for that type, followed by
    the check for CUDA errors; in every other case it fails on a check and
    leaves the world as it was. *)
Theorem acceptDraftTokensByLogits_dispatches_on_type
    dl tl dp tp nd fin slots vs vsp u thr w :
  let result := acceptDraftTokensByLogits acceptDraftTokensByLogitsKernel
               dl tl dp tp nd fin slots vs vsp u thr w in
  match byLogitsKernel (getDataType dl) with
  | Some name =>
      d (getShape dl) 2 = vs ->
      fst result = inr tt
      /\ wTrace (snd result) = wTrace w ++ [EvKernel name; EvSyncCheck]
  | None => exists msg, result = (inl (CheckFailed msg), w)
  end
  /\ (d (getShape dl) 2 <> vs -> exists msg, result = (inl (CheckFailed msg), w)).
Proof.
  cbv zeta. unfold acceptDraftTokensByLogits.
  rewrite (bind_ok _ _ w tt w) by reflexivity.
  split.
  - destruct (decide (d (getShape dl) 2 = vs)) as [Hv|Hv].
    + rewrite (bind_ok _ _ w tt w) by (rewrite bool_decide_eq_true_2 by done; reflexivity).
      destruct (getDataType dl); cbn [byLogitsKernel];
        try (intros _; unfold bind, launch, emit, getStore, putStore, bind; cbn;
             by rewrite <- app_assoc);
        eexists; reflexivity.
    + destruct (byLogitsKernel (getDataType dl)); [done|].
      eexists. erewrite bind_fail; [reflexivity|].
      rewrite bool_decide_eq_false_2 by done. reflexivity.
  - intros Hv. eexists. erewrite bind_fail; [reflexivity|].
    rewrite bool_decide_eq_false_2 by done. reflexivity.
Qed.

End ByLogits.

End AcceptFurther.

Section ForwardFurtherRuns.
Import GptDecoder.

(** On the example without [sequenceLimitLength], [forward] is the
    [forwardAsync] of the example with [false] for a result. *)
Lemma forward_without_counters_is_forwardAsync_witness :
  fwForward None (fwWorld [1; 4])
  = match forwardAsync countFinishedLayer Float32 fwDecoder fwOutput (fwInput None)
            (fwWorld [1; 4]) with
    | (inl e, w') => (inl e, w')
    | (inr dec', w') => (inr (false, dec'), w')
    end.
Proof.
  apply (forward_without_counters_is_forwardAsync countFinishedLayer Float32 fwDecoder
           fwOutput (fwInput None) (fwWorld [1; 4])).
  intros [[x H] _]. discriminate H.
Defined.

(** On the example without [finishedSum]: two counters are allocated, the
    layers run, the stream is synchronised. *)
Lemma forward_allocates_missing_counters_witness :
  wTrace (snd (forward countFinishedLayer Float32 fwDecoder fwOutputWithoutSum
                 (fwInput (Some fwLimit)) (fwWorld [1; 4])))
  = [] ++ [EvPinnedAlloc 2; EvLayerForward; EvStreamSynchronize].
Proof.
  apply (forward_allocates_missing_counters countFinishedLayer Float32 fwDecoder
           fwOutputWithoutSum (fwInput (Some fwLimit)) (fwWorld [1; 4]) (true, fwDecoder)).
  vm_compute. reflexivity.
Defined.

(** On the example with logits of halves for the decoder of floats. *)
Lemma forward_rejects_logits_of_other_type_witness :
  exists msg,
    forward countFinishedLayer Float32 fwDecoder fwOutput (fwInputWith kHALF None None)
      (fwWorld [1; 4])
    = (inl (CheckFailed msg), fwWorld [1; 4])
    /\ forwardAsync countFinishedLayer Float32 fwDecoder fwOutput
         (fwInputWith kHALF None None) (fwWorld [1; 4])
       = (inl (CheckFailed msg), fwWorld [1; 4]).
Proof.
  apply (forward_rejects_logits_of_other_type countFinishedLayer Float32 fwDecoder fwOutput
           (fwInputWith kHALF None None) (fwWorld [1; 4])).
  eexists. split; [reflexivity|discriminate].
Defined.

(** On the example with stop words and no lengths. *)
Lemma forward_requires_stop_word_lengths_witness :
  let e := CheckFailed "Stop word lengths must be provided when stopWordsPtrs is given" in
  forward countFinishedLayer Float32 fwDecoder fwOutput
    (fwInputWith kFLOAT (Some fwLimit) None) (fwWorld [1; 4])
  = (inl e, fwWorld [1; 4])
  /\ forwardAsync countFinishedLayer Float32 fwDecoder fwOutput
       (fwInputWith kFLOAT (Some fwLimit) None) (fwWorld [1; 4])
     = (inl e, fwWorld [1; 4]).
Proof.
  apply (forward_requires_stop_word_lengths countFinishedLayer Float32 fwDecoder fwOutput
           (fwInputWith kFLOAT (Some fwLimit) None) (fwWorld [1; 4])).
  - eexists. split; reflexivity.
  - intros [x H]. discriminate H.
  - eexists. reflexivity.
  - reflexivity.
Defined.

(** On the example, which has [logits] and no [logitsVec]. *)
Lemma prepareInputs_passes_one_kind_of_logits_witness :
  fp_logits_vec fwForwardParams = None
  /\ fp_logits fwForwardParams = Some (mkTensor kFLOAT [2; 1; 3] 3%nat)
  /\ (is_Some (fp_logits fwForwardParams) <-> fp_logits_vec fwForwardParams = None).
Proof.
  apply (prepareInputs_passes_one_kind_of_logits Float32 (fwInput None) 2 (fwWorld [])
           fwForwardParams (fwWorld [])).
  vm_compute. reflexivity.
Defined.

(** On the example: three rows, the two slots of the batch with their
    logits, slot 2 empty. *)
Lemma prepareMedusaInputs_reindexes_by_slot_witness :
  length (l_medusaLogits mdLayerInputs) = 3%nat
  /\ l_medusaLogits mdLayerInputs !! 2%nat = Some [].
Proof.
  destruct (prepareMedusaInputs_reindexes_by_slot mdInput mdMedusaInputs 3
              (mkWorld mdStore []) mdLayerInputs (mkWorld mdStore [])
              ltac:(vm_compute; reflexivity) ltac:(discriminate)) as (Hlen & Hslots & Hrows).
  split; [exact Hlen|].
  assert (0 <= 2 < 3) as Hslot by lia.
  apply (proj2 (Hrows 2 Hslot)).
  intros (bi & Hbi & t & Ht & Hload).
  injection Ht as <-. cbn in Hbi.
  assert (bi = 0 \/ bi = 1) as [-> | ->] by lia; vm_compute in Hload; discriminate Hload.
Defined.

(** On the example with two live beams. *)
Lemma gatherTree_launches_three_kernels_witness :
  wTrace (snd (gtGatherTree [1; 2; 2] (gtWorld [0; 0]))) = [] ++ gatherTreeEvents.
Proof.
  apply (gatherTree_launches_three_kernels Z.div Z.ltb gtDecoder gtFinalOutputIds
           (gtOutput [1; 2; 2]) gtInput (gtWorld [0; 0])).
  vm_compute. reflexivity.
Defined.

(** On the example: with one beam the kernel runs, with two it does not. *)
Lemma acceptDraftTokensByIds_runs_iff_shapes_agree_witness :
  acAccept 1 acWorld
  = (inr tt,
     mkWorld (Kernels.invokeAcceptDraftTokensByIds acArgs (wStore acWorld))
             ([] ++ [EvKernel "invokeAcceptDraftTokensByIds"; EvSyncCheck]))
  /\ exists msg, acAccept 2 acWorld = (inl (CheckFailed msg), acWorld).
Proof.
  split.
  - apply (proj1 (acceptDraftTokensByIds_runs_iff_shapes_agree (acTarget 1) acDraft
                    acContextLengths acNumDraftTokens acSequenceLengths acFinishedVec
                    acFinishedFinal acFinishedSum acBatchSlots acWorld)).
    unfold acceptByIdsPreconditions. cbn. lia.
  - apply (proj2 (acceptDraftTokensByIds_runs_iff_shapes_agree (acTarget 2) acDraft
                    acContextLengths acNumDraftTokens acSequenceLengths acFinishedVec
                    acFinishedFinal acFinishedSum acBatchSlots acWorld)).
    unfold acceptByIdsPreconditions. cbn. lia.
Defined.

(** On the example: logits of halves launch the kernel for halves, logits
    of 32-bit integers are refused, and so is a vocabulary of another size. *)
Lemma acceptDraftTokensByLogits_dispatches_on_type_witness :
  wTrace (snd (blAccept kHALF 3 (mkWorld ∅ [])))
  = [] ++ [EvKernel "acceptDraftTokensByLogits<half>"; EvSyncCheck]
  /\ (exists msg, blAccept kINT32 3 (mkWorld ∅ []) = (inl (CheckFailed msg), mkWorld ∅ []))
  /\ (exists msg, blAccept kHALF 4 (mkWorld ∅ []) = (inl (CheckFailed msg), mkWorld ∅ [])).
Proof.
  split_and!.
  - apply (proj1 (acceptDraftTokensByLogits_dispatches_on_type blKernel
                    (mkTensor kHALF [1; 3; 3] 0%nat) (mkTensor kINT64 [1; 3] 1%nat)
                    (mkTensor kHALF [1; 3; 3] 2%nat) (mkTensor kHALF [1; 3; 3] 3%nat)
                    (mkTensor kINT32 [1] 4%nat) (mkTensor kUINT8 [1] 5%nat)
                    (mkTensor kINT32 [1] 6%nat) 3 3 false 0 (mkWorld ∅ []))).
    reflexivity.
  - apply (proj1 (acceptDraftTokensByLogits_dispatches_on_type blKernel
                    (mkTensor kINT32 [1; 3; 3] 0%nat) (mkTensor kINT64 [1; 3] 1%nat)
                    (mkTensor kINT32 [1; 3; 3] 2%nat) (mkTensor kINT32 [1; 3; 3] 3%nat)
                    (mkTensor kINT32 [1] 4%nat) (mkTensor kUINT8 [1] 5%nat)
                    (mkTensor kINT32 [1] 6%nat) 3 3 false 0 (mkWorld ∅ []))).
  - apply (proj2 (acceptDraftTokensByLogits_dispatches_on_type blKernel
                    (mkTensor kHALF [1; 3; 3] 0%nat) (mkTensor kINT64 [1; 3] 1%nat)
                    (mkTensor kHALF [1; 3; 3] 2%nat) (mkTensor kHALF [1; 3; 3] 3%nat)
                    (mkTensor kINT32 [1] 4%nat) (mkTensor kUINT8 [1] 5%nat)
                    (mkTensor kINT32 [1] 6%nat) 4 4 false 0 (mkWorld ∅ []))).
    cbn. lia.
Defined.

(** On the example with stale counters [9, 9]: the layers find zeros. *)
Lemma forward_clears_counters_before_layers_witness :
  exists outputParams forwardParams s l',
    countFinishedLayer tt outputParams forwardParams s
    = inr (l', wStore (snd (fwForward (Some fwLimit) (fwWorld [1; 4]))))
    /\ snd (true, fwDecoder) = withLayer fwDecoder l'
    /\ data <$> op_finished_sum outputParams = Some 6%nat
    /\ (forall bi, 0 <= bi < 2 -> Kernels.getAt s (Some 6%nat) bi = 0)
    /\ (forall p, p <> 6%nat -> s !! p = fwStore [1; 4] !! p).
Proof.
  apply (forward_clears_counters_before_layers countFinishedLayer Float32 fwDecoder fwOutput
           (fwInput (Some fwLimit)) (fwWorld [1; 4]) (true, fwDecoder)
           (snd (fwForward (Some fwLimit) (fwWorld [1; 4])))).
  - split; eexists; reflexivity.
  - vm_compute. reflexivity.
Defined.

End ForwardFurtherRuns.

(** ** PenaltyLayer: the step counter and the rolling table *)

Section PenaltyStep.
Import PenaltyLayer.
Variable defaultValue : DecodingPenaltyType -> Z.
Variable withinLimits : DecodingPenaltyType -> Z -> bool.
Variable TopKTopP : DecodingMode.
Variable BeamSearch : DecodingMode.
Variable getLocalDecoderDomain : DecodingInputs -> DecoderDomain -> Error + DecoderDomain.
Variable invokeBatchApplyPenalty :
  InvokeBatchApplyPenaltyParams -> Store -> list Z * list Z.
Variable allOfBatchSlots : list Z -> list Z -> Z -> Z -> bool.
Variable getDefaultBatchSlots : Z -> M ITensor.
Variable FillBuffers :
  Z -> Z -> option (list Z) -> Z -> ITensor -> option ITensor -> ITensor -> (Z -> bool) ->
  string -> M unit.

Lemma stepEq_refl : Reflexive stepEq.
Proof. by intros l. Qed.

Lemma stepEq_trans : Transitive stepEq.
Proof. intros a b c (H1 & H2 & H3) (H4 & H5 & H6). unfold stepEq. by rewrite H4, H5, H6. Qed.

Lemma configEq_refl : Reflexive configEq.
Proof. by intros l. Qed.

Lemma configEq_trans : Transitive configEq.
Proof. intros a b c (H1 & H2) (H3 & H4). unfold configEq. by rewrite H3, H4. Qed.

#[local] Existing Instances stepEq_refl stepEq_trans configEq_refl configEq_trans.

Lemma rem_nonneg a b : 0 <= a -> 0 <= Z.rem a b.
Proof.
  intros Ha. destruct (decide (b = 0)) as [->|Hb].
  - by rewrite Z.rem_0_r_ext.
  - by apply Z.rem_nonneg.
Qed.

Lemma forwardAsync_tableInStep outputs params l w r l' w' :
  forwardAsync defaultValue getLocalDecoderDomain invokeBatchApplyPenalty allOfBatchSlots
    getDefaultBatchSlots outputs params (l, w)
  = (r, (l', w')) ->
  tableInStep l -> tableInStep l'.
Proof.
  intros H [Hlen Hcyc].
  destruct l as [mode dom cbw cyc rms tbl t rp pr f ml td rd prd fd mld rl ws wsp ut ur up uf um].
  cbn in Hlen, Hcyc.
  forwardAsync_cases H getLocalDecoderDomain invokeBatchApplyPenalty getDefaultBatchSlots.
  all: injection H as <- <- <-; unfold tableInStep; cbn.
  all: rewrite ?length_insert, ?length_replicate.
  all: pose proof (rem_nonneg cyc rms Hcyc).
  all: pose proof (rem_nonneg cyc (List.last (getShape (outputIds outputs)) 0) Hcyc).
  all: split; try done; try lia.
Qed.

Lemma forwardAsync_step outputs params l w r l' w' :
  forwardAsync defaultValue getLocalDecoderDomain invokeBatchApplyPenalty allOfBatchSlots
    getDefaultBatchSlots outputs params (l, w)
  = (inr r, (l', w')) ->
  tableInStep l ->
  mCyclicStep l' = Z.rem (mCyclicStep l) (mRuntimeMaxSeqLen l') + 1
  /\ 1 <= mCyclicStep l' <= mRuntimeMaxSeqLen l'.
Proof.
  intros H [Hlen Hcyc].
  destruct l as [mode dom cbw cyc rms tbl t rp pr f ml td rd prd fd mld rl ws wsp ut ur up uf um].
  cbn in Hlen, Hcyc.
  forwardAsync_cases H getLocalDecoderDomain invokeBatchApplyPenalty getDefaultBatchSlots.
  all: try discriminate.
  all: injection H as <- <- <-; cbn.
  all: pose proof (rem_nonneg cyc rms Hcyc).
  all: pose proof (rem_nonneg cyc (List.last (getShape (outputIds outputs)) 0) Hcyc).
  all: match goal with
       | Hl : _ !! _ = Some _ |- _ =>
           apply lookup_lt_Some in Hl; rewrite ?length_replicate in Hl
       end.
  all: split; [reflexivity|lia].
Qed.

Lemma length_logitsPtrsRow params batchSize row0 row :
  logitsPtrsRow params batchSize row0 = inr row -> length row = length row0.
Proof.
  unfold logitsPtrsRow, forRange.
  generalize 0 at 1. generalize (Z.to_nat batchSize). intros count.
  revert row0. induction count as [|c IH]; intros row0 i; cbn [forFrom].
  - cbn. by intros [= <-].
  - unfold bind at 1.
    destruct (bind (liftE (logitsPtrOf params batchSize i)) _ tt) as [[e|row1] []] eqn:E;
      [cbn; discriminate|].
    intros H. apply IH in H. rewrite H.
    unfold bind in E. destruct (logitsPtrOf params batchSize i) as [e|ptr]; [discriminate|].
    cbn in E. case_bool_decide; [|discriminate]. injection E as <-.
    by rewrite length_insert.
Qed.

Lemma concat_insert_row {A} (tbl : list (list A)) i row0 row :
  tbl !! i = Some row0 -> length row = length row0 ->
  concat (<[i := row]> tbl) = [] -> concat tbl = [].
Proof.
  intros Hi Hlen. rewrite !concat_nil_Forall, !Forall_lookup. intros H j x Hj.
  destruct (decide (j = i)) as [->|Hne].
  - rewrite Hi in Hj. injection Hj as <-.
    assert (row = []) as ->.
    { apply (H i). apply list_lookup_insert_eq. by apply lookup_lt_Some in Hi. }
    symmetry in Hlen. by apply nil_length_inv in Hlen.
  - apply (H j). by rewrite list_lookup_insert_ne.
Qed.

(** X10. A [forwardAsync] that returns has issued, in this order: the
    allocation of the rolling table of logits pointers if it found the table
    without data; what [getDefaultBatchSlots] issues, if the caller gave no
    batch slots; the penalty kernel; and the check for CUDA errors. With batch
    slots of the caller these are all its runtime calls. The table takes its
    period from the last dimension of the output ids of the step that
    allocates it; a step that finds it with data allocates no table and
    leaves the period as it is, whatever the output ids of the step say. With
    a decoder domain of at least one slot, the table has data from the first
    such step on. *)
Theorem forwardAsync_allocates_table_once outputs params l w r l' w' :
  forwardAsync defaultValue getLocalDecoderDomain invokeBatchApplyPenalty allOfBatchSlots
    getDefaultBatchSlots outputs params (l, w)
  = (inr r, (l', w')) ->
  (exists localDecoderDomain slots w1,
      getLocalDecoderDomain params (mDecoderDomain l) = inr localDecoderDomain
      /\ batchSlotsOrDefault getDefaultBatchSlots (batchSlots params)
           (getBatchSize localDecoderDomain)
           (mkWorld (wStore w) (wTrace w ++ tableEvents outputs l)) = (inr slots, w1)
      /\ wTrace w' = wTrace w1 ++ [EvKernel "invokeBatchApplyPenalty"; EvSyncCheck])
  /\ (is_Some (batchSlots params) -> wTrace w' = wTrace w ++ forwardAsyncEvents outputs l)
  /\ (~ tableUnallocated l ->
      ~ tableUnallocated l' /\ mRuntimeMaxSeqLen l' = mRuntimeMaxSeqLen l)
  /\ (tableUnallocated l ->
      mRuntimeMaxSeqLen l' = List.last (getShape (outputIds outputs)) 0
      /\ (0 < getBatchSize (mDecoderDomain l) -> ~ tableUnallocated l')).
Proof.
  intros H.
  assert (exists localDecoderDomain slots w1,
             getLocalDecoderDomain params (mDecoderDomain l) = inr localDecoderDomain
             /\ batchSlotsOrDefault getDefaultBatchSlots (batchSlots params)
                  (getBatchSize localDecoderDomain)
                  (mkWorld (wStore w) (wTrace w ++ tableEvents outputs l)) = (inr slots, w1)
             /\ wTrace w' = wTrace w1 ++ [EvKernel "invokeBatchApplyPenalty"; EvSyncCheck])
    as Hevents.
  { apply forwardAsync_inr in H as (dom & slots & w1 & kp & Hdom & Hslots & _ & Htr & _).
    by exists dom, slots, w1. }
  split; [exact Hevents|]. split.
  { intros [t Ht]. destruct Hevents as (dom & slots & w1 & _ & Hslots & ->).
    unfold batchSlotsOrDefault in Hslots. rewrite Ht in Hslots. injection Hslots as _ <-.
    unfold forwardAsyncEvents. cbn [wTrace]. by rewrite <- app_assoc. }
  clear Hevents. unfold tableUnallocated.
  destruct l as [mode dom cbw cyc rms tbl t rp pr f ml td rd prd fd mld rl ws wsp ut ur up uf um].
  forwardAsync_cases H getLocalDecoderDomain invokeBatchApplyPenalty getDefaultBatchSlots.
  all: try discriminate.
  all: injection H as <- <- <-; cbn [wTrace snd fst mLogitsPtrsHost mRuntimeMaxSeqLen
                                     mDecoderDomain].
  all: repeat match goal with
              | Hr : logitsPtrsRow _ _ _ = inr _ |- _ => apply length_logitsPtrsRow in Hr
              | Hc : concat ?t = _ |- _ => rewrite Hc
              end.
  all: split; [intros Hn|intros Hn]; try done; cbn.
  all: try (split; [intros Hc|reflexivity]).
  all: try (split; [reflexivity|intros Hb Hc]).
  all: match goal with
       | Hl : _ !! _ = Some ?row0, Hr : length _ = length ?row0 |- _ =>
           apply (concat_insert_row _ _ _ _ Hl Hr) in Hc
       end.
  all: try congruence.
  all: match goal with
       | Hl : replicate _ _ !! _ = Some _ |- _ => apply lookup_replicate in Hl as [-> Hi]
       end.
  all: rewrite concat_nil_Forall, Forall_lookup in Hc.
  all: specialize (Hc _ _ (lookup_replicate_2 _ _ _ Hi)).
  all: apply (f_equal length) in Hc; rewrite length_replicate in Hc; cbn in Hc; lia.
Qed.

(** Host code of the layer that keeps a relation, step by step. *)
Ltac keeps_steps :=
  repeat first
    [ solve [auto]
    | apply keeps_ret; apply _ | apply keeps_throw; apply _ | apply keeps_check; apply _
    | apply keeps_liftE; apply _ | apply keeps_getLayer; apply _
    | apply keeps_inWorld; apply _
    | apply keeps_bind; [apply _| |intros ?]
    | match goal with
      | |- keeps _ (match ?x with _ => _ end) => destruct x
      | |- keeps _ (if ?x then _ else _) => destruct x
      | |- keeps _ (let '(_, _) := ?x in _) => destruct x
      end ].

Lemma allocateWorkspace_stepEq : keeps stepEq allocateWorkspace.
Proof.
  unfold allocateWorkspace.
  keeps_steps; apply keeps_modifyLayer; by intros [].
Qed.

Lemma allocateWorkspace_configEq : keeps configEq allocateWorkspace.
Proof.
  unfold allocateWorkspace.
  keeps_steps; apply keeps_modifyLayer; by intros [].
Qed.

Lemma setup_stepEq batchSize beamWidth batchSlots setupParams :
  keeps stepEq (setup defaultValue withinLimits TopKTopP BeamSearch getDefaultBatchSlots
                  FillBuffers batchSize beamWidth batchSlots setupParams).
Proof.
  unfold setup, resolveConfiguredBeamWidth, enablePenalties, fillPenalties.
  pose proof allocateWorkspace_stepEq.
  keeps_steps; apply keeps_modifyLayer; by intros [].
Qed.

Lemma tableInStep_stepEq l l' : stepEq l l' -> tableInStep l -> tableInStep l'.
Proof. intros (H1 & H2 & H3). unfold tableInStep. by rewrite H1, H2, H3. Qed.

Lemma call_tableInStep c lw :
  tableInStep (fst lw) ->
  tableInStep (fst (call defaultValue withinLimits TopKTopP BeamSearch getLocalDecoderDomain
                      invokeBatchApplyPenalty allOfBatchSlots getDefaultBatchSlots
                      FillBuffers c lw)).
Proof.
  destruct c as [batchSize beamWidth batchSlots setupParams|outputs params]; cbn [call].
  - destruct (setup _ _ _ _ _ _ batchSize beamWidth batchSlots setupParams lw)
      as [r lw'] eqn:E.
    apply tableInStep_stepEq. exact (setup_stepEq _ _ _ _ _ _ _ E).
  - destruct lw as [l w].
    destruct (forwardAsync _ _ _ _ _ outputs params (l, w)) as [r [l' w']] eqn:E.
    exact (forwardAsync_tableInStep _ _ _ _ _ _ _ E).
Qed.

Lemma calls_tableInStep cs : forall lw,
  tableInStep (fst lw) ->
  tableInStep (fst (calls defaultValue withinLimits TopKTopP BeamSearch getLocalDecoderDomain
                      invokeBatchApplyPenalty allOfBatchSlots getDefaultBatchSlots
                      FillBuffers cs lw)).
Proof.
  induction cs as [|c cs IH]; intros lw H; [exact H|].
  cbn [calls foldl]. apply IH. by apply call_tableInStep.
Qed.

Lemma construct_tableInStep T mode domain w0 l0 w :
  construct T mode domain w0 = (inr l0, w) -> tableInStep l0.
Proof.
  unfold construct. intros H.
  repeat (apply bind_inr in H as (? & ? & _ & H)).
  destruct (isAuto mode).
  - injection H as <- <-. split; [reflexivity|done].
  - destruct (allocateWorkspace _) as [[e|u] [l' w']] eqn:E; [discriminate|].
    injection H as <- <-.
    apply allocateWorkspace_stepEq in E. cbn [fst] in E.
    apply (tableInStep_stepEq _ _ E). split; [reflexivity|done].
Qed.

(** X11. In every history of [setup] and [forwardAsync] calls on a
    constructed layer, whatever failed on the way, a [forwardAsync] that
    returns leaves the cyclic step at one more than the remainder of the
    previous step by the period of the rolling table, hence between 1 and
    the period: the row of the table a step works on always exists. *)
Theorem cyclic_step_stays_in_table T mode domain w0 l0 w cs outputs params r l' w' :
  construct T mode domain w0 = (inr l0, w) ->
  let lw := calls defaultValue withinLimits TopKTopP BeamSearch getLocalDecoderDomain
              invokeBatchApplyPenalty allOfBatchSlots getDefaultBatchSlots FillBuffers
              cs (l0, w) in
  forwardAsync defaultValue getLocalDecoderDomain invokeBatchApplyPenalty allOfBatchSlots
    getDefaultBatchSlots outputs params lw
  = (inr r, (l', w')) ->
  mCyclicStep l' = Z.rem (mCyclicStep (fst lw)) (mRuntimeMaxSeqLen l') + 1
  /\ 1 <= mCyclicStep l' <= mRuntimeMaxSeqLen l'.
Proof.
  intros Hc lw H.
  pose proof (calls_tableInStep cs (l0, w) (construct_tableInStep _ _ _ _ _ _ Hc)) as Ht.
  fold lw in Ht. destruct lw as [l1 w1].
  exact (forwardAsync_step _ _ _ _ _ _ _ H Ht).
Qed.

(** ** PenaltyLayer: the configuration *)

Lemma forwardAsync_configEq outputs params :
  keeps configEq (forwardAsync defaultValue getLocalDecoderDomain invokeBatchApplyPenalty
                    allOfBatchSlots getDefaultBatchSlots outputs params).
Proof.
  unfold forwardAsync.
  keeps_steps; apply keeps_modifyLayer; by intros [].
Qed.

Lemma resolveConfiguredBeamWidth_configured beamWidth lw :
  mConfiguredBeamWidth (fst lw) <> -1 ->
  resolveConfiguredBeamWidth TopKTopP BeamSearch beamWidth lw = (inr tt, lw).
Proof.
  intros H. unfold resolveConfiguredBeamWidth, bind, getLayer. cbn.
  by rewrite bool_decide_eq_false_2.
Qed.

Lemma setup_configEq batchSize beamWidth batchSlots setupParams lw r lw' :
  mConfiguredBeamWidth (fst lw) <> -1 ->
  setup defaultValue withinLimits TopKTopP BeamSearch getDefaultBatchSlots FillBuffers
    batchSize beamWidth batchSlots setupParams lw = (r, lw') ->
  configEq (fst lw) (fst lw').
Proof.
  intros Hc. unfold setup.
  rewrite (bind_ok _ _ _ _ _ (resolveConfiguredBeamWidth_configured beamWidth lw Hc)).
  revert lw' r lw Hc.
  assert (keeps configEq
            (do defaultBatchSlots <-
                inWorld (batchSlotsOrDefault getDefaultBatchSlots batchSlots batchSize);
             do penaltyParams <- match penaltyParams setupParams with
                                 | Some p => ret p
                                 | None => throw (CheckFailed "penaltyParams for setup is not set")
                                 end;
             run enablePenalties penaltyParams;
             fillPenalties defaultValue withinLimits FillBuffers batchSize penaltyParams
               defaultBatchSlots)) as Hk.
  { unfold enablePenalties, fillPenalties.
    keeps_steps; apply keeps_modifyLayer; by intros []. }
  intros lw' r lw _ H. exact (Hk _ _ _ H).
Qed.

(** X12. Once the beam width of the layer is configured, by the
    constructor for a decoding mode other than [Auto] or by the first
    [setup], it and the decoding mode stay for every history of [setup] and
    [forwardAsync] calls: the beam width of a later [setup] is not looked
    at. *)
Theorem configured_beam_width_is_fixed cs : forall lw,
  mConfiguredBeamWidth (fst lw) <> -1 ->
  let lw' := calls defaultValue withinLimits TopKTopP BeamSearch getLocalDecoderDomain
               invokeBatchApplyPenalty allOfBatchSlots getDefaultBatchSlots FillBuffers
               cs lw in
  mConfiguredBeamWidth (fst lw') = mConfiguredBeamWidth (fst lw)
  /\ mDecodingMode (fst lw') = mDecodingMode (fst lw).
Proof.
  induction cs as [|c cs IH]; intros lw Hc; [done|].
  cbn [calls foldl].
  assert (configEq (fst lw)
            (fst (call defaultValue withinLimits TopKTopP BeamSearch getLocalDecoderDomain
                    invokeBatchApplyPenalty allOfBatchSlots getDefaultBatchSlots
                    FillBuffers c lw))) as [H1 H2].
  { destruct c as [batchSize beamWidth batchSlots setupParams|outputs params]; cbn [call].
    - destruct (setup _ _ _ _ _ _ batchSize beamWidth batchSlots setupParams lw)
        as [r lw'] eqn:E.
      exact (setup_configEq _ _ _ _ _ _ _ Hc E).
    - destruct (forwardAsync _ _ _ _ _ outputs params lw) as [r lw'] eqn:E.
      exact (forwardAsync_configEq _ _ _ _ _ E). }
  specialize (IH _ ltac:(by rewrite H1)). cbv zeta in IH. destruct IH as [IH1 IH2].
  unfold calls in IH1, IH2. by rewrite IH1, IH2.
Qed.

(** X13. A [setup] without penalty parameters fails. On a layer whose
    beam width is configured it fails on the check of the parameters, before
    anything is filled, and leaves the layer as it was; the world is as it
    was when the caller gave the batch slots, and else as
    [getDefaultBatchSlots], which is called before the check, left it. *)
Theorem setup_requires_penalty_params batchSize beamWidth batchSlots setupParams l w :
  penaltyParams setupParams = None ->
  let result := setup defaultValue withinLimits TopKTopP BeamSearch getDefaultBatchSlots
                  FillBuffers batchSize beamWidth batchSlots setupParams (l, w) in
  (exists e, fst result = inl e)
  /\ (mConfiguredBeamWidth l <> -1 ->
      (is_Some batchSlots ->
       result = (inl (CheckFailed "penaltyParams for setup is not set"), (l, w)))
      /\ (forall slots w1,
            batchSlots = None -> getDefaultBatchSlots batchSize w = (inr slots, w1) ->
            result = (inl (CheckFailed "penaltyParams for setup is not set"), (l, w1)))).
Proof.
  intros Hp. cbv zeta. unfold setup. rewrite Hp. split.
  - unfold bind at 1.
    destruct (resolveConfiguredBeamWidth _ _ _ _) as [[e|u] [l1 w1]]; cbn; [by eauto|].
    unfold bind. destruct (inWorld _ _) as [[e|slots] lw2]; cbn; eauto.
  - intros Hc.
    rewrite (bind_ok _ _ _ _ _ (resolveConfiguredBeamWidth_configured beamWidth (l, w) Hc)).
    split.
    + intros [t ->]. reflexivity.
    + intros slots w1 -> Hslots. unfold bind, inWorld, batchSlotsOrDefault. cbn.
      by rewrite Hslots.
Qed.

(** ** PenaltyLayer: the device arrays of the classes in use *)

Lemma settled_refl : Reflexive settled.
Proof. intros l. split_and!; [done|done|auto]. Qed.

Lemma settled_trans : Transitive settled.
Proof.
  intros a b c ([H1 H2] & H3 & H4) ([H5 H6] & H7 & H8). split_and!.
  - unfold configEq. by rewrite H5, H6.
  - intros x. by rewrite H7.
  - intros x Hx. destruct (H8 x Hx) as [Hb|Hb]; [by apply H4|]. right. by rewrite <- H2.
Qed.

#[local] Existing Instances settled_refl settled_trans.

Lemma equipped_settled l l' : settled l l' -> equipped l -> equipped l'.
Proof.
  intros ([H1 H2] & H3 & H4) He c. destruct (He c) as [Hu Hd].
  rewrite H2, H3. split; [|done].
  intros Hx. destruct (H4 c Hx); auto.
Qed.

Lemma allocateWorkspace_settled : keeps settled allocateWorkspace.
Proof.
  unfold allocateWorkspace.
  keeps_steps; apply keeps_modifyLayer; intros []; split_and!; try done; auto.
Qed.

Lemma forwardAsync_settled outputs params :
  keeps settled (forwardAsync defaultValue getLocalDecoderDomain invokeBatchApplyPenalty
                   allOfBatchSlots getDefaultBatchSlots outputs params).
Proof.
  unfold forwardAsync.
  keeps_steps; apply keeps_modifyLayer; intros []; split_and!; try done; auto.
Qed.

Lemma setup_settled batchSize beamWidth batchSlots setupParams lw r lw' :
  mConfiguredBeamWidth (fst lw) <> -1 ->
  setup defaultValue withinLimits TopKTopP BeamSearch getDefaultBatchSlots FillBuffers
    batchSize beamWidth batchSlots setupParams lw = (r, lw') ->
  settled (fst lw) (fst lw').
Proof.
  intros Hc. unfold setup.
  rewrite (bind_ok _ _ _ _ _ (resolveConfiguredBeamWidth_configured beamWidth lw Hc)).
  revert lw' r lw Hc.
  assert (keeps settled
            (do defaultBatchSlots <-
                inWorld (batchSlotsOrDefault getDefaultBatchSlots batchSlots batchSize);
             do penaltyParams <- match penaltyParams setupParams with
                                 | Some p => ret p
                                 | None => throw (CheckFailed "penaltyParams for setup is not set")
                                 end;
             run enablePenalties penaltyParams;
             fillPenalties defaultValue withinLimits FillBuffers batchSize penaltyParams
               defaultBatchSlots)) as Hk.
  { unfold enablePenalties, fillPenalties.
    keeps_steps; apply keeps_modifyLayer; intros []; split_and!; try done.
    intros []; cbn; intros Hx; apply orb_true_iff in Hx as [Hx|Hx]; auto;
      apply andb_true_iff in Hx as [Hx _]; auto. }
  intros lw' r lw _ H. exact (Hk _ _ _ H).
Qed.

Lemma gpuIf_inr b shape ty w o w' : gpuIf b shape ty w = (inr o, w') -> is_Some o <-> b = true.
Proof.
  unfold gpuIf. destruct b.
  - intros H. apply bind_inr in H as (t & w1 & _ & H). injection H as <- <-.
    split; [done|by eexists].
  - intros [= <- <-]. split; [by intros [? ?]|done].
Qed.

Lemma construct_equipped T mode domain w0 l0 w :
  construct T mode domain w0 = (inr l0, w) ->
  isAuto mode = false ->
  equipped l0 /\ mConfiguredBeamWidth l0 = getBeamWidth domain.
Proof.
  unfold construct. intros H Hauto. rewrite Hauto in H.
  do 6 (apply bind_inr in H as (? & ? & _ & H)).
  apply bind_inr in H as (td & ? & Htd%gpuIf_inr & H).
  apply bind_inr in H as (rd & ? & Hrd%gpuIf_inr & H).
  apply bind_inr in H as (prd & ? & Hprd%gpuIf_inr & H).
  apply bind_inr in H as (fd & ? & Hfd%gpuIf_inr & H).
  apply bind_inr in H as (mld & ? & Hmld%gpuIf_inr & H).
  apply bind_inr in H as (rl & ? & _ & H).
  destruct (allocateWorkspace _) as [[e|u] [l' w']] eqn:E; [discriminate|].
  injection H as <- <-.
  apply allocateWorkspace_settled in E. cbn [fst] in E.
  split.
  - apply (equipped_settled _ _ E). intros c. split; [by destruct c|].
    destruct c; cbn; intros Hm; [apply Htd|apply Hrd|apply Hprd|apply Hfd|apply Hmld];
      exact Hm.
  - by destruct E as ([-> _] & _).
Qed.

Lemma call_settled c lw :
  mConfiguredBeamWidth (fst lw) <> -1 ->
  settled (fst lw)
    (fst (call defaultValue withinLimits TopKTopP BeamSearch getLocalDecoderDomain
            invokeBatchApplyPenalty allOfBatchSlots getDefaultBatchSlots FillBuffers c lw)).
Proof.
  intros Hc.
  destruct c as [batchSize beamWidth batchSlots setupParams|outputs params]; cbn [call].
  - destruct (setup _ _ _ _ _ _ batchSize beamWidth batchSlots setupParams lw)
      as [r lw'] eqn:E.
    exact (setup_settled _ _ _ _ _ _ _ Hc E).
  - destruct (forwardAsync _ _ _ _ _ outputs params lw) as [r lw'] eqn:E.
    exact (forwardAsync_settled _ _ _ _ _ E).
Qed.

Lemma calls_settled cs : forall lw,
  mConfiguredBeamWidth (fst lw) <> -1 ->
  settled (fst lw)
    (fst (calls defaultValue withinLimits TopKTopP BeamSearch getLocalDecoderDomain
            invokeBatchApplyPenalty allOfBatchSlots getDefaultBatchSlots FillBuffers cs lw)).
Proof.
  induction cs as [|c cs IH]; intros lw Hc; [reflexivity|].
  cbn [calls foldl]. pose proof (call_settled c lw Hc) as Hs.
  etransitivity; [exact Hs|]. apply IH.
  destruct Hs as ([-> _] & _). exact Hc.
Qed.

(** X21. On a layer constructed for a decoding mode other than [Auto],
    with a beam width other than the sentinel -1, a penalty class in use has
    its device array, in every history of [setup] and [forwardAsync] calls:
    a flag is only raised for a class of the decoding mode, and the
    constructor has allocated the device arrays of exactly those. *)
Theorem enabled_class_has_device_array T mode domain w0 l0 w cs c :
  construct T mode domain w0 = (inr l0, w) ->
  isAuto mode = false -> getBeamWidth domain <> -1 ->
  let l := fst (calls defaultValue withinLimits TopKTopP BeamSearch getLocalDecoderDomain
                  invokeBatchApplyPenalty allOfBatchSlots getDefaultBatchSlots FillBuffers
                  cs (l0, w)) in
  mUse c l = true -> is_Some (mDevice c l).
Proof.
  intros Hc Hauto Hbw l Hu.
  destruct (construct_equipped _ _ _ _ _ _ Hc Hauto) as [He Hcbw].
  pose proof (calls_settled cs (l0, w) ltac:(cbn; by rewrite Hcbw)) as Hs.
  destruct (equipped_settled _ _ Hs He c) as [H1 H2]. auto.
Qed.

(** ** PenaltyLayer: the logits of a step *)

Lemma logitsPtrsRow_size params batchSize row0 v :
  logitsVec params = Some v -> 0 < batchSize -> Z.of_nat (length v) <> batchSize ->
  logitsPtrsRow params batchSize row0
  = inl (CheckFailed "Logits vector size (%lu) is not equal to the batchSize (%d)").
Proof.
  intros Hv Hb Hne. unfold logitsPtrsRow, forRange.
  destruct (Z.to_nat batchSize) as [|c] eqn:E; [lia|].
  cbn [forFrom]. unfold bind, logitsPtrOf. rewrite Hv.
  by rewrite bool_decide_eq_false_2.
Qed.

(** X14. A [logitsVec] whose size is not the batch size of the step, a
    batch of at least one entry, does not reach the kernel: [forwardAsync]
    fails, launches nothing and leaves device memory as it was. *)
Theorem forwardAsync_checks_logits_vector_size outputs params l w v localDecoderDomain :
  logitsVec params = Some v ->
  getLocalDecoderDomain params (mDecoderDomain l) = inr localDecoderDomain ->
  0 < getBatchSize localDecoderDomain ->
  Z.of_nat (length v) <> getBatchSize localDecoderDomain ->
  let result := forwardAsync defaultValue getLocalDecoderDomain invokeBatchApplyPenalty
                  allOfBatchSlots getDefaultBatchSlots outputs params (l, w) in
  (exists e, fst result = inl e)
  /\ wStore (snd (snd result)) = wStore w
  /\ forall name, EvKernel name ∈ wTrace (snd (snd result)) -> EvKernel name ∈ wTrace w.
Proof.
  intros Hv Hd Hb Hne. cbv zeta.
  destruct (forwardAsync _ _ _ _ _ outputs params (l, w)) as [r [l' w']] eqn:H.
  destruct l as [mode dom cbw cyc rms tbl t rp pr f ml td rd prd fd mld rl ws wsp ut ur up uf um].
  cbn [mDecoderDomain] in Hd.
  forwardAsync_cases H getLocalDecoderDomain invokeBatchApplyPenalty getDefaultBatchSlots.
  all: try match goal with
           | Hr : logitsPtrsRow _ _ _ = inr _ |- _ =>
               rewrite Hd in *; simplify_eq;
               rewrite (logitsPtrsRow_size _ _ _ _ Hv Hb Hne) in Hr; discriminate
           end.
  all: injection H as <- <- <-; cbn.
  all: split_and!; [by eexists|done|intros name Hin]; try done.
  all: apply elem_of_app in Hin as [Hin|Hin]; [done|].
  all: apply list_elem_of_singleton in Hin; discriminate.
Qed.

End PenaltyStep.

Section PenaltyStepRuns.
Import PenaltyLayer.

Lemma plWorld_constructed : plConstruct (mkWorld plStore []) = (inr plLayer, plWorld).
Proof. vm_compute. reflexivity. Qed.

(** On the example, without batch slots of the caller: the first step
    allocates the table of four rows, the stand-in for [getDefaultBatchSlots]
    allocates its tensor, the kernel runs; the period is 4, and the table has
    data afterwards. *)
Lemma forwardAsync_allocates_table_once_witness :
  wTrace (snd (snd (plForwardAsync (plLayer, plWorld))))
  = wTrace plWorld
    ++ [EvPinnedAlloc 4; EvPinnedAlloc 1; EvKernel "invokeBatchApplyPenalty"; EvSyncCheck]
  /\ mRuntimeMaxSeqLen (fst (snd (plForwardAsync (plLayer, plWorld)))) = 4
  /\ ~ tableUnallocated (fst (snd (plForwardAsync (plLayer, plWorld)))).
Proof.
  destruct (forwardAsync_allocates_table_once plDefault plLocalDomain plProbeKernel
              plAllOfBatchSlots plDefaultBatchSlots plOutputs plInputs plLayer plWorld
              (withLogits (mkTensor kFLOAT [1; 1; 1; 5] 16%nat) plInputs)
              (fst (snd (plForwardAsync (plLayer, plWorld))))
              (snd (snd (plForwardAsync (plLayer, plWorld))))
              ltac:(vm_compute; reflexivity)) as (Htrace & _ & _ & Hfirst).
  destruct (Hfirst ltac:(reflexivity)) as [Hperiod Hdata].
  split_and!; [|exact Hperiod|apply Hdata; cbn; lia].
  destruct Htrace as (dom & slots & w1 & Hdom & Hslots & ->).
  vm_compute in Hdom. injection Hdom as <-.
  vm_compute in Hslots. injection Hslots as _ <-. reflexivity.
Defined.

(** On the example, after a [setup] and a step: the second step leaves the
    cyclic step within the period of the table. *)
Lemma cyclic_step_stays_in_table_witness :
  1 <= mCyclicStep (fst (snd (plForwardAsync
                                (plCalls [plSetupCall (Some [3]);
                                          CallForwardAsync plOutputs plInputs]
                                   (plLayer, plWorld)))))
    <= mRuntimeMaxSeqLen (fst (snd (plForwardAsync
                                      (plCalls [plSetupCall (Some [3]);
                                                CallForwardAsync plOutputs plInputs]
                                         (plLayer, plWorld))))).
Proof.
  apply (cyclic_step_stays_in_table plDefault plWithinLimits plTopKTopP plBeamSearch
           plLocalDomain plProbeKernel plAllOfBatchSlots plDefaultBatchSlots plFillBuffers
           kFLOAT plTopKTopP plDomain (mkWorld plStore []) plLayer plWorld
           [plSetupCall (Some [3]); CallForwardAsync plOutputs plInputs] plOutputs plInputs
           (withLogits (mkTensor kFLOAT [1; 1; 1; 5] 16%nat) plInputs)
           (fst (snd (plForwardAsync
                        (plCalls [plSetupCall (Some [3]); CallForwardAsync plOutputs plInputs]
                           (plLayer, plWorld)))))
           (snd (snd (plForwardAsync
                        (plCalls [plSetupCall (Some [3]); CallForwardAsync plOutputs plInputs]
                           (plLayer, plWorld)))))).
  - vm_compute. reflexivity.
  - vm_compute. reflexivity.
Defined.

(** On the example, configured for beam width 1: after a [setup] that asks
    for beam width 4 the layer is still configured for 1, in the mode it
    had. *)
Lemma configured_beam_width_is_fixed_witness :
  let lw' := plCalls [CallSetup 1 4 None
                        (mkSetupParams (Some (mkPenaltyParams (Some [3]) None None None None)))]
               (plLayer, plWorld) in
  mConfiguredBeamWidth (fst lw') = 1 /\ mDecodingMode (fst lw') = plTopKTopP.
Proof.
  apply (configured_beam_width_is_fixed plDefault plWithinLimits plTopKTopP plBeamSearch
           plLocalDomain plProbeKernel plAllOfBatchSlots plDefaultBatchSlots plFillBuffers
           [CallSetup 1 4 None
              (mkSetupParams (Some (mkPenaltyParams (Some [3]) None None None None)))]
           (plLayer, plWorld)).
  cbn. discriminate.
Defined.

(** On the example, without batch slots of the caller: a [setup] without
    penalty parameters fails on the check, the layer is as it was, and the
    world holds the tensor the stand-in for [getDefaultBatchSlots] allocated. *)
Lemma setup_requires_penalty_params_witness :
  (exists e, fst (plSetupWidth 1 None (plLayer, plWorld)) = inl e)
  /\ plSetupWidth 1 None (plLayer, plWorld)
     = (inl (CheckFailed "penaltyParams for setup is not set"),
        (plLayer, snd (plDefaultBatchSlots 1 plWorld))).
Proof.
  destruct (setup_requires_penalty_params plDefault plWithinLimits plTopKTopP plBeamSearch
              plDefaultBatchSlots plFillBuffers 1 1 None (mkSetupParams None)
              plLayer plWorld ltac:(reflexivity)) as [Hfails Hsame].
  split; [exact Hfails|].
  destruct (Hsame ltac:(cbn; discriminate)) as [_ Hdefault].
  apply (Hdefault (mkTensor kINT32 [1] 17%nat) (snd (plDefaultBatchSlots 1 plWorld))).
  - reflexivity.
  - vm_compute. reflexivity.
Defined.

(** On the example with two logits tensors for a batch of one. *)
Lemma forwardAsync_checks_logits_vector_size_witness :
  (exists e, fst (plForwardAsyncVec (plLayer, plWorld)) = inl e)
  /\ wStore (snd (snd (plForwardAsyncVec (plLayer, plWorld)))) = wStore plWorld
  /\ forall name, EvKernel name ∈ wTrace (snd (snd (plForwardAsyncVec (plLayer, plWorld)))) ->
                  EvKernel name ∈ wTrace plWorld.
Proof.
  apply (forwardAsync_checks_logits_vector_size plDefault plLocalDomain plProbeKernel
           plAllOfBatchSlots plDefaultBatchSlots plOutputs plInputsVec plLayer plWorld
           [plLogits; plLogits] (mkDecoderDomain 1 1 5 5 1)).
  - reflexivity.
  - reflexivity.
  - cbn. lia.
  - cbn. lia.
Defined.

(** On the example: the temperature, in use after the [setup], has its
    device array. *)
Lemma enabled_class_has_device_array_witness :
  is_Some (mDevice Temperature (fst (plCalls [plSetupCall (Some [3])] (plLayer, plWorld)))).
Proof.
  apply (enabled_class_has_device_array plDefault plWithinLimits plTopKTopP plBeamSearch
           plLocalDomain plProbeKernel plAllOfBatchSlots plDefaultBatchSlots plFillBuffers
           kFLOAT plTopKTopP plDomain (mkWorld plStore []) plLayer plWorld
           [plSetupCall (Some [3])] Temperature).
  - exact plWorld_constructed.
  - reflexivity.
  - cbn. discriminate.
  - vm_compute. reflexivity.
Defined.

End PenaltyStepRuns.

(** ** PenaltyLayer: the logits pointers of a step *)

Section LogitsPointers.
Import PenaltyLayer.

(** X22. The loop of [forwardAsync] over the batch, when it completes,
    has written for every batch index the address of its logits into the row
    of the rolling table: the start of its tensor of [logitsVec], which has
    one tensor per batch index, or else row [bi] of [logits], whose leading
    dimension is then at least the batch size. The entries of the row beyond
    the batch keep what an earlier step left there. *)
Theorem logitsPtrsRow_addresses_batch params batchSize row0 row :
  logitsPtrsRow params batchSize row0 = inr row ->
  length row = length row0
  /\ (forall bi, 0 <= bi < batchSize ->
        exists ptr, logitsPtrOf params batchSize bi = inr ptr
                    /\ row !! Z.to_nat bi = Some ptr)
  /\ (forall bi t, 0 <= bi < batchSize -> logitsVec params = None ->
        logits params = Some t ->
        bi < d (getShape t) 0
        /\ row !! Z.to_nat bi = Some (Some (mkPtr (data t) (bi * volume (tail (getShape t))))))
  /\ (forall k, batchSize <= Z.of_nat k -> row !! k = row0 !! k).
Proof.
  intros H.
  assert (length row = length row0
          /\ (forall bi, 0 <= bi < batchSize ->
                exists ptr, logitsPtrOf params batchSize bi = inr ptr
                            /\ row !! Z.to_nat bi = Some ptr)
          /\ (forall k, batchSize <= Z.of_nat k -> row !! k = row0 !! k)) as (Hlen & Hin & Hout).
  { unfold logitsPtrsRow, forRange in H.
    destruct (forFrom _ _ _ _ _) as [res []] eqn:E. cbn in H. subst res.
    apply (forFrom_invariant
             (fun j (acc : list (option Ptr)) (_ : unit) =>
                0 <= j
                /\ length acc = length row0
                /\ (forall bi, 0 <= bi < j ->
                      exists ptr, logitsPtrOf params batchSize bi = inr ptr
                                  /\ acc !! Z.to_nat bi = Some ptr)
                /\ (forall k, j <= Z.of_nat k -> acc !! k = row0 !! k))) in E.
    - destruct E as (_ & Hlen & Hin & Hout). split_and!; [done| |].
      + intros bi Hbi. apply Hin. lia.
      + intros k Hk. apply Hout. lia.
    - intros j acc [] a [] (Hj & Hlen & Hin & Hout) Hbody.
      apply bind_inr in Hbody as (ptr & [] & Hptr & Hbody).
      destruct (logitsPtrOf params batchSize j) as [e|ptr'] eqn:Eptr; [discriminate|].
      injection Hptr as <-.
      case_bool_decide as Hlt; [|discriminate]. injection Hbody as <-.
      split_and!; [lia|by rewrite length_insert| |].
      + intros bi Hbi. destruct (decide (bi = j)) as [->|Hne].
        * exists ptr'. split; [done|]. by rewrite list_lookup_insert_eq.
        * destruct (Hin bi ltac:(lia)) as (p & Hp & Hrow). exists p. split; [done|].
          rewrite list_lookup_insert_ne by lia. done.
      + intros k Hk. rewrite list_lookup_insert_ne by lia. apply Hout. lia.
    - split_and!; [lia|done|intros; lia|done]. }
  split_and!; [done|done| |done].
  intros bi t Hbi Hvec Hlog. destruct (Hin bi Hbi) as (ptr & Hptr & Hrow).
  unfold logitsPtrOf in Hptr. rewrite Hvec, Hlog in Hptr. unfold sliceRow in Hptr.
  case_bool_decide as Hd; [|discriminate]. injection Hptr as <-.
  split; [lia|done].
Qed.

End LogitsPointers.

Section LogitsPointersRuns.
Import PenaltyLayer.

(** On the example, a batch of one with [logits] of five words: the
    pointer of batch index 0 is the start of the logits. *)
Lemma logitsPtrsRow_addresses_batch_witness :
  length [Some (mkPtr 0%nat 0)] = length [@None Ptr]
  /\ [Some (mkPtr 0%nat 0)] !! Z.to_nat 0 = Some (Some (mkPtr 0%nat (0 * 5))).
Proof.
  destruct (logitsPtrsRow_addresses_batch plInputs 1 [None] [Some (mkPtr 0%nat 0)]
              ltac:(vm_compute; reflexivity)) as (Hlen & _ & Hrow & _).
  split; [exact Hlen|].
  apply (Hrow 0 plLogits); [lia|reflexivity|reflexivity].
Defined.

End LogitsPointersRuns.

(** ** The hash of token vectors *)

Section TokenHashing.
Import TokenHash.

Lemma lxor_cancel_l a b c : Z.lxor a b = Z.lxor a c -> b = c.
Proof.
  intros H. apply (f_equal (Z.lxor a)) in H.
  by rewrite <- !Z.lxor_assoc, Z.lxor_nilpotent, !Z.lxor_0_l in H.
Qed.

Lemma lxor_below a b n : 0 <= n -> 0 <= a < 2 ^ n -> 0 <= b < 2 ^ n -> 0 <= Z.lxor a b < 2 ^ n.
Proof.
  intros Hn Ha Hb.
  assert (0 <= Z.lxor a b) as H0 by (apply Z.lxor_nonneg; lia).
  split; [done|].
  destruct (decide (Z.lxor a b = 0)) as [->|Hne]; [lia|].
  assert (0 < n).
  { destruct (decide (n = 0)) as [->|]; [|lia].
    assert (a = 0) as -> by lia. assert (b = 0) as -> by lia. done. }
  apply Z.log2_lt_pow2; [lia|].
  eapply Z.le_lt_trans; [apply Z.log2_lxor; lia|].
  apply Z.max_lub_lt.
  - destruct (decide (a = 0)) as [->|]; [cbn; lia|]. apply Z.log2_lt_pow2; lia.
  - destruct (decide (b = 0)) as [->|]; [cbn; lia|]. apply Z.log2_lt_pow2; lia.
Qed.

Lemma shiftr_below a : 0 <= a < 2 ^ 32 -> 0 <= Z.shiftr a 16 < 2 ^ 32.
Proof.
  intros Ha. rewrite Z.shiftr_div_pow2 by lia. split.
  - apply Z.div_pos; lia.
  - apply Z.div_lt_upper_bound; lia.
Qed.

Lemma xorshift_below a : 0 <= a < 2 ^ 32 -> 0 <= Z.lxor (Z.shiftr a 16) a < 2 ^ 32.
Proof. intros Ha. apply lxor_below; [lia|by apply shiftr_below|done]. Qed.

(** The xor-shift by 16 is its own inverse on 32 bits. *)
Lemma xorshift_involutive a :
  0 <= a < 2 ^ 32 ->
  Z.lxor (Z.shiftr (Z.lxor (Z.shiftr a 16) a) 16) (Z.lxor (Z.shiftr a 16) a) = a.
Proof.
  intros Ha. rewrite Z.shiftr_lxor, Z.shiftr_shiftr by lia.
  replace (Z.shiftr a (16 + 16)) with 0.
  2: { rewrite Z.shiftr_div_pow2 by lia. symmetry. apply Z.div_small. lia. }
  by rewrite Z.lxor_0_l, <- Z.lxor_assoc, Z.lxor_nilpotent, Z.lxor_0_l.
Qed.

Lemma xorshift_inj a b :
  0 <= a < 2 ^ 32 -> 0 <= b < 2 ^ 32 ->
  Z.lxor (Z.shiftr a 16) a = Z.lxor (Z.shiftr b 16) b -> a = b.
Proof.
  intros Ha Hb H. rewrite <- (xorshift_involutive a Ha), <- (xorshift_involutive b Hb).
  by rewrite H.
Qed.

(** The multiplier is odd, hence a unit of the 32-bit integers. *)
Lemma multiplier_inj a b :
  0 <= a < 2 ^ 32 -> 0 <= b < 2 ^ 32 ->
  to_uint32 (a * 0x45d9f3b) = to_uint32 (b * 0x45d9f3b) -> a = b.
Proof.
  unfold to_uint32. intros Ha Hb H.
  apply (f_equal (fun z => (z * 0x119de1f3) `mod` 2 ^ 32)) in H.
  rewrite !Z.mul_mod_idemp_l, <- !Z.mul_assoc in H by lia.
  rewrite <- (Z.mul_mod_idemp_r a), <- (Z.mul_mod_idemp_r b) in H by lia.
  change ((0x45d9f3b * 0x119de1f3) `mod` 2 ^ 32) with 1 in H.
  rewrite !Z.mul_1_r, !Z.mod_small in H by lia. done.
Qed.

Lemma mixRound_below y : 0 <= mixRound y < 2 ^ 32.
Proof. unfold mixRound, to_uint32. apply Z.mod_pos_bound. lia. Qed.

Lemma mixRound_inj a b :
  0 <= a < 2 ^ 32 -> 0 <= b < 2 ^ 32 -> mixRound a = mixRound b -> a = b.
Proof.
  unfold mixRound. intros Ha Hb H.
  apply multiplier_inj in H; [|by apply xorshift_below..].
  by apply xorshift_inj.
Qed.

Lemma scramble_below x : 0 <= scramble x < 2 ^ 32.
Proof. unfold scramble. apply xorshift_below, mixRound_below. Qed.

Lemma scramble_inj x x' : isInt32 x -> isInt32 x' -> scramble x = scramble x' -> x = x'.
Proof.
  unfold scramble, isInt32. intros Hx Hx' H.
  apply xorshift_inj in H; [|apply mixRound_below..].
  apply mixRound_inj in H; [|apply mixRound_below..].
  assert (0 <= to_uint32 x < 2 ^ 32) by (apply Z.mod_pos_bound; lia).
  assert (0 <= to_uint32 x' < 2 ^ 32) by (apply Z.mod_pos_bound; lia).
  apply mixRound_inj in H; [|done..].
  unfold to_uint32 in H. revert H. Z.div_mod_to_equations. lia.
Qed.

Lemma combine_inj seed y y' :
  0 <= y < 2 ^ 32 -> 0 <= y' < 2 ^ 32 -> combine seed y = combine seed y' -> y = y'.
Proof.
  unfold combine, to_size_t, to_uint32. intros Hy Hy' H.
  apply lxor_cancel_l in H. revert H.
  generalize (Z.shiftl seed 6) (Z.shiftr seed 2). intros u v.
  Z.div_mod_to_equations. lia.
Qed.

Lemma hash_snoc prefix x :
  hash (prefix ++ [x])
  = combine (foldl (fun seed x => combine seed (scramble x))
               (Z.of_nat (length prefix + 1)) prefix)
            (scramble x).
Proof. unfold hash. by rewrite foldl_app, length_app. Qed.

(** X15. The hash of a token vector tells the last token: two vectors of
    [int32] tokens that differ in their last token only never collide. *)
Theorem hash_distinguishes_last_token prefix x x' :
  isInt32 x -> isInt32 x' -> x <> x' ->
  hash (prefix ++ [x]) <> hash (prefix ++ [x']).
Proof.
  intros Hx Hx' Hne H. apply Hne. rewrite !hash_snoc in H.
  apply combine_inj in H; [|apply scramble_below..].
  by apply scramble_inj.
Qed.

End TokenHashing.

(** ** [GenerationRequest] *)

Section Requests.
Import KvCache.

Lemma applyRequestOp_shape o r r' :
  applyRequestOp o r = inr r' ->
  length (mCacheBlockIds r') = length (mCacheBlockIds r)
  /\ mBeamWidth r' = mBeamWidth r /\ mSeqSlotIdx r' = mSeqSlotIdx r.
Proof.
  destruct o; cbn; unfold removeTokens, addCacheBlock, changeCacheBlock, removeLastBlock;
    intros H;
    repeat (case_bool_decide; [|discriminate]);
    repeat case_match; simplify_eq; cbn;
    rewrite ?length_insert, ?length_fmap, ?length_map; done.
Qed.

(** X16. The block table of a request has one row per beam, whatever is
    done to the request: after any sequence of its mutators that does not
    throw, on a request its constructor has built, the table has [beamWidth]
    rows, and the beam width and the sequence slot are those the request was
    created with. *)
Theorem request_keeps_one_row_per_beam seqSlotIdx numTokens beamWidth os r0 r :
  newRequest seqSlotIdx numTokens beamWidth = inr r0 ->
  applyRequestOps os r0 = inr r ->
  Z.of_nat (length (mCacheBlockIds r)) = beamWidth
  /\ mBeamWidth r = beamWidth /\ mSeqSlotIdx r = seqSlotIdx.
Proof.
  intros Hnew.
  assert (forall r1,
            applyRequestOps os r1 = inr r ->
            length (mCacheBlockIds r) = length (mCacheBlockIds r1)
            /\ mBeamWidth r = mBeamWidth r1 /\ mSeqSlotIdx r = mSeqSlotIdx r1) as Hall.
  { induction os as [|o os IH]; intros r1; cbn.
    - by intros [= <-].
    - destruct (applyRequestOp o r1) as [e|r2] eqn:E; [discriminate|].
      intros H. apply IH in H as (H1 & H2 & H3).
      apply applyRequestOp_shape in E as (E1 & E2 & E3).
      by rewrite H1, H2, H3. }
  intros H. apply Hall in H as (H1 & H2 & H3).
  unfold newRequest in Hnew. case_bool_decide as Hb; [|discriminate]. injection Hnew as <-.
  rewrite H1, H2, H3. cbn. rewrite length_replicate. split_and!; [lia|done|done].
Qed.

(** The table after the first [j] beams got their block. *)
Lemma addBlockPerBeam_rows blockOf r r' :
  addBlockPerBeam blockOf r = inr r' ->
  mSeqSlotIdx r' = mSeqSlotIdx r /\ mNumTokens r' = mNumTokens r
  /\ mBeamWidth r' = mBeamWidth r
  /\ mNumPrepopulatedTokens r' = mNumPrepopulatedTokens r
  /\ length (mCacheBlockIds r') = length (mCacheBlockIds r)
  /\ forall k ids, mCacheBlockIds r !! k = Some ids ->
       mCacheBlockIds r' !! k
       = Some (if decide (Z.of_nat k < mBeamWidth r) then ids ++ [blockOf (Z.of_nat k)]
               else ids).
Proof.
  unfold addBlockPerBeam, forRange. intros H.
  destruct (forFrom _ _ _ _ _) as [res []] eqn:E. cbn in H. subst res.
  apply (forFrom_invariant
           (fun j sq (_ : unit) =>
              0 <= j
              /\ mSeqSlotIdx sq = mSeqSlotIdx r /\ mNumTokens sq = mNumTokens r
              /\ mBeamWidth sq = mBeamWidth r
              /\ mNumPrepopulatedTokens sq = mNumPrepopulatedTokens r
              /\ length (mCacheBlockIds sq) = length (mCacheBlockIds r)
              /\ forall k ids, mCacheBlockIds r !! k = Some ids ->
                   mCacheBlockIds sq !! k
                   = Some (if decide (Z.of_nat k < j) then ids ++ [blockOf (Z.of_nat k)]
                           else ids))) in E.
  - destruct E as (Hj & H1 & H2 & H3 & H4 & H5 & H6). split_and!; try done.
    intros k ids Hk. rewrite (H6 k ids Hk).
    apply lookup_lt_Some in Hk.
    destruct (decide (mBeamWidth r < 0)).
    + rewrite Z2Nat.nonpos in * by lia. rewrite !decide_False by lia. done.
    + rewrite Z.add_0_l, Z2Nat.id by lia. done.
  - intros j sq [] a [] (Hj & H1 & H2 & H3 & H4 & H5 & H6) Hbody.
    unfold addCacheBlock in Hbody.
    case_bool_decide; [|discriminate].
    destruct (mCacheBlockIds sq !! Z.to_nat j) as [row|] eqn:Hrow; [|discriminate].
    cbn in Hbody. injection Hbody as <-. cbn.
    rewrite length_insert. split_and!; try done; [lia|].
    intros k ids Hk. destruct (decide (k = Z.to_nat j)) as [->|Hne].
    + rewrite list_lookup_insert_eq by (by apply lookup_lt_Some in Hrow).
      rewrite (H6 _ _ Hk) in Hrow. rewrite decide_False in Hrow by lia.
      injection Hrow as <-. rewrite decide_True by lia. by rewrite Z2Nat.id.
    + rewrite list_lookup_insert_ne by done. rewrite (H6 _ _ Hk).
      destruct (decide (Z.of_nat k < j)), (decide (Z.of_nat k < j + 1)); try done; lia.
  - split_and!; try done. intros k ids Hk. rewrite decide_False by lia. done.
Qed.

(** X17. [removeLastBlock] undoes the attachment of one block to every
    beam: on a request with one row per beam, [addCacheBlock] for the beams
    in turn followed by [removeLastBlock] gives the request back. *)
Theorem removeLastBlock_undoes_addBlockPerBeam blockOf r r' :
  Z.of_nat (length (mCacheBlockIds r)) = mBeamWidth r ->
  addBlockPerBeam blockOf r = inr r' ->
  removeLastBlock r' = inr r.
Proof.
  intros Hrows H. apply addBlockPerBeam_rows in H as (H1 & H2 & H3 & H4 & H5 & H6).
  assert (forall k ids, mCacheBlockIds r !! k = Some ids ->
            mCacheBlockIds r' !! k = Some (ids ++ [blockOf (Z.of_nat k)])) as Hsnoc.
  { intros k ids Hk. rewrite (H6 _ _ Hk). apply lookup_lt_Some in Hk.
    by rewrite decide_True by lia. }
  unfold removeLastBlock.
  assert (forallb (fun ids => negb (bool_decide (ids = []))) (mCacheBlockIds r') = true) as ->.
  { apply forallb_forall. intros row Hin. apply list_elem_of_In, list_elem_of_lookup in Hin.
    destruct Hin as [k Hk].
    destruct (mCacheBlockIds r !! k) as [ids|] eqn:E.
    - rewrite (Hsnoc _ _ E) in Hk. injection Hk as <-.
      rewrite bool_decide_eq_false_2; [done|]. by destruct ids.
    - apply lookup_lt_Some in Hk. apply lookup_ge_None in E. lia. }
  f_equal. destruct r, r'; cbn in *. subst. unfold withCacheBlockIds. cbn. f_equal.
  apply list_eq. intros k. change (map (@removelast Z)) with (fmap (M:=list) (@removelast Z)).
  rewrite list_lookup_fmap.
  destruct (mCacheBlockIds0 !! k) as [ids|] eqn:E.
  - rewrite (Hsnoc _ _ E). cbn. by rewrite removelast_last.
  - apply lookup_ge_None in E.
    rewrite (proj2 (lookup_ge_None mCacheBlockIds1 k)) by lia. done.
Qed.

(** X18. [removeTokens] undoes [addNewTokens]: on a request with a token
    count that is not negative, adding [n] tokens and removing them again,
    without overflow of the count, gives the request back. *)
Theorem removeTokens_undoes_addNewTokens n r :
  0 <= mNumTokens r -> isInt32 (mNumTokens r) -> isInt32 (mNumTokens r + n) ->
  removeTokens n (addNewTokens n r) = inr r.
Proof.
  unfold isInt32, removeTokens, addNewTokens. intros H0 Ht Hn. destruct r; cbn in *.
  assert (wrap_int32 (mNumTokens0 + n) = mNumTokens0 + n) as ->.
  { unfold wrap_int32. Z.div_mod_to_equations. lia. }
  replace (mNumTokens0 + n - n) with mNumTokens0 by lia.
  assert (wrap_int32 mNumTokens0 = mNumTokens0) as ->.
  { unfold wrap_int32. Z.div_mod_to_equations. lia. }
  rewrite !bool_decide_eq_true_2 by lia. done.
Qed.

End Requests.

Section RequestRuns.
Import KvCache.

(** [1, 2, 3] against [1, 2, 4]. *)
Lemma hash_distinguishes_last_token_witness :
  TokenHash.hash ([1; 2] ++ [3]) <> TokenHash.hash ([1; 2] ++ [4]).
Proof.
  apply (hash_distinguishes_last_token [1; 2] 3 4).
  - unfold isInt32. lia.
  - unfold isInt32. lia.
  - discriminate.
Defined.

(** On the example: two rows for the two beams. *)
Lemma request_keeps_one_row_per_beam_witness :
  Z.of_nat (length (mCacheBlockIds rqRequest)) = 2
  /\ mBeamWidth rqRequest = 2 /\ mSeqSlotIdx rqRequest = 0%nat.
Proof.
  apply (request_keeps_one_row_per_beam 0%nat 4 2 rqOps
           (mkRequest 0 4 2 [[]; []] []) rqRequest).
  - reflexivity.
  - vm_compute. reflexivity.
Defined.

(** On a new request of two beams that gets blocks 7 and 8. *)
Lemma removeLastBlock_undoes_addBlockPerBeam_witness :
  removeLastBlock (mkRequest 0 4 2 [[7]; [8]] []) = inr (mkRequest 0 4 2 [[]; []] []).
Proof.
  apply (removeLastBlock_undoes_addBlockPerBeam (fun beamIdx => 7 + beamIdx)
           (mkRequest 0 4 2 [[]; []] []) (mkRequest 0 4 2 [[7]; [8]] [])).
  - reflexivity.
  - vm_compute. reflexivity.
Defined.

(** Four tokens, three more, three fewer. *)
Lemma removeTokens_undoes_addNewTokens_witness :
  removeTokens 3 (addNewTokens 3 (mkRequest 0 4 2 [[]; []] [])) = inr (mkRequest 0 4 2 [[]; []] []).
Proof.
  apply (removeTokens_undoes_addNewTokens 3 (mkRequest 0 4 2 [[]; []] [])).
  - cbn. lia.
  - unfold isInt32. cbn. lia.
  - unfold isInt32. cbn. lia.
Defined.

End RequestRuns.

(** ** MixtureOfExpertsPlugin: the numbering of the inputs *)

Section PluginInputs.
Import MoePlugin.
Context {ActivationType : Type}.
Variable isGatedActivation : ActivationType -> bool.

(** X19. The inputs the plugin takes are numbered 0, 1, 2, ... in the
    order of their index functions, without gap or repetition, and
    [getNbInputs] is their number, unless the scales of the weight-only
    integer quantisation and those of the DeepSeek FP8 weights are both asked
    for: the two kinds of scales start from the same index. *)
Theorem used_inputs_are_numbered_consecutively (p : MixtureOfExpertsPlugin ActivationType) :
  usedInputIndices isGatedActivation p = seqZ 0 (getNbInputs isGatedActivation p)
  <-> ~ bothScales p.
Proof.
  unfold bothScales, usedInputIndices, inputTensors, getNbInputs, getInputDummyTensorIndex,
    getHostContextLengthIndex, getHostRequestTypeIndex, getLoraGatedRanksIndex,
    getLoraGatedWeightPtrsIndex, getLoraFC2RanksIndex, getLoraFC2WeightPtrsIndex,
    getLoraFC1RanksIndex, getLoraFC1WeightPtrsIndex, getInputFP8DequantIndex,
    getExpertFP8QuantFinalIndex, getExpertFP8Dequant2Index, getExpertFP8Quant2Index,
    getExpertFP8Dequant1Index, getExpertIntQuantScale2Index, getExpertIntQuantScale1Index,
    getExpertDeepseekScale2Index, getExpertDeepseekScale1Index, getFinishedTensorIndex,
    getExpertBias2Index, getExpertBias1Index, hasGatedLoraWeightsAndRanks, useSideStream,
    hasExpertFp8FinalQuantScales, hasExpertFp8QuantScales, hasExpertIntQuantScales,
    useDeepSeekWithNativeFp8Weights, hasLora, hasFinishedTensor, hasBias.
  destruct p as [act out [int4 int8 fp8] fin bias side ds dsn lora pad].
  cbn [mActivationType mOutputType mQuantMode mUseFinished mUseBias mSideStreamId
       mUseDeepSeekWithNativeFp8Weights mUseLora mRemoveInputPadding
       hasInt4Weights hasInt8Weights hasFp8Qdq].
  destruct (isGatedActivation act), (bool_decide (out = kFP8)), (bool_decide (side > 0)),
    int4, int8, fp8, fin, bias, dsn, lora, pad.
  all: vm_compute.
  all: split;
    [ intros Heq [Ha Hb]; try discriminate Ha; try discriminate Hb; discriminate Heq
    | intros Hn; first [reflexivity | exfalso; apply Hn; split; reflexivity] ].
Qed.

End PluginInputs.

Section PluginRuns.
Import MoePlugin.

(** On the example with the scales of the integer quantisation only, the
    21 inputs are numbered 0 to 20; with those of the DeepSeek weights as
    well, the indices 6 and 7 are handed out twice. *)
Lemma used_inputs_of_the_example :
  usedInputIndices id (moePlugin true false) = seqZ 0 21
  /\ getNbInputs id (moePlugin true false) = 21
  /\ usedInputIndices id (moePlugin true true)
     = seqZ 0 8 ++ seqZ 6 15
  /\ getNbInputs id (moePlugin true true) = 21.
Proof. split_and!; vm_compute; reflexivity. Qed.

End PluginRuns.
